(** * Particle collection for load-balanced AMR: Par_LB_CollectParticle2OneLevel

    A shallow embedding of
    [src/Particle/LoadBalance/Par_LB_CollectParticle2OneLevel.cpp]
    (functions [Par_LB_CollectParticle2OneLevel] and
    [Par_LB_CollectParticle2OneLevel_FreeMemory]) together with the
    properties its specification states about them.

    Conventions of the embedding.
    - A C [int] or [long] is a [Z].  Signed overflow is undefined behaviour in
      C++; the model covers the executions that stay in range.  In
      particular [1 << k] on a 32-bit [int] is in range for 0 <= k <= 30
      only: a theorem that rests on the value of a key computed with that
      shift assumes as much of the levels.
    - [new T[n]] with a negative [n] throws in C++; the model allocates an
      empty array there, and covers the executions whose sizes are not
      negative: a theorem that has step 1 run to its end assumes that no
      particle count is negative, or that the diagnostic build has checked
      as much.
    - A [real] or [double] is a rational number: the code under study only
      copies and compares such values (position prediction is a parameter).
    - An array is a list.  A read outside the array is undefined behaviour in
      C++; the model reads a default value there, and a write outside the
      array changes nothing.  A NULL pointer is [None].
    - [Aux_Error] terminates the run: a function that may call it returns a
      [result], whose [Aux_Error] case records the message and the state of
      the patches at the moment of the call.
    - The macro [DEBUG_PARTICLE] is a boolean: [true] is the diagnostic
      build. *)

From Stdlib Require Import ZArith QArith Lia String.
From stdpp Require Import base list.

Local Open Scope Z_scope.

(** ** Numeric types and array access *)

Definition real := Q.

(** [a < b] on floating-point values. *)
Definition real_lt (a b : real) : bool := negb (Qle_bool b a).

(** [a >= b] on floating-point values. *)
Definition real_ge (a b : real) : bool := Qle_bool b a.

(** [a[i]] for an [int] index [i]. *)
Definition zget {A} (d : A) (a : list A) (i : Z) : A :=
  if i <? 0 then d else default d (a !! Z.to_nat i).

(** [a[i] = f(a[i])] for an [int] index [i]. *)
Definition zalter {A} (f : A -> A) (i : Z) (a : list A) : list A :=
  if i <? 0 then a else alter f (Z.to_nat i) a.

(** [a[i] = x] for an [int] index [i]. *)
Definition zset {A} (i : Z) (x : A) (a : list A) : list A :=
  zalter (fun _ => x) i a.

(** [a[i]] for a loop index [i]. *)
Definition nget {A} (d : A) (a : list A) (i : nat) : A := default d (a !! i).

(** The sum of an [int] array. *)
Definition sumZ (l : list Z) : Z := foldr Z.add 0 l.

(** ** The data model *)

(** Number of particle attributes held in the shadow copy: mass and position. *)
Definition NParVar : nat := 4.

(** Modelled from the spec: the four attribute slots, which the file checks to
    be below [NParVar] with its [#error] guard; their definition (Macro.h) is
    not part of the sources at hand. *)
Definition PAR_MASS : nat := 0.
Definition PAR_POSX : nat := 1.
Definition PAR_POSY : nat := 2.
Definition PAR_POSZ : nat := 3.

(** The fields of [patch_t] that the two functions read or write. *)
Record patch_t : Type := mk_patch {
  corner : list Z;                           (* corner[3] *)
  LB_Idx : Z;                                (* load-balance key of the patch *)
  son : Z;                                   (* -1 for a leaf *)
  NPar : Z;                                  (* resident particles *)
  ParList : list Z;                          (* their identifiers *)
  NPar_Copy : Z;                             (* -1 : not calculated yet *)
  ParMassPos_Copy : list (option (list real)); (* ParMassPos_Copy[4] *)
  EdgeL : list real;                         (* EdgeL[3] *)
  EdgeR : list real                          (* EdgeR[3] *)
}.

Definition set_NPar_Copy (n : Z) (p : patch_t) : patch_t :=
  mk_patch (corner p) (LB_Idx p) (son p) (NPar p) (ParList p) n
           (ParMassPos_Copy p) (EdgeL p) (EdgeR p).

Definition set_ParMassPos_Copy (a : list (option (list real))) (p : patch_t) : patch_t :=
  mk_patch (corner p) (LB_Idx p) (son p) (NPar p) (ParList p) (NPar_Copy p)
           a (EdgeL p) (EdgeR p).

(** The fields of [amr->Par] in use. *)
Record Particle_t : Type := mk_Par {
  ParVar : list (list real);                 (* ParVar[v][ParID] *)
  Time : list real;                          (* Time[ParID] *)
  Integ_KDK : bool;                          (* Integ == PAR_INTEG_KDK *)
  NPar_Lv : list Z;                          (* NPar_Lv[lv] *)
  R2B_Buff_NPatchTotal : list (list Z);      (* [lv][0 or 1] *)
  R2B_Buff_PIDList : list (list (list Z));   (* [lv][0 or 1][p] *)
  R2B_Buff_NPatchEachRank : list (list (list Z));
  R2B_Real_NPatchTotal : list (list Z);
  R2B_Real_PIDList : list (list (list Z));
  R2B_Real_NPatchEachRank : list (list (list Z))
}.

(** The fields of [amr] (and [amr->LB]) in use, as one rank holds them. *)
Record AMR_t : Type := mk_AMR {
  patch : list (list patch_t);               (* patch[0][lv][PID] *)
  NPatchComma : list nat;                    (* NPatchComma[lv][1]: real patches *)
  num : list nat;                            (* num[lv]: real and buffer patches *)
  scale : list Z;                            (* scale[lv] *)
  IdxList_Real : list (list Z);              (* LB->IdxList_Real[lv] *)
  IdxList_Real_IdxTable : list (list Z);     (* LB->IdxList_Real_IdxTable[lv] *)
  Par : Particle_t
}.

Definition set_patch (ps : list (list patch_t)) (amr : AMR_t) : AMR_t :=
  mk_AMR ps (NPatchComma amr) (num amr) (scale amr) (IdxList_Real amr)
         (IdxList_Real_IdxTable amr) (Par amr).

(** [amr->patch[0][lv][PID]], when the patch exists. *)
Definition get_patch (amr : AMR_t) (lv PID : nat) : option patch_t :=
  patch amr !! lv ≫= (.!! PID).

(** A patch to read from when the index is out of range. *)
Definition no_patch : patch_t := mk_patch [] 0 (-1) 0 [] (-1) [] [] [].

Definition the_patch (amr : AMR_t) (lv PID : nat) : patch_t :=
  default no_patch (get_patch amr lv PID).

(** An assignment to fields of [amr->patch[0][lv][PID]]. *)
Definition upd_patch (lv PID : nat) (f : patch_t -> patch_t) (amr : AMR_t) : AMR_t :=
  set_patch (alter (alter f PID) lv (patch amr)) amr.

(** The same for a patch index held in an [int]. *)
Definition zupd_patch (lv : nat) (PID : Z) (f : patch_t -> patch_t) (amr : AMR_t) : AMR_t :=
  if PID <? 0 then amr else upd_patch lv (Z.to_nat PID) f amr.

Definition zthe_patch (amr : AMR_t) (lv : nat) (PID : Z) : patch_t :=
  if PID <? 0 then no_patch else the_patch amr lv (Z.to_nat PID).

(** The entries [[lv][k]] of the real-to-buffer tables of [amr->Par]. *)
Definition R2B {A} (d : A) (tab : list (list A)) (lv k : nat) : A :=
  nget d (nget [] tab lv) k.

(** [amr->NPatchComma[lv][1]] *)
Definition NReal (amr : AMR_t) (lv : nat) : nat := nget 0%nat (NPatchComma amr) lv.

(** ** Control: loops and fatal errors *)

Inductive result (A : Type) : Type :=
| Ok (a : A)
| Aux_Error (msg : string) (amr : AMR_t).
Arguments Ok {A} a.
Arguments Aux_Error {A} msg amr.

Definition bind {A B} (m : result A) (k : A -> result B) : result B :=
  match m with
  | Ok a => k a
  | Aux_Error msg amr => Aux_Error msg amr
  end.

Notation "x <- m ;; k" := (bind m (fun x => k))
  (at level 100, m at next level, right associativity).

(** [for (i = lo; i < lo+n; i++) body] *)
Definition for_loop {St} (lo n : nat) (body : nat -> St -> St) (s : St) : St :=
  foldl (fun s i => body i s) s (seq lo n).

(** The same for a body that may call [Aux_Error]. *)
Fixpoint for_each {St} (idx : list nat) (body : nat -> St -> result St) (s : St) : result St :=
  match idx with
  | [] => Ok s
  | i :: idx' => s' <- body i s ;; for_each idx' body s'
  end.

Definition for_loopE {St} (lo n : nat) (body : nat -> St -> result St) (s : St) : result St :=
  for_each (seq lo n) body s.

(** ** Par_LB_CollectParticle2OneLevel_FreeMemory *)

(** [if (ParMassPos_Copy[v] != NULL) { delete [] ...; ParMassPos_Copy[v] = NULL; }] *)
Definition free_var (v : nat) (p : patch_t) : patch_t :=
  match ParMassPos_Copy p !! v with
  | Some (Some _) => set_ParMassPos_Copy (<[v := None]> (ParMassPos_Copy p)) p
  | _ => p
  end.

(** The body of each of the three loops over patches. *)
Definition free_patch (p : patch_t) : patch_t :=
  set_NPar_Copy (-1) (for_loop 0 NParVar free_var p).

(** [ParMassPos_Copy[v] != NULL] *)
Definition not_null (p : patch_t) (v : nat) : bool :=
  match ParMassPos_Copy p !! v with
  | Some (Some _) => true
  | _ => false
  end.

(** Steps 1 to 3: real patches at lv, sibling-buffer patches at lv,
    father-sibling-buffer patches at lv-1. *)
Definition FreeMemory_release (lv : nat) (SibBufPatch FaSibBufPatch : bool)
    (amr : AMR_t) : AMR_t :=
  let amr1 := for_loop 0 (NReal amr lv) (fun PID a => upd_patch lv PID free_patch a) amr in
  let amr2 :=
    if SibBufPatch
    then for_loop 0 (Z.to_nat (R2B 0 (R2B_Buff_NPatchTotal (Par amr1)) lv 0))
           (fun p a =>
              let PID := nget 0 (R2B [] (R2B_Buff_PIDList (Par a)) lv 0) p in
              zupd_patch lv PID free_patch a) amr1
    else amr1 in
  let FaLv := (lv - 1)%nat in
  if FaSibBufPatch && (1 <=? lv)%nat
  then for_loop 0 (Z.to_nat (R2B 0 (R2B_Buff_NPatchTotal (Par amr2)) lv 1))
         (fun p a =>
            let FaPID := nget 0 (R2B [] (R2B_Buff_PIDList (Par a)) lv 1) p in
            zupd_patch FaLv FaPID free_patch a) amr2
  else amr2.

(** The check over one level: all real and buffer patches. *)
Definition FreeMemory_check_level (TLv : nat) (amr : AMR_t) : result AMR_t :=
  for_loopE 0 (nget 0%nat (num amr) TLv)
    (fun PID a =>
       _ <- for_loopE 0 NParVar
              (fun v a' =>
                 if not_null (the_patch a' TLv PID) v
                 then Aux_Error "ParMassPos_Copy != NULL" a'
                 else Ok a') a ;;
       if negb (NPar_Copy (the_patch a TLv PID) =? -1)
       then Aux_Error "NPar_Copy != -1" a
       else Ok a) amr.

Section FreeMemory.

Variable DEBUG_PARTICLE : bool.

(** [for (int TLv=lv; (TLv>=lv-1 && TLv>=0); TLv--)] *)
Definition FreeMemory_check (lv : nat) (amr : AMR_t) : result AMR_t :=
  a <- FreeMemory_check_level lv amr ;;
  if (0 <? lv)%nat then FreeMemory_check_level (lv - 1) a else Ok a.

Definition Par_LB_CollectParticle2OneLevel_FreeMemory (lv : nat)
    (SibBufPatch FaSibBufPatch : bool) (amr : AMR_t) : result AMR_t :=
  let amr' := FreeMemory_release lv SibBufPatch FaSibBufPatch amr in
  if DEBUG_PARTICLE then FreeMemory_check lv amr' else Ok amr'.

End FreeMemory.

(** ** Collaborators of Par_LB_CollectParticle2OneLevel *)

(** The send buffers of step 1, as handed to [Par_LB_SendParticleData]. *)
Record SendBuf_t : Type := mk_SendBuf {
  SendBuf_NPatchEachRank : list Z;
  SendBuf_NParEachPatch : list Z;
  SendBuf_LBIdxEachPatch : list Z;
  SendBuf_ParDataEachPatch : list real
}.

(** The receive buffers it allocates, and the two totals it returns. *)
Record RecvBuf_t : Type := mk_RecvBuf {
  RecvBuf_NPatchEachRank : list Z;
  RecvBuf_NParEachPatch : list Z;
  RecvBuf_LBIdxEachPatch : list Z;
  RecvBuf_ParDataEachPatch : list real;
  NRecvPatchTotal : nat;
  NRecvParTotal : Z
}.

(** Modelled from the spec: [Mis_Heapsort( N, Array, IdxTable )], a sorting
    primitive that is not part of the sources at hand.  It sorts the first
    [N] keys in ascending order and returns, with them, the table of the
    positions the keys had before.  The order among equal keys is not
    constrained by the spec; this model keeps the earlier one first. *)
Fixpoint insert_key (x : Z * Z) (l : list (Z * Z)) : list (Z * Z) :=
  match l with
  | [] => [x]
  | y :: l' => if x.1 <=? y.1 then x :: l else y :: insert_key x l'
  end.

Definition Mis_Heapsort (N : nat) (Array : list Z) : list Z * list Z :=
  let s := foldr insert_key [] (zip (take N Array) (Z.of_nat <$> seq 0 N)) in
  (s.*1, s.*2).

(** Modelled from the spec: [Mis_Matching_int( N, Array, M, Key, Match )], a
    matching primitive that is not part of the sources at hand.  For each of
    the [M] keys it gives a position of [Array] that holds the key, or [-1]
    when there is none. *)
Fixpoint find_index (k : Z) (a : list Z) (i : Z) : Z :=
  match a with
  | [] => -1
  | x :: a' => if x =? k then i else find_index k a' (i + 1)
  end.

Definition Mis_Matching_int (N : nat) (Array : list Z) (M : nat) (Key : list Z) : list Z :=
  (fun k => find_index k (take N Array) 0) <$> take M Key.

Arguments Mis_Heapsort : simpl never.
Arguments Mis_Matching_int : simpl never.

(** [amr->Par->Mass[ParID]] and the like: [Mass] is [ParVar[PAR_MASS]]. *)
Definition Par_attr (amr : AMR_t) (v : nat) (ParID : Z) : real :=
  zget 0%Q (nget [] (ParVar (Par amr)) v) ParID.

(** [1 << k] on [int].  The shift is defined in C++ for 0 <= k <= 30; the
    model gives 2^k for every k >= 0, and stands for the code in that range
    only. *)
Definition int_shl1 (k : Z) : Z := Z.shiftl 1 k.

(** [ParMassPos_Copy[v][p]] of a patch. *)
Definition shadow (q : patch_t) (v : nat) (p : Z) : real :=
  zget 0%Q (default [] (nget None (ParMassPos_Copy q) v)) p.

(** [ParMassPos_Copy[v][p] = x] *)
Definition write_shadow (v : nat) (p : Z) (x : real) (q : patch_t) : patch_t :=
  set_ParMassPos_Copy (alter (fmap (zset p x)) v (ParMassPos_Copy q)) q.

(** [ParMassPos_Copy[v] = new real [n]], for n >= 0. *)
Definition alloc_shadow (n : Z) (v : nat) (q : patch_t) : patch_t :=
  set_ParMassPos_Copy (<[v := Some (replicate (Z.to_nat n) 0%Q)]> (ParMassPos_Copy q)) q.

(** ** Par_LB_CollectParticle2OneLevel *)

Section Collect.

Variable DEBUG_PARTICLE : bool.
(** [LOAD_BALANCE == HILBERT] *)
Variable HILBERT : bool.
Variable MAX_LEVEL : nat.
Variable MPI_NRank : nat.
Variable MPI_Rank : nat.
Variable PS1 : Z.

(** Functions of the repository that the file calls and does not define.
    [CHECK_ON] arguments are left out. *)
Variable LB_Corner2Index : nat -> list Z -> Z.
Variable LB_Index2Rank : nat -> Z -> Z.
(** [Par_PredictPos( 1, &ParID, x, y, z, TargetTime )] on one particle. *)
Variable Par_PredictPos : AMR_t -> Z -> real * real * real -> real -> real * real * real.
Variable Par_LB_CollectParticleFromRealPatch :
  nat -> Z -> list Z -> list Z -> Z -> list Z -> list Z -> bool -> real -> AMR_t -> AMR_t.
(** The exchange as this rank sees it: what it receives for what it sends. *)
Variable Par_LB_SendParticleData : nat -> SendBuf_t -> bool -> RecvBuf_t.
(** [MPI_Reduce( .., MPI_SUM, 0, .. )] as this rank sees it: the sum over all
    ranks for this rank's term, for the first and the second call of step 5. *)
Variable MPI_Reduce_SUM : nat -> Z -> Z.

(** A check of the diagnostic build. *)
Definition check {A} (bad : bool) (msg : string) (amr : AMR_t) (k : result A) : result A :=
  if DEBUG_PARTICLE && bad then Aux_Error msg amr else k.

(** The key at FaLv of the patch (lv, PID), lines 170-176 and 226-232. *)
Definition Father_LB_Idx (amr : AMR_t) (FaLv lv PID : nat) : Z :=
  let p := the_patch amr lv PID in
  if HILBERT
  then Z.quot (LB_Idx p) (int_shl1 (3 * (Z.of_nat lv - Z.of_nat FaLv)))
  else
    let PatchScaleFaLv := PS1 * nget 0 (scale amr) FaLv in
    let FaCr := (fun d => nget 0 (corner p) d - Z.rem (nget 0 (corner p) d) PatchScaleFaLv)
                  <$> seq 0 3 in
    LB_Corner2Index FaLv FaCr.

(** [for (int lv=FaLv+1; lv<=MAX_LEVEL; lv++)
     for (int PID=0; PID<amr->NPatchComma[lv][1]; PID++)] *)
Definition for_finer {St} (amr : AMR_t) (FaLv : nat)
    (body : nat -> nat -> St -> result St) (s : St) : result St :=
  for_loopE (FaLv + 1) (MAX_LEVEL - FaLv)
    (fun lv s' => for_loopE 0 (NReal amr lv) (body lv) s') s.

(** Step 1-1; the state is (NParForEachRank, NPatchForEachRank). *)
Definition count_body (amr : AMR_t) (FaLv lv PID : nat) (st : list Z * list Z)
    : result (list Z * list Z) :=
  let p := the_patch amr lv PID in
  if NPar p =? 0 then Ok st else
  check (negb (son p =? -1)) "non-leaf patch has particles" amr
 (check (NPar p <? 0) "NPar < 0" amr
   (let TRank := LB_Index2Rank FaLv (Father_LB_Idx amr FaLv lv PID) in
    Ok (zalter (fun n => n + NPar p) TRank st.1, zalter (fun n => n + 1) TRank st.2))).

(** Step 1-2: (NSendPatchTotal, NSendParTotal). *)
Definition send_totals (NParForEachRank NPatchForEachRank : list Z) : Z * Z :=
  for_loop 0 MPI_NRank
    (fun r tot => (tot.1 + nget 0 NPatchForEachRank r, tot.2 + nget 0 NParForEachRank r))
    (0, 0).

(** Step 1-3: (Offset_NParEachPatch, Offset_ParDataEachPatch). *)
Definition send_offsets (NParForEachRank NPatchForEachRank : list Z) : list Z * list Z :=
  for_loop 1 (MPI_NRank - 1)
    (fun r off =>
       (<[r := nget 0 off.1 (r - 1) + nget 0 NPatchForEachRank (r - 1)]> off.1,
        <[r := nget 0 off.2 (r - 1) + nget 0 NParForEachRank (r - 1) * Z.of_nat NParVar]> off.2))
    (<[0%nat := 0]> (replicate MPI_NRank 0), <[0%nat := 0]> (replicate MPI_NRank 0)).

(** The local variables of step 1-4. *)
Record fill_t : Type := mk_fill {
  f_NParEachPatch : list Z;
  f_LBIdxEachPatch : list Z;
  f_ParDataEachPatch : list real;
  Offset_NParEachPatch : list Z;
  Offset_ParDataEachPatch : list Z
}.

(** Step 1-4, one particle; the state is
    (SendBuf_ParDataEachPatch, Offset_ParDataEachPatch). *)
Definition fill_particle (amr : AMR_t) (PredictPos : bool) (TargetTime : real)
    (lv PID : nat) (TRank : Z) (p : nat) (st : list real * list Z)
    : result (list real * list Z) :=
  let ParID := nget 0 (ParList (the_patch amr lv PID)) p in
  let off := zget 0 st.2 TRank in
  let b1 := zset (off + Z.of_nat PAR_MASS) (Par_attr amr PAR_MASS ParID) st.1 in
  let b2 := zset (off + Z.of_nat PAR_POSX) (Par_attr amr PAR_POSX ParID) b1 in
  let b3 := zset (off + Z.of_nat PAR_POSY) (Par_attr amr PAR_POSY ParID) b2 in
  let b4 := zset (off + Z.of_nat PAR_POSZ) (Par_attr amr PAR_POSZ ParID) b3 in
  b5 <- (if PredictPos
         then check (real_lt (zget 0%Q (Time (Par amr)) ParID) 0%Q) "ParTime < 0.0" amr
                (let xyz := Par_PredictPos amr ParID
                              (zget 0%Q b4 (off + Z.of_nat PAR_POSX),
                               zget 0%Q b4 (off + Z.of_nat PAR_POSY),
                               zget 0%Q b4 (off + Z.of_nat PAR_POSZ)) TargetTime in
                 Ok (zset (off + Z.of_nat PAR_POSZ) xyz.2
                       (zset (off + Z.of_nat PAR_POSY) xyz.1.2
                          (zset (off + Z.of_nat PAR_POSX) xyz.1.1 b4))))
         else Ok b4) ;;
  Ok (b5, zalter (fun o => o + Z.of_nat NParVar) TRank st.2).

(** Step 1-4, one patch. *)
Definition fill_body (amr : AMR_t) (FaLv : nat) (PredictPos : bool) (TargetTime : real)
    (JustCountNPar : bool) (NSendPatchTotal NSendParTotal : Z)
    (lv PID : nat) (st : fill_t) : result fill_t :=
  let NParThisPatch := NPar (the_patch amr lv PID) in
  if NParThisPatch =? 0 then Ok st else
  let LB_Idx := Father_LB_Idx amr FaLv lv PID in
  let TRank := LB_Index2Rank FaLv LB_Idx in
  let off := zget 0 (Offset_NParEachPatch st) TRank in
  check (NSendPatchTotal <=? off) "Offset_NParEachPatch >= max" amr
 (check (NSendParTotal * Z.of_nat NParVar <=? off + Z.of_nat PAR_POSZ)
        "Offset_NParEachPatch + PAR_POSZ >= max" amr
   (pd <- (if JustCountNPar
           then Ok (f_ParDataEachPatch st, Offset_ParDataEachPatch st)
           else for_loopE 0 (Z.to_nat NParThisPatch)
                  (fill_particle amr PredictPos TargetTime lv PID TRank)
                  (f_ParDataEachPatch st, Offset_ParDataEachPatch st)) ;;
    Ok (mk_fill (zset off NParThisPatch (f_NParEachPatch st))
                (zset off LB_Idx (f_LBIdxEachPatch st))
                pd.1
                (zalter (fun o => o + 1) TRank (Offset_NParEachPatch st))
                pd.2))).

(** Step 1: the send buffers.  The three [new] of lines 193 to 196 have the
    sizes NSendPatchTotal, NSendPatchTotal and NSendParTotal*NParVar; the
    model stands for the code when these are not negative, which they are
    when no patch has a negative NPar. *)
Definition prepare_send (amr : AMR_t) (FaLv : nat) (PredictPos : bool) (TargetTime : real)
    (JustCountNPar : bool) : result SendBuf_t :=
  cnt <- for_finer amr FaLv (count_body amr FaLv)
           (replicate MPI_NRank 0, replicate MPI_NRank 0) ;;
  let NParForEachRank := cnt.1 in
  let NPatchForEachRank := cnt.2 in
  let tot := send_totals NParForEachRank NPatchForEachRank in
  let off := send_offsets NParForEachRank NPatchForEachRank in
  st <- for_finer amr FaLv
          (fill_body amr FaLv PredictPos TargetTime JustCountNPar tot.1 tot.2)
          (mk_fill (replicate (Z.to_nat tot.1) 0)
                   (replicate (Z.to_nat tot.1) 0)
                   (if JustCountNPar then []
                    else replicate (Z.to_nat (tot.2 * Z.of_nat NParVar)) 0%Q)
                   off.1 off.2) ;;
  Ok (mk_SendBuf NPatchForEachRank (f_NParEachPatch st) (f_LBIdxEachPatch st)
                 (f_ParDataEachPatch st)).

(** What the rank receives in step 2 of a call. *)
Definition received_records (amr : AMR_t) (FaLv : nat) (PredictPos : bool) (TargetTime : real)
    (JustCountNPar : bool) : RecvBuf_t :=
  Par_LB_SendParticleData NParVar
    (match prepare_send amr FaLv PredictPos TargetTime JustCountNPar with
     | Ok send => send
     | Aux_Error _ _ => mk_SendBuf [] [] [] []
     end)
    (negb JustCountNPar).

(** The checks of lines 83-88. *)
Definition check_flags (PredictPos SibBufPatch FaSibBufPatch JustCountNPar : bool)
    (amr : AMR_t) : result AMR_t :=
  if JustCountNPar
  then check PredictPos "JustCountNPar does NOT work with PredictPos" amr
      (check SibBufPatch "JustCountNPar does NOT work with SibBufPatch" amr
      (check FaSibBufPatch "JustCountNPar does NOT work with FaSibBufPatch" amr (Ok amr)))
  else Ok amr.

(** The checks of lines 90-102. *)
Definition check_uninitialized (FaLv : nat) (amr : AMR_t) : result AMR_t :=
  if DEBUG_PARTICLE
  then for_loopE 0 (NReal amr FaLv)
         (fun FaPID a =>
            if negb (NPar_Copy (the_patch a FaLv FaPID) =? -1)
            then Aux_Error "particle parameters have been initialized already" a
            else for_loopE 0 NParVar
                   (fun v a' =>
                      if not_null (the_patch a' FaLv FaPID) v
                      then Aux_Error "particle parameters have been initialized already" a'
                      else Ok a') a) amr
  else Ok amr.

(** Steps 0 and 6: the two calls for buffer patches. *)
Definition collect_buffer_patches (FaLv : nat) (PredictPos : bool) (TargetTime : real)
    (SibBufPatch FaSibBufPatch JustCountNPar : bool) (amr : AMR_t) : AMR_t :=
  let amr1 :=
    if SibBufPatch && negb JustCountNPar
    then Par_LB_CollectParticleFromRealPatch FaLv
           (R2B 0 (R2B_Buff_NPatchTotal (Par amr)) FaLv 0)
           (R2B [] (R2B_Buff_PIDList (Par amr)) FaLv 0)
           (R2B [] (R2B_Buff_NPatchEachRank (Par amr)) FaLv 0)
           (R2B 0 (R2B_Real_NPatchTotal (Par amr)) FaLv 0)
           (R2B [] (R2B_Real_PIDList (Par amr)) FaLv 0)
           (R2B [] (R2B_Real_NPatchEachRank (Par amr)) FaLv 0)
           PredictPos TargetTime amr
    else amr in
  if FaSibBufPatch && (0 <? FaLv)%nat && negb JustCountNPar
  then Par_LB_CollectParticleFromRealPatch (FaLv - 1)
         (R2B 0 (R2B_Buff_NPatchTotal (Par amr1)) FaLv 1)
         (R2B [] (R2B_Buff_PIDList (Par amr1)) FaLv 1)
         (R2B [] (R2B_Buff_NPatchEachRank (Par amr1)) FaLv 1)
         (R2B 0 (R2B_Real_NPatchTotal (Par amr1)) FaLv 1)
         (R2B [] (R2B_Real_PIDList (Par amr1)) FaLv 1)
         (R2B [] (R2B_Real_NPatchEachRank (Par amr1)) FaLv 1)
         PredictPos TargetTime amr1
  else amr1.

(** Step 3-2, first loop: NPar_Copy = NPar for the patches with a son. *)
Definition seed_body (FaLv FaPID : nat) (amr : AMR_t) : AMR_t :=
  if negb (son (the_patch amr FaLv FaPID) =? -1)
  then upd_patch FaLv FaPID (fun p => set_NPar_Copy (NPar p) p) amr
  else amr.

(** Step 3-2, the loop over the received records in sorted order; the state
    is (amr, FaPIDList). *)
Definition accumulate_body (FaLv : nat) (recv : RecvBuf_t) (sorted_LBIdx IdxTable Match : list Z)
    (t : nat) (st : AMR_t * list Z) : result (AMR_t * list Z) :=
  check (nget 0 Match t =? -1) "LBIdx found no match" st.1
 (let FaPID_Match := zget (-1) (nget [] (IdxList_Real_IdxTable st.1) FaLv) (nget 0 Match t) in
  let RecvBuf_Idx := nget 0 IdxTable t in
  check (son (zthe_patch st.1 FaLv FaPID_Match) =? -1) "SonPID == -1" st.1
    (Ok (zupd_patch FaLv FaPID_Match
           (fun p => set_NPar_Copy
                       (NPar_Copy p + zget 0 (RecvBuf_NParEachPatch recv) RecvBuf_Idx) p) st.1,
         zset RecvBuf_Idx FaPID_Match st.2))).

(** The check of lines 364-367. *)
Definition check_FaPIDList (FaLv : nat) (recv : RecvBuf_t) (st : AMR_t * list Z)
    : result (AMR_t * list Z) :=
  for_loopE 0 (NRecvPatchTotal recv)
    (fun t s =>
       check ((nget 0 s.2 t <? 0) || (Z.of_nat (NReal s.1 FaLv) <=? nget 0 s.2 t))
             "incorrect PID" s.1 (Ok s)) st.

(** Step 3-3, one patch. *)
Definition allocate_body (FaLv FaPID : nat) (amr : AMR_t) : AMR_t :=
  if 0 <? NPar_Copy (the_patch amr FaLv FaPID)
  then upd_patch FaLv FaPID (set_NPar_Copy 0)
         (for_loop 0 NParVar
            (fun v a => upd_patch FaLv FaPID
                          (fun q => alloc_shadow (NPar_Copy q) v q) a) amr)
  else amr.

(** Step 3-4, one particle of a received record; the state is (amr, RecvPtr),
    the pointer being an index of RecvBuf_ParDataEachPatch. *)
Definition store_particle (FaLv : nat) (PredictPos : bool) (recv : RecvBuf_t) (FaPID_Match : Z)
    (p : Z) (st : AMR_t * nat) : result (AMR_t * nat) :=
  _ <- for_loopE 0 NParVar
         (fun v s =>
            check (negb (not_null (zthe_patch s.1 FaLv FaPID_Match) v))
                  "particle parameters have NOT been initialized" s.1 (Ok s)) st ;;
  let st' := for_loop 0 NParVar
               (fun v s =>
                  (zupd_patch FaLv FaPID_Match
                     (write_shadow v p (nget 0%Q (RecvBuf_ParDataEachPatch recv) s.2)) s.1,
                   S s.2)) st in
  let q := zthe_patch st'.1 FaLv FaPID_Match in
  check (real_lt (shadow q PAR_MASS p) 0%Q) "found inactive particle" st'.1
 (if negb PredictPos
  then for_loopE 0 3
         (fun d s =>
            let ParPos := shadow q (PAR_POSX + d) p in
            check (real_lt ParPos (nget 0%Q (EdgeL q) d) || real_ge ParPos (nget 0%Q (EdgeR q) d))
                  "wrong home patch" s.1 (Ok s)) st'
  else Ok st').

(** Step 3-4, one received record, in the order of arrival. *)
Definition store_body (FaLv : nat) (PredictPos : bool) (recv : RecvBuf_t) (FaPIDList : list Z)
    (t : nat) (st : AMR_t * nat) : result (AMR_t * nat) :=
  let FaPID_Match := nget 0 FaPIDList t in
  let NPar_Copy_Old := NPar_Copy (zthe_patch st.1 FaLv FaPID_Match) in
  let amr1 := zupd_patch FaLv FaPID_Match
                (fun q => set_NPar_Copy (NPar_Copy q + nget 0 (RecvBuf_NParEachPatch recv) t) q)
                st.1 in
  check (nget 0 (RecvBuf_NParEachPatch recv) t <=? 0) "RecvBuf_NParEachPatch <= 0" amr1
    (for_loopE 0 (Z.to_nat (NPar_Copy (zthe_patch amr1 FaLv FaPID_Match) - NPar_Copy_Old))
       (fun i s => store_particle FaLv PredictPos recv FaPID_Match (NPar_Copy_Old + Z.of_nat i) s)
       (amr1, st.2)).

(** Step 4, one particle waiting in the patch for its velocity correction. *)
Definition merge_particle (FaLv FaPID : nat) (p : nat) (amr : AMR_t) : result AMR_t :=
  let q := the_patch amr FaLv FaPID in
  let ParID := nget 0 (ParList q) p in
  let idx := NPar_Copy q + Z.of_nat p in
  check (Integ_KDK (Par amr) && real_ge (zget 0%Q (Time (Par amr)) ParID) 0%Q)
        "This particle shouldn't be here" amr
    (Ok (upd_patch FaLv FaPID
           (fun q0 =>
              write_shadow PAR_POSZ idx (Par_attr amr PAR_POSZ ParID)
             (write_shadow PAR_POSY idx (Par_attr amr PAR_POSY ParID)
             (write_shadow PAR_POSX idx (Par_attr amr PAR_POSX ParID)
             (write_shadow PAR_MASS idx (Par_attr amr PAR_MASS ParID) q0)))) amr)).

(** Step 4, one patch. *)
Definition merge_body (FaLv FaPID : nat) (amr : AMR_t) : result AMR_t :=
  let q := the_patch amr FaLv FaPID in
  if negb (son q =? -1) && (0 <? NPar q)
  then a <- for_loopE 0 (Z.to_nat (NPar q)) (merge_particle FaLv FaPID) amr ;;
       Ok (upd_patch FaLv FaPID (fun q0 => set_NPar_Copy (NPar_Copy q0 + NPar q0) q0) a)
  else Ok amr.

(** Step 5: the count of the particles at the levels from FaLv up. *)
Definition NParLocal_Get (FaLv : nat) (amr : AMR_t) : Z :=
  for_loop 0 (NReal amr FaLv)
    (fun FaPID n =>
       n + (if son (the_patch amr FaLv FaPID) =? -1
            then NPar (the_patch amr FaLv FaPID)
            else NPar_Copy (the_patch amr FaLv FaPID))) 0.

Definition NParLocal_Check (FaLv : nat) (amr : AMR_t) : Z :=
  for_loop FaLv (MAX_LEVEL + 1 - FaLv) (fun lv n => n + nget 0 (NPar_Lv (Par amr)) lv) 0.

Definition check_total (FaLv : nat) (amr : AMR_t) : result AMR_t :=
  if DEBUG_PARTICLE
  then
    let NParAllRank_Get := MPI_Reduce_SUM 0 (NParLocal_Get FaLv amr) in
    let NParAllRank_Check := MPI_Reduce_SUM 1 (NParLocal_Check FaLv amr) in
    if (MPI_Rank =? 0)%nat && negb (NParAllRank_Get =? NParAllRank_Check)
    then Aux_Error "Total number of active particles != expected" amr
    else Ok amr
  else Ok amr.

(** Steps 3 and 4: the received records are stored in the patches at FaLv. *)
Definition store_received (FaLv : nat) (PredictPos JustCountNPar : bool) (recv : RecvBuf_t)
    (amr : AMR_t) : result AMR_t :=
  let N := NRecvPatchTotal recv in
  let sorted := Mis_Heapsort N (RecvBuf_LBIdxEachPatch recv) in
  let Match := Mis_Matching_int (NReal amr FaLv) (nget [] (IdxList_Real amr) FaLv)
                 N sorted.1 in
  let amr1 := for_loop 0 (NReal amr FaLv) (seed_body FaLv) amr in
  st2 <- for_loopE 0 N (accumulate_body FaLv recv sorted.1 sorted.2 Match)
           (amr1, replicate N (-1)) ;;
  st2' <- (if DEBUG_PARTICLE then check_FaPIDList FaLv recv st2 else Ok st2) ;;
  let amr2 := st2'.1 in
  let FaPIDList := st2'.2 in
  if JustCountNPar then Ok amr2 else
  let amr3 := for_loop 0 (NReal amr2 FaLv) (allocate_body FaLv) amr2 in
  st4 <- for_loopE 0 N (store_body FaLv PredictPos recv FaPIDList) (amr3, 0%nat) ;;
  for_loopE 0 (NReal st4.1 FaLv) (merge_body FaLv) st4.1.

Definition Par_LB_CollectParticle2OneLevel (FaLv : nat) (PredictPos : bool) (TargetTime : real)
    (SibBufPatch FaSibBufPatch JustCountNPar : bool) (amr : AMR_t) : result AMR_t :=
  if (MAX_LEVEL <? FaLv)%nat then Ok amr else
  _ <- (if DEBUG_PARTICLE
        then check_flags PredictPos SibBufPatch FaSibBufPatch JustCountNPar amr
        else Ok amr) ;;
  _ <- check_uninitialized FaLv amr ;;
  if (FaLv =? MAX_LEVEL)%nat
  then Ok (collect_buffer_patches FaLv PredictPos TargetTime
             SibBufPatch FaSibBufPatch JustCountNPar amr)
  else
    send <- prepare_send amr FaLv PredictPos TargetTime JustCountNPar ;;
    let recv := Par_LB_SendParticleData NParVar send (negb JustCountNPar) in
    amr4 <- store_received FaLv PredictPos JustCountNPar recv amr ;;
    amr5 <- check_total FaLv amr4 ;;
    Ok (collect_buffer_patches FaLv PredictPos TargetTime
          SibBufPatch FaSibBufPatch JustCountNPar amr5).

End Collect.


(** * The vocabulary of the statements *)

(** What holds of a result: [Q] of a value returned, [E] of the state in
    which [Aux_Error] was called. *)
Definition post {A} (Q : A -> Prop) (E : AMR_t -> Prop) (r : result A) : Prop :=
  match r with
  | Ok a => Q a
  | Aux_Error _ s => E s
  end.

(** The parts of the hierarchy that no update of a patch touches. *)
Definition same_env (a a' : AMR_t) : Prop :=
  NPatchComma a' = NPatchComma a /\ num a' = num a /\ scale a' = scale a /\
  IdxList_Real a' = IdxList_Real a /\
  IdxList_Real_IdxTable a' = IdxList_Real_IdxTable a /\ Par a' = Par a.

(** ** Releasing the shadow copies *)

(** [NPar_Copy == -1] and [ParMassPos_Copy[v] == NULL] for the four [v]. *)
Definition shadow_clear (p : patch_t) : bool :=
  (NPar_Copy p =? -1) && forallb (fun v => negb (not_null p v)) (seq 0 NParVar).

(** The patch indices that the loops of steps 2 and 3 visit. *)
Definition listed_PIDs (amr : AMR_t) (lv k : nat) : list Z :=
  (fun p => nget 0 (R2B [] (R2B_Buff_PIDList (Par amr)) lv k) p)
    <$> seq 0 (Z.to_nat (R2B 0 (R2B_Buff_NPatchTotal (Par amr)) lv k)).

(** The patches that a call releases: [(l, P)] is patch [P] of level [l]. *)
Definition released (lv : nat) (SibBufPatch FaSibBufPatch : bool) (amr : AMR_t)
    (l P : nat) : Prop :=
  (l = lv /\ (P < NReal amr lv)%nat) \/
  (SibBufPatch = true /\ l = lv /\ Z.of_nat P ∈ listed_PIDs amr lv 0) \/
  (FaSibBufPatch = true /\ (1 <= lv)%nat /\ l = (lv - 1)%nat /\
   Z.of_nat P ∈ listed_PIDs amr lv 1).

(** The patches that a call is to release hold no shadow copy. *)
Definition released_clear (lv : nat) (Sib FaSib : bool) (amr : AMR_t) : Prop :=
  forall l P p, released lv Sib FaSib amr l P -> get_patch amr l P = Some p ->
                shadow_clear p = true.

(** The scan of the diagnostic build: all patches of the level and of the
    level below hold no shadow copy. *)
Definition scan_clear (lv : nat) (amr : AMR_t) : Prop :=
  forall TLv PID, TLv = lv \/ ((1 <= lv)%nat /\ TLv = (lv - 1)%nat) ->
                  (PID < nget 0%nat (num amr) TLv)%nat ->
                  shadow_clear (the_patch amr TLv PID) = true.

Definition state_of (r : result AMR_t) : AMR_t :=
  match r with
  | Ok a => a
  | Aux_Error _ a => a
  end.

(** ** What the collection leaves alone *)

(** Two versions of a patch that differ in the shadow copy at most. *)
Definition same_base (p p' : patch_t) : Prop :=
  corner p' = corner p /\ LB_Idx p' = LB_Idx p /\ son p' = son p /\
  NPar p' = NPar p /\ ParList p' = ParList p /\
  EdgeL p' = EdgeL p /\ EdgeR p' = EdgeR p.

(** The state [a] comes from [amr] by changes to patches of level [lv]
    alone, and [R P p0 p] relates the patch [P] of that level before ([p0])
    and after ([p]). *)
Definition patches_rel (R : nat -> patch_t -> patch_t -> Prop) (lv : nat)
    (amr a : AMR_t) : Prop :=
  same_env amr a /\
  (forall l P, l <> lv -> get_patch a l P = get_patch amr l P) /\
  (forall P, option_Forall2 (R P) (get_patch amr lv P) (get_patch a lv P)).

(** The frame of a collection at level [FaLv]: the patches of the other
    levels are as they were, and the patches of the level differ in the
    shadow copy at most. *)
Definition frame (FaLv : nat) (amr a : AMR_t) : Prop :=
  patches_rel (fun _ => same_base) FaLv amr a.

(** What the specification asks of the collection for buffer patches, which
    is not part of the sources at hand (section 4.7): called for a level, it
    writes the shadow copy of buffer patches of that level and nothing else. *)
Definition writes_buffers_only
    (F : nat -> Z -> list Z -> list Z -> Z -> list Z -> list Z -> bool -> real ->
         AMR_t -> AMR_t) : Prop :=
  forall lv n1 l1 l2 n2 l3 l4 pp tt a,
    same_env a (F lv n1 l1 l2 n2 l3 l4 pp tt a) /\
    (forall l P, l <> lv \/ (P < NReal a lv)%nat ->
                 get_patch (F lv n1 l1 l2 n2 l3 l4 pp tt a) l P = get_patch a l P) /\
    (forall l P, option_Forall2 same_base (get_patch a l P)
                   (get_patch (F lv n1 l1 l2 n2 l3 l4 pp tt a) l P)).

(** The effect of a call on the data that is not its own: nothing but the
    shadow copies is written, and the levels above [FaLv] not at all. *)
Definition only_shadows_written (FaLv : nat) (amr amr' : AMR_t) : Prop :=
  same_env amr amr' /\
  (forall l P, option_Forall2 same_base (get_patch amr l P) (get_patch amr' l P)) /\
  (forall l P, (FaLv < l)%nat -> get_patch amr' l P = get_patch amr l P).

(** The patches of level [lv] in [a] are those of [amr] changed by [F], and
    nothing else differs. *)
Definition patches_are (F : nat -> patch_t -> patch_t) (lv : nat) (amr a : AMR_t) : Prop :=
  patches_rel (fun P p0 p => p = F P p0) lv amr a.

(** ** All ranks together *)

(** Modelled from the spec: [Par_LB_SendParticleData], the exchange primitive,
    which is not part of the sources at hand (section 4.3).  Every rank hands
    in its send buffers, grouped by destination rank; every rank gets back,
    in newly allocated buffers, what the ranks sent to it, in the order of the
    sending ranks, and the totals of the patches and particles received.  The
    particle data are exchanged only when asked for. *)
Definition sent_patch_offset (sb : SendBuf_t) (r : nat) : nat :=
  Z.to_nat (sumZ (take r (SendBuf_NPatchEachRank sb))).

Definition sent_NPatch (sb : SendBuf_t) (r : nat) : nat :=
  Z.to_nat (nget 0 (SendBuf_NPatchEachRank sb) r).

Definition sent_NParEachPatch (r : nat) (sb : SendBuf_t) : list Z :=
  take (sent_NPatch sb r) (drop (sent_patch_offset sb r) (SendBuf_NParEachPatch sb)).

Definition sent_LBIdxEachPatch (r : nat) (sb : SendBuf_t) : list Z :=
  take (sent_NPatch sb r) (drop (sent_patch_offset sb r) (SendBuf_LBIdxEachPatch sb)).

Definition sent_ParDataEachPatch (NParVar : nat) (r : nat) (sb : SendBuf_t) : list real :=
  take (Z.to_nat (sumZ (sent_NParEachPatch r sb)) * NParVar)
       (drop (Z.to_nat (sumZ (take (sent_patch_offset sb r) (SendBuf_NParEachPatch sb)))
              * NParVar)
             (SendBuf_ParDataEachPatch sb)).

Definition Par_LB_SendParticleData_AllRank (sends : list SendBuf_t) (MPI_Rank : nat)
    (NParVar : nat) (Exchange_ParDataEachRank : bool) : RecvBuf_t :=
  let NPatchEachRank := (fun sb => nget 0 (SendBuf_NPatchEachRank sb) MPI_Rank) <$> sends in
  let NParEachPatch := concat (sent_NParEachPatch MPI_Rank <$> sends) in
  mk_RecvBuf NPatchEachRank NParEachPatch
             (concat (sent_LBIdxEachPatch MPI_Rank <$> sends))
             (if Exchange_ParDataEachRank
              then concat (sent_ParDataEachPatch NParVar MPI_Rank <$> sends)
              else [])
             (Z.to_nat (sumZ NPatchEachRank))
             (sumZ NParEachPatch).

Section AllRank.

Variables DEBUG_PARTICLE HILBERT : bool.
Variable MAX_LEVEL : nat.
Variable PS1 : Z.
Variable LB_Corner2Index : nat -> list Z -> Z.
Variable LB_Index2Rank : nat -> Z -> Z.
Variable Par_PredictPos : AMR_t -> Z -> real * real * real -> real -> real * real * real.
(** The collection for buffer patches, as each rank sees it. *)
Variable Par_LB_CollectParticleFromRealPatch :
  nat -> nat -> Z -> list Z -> list Z -> Z -> list Z -> list Z -> bool -> real ->
  AMR_t -> AMR_t.

(** The arguments of a call, the same on all ranks. *)
Variable FaLv : nat.
Variable PredictPos : bool.
Variable TargetTime : real.
Variables SibBufPatch FaSibBufPatch JustCountNPar : bool.

(** The state of each rank at the call; [MPI_NRank] is their number. *)
Variable ranks : list AMR_t.

Definition empty_SendBuf : SendBuf_t := mk_SendBuf [] [] [] [].

(** What each rank hands to the exchange. *)
Definition sends_AllRank : list SendBuf_t :=
  (fun amr =>
     match prepare_send DEBUG_PARTICLE HILBERT MAX_LEVEL (length ranks) PS1 LB_Corner2Index
             LB_Index2Rank Par_PredictPos amr FaLv PredictPos TargetTime JustCountNPar with
     | Ok sb => sb
     | Aux_Error _ _ => empty_SendBuf
     end) <$> ranks.

(** What rank [r] gets from it. *)
Definition recv_AllRank (r : nat) : RecvBuf_t :=
  Par_LB_SendParticleData_AllRank sends_AllRank r NParVar (negb JustCountNPar).

(** The state of rank [r] at step 5. *)
Definition stored_AllRank (r : nat) (amr : AMR_t) : result AMR_t :=
  store_received DEBUG_PARTICLE FaLv PredictPos JustCountNPar (recv_AllRank r) amr.

(** The two sums of step 5 over all ranks. *)
Definition MPI_Reduce_SUM_AllRank (call : nat) (_ : Z) : Z :=
  sumZ (imap (fun r amr =>
                match call with
                | 0%nat => NParLocal_Get FaLv (state_of (stored_AllRank r amr))
                | _ => NParLocal_Check MAX_LEVEL FaLv (state_of (stored_AllRank r amr))
                end) ranks).

(** The call on rank [r]. *)
Definition Collect_on_rank (r : nat) (amr : AMR_t) : result AMR_t :=
  Par_LB_CollectParticle2OneLevel DEBUG_PARTICLE HILBERT MAX_LEVEL (length ranks) r PS1
    LB_Corner2Index LB_Index2Rank Par_PredictPos (Par_LB_CollectParticleFromRealPatch r)
    (fun nv _ ex => Par_LB_SendParticleData_AllRank sends_AllRank r nv ex)
    MPI_Reduce_SUM_AllRank
    FaLv PredictPos TargetTime SibBufPatch FaSibBufPatch JustCountNPar amr.

(** The call on all ranks. *)
Definition Collect_AllRank : list (result AMR_t) := imap Collect_on_rank ranks.

End AllRank.

(** ** Steps 3 and 4 on one patch *)

(** Step 3-2, first loop. *)
Definition seed_patch (p : patch_t) : patch_t :=
  if negb (son p =? -1) then set_NPar_Copy (NPar p) p else p.

(** [NPar_Copy += n] *)
Definition add_count (n : Z) (p : patch_t) : patch_t := set_NPar_Copy (NPar_Copy p + n) p.

(** Step 3-3. *)
Definition allocate_patch (p : patch_t) : patch_t :=
  if 0 <? NPar_Copy p
  then set_NPar_Copy 0 (for_loop 0 NParVar (fun v q => alloc_shadow (NPar_Copy q) v q) p)
  else p.

(** Step 3-4: the particle at [ptr] of the received data goes to entry [i]. *)
Definition store_one (data : list real) (i : Z) (ptr : nat) (q : patch_t) : patch_t :=
  for_loop 0 NParVar (fun v q' => write_shadow v i (nget 0%Q data (ptr + v)) q') q.

(** Step 3-4: a record of [n] particles, whose data start at [ptr]. *)
Definition store_patch (data : list real) (n : Z) (ptr : nat) (q : patch_t) : patch_t :=
  for_loop 0 (Z.to_nat n)
    (fun k q' => store_one data (NPar_Copy q + Z.of_nat k) (ptr + NParVar * k) q')
    (add_count n q).

(** Step 4: particle [k] of the patch's own list. *)
Definition merge_one (amr : AMR_t) (k : nat) (q : patch_t) : patch_t :=
  let ParID := nget 0 (ParList q) k in
  let idx := NPar_Copy q + Z.of_nat k in
  write_shadow PAR_POSZ idx (Par_attr amr PAR_POSZ ParID)
 (write_shadow PAR_POSY idx (Par_attr amr PAR_POSY ParID)
 (write_shadow PAR_POSX idx (Par_attr amr PAR_POSX ParID)
 (write_shadow PAR_MASS idx (Par_attr amr PAR_MASS ParID) q))).

Definition merge_patch (amr : AMR_t) (q : patch_t) : patch_t :=
  if negb (son q =? -1) && (0 <? NPar q)
  then add_count (NPar q) (for_loop 0 (Z.to_nat (NPar q)) (merge_one amr) q)
  else q.

(** ** The reconciliation as a function on each patch *)

(** The state of a rank is ready for a collection at [FaLv]: the real patches
    of the level exist, hold no shadow copy and a count of particles that is
    not negative, and the sorted key list of the level and its index table
    list the real patches by key, no two patches sharing a key. *)
Record level_ok (FaLv : nat) (amr : AMR_t) : Prop := {
  lo_real : forall P, (P < NReal amr FaLv)%nat -> is_Some (get_patch amr FaLv P);
  lo_shape : forall P p, (P < NReal amr FaLv)%nat -> get_patch amr FaLv P = Some p ->
                         length (ParMassPos_Copy p) = NParVar;
  lo_clear : forall P p, (P < NReal amr FaLv)%nat -> get_patch amr FaLv P = Some p ->
                         shadow_clear p = true;
  lo_NPar : forall P p, (P < NReal amr FaLv)%nat -> get_patch amr FaLv P = Some p ->
                        0 <= NPar p;
  lo_tab : forall j k, take (NReal amr FaLv) (nget [] (IdxList_Real amr) FaLv) !! j = Some k ->
                       exists P p, (P < NReal amr FaLv)%nat /\
                                   nget [] (IdxList_Real_IdxTable amr) FaLv !! j
                                   = Some (Z.of_nat P) /\
                                   get_patch amr FaLv P = Some p /\ LB_Idx p = k;
  lo_all : forall P p, (P < NReal amr FaLv)%nat -> get_patch amr FaLv P = Some p ->
                       LB_Idx p ∈ take (NReal amr FaLv) (nget [] (IdxList_Real amr) FaLv);
  lo_inj : forall P Q p q, (P < NReal amr FaLv)%nat -> (Q < NReal amr FaLv)%nat ->
                           get_patch amr FaLv P = Some p -> get_patch amr FaLv Q = Some q ->
                           LB_Idx p = LB_Idx q -> P = Q
}.

(** The records received belong to this rank: there is one key and one count
    of particles for each, no count is negative, and each key is the key of a
    real patch of the level that has a son. *)
Record recv_ok (FaLv : nat) (amr : AMR_t) (recv : RecvBuf_t) : Prop := {
  ro_keys : length (RecvBuf_LBIdxEachPatch recv) = NRecvPatchTotal recv;
  ro_cnts : length (RecvBuf_NParEachPatch recv) = NRecvPatchTotal recv;
  ro_owner : forall i k, RecvBuf_LBIdxEachPatch recv !! i = Some k ->
                         exists P p, (P < NReal amr FaLv)%nat /\
                                     get_patch amr FaLv P = Some p /\
                                     LB_Idx p = k /\ son p <> -1;
  ro_cnt : forall i n, RecvBuf_NParEachPatch recv !! i = Some n -> 0 <= n
}.

(** The patch that steps 3-1 and 3-2 find for a key. *)
Definition owner_of (FaLv : nat) (amr : AMR_t) (k : Z) : Z :=
  zget (-1) (nget [] (IdxList_Real_IdxTable amr) FaLv)
       (find_index k (take (NReal amr FaLv) (nget [] (IdxList_Real amr) FaLv)) 0).

(** The sum of the particle counts of the received records with key [k]. *)
Definition received_count (recv : RecvBuf_t) (k : Z) : Z :=
  sumZ ((fun i => if nget 0 (RecvBuf_LBIdxEachPatch recv) i =? k
                  then nget 0 (RecvBuf_NParEachPatch recv) i else 0)
          <$> seq 0 (NRecvPatchTotal recv)).

(** Where the particle data of the record [t] start. *)
Definition data_offset (recv : RecvBuf_t) (t : nat) : nat :=
  foldr Nat.add 0%nat
    ((fun i => NParVar * Z.to_nat (nget 0%Z (RecvBuf_NParEachPatch recv) i))%nat <$> seq 0 t).

(** The records [0 .. n-1] in turn, each changing the patch it names. *)
Definition apply_records (pid : nat -> Z) (f : nat -> patch_t -> patch_t) (n : nat)
    (P : nat) (p : patch_t) : patch_t :=
  foldl (fun q t => if decide (Z.of_nat P = pid t) then f t q else q) p (seq 0 n).

(** Step 3-2 on one patch: the records in the order of the sorted keys. *)
Definition accumulate_patch (FaLv : nat) (amr : AMR_t) (recv : RecvBuf_t) (P : nat)
    (p : patch_t) : patch_t :=
  let N := NRecvPatchTotal recv in
  let sorted := Mis_Heapsort N (RecvBuf_LBIdxEachPatch recv) in
  let Match := Mis_Matching_int (NReal amr FaLv) (nget [] (IdxList_Real amr) FaLv)
                 N sorted.1 in
  apply_records
    (fun t => zget (-1) (nget [] (IdxList_Real_IdxTable amr) FaLv) (nget 0 Match t))
    (fun t => add_count (zget 0 (RecvBuf_NParEachPatch recv) (nget 0 sorted.2 t)))
    N P p.

(** Step 3-4 on one patch: the records in the order of arrival. *)
Definition store_all_patch (FaLv : nat) (amr : AMR_t) (recv : RecvBuf_t) (P : nat)
    (p : patch_t) : patch_t :=
  apply_records
    (fun t => owner_of FaLv amr (nget 0 (RecvBuf_LBIdxEachPatch recv) t))
    (fun t => store_patch (RecvBuf_ParDataEachPatch recv)
                (nget 0 (RecvBuf_NParEachPatch recv) t) (data_offset recv t))
    (NRecvPatchTotal recv) P p.

(** Steps 3 and 4 on the patch [P] of level FaLv. *)
Definition collect_patch (FaLv : nat) (JustCountNPar : bool) (amr : AMR_t) (recv : RecvBuf_t)
    (P : nat) (p0 : patch_t) : patch_t :=
  let real := bool_decide (P < NReal amr FaLv)%nat in
  let p1 := if real then seed_patch p0 else p0 in
  let p2 := accumulate_patch FaLv amr recv P p1 in
  if JustCountNPar then p2 else
  let p3 := if real then allocate_patch p2 else p2 in
  let p4 := store_all_patch FaLv amr recv P p3 in
  if real then merge_patch amr p4 else p4.

(** ** Buffers grouped by destination rank *)

Section Groups.

Context {A : Type}.

(** The payloads of the items for rank [r], one after the other. *)
Definition payloads_to (r : nat) (items : list (nat * list A)) : list A :=
  concat (snd <$> filter (fun it => it.1 = r) items).

(** Where the group of rank [r] starts. *)
Definition group_start (items : list (nat * list A)) (r : nat) : nat :=
  length (concat ((fun r' => payloads_to r' items) <$> seq 0 r)).

(** The buffer holds, in each group, the payloads of the items written so
    far. *)
Definition groups_filled (NRank : nat) (all done : list (nat * list A)) (buf : list A) : Prop :=
  forall r j v, (r < NRank)%nat -> payloads_to r done !! j = Some v ->
                buf !! (group_start all r + j)%nat = Some v.

End Groups.

(** ** The loop over the finer patches as a loop over a list *)

Fixpoint foldE {X St} (body : X -> St -> result St) (l : list X) (s : St) : result St :=
  match l with
  | [] => Ok s
  | x :: l' => s' <- body x s ;; foldE body l' s'
  end.

(** The real patches above [FaLv], in the order of the loops of step 1. *)
Definition finer_patches (MAX_LEVEL : nat) (amr : AMR_t) (FaLv : nat) : list (nat * nat) :=
  concat ((fun lv => pair lv <$> seq 0 (NReal amr lv)) <$> seq (FaLv + 1) (MAX_LEVEL - FaLv)).

(** ** The send buffers of a rank *)

(** What a rank sends: for each finer patch that holds particles, in the
    order of the loops, the destination rank and a payload. *)
Definition send_items {A} (amr : AMR_t) (dest : nat * nat -> Z) (payload : nat * nat -> list A)
    (l : list (nat * nat)) : list (nat * list A) :=
  concat ((fun x => if NPar (the_patch amr x.1 x.2) =? 0 then []
                    else [(Z.to_nat (dest x), payload x)]) <$> l).

Section SendItems.

Variable HILBERT : bool.
Variables MAX_LEVEL MPI_NRank : nat.
Variable PS1 : Z.
Variable LB_Corner2Index : nat -> list Z -> Z.
Variable LB_Index2Rank : nat -> Z -> Z.
Variable amr : AMR_t.
Variable FaLv : nat.

(** The key at FaLv and the destination rank of a finer patch. *)
Definition key_of (x : nat * nat) : Z :=
  Father_LB_Idx HILBERT PS1 LB_Corner2Index amr FaLv x.1 x.2.

Definition TRank_of (x : nat * nat) : Z := LB_Index2Rank FaLv (key_of x).

(** Two kinds of payload: the count of particles and the key. *)
Definition count_items (l : list (nat * nat)) : list (nat * list Z) :=
  send_items amr TRank_of (fun x => [NPar (the_patch amr x.1 x.2)]) l.

Definition key_items (l : list (nat * nat)) : list (nat * list Z) :=
  send_items amr TRank_of (fun x => [key_of x]) l.

(** Step 1: the counts and the keys in the send buffers. *)
Definition send_counts_are (sb : SendBuf_t) : Prop :=
  let all := finer_patches MAX_LEVEL amr FaLv in
  SendBuf_NPatchEachRank sb
  = (fun r => Z.of_nat (length (payloads_to r (count_items all)))) <$> seq 0 MPI_NRank /\
  SendBuf_NParEachPatch sb
  = concat ((fun r => payloads_to r (count_items all)) <$> seq 0 MPI_NRank) /\
  SendBuf_LBIdxEachPatch sb
  = concat ((fun r => payloads_to r (key_items all)) <$> seq 0 MPI_NRank).

End SendItems.

(** ** All ranks together: the records exchanged *)

(** The states of the ranks fit together for a collection at [FaLv]: each
    rank is ready for it; no finer real patch has a negative count of
    particles; the key at FaLv of a finer real patch that holds particles
    belongs to a rank, and is there the key of a real patch with a son; the
    table NPar_Lv of each rank holds the number of particles in its real
    patches, level by level; and the patches of the maximum level are
    leaves. *)
Record ranks_ok (HILBERT : bool) (MAX_LEVEL : nat) (PS1 : Z)
    (LB_Corner2Index : nat -> list Z -> Z) (LB_Index2Rank : nat -> Z -> Z)
    (FaLv : nat) (ranks : list AMR_t) : Prop := {
  go_level : forall r amr, ranks !! r = Some amr -> level_ok FaLv amr;
  go_NPar : forall s amr x, ranks !! s = Some amr ->
              x ∈ finer_patches MAX_LEVEL amr FaLv -> 0 <= NPar (the_patch amr x.1 x.2);
  go_owner : forall s amr x, ranks !! s = Some amr ->
               x ∈ finer_patches MAX_LEVEL amr FaLv -> NPar (the_patch amr x.1 x.2) <> 0 ->
               exists r amr_r P p,
                 TRank_of HILBERT PS1 LB_Corner2Index LB_Index2Rank amr FaLv x = Z.of_nat r /\
                 ranks !! r = Some amr_r /\ (P < NReal amr_r FaLv)%nat /\
                 get_patch amr_r FaLv P = Some p /\
                 LB_Idx p = key_of HILBERT PS1 LB_Corner2Index amr FaLv x /\ son p <> -1;
  go_NPar_Lv : forall r amr lv, ranks !! r = Some amr -> (FaLv <= lv <= MAX_LEVEL)%nat ->
                 nget 0 (NPar_Lv (Par amr)) lv
                 = sumZ ((fun P => NPar (the_patch amr lv P)) <$> seq 0 (NReal amr lv));
  go_max : forall r amr P p, ranks !! r = Some amr -> (P < NReal amr MAX_LEVEL)%nat ->
             get_patch amr MAX_LEVEL P = Some p -> son p = -1
}.

Section AllRankStates.

Variables DEBUG_PARTICLE HILBERT : bool.
Variable MAX_LEVEL : nat.
Variable PS1 : Z.
Variable LB_Corner2Index : nat -> list Z -> Z.
Variable LB_Index2Rank : nat -> Z -> Z.
Variable Par_PredictPos : AMR_t -> Z -> real * real * real -> real -> real * real * real.
Variable Par_LB_CollectParticleFromRealPatch :
  nat -> nat -> Z -> list Z -> list Z -> Z -> list Z -> list Z -> bool -> real ->
  AMR_t -> AMR_t.
Variable FaLv : nat.
Variable PredictPos : bool.
Variable TargetTime : real.
Variables SibBufPatch FaSibBufPatch JustCountNPar : bool.
Variable ranks : list AMR_t.

Local Abbreviation stored_ :=
  (stored_AllRank DEBUG_PARTICLE HILBERT MAX_LEVEL PS1 LB_Corner2Index LB_Index2Rank
     Par_PredictPos FaLv PredictPos TargetTime JustCountNPar ranks).

(** Steps 1 to 4 run to their end on every rank. *)
Definition steps_succeed : Prop :=
  forall r amr,
    ranks !! r = Some amr ->
    (exists sb, prepare_send DEBUG_PARTICLE HILBERT MAX_LEVEL (length ranks) PS1
                  LB_Corner2Index LB_Index2Rank Par_PredictPos amr FaLv PredictPos TargetTime
                  JustCountNPar = Ok sb) /\
    (exists a, stored_ r amr = Ok a).

(** The states that the call is to return. *)
Definition Collect_AllRank_states : list AMR_t :=
  imap (fun r amr =>
          collect_buffer_patches (Par_LB_CollectParticleFromRealPatch r) FaLv PredictPos
            TargetTime SibBufPatch FaSibBufPatch JustCountNPar
            (if (FaLv =? MAX_LEVEL)%nat then amr else state_of (stored_ r amr))) ranks.

End AllRankStates.

(** ** The contents of the shadow copy *)

(** The four arrays of the shadow copy are allocated with [L] entries. *)
Definition allocated (L : nat) (q : patch_t) : Prop :=
  forall v, (v < NParVar)%nat ->
            exists arr, ParMassPos_Copy q !! v = Some (Some arr) /\ length arr = L.

(** ** Positions inside the patch *)

(** The position is inside the patch: on no axis does the test of the
    home-patch check hold. *)
Definition in_patch (q : patch_t) (pos : nat -> real) : Prop :=
  forall d, (d < 3)%nat ->
            real_lt (pos d) (nget 0%Q (EdgeL q) d) || real_ge (pos d) (nget 0%Q (EdgeR q) d)
            = false.

(** Every particle of the shadow copy is inside the patch. *)
Definition shadow_in_patch (q : patch_t) : Prop :=
  forall k, 0 <= k < NPar_Copy q -> in_patch q (fun d => shadow q (PAR_POSX + d) k).

(** Every particle received is inside the real patch that has its key. *)
Definition recv_in_patch (FaLv : nat) (amr : AMR_t) (recv : RecvBuf_t) : Prop :=
  forall t P p j,
    (t < NRecvPatchTotal recv)%nat -> (P < NReal amr FaLv)%nat ->
    get_patch amr FaLv P = Some p ->
    nget 0 (RecvBuf_LBIdxEachPatch recv) t = LB_Idx p ->
    (j < Z.to_nat (nget 0%Z (RecvBuf_NParEachPatch recv) t))%nat ->
    in_patch p (fun d => nget 0%Q (RecvBuf_ParDataEachPatch recv)
                           (data_offset recv t + NParVar * j + (PAR_POSX + d))).

(** The particles of the record [t] are inside the real patch that has the
    key of the record. *)
Definition record_in_patch (FaLv : nat) (amr : AMR_t) (recv : RecvBuf_t) (t : nat) : Prop :=
  forall P p j,
    (P < NReal amr FaLv)%nat -> get_patch amr FaLv P = Some p ->
    nget 0 (RecvBuf_LBIdxEachPatch recv) t = LB_Idx p ->
    (j < Z.to_nat (nget 0%Z (RecvBuf_NParEachPatch recv) t))%nat ->
    in_patch p (fun d => nget 0%Q (RecvBuf_ParDataEachPatch recv)
                           (data_offset recv t + NParVar * j + (PAR_POSX + d))).

(** Every particle that waits in a real patch with a son is inside it. *)
Definition own_in_patch (FaLv : nat) (amr : AMR_t) : Prop :=
  forall P p j,
    (P < NReal amr FaLv)%nat -> get_patch amr FaLv P = Some p -> son p <> -1 ->
    (j < Z.to_nat (NPar p))%nat ->
    in_patch p (fun d => Par_attr amr (PAR_POSX + d) (nget 0 (ParList p) j)).

(** ** The particle data in the send buffers *)

(** The four values that step 1-4 sends for a particle. *)
Definition par_record
    (Par_PredictPos : AMR_t -> Z -> real * real * real -> real -> real * real * real)
    (amr : AMR_t) (PredictPos : bool) (TargetTime : real) (ParID : Z) : list real :=
  let m := Par_attr amr PAR_MASS ParID in
  let x := Par_attr amr PAR_POSX ParID in
  let y := Par_attr amr PAR_POSY ParID in
  let z := Par_attr amr PAR_POSZ ParID in
  if PredictPos
  then let xyz := Par_PredictPos amr ParID (x, y, z) TargetTime in
       [m; xyz.1.1; xyz.1.2; xyz.2]
  else [m; x; y; z].

(** The values that it sends for the first [n] particles of a patch. *)
Definition par_block
    (Par_PredictPos : AMR_t -> Z -> real * real * real -> real -> real * real * real)
    (amr : AMR_t) (PredictPos : bool) (TargetTime : real) (x : nat * nat) (n : nat)
    : list real :=
  concat ((fun j => par_record Par_PredictPos amr PredictPos TargetTime
                      (nget 0 (ParList (the_patch amr x.1 x.2)) j)) <$> seq 0 n).

Section SendDataItems.

Variable HILBERT : bool.
Variable PS1 : Z.
Variable LB_Corner2Index : nat -> list Z -> Z.
Variable LB_Index2Rank : nat -> Z -> Z.
Variable Par_PredictPos : AMR_t -> Z -> real * real * real -> real -> real * real * real.
Variable amr : AMR_t.
Variable FaLv : nat.
Variable PredictPos : bool.
Variable TargetTime : real.

(** The third kind of payload: the particle data of a patch. *)
Definition par_data (x : nat * nat) : list real :=
  par_block Par_PredictPos amr PredictPos TargetTime x
    (Z.to_nat (NPar (the_patch amr x.1 x.2))).

Definition data_items (l : list (nat * nat)) : list (nat * list real) :=
  send_items amr (TRank_of HILBERT PS1 LB_Corner2Index LB_Index2Rank amr FaLv) par_data l.

End SendDataItems.

(** ** The records that a rank receives, one by one *)

(** The finer patches of a rank that send a record to the rank [r]. *)
Definition sent_to (amr : AMR_t) (dest : nat * nat -> Z) (r : nat) (l : list (nat * nat))
    : list (nat * nat) :=
  concat ((fun x => if NPar (the_patch amr x.1 x.2) =? 0 then []
                    else if decide (Z.to_nat (dest x) = r) then [x] else []) <$> l).

(** The records for the rank [r], in the order of the sending ranks, each
    with the state of the rank it comes from. *)
Definition records_to (HILBERT : bool) (MAX_LEVEL : nat) (PS1 : Z)
    (LB_Corner2Index : nat -> list Z -> Z) (LB_Index2Rank : nat -> Z -> Z)
    (FaLv : nat) (ranks : list AMR_t) (r : nat) : list (AMR_t * (nat * nat)) :=
  concat ((fun amr => pair amr <$> sent_to amr
                        (TRank_of HILBERT PS1 LB_Corner2Index LB_Index2Rank amr FaLv) r
                        (finer_patches MAX_LEVEL amr FaLv)) <$> ranks).

(** Every particle of a finer patch is inside the real patch of level FaLv
    that has the key of the finer patch, on the rank that the key belongs
    to. *)
Definition sent_in_patch (HILBERT : bool) (MAX_LEVEL : nat) (PS1 : Z)
    (LB_Corner2Index : nat -> list Z -> Z) (LB_Index2Rank : nat -> Z -> Z)
    (FaLv : nat) (ranks : list AMR_t) : Prop :=
  forall s amr x r amr_r P p j,
    ranks !! s = Some amr -> x ∈ finer_patches MAX_LEVEL amr FaLv ->
    NPar (the_patch amr x.1 x.2) <> 0 ->
    TRank_of HILBERT PS1 LB_Corner2Index LB_Index2Rank amr FaLv x = Z.of_nat r ->
    ranks !! r = Some amr_r -> (P < NReal amr_r FaLv)%nat ->
    get_patch amr_r FaLv P = Some p ->
    LB_Idx p = key_of HILBERT PS1 LB_Corner2Index amr FaLv x ->
    (j < Z.to_nat (NPar (the_patch amr x.1 x.2)))%nat ->
    in_patch p (fun d => Par_attr amr (PAR_POSX + d)
                           (nget 0 (ParList (the_patch amr x.1 x.2)) j)).

(** ** The conditions of the diagnostic checks *)

(** What the diagnostic build checks of the particles: those to send are in
    leaves; a particle whose position is to be predicted has a time that is
    not negative; no particle to send has a negative mass; without
    prediction, the particles to send are inside the patch they go to; and
    with the KDK scheme, the particles that wait in a patch with a son have a
    negative time. *)
Record checks_ok (HILBERT : bool) (MAX_LEVEL : nat) (PS1 : Z)
    (LB_Corner2Index : nat -> list Z -> Z) (LB_Index2Rank : nat -> Z -> Z)
    (FaLv : nat) (PredictPos JustCountNPar : bool) (ranks : list AMR_t) : Prop := {
  ck_leaf : forall s amr x, ranks !! s = Some amr ->
              x ∈ finer_patches MAX_LEVEL amr FaLv -> NPar (the_patch amr x.1 x.2) <> 0 ->
              son (the_patch amr x.1 x.2) = -1;
  ck_time : PredictPos = true -> JustCountNPar = false ->
            forall s amr x j, ranks !! s = Some amr ->
              x ∈ finer_patches MAX_LEVEL amr FaLv ->
              (j < Z.to_nat (NPar (the_patch amr x.1 x.2)))%nat ->
              real_lt (zget 0%Q (Time (Par amr)) (nget 0 (ParList (the_patch amr x.1 x.2)) j))
                      0%Q = false;
  ck_mass : JustCountNPar = false ->
            forall s amr x j, ranks !! s = Some amr ->
              x ∈ finer_patches MAX_LEVEL amr FaLv ->
              (j < Z.to_nat (NPar (the_patch amr x.1 x.2)))%nat ->
              real_lt (Par_attr amr PAR_MASS (nget 0 (ParList (the_patch amr x.1 x.2)) j))
                      0%Q = false;
  ck_home : JustCountNPar = false -> PredictPos = false ->
            sent_in_patch HILBERT MAX_LEVEL PS1 LB_Corner2Index LB_Index2Rank FaLv ranks;
  ck_wait : JustCountNPar = false ->
            forall r amr P p j, ranks !! r = Some amr ->
              (P < NReal amr FaLv)%nat -> get_patch amr FaLv P = Some p -> son p <> -1 ->
              (j < Z.to_nat (NPar p))%nat ->
              Integ_KDK (Par amr)
              && real_ge (zget 0%Q (Time (Par amr)) (nget 0 (ParList p) j)) 0%Q = false
}.

(** ** The two ways to the key of the father *)

(** [corner[d] - corner[d] % s] for the three axes, as lines 174 and 230
    compute it. *)
Definition truncate_corner (s : Z) (cr : list Z) : list Z :=
  (fun d => nget 0 cr d - Z.rem (nget 0 cr d) s) <$> seq 0 3.

(** Modelled from the spec: [LB_Corner2Index], the encoding of a corner as a
    key, which is not part of the sources at hand, is a space-filling curve
    of the recursive kind (sections 3 and 4.1): the key of a corner at a
    level, without its three lowest bits, is the key at the level below of
    the corner truncated to the patches of that level.  The levels are those
    from [FaLv] to [lv]. *)
Definition recursive_curve (PS1 : Z) (LB_Corner2Index : nat -> list Z -> Z) (amr : AMR_t)
    (FaLv lv : nat) : Prop :=
  forall l cr, (FaLv <= l < lv)%nat -> (forall d, 0 <= nget 0 cr d) ->
    Z.quot (LB_Corner2Index (S l) cr) 8
    = LB_Corner2Index l (truncate_corner (PS1 * nget 0 (scale amr) l) cr).

(** ** Deciding the conditions on concrete states *)

(** [f P p] for every real patch [P] of the level, each of which exists. *)
Definition forall_real (amr : AMR_t) (lv : nat) (f : nat -> patch_t -> bool) : bool :=
  forallb (fun P => match get_patch amr lv P with
                    | Some p => f P p
                    | None => false
                    end) (seq 0 (NReal amr lv)).

Definition exists_real (amr : AMR_t) (lv : nat) (f : nat -> patch_t -> bool) : bool :=
  existsb (fun P => match get_patch amr lv P with
                    | Some p => f P p
                    | None => false
                    end) (seq 0 (NReal amr lv)).

Definition level_okb (FaLv : nat) (amr : AMR_t) : bool :=
  let keys := take (NReal amr FaLv) (nget [] (IdxList_Real amr) FaLv) in
  let tab := nget [] (IdxList_Real_IdxTable amr) FaLv in
  forall_real amr FaLv
    (fun P p =>
       (length (ParMassPos_Copy p) =? NParVar)%nat && shadow_clear p && (0 <=? NPar p)
       && existsb (Z.eqb (LB_Idx p)) keys
       && forall_real amr FaLv (fun Q q => implb (LB_Idx p =? LB_Idx q) (P =? Q)%nat))
  && forallb (fun j => match keys !! j, tab !! j with
                       | Some k, Some z =>
                           (0 <=? z) && (Z.to_nat z <? NReal amr FaLv)%nat
                           && match get_patch amr FaLv (Z.to_nat z) with
                              | Some p => LB_Idx p =? k
                              | None => false
                              end
                       | Some _, None => false
                       | None, _ => true
                       end) (seq 0 (length keys)).

Definition recv_okb (FaLv : nat) (amr : AMR_t) (recv : RecvBuf_t) : bool :=
  (length (RecvBuf_LBIdxEachPatch recv) =? NRecvPatchTotal recv)%nat
  && (length (RecvBuf_NParEachPatch recv) =? NRecvPatchTotal recv)%nat
  && forallb (fun k => exists_real amr FaLv
                         (fun _ p => (LB_Idx p =? k) && negb (son p =? -1)))
             (RecvBuf_LBIdxEachPatch recv)
  && forallb (fun n => 0 <=? n) (RecvBuf_NParEachPatch recv).

Definition ranks_okb (HILBERT : bool) (MAX_LEVEL : nat) (PS1 : Z)
    (LB_Corner2Index : nat -> list Z -> Z) (LB_Index2Rank : nat -> Z -> Z)
    (FaLv : nat) (ranks : list AMR_t) : bool :=
  forallb (level_okb FaLv) ranks
  && forallb
       (fun amr =>
          forallb
            (fun x =>
               let n := NPar (the_patch amr x.1 x.2) in
               let t := TRank_of HILBERT PS1 LB_Corner2Index LB_Index2Rank amr FaLv x in
               (0 <=? n)
               && ((n =? 0)
                   || ((0 <=? t)
                       && match ranks !! Z.to_nat t with
                          | Some a =>
                              exists_real a FaLv
                                (fun _ p =>
                                   (LB_Idx p =? key_of HILBERT PS1 LB_Corner2Index amr FaLv x)
                                   && negb (son p =? -1))
                          | None => false
                          end)))
            (finer_patches MAX_LEVEL amr FaLv)
          && forallb
               (fun lv => nget 0 (NPar_Lv (Par amr)) lv
                          =? sumZ ((fun P => NPar (the_patch amr lv P))
                                     <$> seq 0 (NReal amr lv)))
               (seq FaLv (MAX_LEVEL + 1 - FaLv))
          && forallb (fun P => match get_patch amr MAX_LEVEL P with
                               | Some p => son p =? -1
                               | None => true
                               end) (seq 0 (NReal amr MAX_LEVEL)))
       ranks.

Definition in_patchb (q : patch_t) (pos : nat -> real) : bool :=
  forallb (fun d => negb (real_lt (pos d) (nget 0%Q (EdgeL q) d)
                          || real_ge (pos d) (nget 0%Q (EdgeR q) d))) (seq 0 3).

Definition own_in_patchb (FaLv : nat) (amr : AMR_t) : bool :=
  forallb (fun P => match get_patch amr FaLv P with
                    | Some p =>
                        (son p =? -1)
                        || forallb (fun j => in_patchb p
                                     (fun d => Par_attr amr (PAR_POSX + d)
                                                 (nget 0 (ParList p) j)))
                             (seq 0 (Z.to_nat (NPar p)))
                    | None => true
                    end) (seq 0 (NReal amr FaLv)).

Definition sent_in_patchb (HILBERT : bool) (MAX_LEVEL : nat) (PS1 : Z)
    (LB_Corner2Index : nat -> list Z -> Z) (LB_Index2Rank : nat -> Z -> Z)
    (FaLv : nat) (ranks : list AMR_t) : bool :=
  forallb
    (fun amr =>
       forallb
         (fun x =>
            let n := NPar (the_patch amr x.1 x.2) in
            let t := TRank_of HILBERT PS1 LB_Corner2Index LB_Index2Rank amr FaLv x in
            match ranks !! Z.to_nat t with
            | Some a =>
                forallb
                  (fun P =>
                     match get_patch a FaLv P with
                     | Some p =>
                         implb (LB_Idx p =? key_of HILBERT PS1 LB_Corner2Index amr FaLv x)
                           (forallb (fun j => in_patchb p
                                       (fun d => Par_attr amr (PAR_POSX + d)
                                                   (nget 0 (ParList (the_patch amr x.1 x.2)) j)))
                              (seq 0 (Z.to_nat n)))
                     | None => true
                     end) (seq 0 (NReal a FaLv))
            | None => true
            end)
         (finer_patches MAX_LEVEL amr FaLv))
    ranks.

Definition checks_okb (HILBERT : bool) (MAX_LEVEL : nat) (PS1 : Z)
    (LB_Corner2Index : nat -> list Z -> Z) (LB_Index2Rank : nat -> Z -> Z)
    (FaLv : nat) (PredictPos JustCountNPar : bool) (ranks : list AMR_t) : bool :=
  forallb
    (fun amr =>
       forallb
         (fun x =>
            let p := the_patch amr x.1 x.2 in
            ((NPar p =? 0) || (son p =? -1))
            && (JustCountNPar
                || forallb
                     (fun j =>
                        let ParID := nget 0 (ParList p) j in
                        negb (real_lt (Par_attr amr PAR_MASS ParID) 0%Q)
                        && (negb PredictPos
                            || negb (real_lt (zget 0%Q (Time (Par amr)) ParID) 0%Q)))
                     (seq 0 (Z.to_nat (NPar p)))))
         (finer_patches MAX_LEVEL amr FaLv)
       && (JustCountNPar
           || forallb
                (fun P =>
                   match get_patch amr FaLv P with
                   | Some p =>
                       (son p =? -1)
                       || forallb
                            (fun j =>
                               negb (Integ_KDK (Par amr)
                                     && real_ge (zget 0%Q (Time (Par amr))
                                                   (nget 0 (ParList p) j)) 0%Q))
                            (seq 0 (Z.to_nat (NPar p)))
                   | None => true
                   end) (seq 0 (NReal amr FaLv))))
    ranks
  && (JustCountNPar || PredictPos
      || sent_in_patchb HILBERT MAX_LEVEL PS1 LB_Corner2Index LB_Index2Rank FaLv ranks).

(** ** A curve of the recursive kind: the Morton order *)

(** The bits of a number, each at three times its position. *)
Fixpoint spread_pos (p : positive) : Z :=
  match p with
  | xH => 1
  | xO q => 8 * spread_pos q
  | xI q => 8 * spread_pos q + 1
  end.

Definition spread (u : Z) : Z :=
  match u with
  | Zpos p => spread_pos p
  | _ => 0
  end.

(** The Morton key of a corner: the indices of the patch along the three
    axes, their bits interleaved. *)
Definition morton (PS1 : Z) (scales : list Z) (lv : nat) (cr : list Z) : Z :=
  let s := PS1 * nget 0 scales lv in
  spread (nget 0 cr 0 / s) + 2 * spread (nget 0 cr 1 / s) + 4 * spread (nget 0 cr 2 / s).

(** ** A hierarchy of two levels on two ranks *)

Module Example.

(** Lengths are in cells of level 1, and a patch has 8 cells a side: the
    patches of level 0 are 16 wide, those of level 1 are 8 wide.  Level 0 has
    three patches: A at the origin on rank 0, and on rank 1 its neighbours B
    along x and C along y.  A and B are refined, C is a leaf.  Level 1 has four
    patches, two inside A and two inside B, and each rank holds one of each
    pair.  Rank 0 also holds a buffer copy of B. *)

Definition PS1 : Z := 8.
Definition MAX_LEVEL : nat := 1.
Definition scales : list Z := [2; 1].

(** The keys are Morton keys, and the three keys of level 0 are spread over
    the two ranks. *)
Definition LB_Corner2Index : nat -> list Z -> Z := morton PS1 scales.
Definition LB_Index2Rank (lv : nat) (key : Z) : Z := if key <? 1 then 0 else 1.

(** No prediction is asked for in the examples. *)
Definition Par_PredictPos (amr : AMR_t) (ParID : Z) (xyz : real * real * real) (t : real)
    : real * real * real := xyz.

Definition mk (lv : nat) (cr : list Z) (sn n : Z) (pl : list Z) : patch_t :=
  let w := nget 0 scales lv * PS1 in
  mk_patch cr (LB_Corner2Index lv cr) sn n pl (-1) [None; None; None; None]
           (inject_Z <$> cr) ((fun c => inject_Z (c + w)) <$> cr).

Definition A : patch_t := mk 0 [0; 0; 0] 0 1 [3].
Definition B : patch_t := mk 0 [16; 0; 0] 0 0 [].
Definition C : patch_t := mk 0 [0; 16; 0] (-1) 1 [3].

Definition no_R2B : list (list Z) := [[0; 0]; [0; 0]].
Definition no_R2B_list : list (list (list Z)) := [[[]; []]; [[]; []]].

(** Rank 0: patch A, with one particle of its own, and the buffer copy of B
    at level 0; the first son of A and the second son of B at level 1.  The
    buffer copy of B is listed as sibling buffer of level 0 and as
    father-sibling buffer of level 1. *)
Definition Par0 : Particle_t :=
  mk_Par [[1; 2; 3; 4]; [1; 2; 25; 5]; [1; 3; 1; 5]; [1; 4; 1; 12]]%Q
         [0; 0; 0; -1#2]%Q true [1; 3]
         [[1; 0]; [0; 1]] [[[1]; []]; [[]; [1]]] no_R2B_list no_R2B no_R2B_list no_R2B_list.

Definition amr0 : AMR_t :=
  mk_AMR [[A; B]; [mk 1 [0; 0; 0] (-1) 2 [0; 1]; mk 1 [24; 0; 0] (-1) 1 [2]]]
         [1; 2]%nat [2; 2]%nat scales [[0]; [0; 9]] [[0]; [0; 1]] Par0.

(** Rank 1: patches B and C at level 0; the first son of B and the second
    son of A at level 1. *)
Definition Par1 : Particle_t :=
  mk_Par [[5; 6; 7; 8]; [17; 9; 10; 3]; [1; 9; 12; 20]; [1; 1; 3; 5]]%Q
         [0; 0; 0; 0]%Q true [1; 3]
         no_R2B no_R2B_list no_R2B_list no_R2B no_R2B_list no_R2B_list.

Definition amr1 : AMR_t :=
  mk_AMR [[B; C]; [mk 1 [16; 0; 0] (-1) 1 [0]; mk 1 [8; 8; 0] (-1) 2 [1; 2]]]
         [2; 2]%nat [2; 2]%nat scales [[1; 2]; [3; 8]] [[0; 1]; [1; 0]] Par1.

Definition ranks : list AMR_t := [amr0; amr1].

(** A collection for buffer patches that marks the listed buffer patches as
    holding an empty shadow copy. *)
Definition CollectFromReal (r lv : nat) (n1 : Z) (l1 l2 : list Z) (n2 : Z) (l3 l4 : list Z)
    (pp : bool) (tt : real) (amr : AMR_t) : AMR_t :=
  foldl (fun a pid => zupd_patch lv pid (set_NPar_Copy 0) a) amr
        (filter (fun pid => Z.of_nat (NReal amr lv) <= pid) (take (Z.to_nat n1) l1)).

(** A call on all ranks, with no prediction. *)
Definition Collect (dbg : bool) (FaLv : nat) (Sib FaSib JustCountNPar : bool)
    : list (result AMR_t) :=
  Collect_AllRank dbg true MAX_LEVEL PS1 LB_Corner2Index LB_Index2Rank Par_PredictPos
    CollectFromReal FaLv false 0%Q Sib FaSib JustCountNPar ranks.

Definition Collect_states (dbg : bool) (FaLv : nat) (Sib FaSib JustCountNPar : bool)
    : list AMR_t :=
  Collect_AllRank_states dbg true MAX_LEVEL PS1 LB_Corner2Index LB_Index2Rank Par_PredictPos
    CollectFromReal FaLv false 0%Q Sib FaSib JustCountNPar ranks.

(** The same call as one rank sees it: the exchange hands it what the ranks
    send to it, and the reduction the sums over the ranks. *)
Definition Send (dbg : bool) (FaLv : nat) (JustCountNPar : bool) (r : nat)
    : nat -> SendBuf_t -> bool -> RecvBuf_t :=
  fun nv _ ex =>
    Par_LB_SendParticleData_AllRank
      (sends_AllRank dbg true MAX_LEVEL PS1 LB_Corner2Index LB_Index2Rank Par_PredictPos
         FaLv false 0%Q JustCountNPar ranks) r nv ex.

Definition Reduce (dbg : bool) (FaLv : nat) (JustCountNPar : bool) : nat -> Z -> Z :=
  MPI_Reduce_SUM_AllRank dbg true MAX_LEVEL PS1 LB_Corner2Index LB_Index2Rank Par_PredictPos
    FaLv false 0%Q JustCountNPar ranks.

Definition Collect_rank (dbg : bool) (FaLv : nat) (Sib FaSib JustCountNPar : bool)
    (r : nat) (amr : AMR_t) : result AMR_t :=
  Par_LB_CollectParticle2OneLevel dbg true MAX_LEVEL 2 r PS1 LB_Corner2Index LB_Index2Rank
    Par_PredictPos (CollectFromReal r) (Send dbg FaLv JustCountNPar r)
    (Reduce dbg FaLv JustCountNPar) FaLv false 0%Q Sib FaSib JustCountNPar amr.

Definition received (dbg : bool) (FaLv : nat) (JustCountNPar : bool) (r : nat) (amr : AMR_t)
    : RecvBuf_t :=
  received_records dbg true MAX_LEVEL 2 PS1 LB_Corner2Index LB_Index2Rank Par_PredictPos
    (Send dbg FaLv JustCountNPar r) amr FaLv false 0%Q JustCountNPar.

(** The state of rank 0 with the buffer copy of B marked. *)
Definition marked : AMR_t := upd_patch 0 1 (set_NPar_Copy 0) amr0.

(** The state of rank 0 after a collection at level 0. *)
Definition collected : AMR_t := state_of (Collect_rank true 0 true true false 0 amr0).

End Example.


(** ** Runs that stop, and the shape of the hierarchy *)

(** The run called [Aux_Error]. *)
Definition stops {A} (r : result A) : Prop := exists msg s, r = Aux_Error msg s.

(** The number of patches allocated at each level. *)
Definition shape (a : AMR_t) : list nat := length <$> patch a.

(** Two versions of a patch that differ in the count and in the four arrays
    of the shadow copy at most. *)
Definition shadow_only (p p' : patch_t) : Prop :=
  same_base p p' /\
  length (ParMassPos_Copy p') = length (ParMassPos_Copy p) /\
  forall v, (NParVar <= v)%nat -> ParMassPos_Copy p' !! v = ParMassPos_Copy p !! v.

(** ** The two builds *)

(** The run returns. *)
Definition returns {A} (r : result A) : Prop := exists a, r = Ok a.

(** Whatever the run [r] returns, the run [r'] returns as well. *)
Definition returns_as {A} (r r' : result A) : Prop := forall a, r = Ok a -> r' = Ok a.

(** ** A collection and the release that follows it *)

(** The index table of the level names real patches only. *)
Definition table_lists_real (FaLv : nat) (amr : AMR_t) : Prop :=
  forall j P, nget [] (IdxList_Real_IdxTable amr) FaLv !! j = Some P ->
              P < Z.of_nat (NReal amr FaLv).

(** The state [a] comes from [amr] by changes to the shadow copies of real
    patches of level [FaLv] alone. *)
Definition real_shadows_written (FaLv : nat) (amr a : AMR_t) : Prop :=
  same_env amr a /\ shape a = shape amr /\
  (forall l P, l <> FaLv \/ (NReal amr FaLv <= P)%nat -> get_patch a l P = get_patch amr l P) /\
  (forall P, option_Forall2 shadow_only (get_patch amr FaLv P) (get_patch a FaLv P)).

(** The patches whose shadow copy a call at [FaLv] may write: the real
    patches of the level; the buffer patches of the level, when the call is
    to collect for sibling-buffer patches; and the buffer patches of the
    level below, when it is to collect for father-sibling-buffer patches. *)
Definition may_write (FaLv : nat) (SibBufPatch FaSibBufPatch JustCountNPar : bool)
    (amr : AMR_t) (l P : nat) : Prop :=
  (l = FaLv /\ (P < NReal amr FaLv)%nat) \/
  (SibBufPatch = true /\ JustCountNPar = false /\ l = FaLv /\ (NReal amr FaLv <= P)%nat) \/
  (FaSibBufPatch = true /\ JustCountNPar = false /\ (0 < FaLv)%nat /\ l = (FaLv - 1)%nat /\
   (NReal amr (FaLv - 1) <= P)%nat).

(** The state [amr'] comes from [amr] by changes to shadow copies alone,
    and to those of the patches in [W] alone: the particle repository and
    the tables are the same; every patch has the NPar, ParList, son, key,
    corner and edges it had; and a patch outside [W] is the very same. *)
Definition only_shadows_of (W : nat -> nat -> Prop) (amr amr' : AMR_t) : Prop :=
  same_env amr amr' /\
  (forall l P, option_Forall2 same_base (get_patch amr l P) (get_patch amr' l P)) /\
  (forall l P, ~ W l P -> get_patch amr' l P = get_patch amr l P).

(** ** The particles in the shadow copy *)

(** The number of particles that the records before the record [t] bring to
    the patch with the key [k]. *)
Definition received_before (recv : RecvBuf_t) (k : Z) (t : nat) : Z :=
  sumZ ((fun i => if nget 0 (RecvBuf_LBIdxEachPatch recv) i =? k
                  then nget 0 (RecvBuf_NParEachPatch recv) i else 0) <$> seq 0 t).

(** What a call that collects leaves in the shadow copy of a patch that had
    the key [k], the count [n] and the list [pl] of particles of its own:
    the particles of the records with the key, record after record in the
    order of arrival, and after them the particles of the patch itself, each
    with its mass and position as the repository holds them. *)
Definition shadow_holds (amr : AMR_t) (recv : RecvBuf_t) (k n : Z) (pl : list Z)
    (p' : patch_t) : Prop :=
  (forall t j v, (t < NRecvPatchTotal recv)%nat ->
     nget 0 (RecvBuf_LBIdxEachPatch recv) t = k ->
     (j < Z.to_nat (nget 0%Z (RecvBuf_NParEachPatch recv) t))%nat -> (v < NParVar)%nat ->
     shadow p' v (received_before recv k t + Z.of_nat j)
     = nget 0%Q (RecvBuf_ParDataEachPatch recv) (data_offset recv t + NParVar * j + v)) /\
  (forall j v, (j < Z.to_nat n)%nat -> (v < NParVar)%nat ->
     shadow p' v (received_count recv k + Z.of_nat j) = Par_attr amr v (nget 0 pl j)).

(** ** The particles in the shadow copy, when all ranks call *)

Section SentRecords.

Variable HILBERT : bool.
Variable PS1 : Z.
Variable LB_Corner2Index : nat -> list Z -> Z.
Variable Par_PredictPos : AMR_t -> Z -> real * real * real -> real -> real * real * real.
Variable FaLv : nat.
Variable PredictPos : bool.
Variable TargetTime : real.

(** The records that a rank receives, each with the state of the rank it
    comes from and the patch it is for. *)
Variable recs : list (AMR_t * (nat * nat)).

(** The number of particles that the records before the record [t] bring to
    the patch with the key [k]. *)
Definition sent_before (k : Z) (t : nat) : Z :=
  sumZ ((fun ax => if key_of HILBERT PS1 LB_Corner2Index ax.1 FaLv ax.2 =? k
                   then NPar (the_patch ax.1 ax.2.1 ax.2.2) else 0) <$> take t recs).

(** The shadow copy [p'] of the patch [p0] of the state [amr] holds the
    particles of the patches above FaLv whose key at FaLv is the key of
    [p0], in the order of the records and, for one patch, of its list, each
    with its mass and its position, the position as predicted if prediction
    is asked for; and after them the particles of [p0] itself, with mass and
    position as the repository holds them. *)
Definition shadow_holds_sent (amr : AMR_t) (p0 p' : patch_t) : Prop :=
  (forall t a x j v, recs !! t = Some (a, x) ->
     key_of HILBERT PS1 LB_Corner2Index a FaLv x = LB_Idx p0 ->
     (j < Z.to_nat (NPar (the_patch a x.1 x.2)))%nat -> (v < NParVar)%nat ->
     shadow p' v (sent_before (LB_Idx p0) t + Z.of_nat j)
     = nget 0%Q (par_record Par_PredictPos a PredictPos TargetTime
                   (nget 0 (ParList (the_patch a x.1 x.2)) j)) v) /\
  (forall j v, (j < Z.to_nat (NPar p0))%nat -> (v < NParVar)%nat ->
     shadow p' v (sent_before (LB_Idx p0) (length recs) + Z.of_nat j)
     = Par_attr amr v (nget 0 (ParList p0) j)).

End SentRecords.

(** ** States and exchanges that the checks refuse *)

Module Faults.

(** The state of rank 0 of the example with its first patch of level 1 given
    a son, although the patch holds two particles. *)
Definition nonleaf : AMR_t :=
  mk_AMR [[Example.A; Example.B];
          [Example.mk 1 [0; 0; 0] 5 2 [0; 1]; Example.mk 1 [24; 0; 0] (-1) 1 [2]]]
         [1; 2]%nat [2; 2]%nat Example.scales [[0]; [0; 9]] [[0]; [0; 1]] Example.Par0.

(** The same state with the particle 3, whose time is negative, in the
    second patch of level 1. *)
Definition early : AMR_t :=
  mk_AMR [[Example.A; Example.B];
          [Example.mk 1 [0; 0; 0] (-1) 2 [0; 1]; Example.mk 1 [24; 0; 0] (-1) 1 [3]]]
         [1; 2]%nat [2; 2]%nat Example.scales [[0]; [0; 9]] [[0]; [0; 1]] Example.Par0.

(** The same state with no particle above level 0. *)
Definition quiet : AMR_t :=
  mk_AMR [[Example.A; Example.B];
          [Example.mk 1 [0; 0; 0] (-1) 0 []; Example.mk 1 [24; 0; 0] (-1) 0 []]]
         [1; 2]%nat [2; 2]%nat Example.scales [[0]; [0; 9]] [[0]; [0; 1]] Example.Par0.

(** An exchange that delivers one record with the key of A and no
    particle, and one that delivers a record with a key that no real patch
    of level 0 has. *)
Definition Send_empty : nat -> SendBuf_t -> bool -> RecvBuf_t :=
  fun _ _ _ => mk_RecvBuf [1; 0] [0] [0] [] 1 0.

Definition Send_unknown : nat -> SendBuf_t -> bool -> RecvBuf_t :=
  fun _ _ _ => mk_RecvBuf [1; 0] [1] [7] [1; 1; 1; 1]%Q 1 1.

(** A call of the diagnostic build at level 0 on rank 0, not for buffer
    patches, with the exchange and the flags given. *)
Definition Collect_by (Send : nat -> SendBuf_t -> bool -> RecvBuf_t)
    (PredictPos JustCountNPar : bool) (amr : AMR_t) : result AMR_t :=
  Par_LB_CollectParticle2OneLevel true true Example.MAX_LEVEL 2 0 Example.PS1
    Example.LB_Corner2Index Example.LB_Index2Rank Example.Par_PredictPos
    (Example.CollectFromReal 0) Send (Example.Reduce true 0 false)
    0 PredictPos 0%Q false false JustCountNPar amr.

Definition received_by (Send : nat -> SendBuf_t -> bool -> RecvBuf_t) (amr : AMR_t)
    : RecvBuf_t :=
  received_records true true Example.MAX_LEVEL 2 Example.PS1 Example.LB_Corner2Index
    Example.LB_Index2Rank Example.Par_PredictPos Send amr 0 false 0%Q false.

(** The state of rank 0 of the example with the particle 3, which waits in A
    for its velocity correction, at x = 20: outside A, which ends at
    x = 16. *)
Definition astray : AMR_t :=
  mk_AMR (patch Example.amr0) (NPatchComma Example.amr0) (num Example.amr0)
         (scale Example.amr0) (IdxList_Real Example.amr0)
         (IdxList_Real_IdxTable Example.amr0)
         (mk_Par [[1; 2; 3; 4]; [1; 2; 25; 20]; [1; 3; 1; 5]; [1; 4; 1; 12]]%Q
                 (Time Example.Par0) (Integ_KDK Example.Par0) (NPar_Lv Example.Par0)
                 (R2B_Buff_NPatchTotal Example.Par0) (R2B_Buff_PIDList Example.Par0)
                 (R2B_Buff_NPatchEachRank Example.Par0) (R2B_Real_NPatchTotal Example.Par0)
                 (R2B_Real_PIDList Example.Par0) (R2B_Real_NPatchEachRank Example.Par0)).

(** The state of rank 0 of the example with the particle 0, which is in the
    first son of A, at x = 20: outside A. *)
Definition lost : AMR_t :=
  mk_AMR (patch Example.amr0) (NPatchComma Example.amr0) (num Example.amr0)
         (scale Example.amr0) (IdxList_Real Example.amr0)
         (IdxList_Real_IdxTable Example.amr0)
         (mk_Par [[1; 2; 3; 4]; [20; 2; 25; 5]; [1; 3; 1; 5]; [1; 4; 1; 12]]%Q
                 (Time Example.Par0) (Integ_KDK Example.Par0) (NPar_Lv Example.Par0)
                 (R2B_Buff_NPatchTotal Example.Par0) (R2B_Buff_PIDList Example.Par0)
                 (R2B_Buff_NPatchEachRank Example.Par0) (R2B_Real_NPatchTotal Example.Par0)
                 (R2B_Real_PIDList Example.Par0) (R2B_Real_NPatchEachRank Example.Par0)).

(** A call on the two ranks, at level 0, without prediction and not for
    buffer patches, rank 0 in the state [amr]. *)
Definition Collect_from (dbg : bool) (amr : AMR_t) : list (result AMR_t) :=
  Collect_AllRank dbg true Example.MAX_LEVEL Example.PS1 Example.LB_Corner2Index
    Example.LB_Index2Rank Example.Par_PredictPos Example.CollectFromReal
    0 false 0%Q false false false [amr; Example.amr1].

End Faults.

(** * Lemmas and theorems *)

(** ** Loops and results *)

Lemma for_loop_S {St} (lo n : nat) (body : nat -> St -> St) (s : St) :
  for_loop lo (S n) body s = body (lo + n)%nat (for_loop lo n body s).
Proof. unfold for_loop. by rewrite seq_S, foldl_snoc. Qed.

(** The invariant rule of a counted loop. *)
Lemma for_loop_ind {St} (I : nat -> St -> Prop) (lo n : nat) (body : nat -> St -> St) (s : St) :
  I lo s ->
  (forall i s', (lo <= i < lo + n)%nat -> I i s' -> I (S i) (body i s')) ->
  I (lo + n)%nat (for_loop lo n body s).
Proof.
  intros H0 Hstep. induction n as [|n IH].
  - by rewrite Nat.add_0_r.
  - rewrite for_loop_S, Nat.add_succ_r. apply Hstep; [lia|].
    apply IH. intros i s' Hi. apply Hstep. lia.
Qed.

Lemma post_bind {A B} (Q' : A -> Prop) (Q : B -> Prop) (E : AMR_t -> Prop)
    (m : result A) (k : A -> result B) :
  post Q' E m -> (forall a, Q' a -> post Q E (k a)) -> post Q E (bind m k).
Proof. destruct m; simpl; auto. Qed.

Lemma post_mono {A} (Q Q' : A -> Prop) (E E' : AMR_t -> Prop) (r : result A) :
  post Q E r -> (forall a, Q a -> Q' a) -> (forall s, E s -> E' s) -> post Q' E' r.
Proof. destruct r; simpl; auto. Qed.

Lemma post_Ok_inv {A} (Q : A -> Prop) (E : AMR_t -> Prop) (r : result A) (a : A) :
  post Q E r -> r = Ok a -> Q a.
Proof. by intros H ->. Qed.

Lemma for_loopE_ind {St} (I : nat -> St -> Prop) (E : AMR_t -> Prop) (n lo : nat)
    (body : nat -> St -> result St) (s : St) :
  I lo s ->
  (forall i s', (lo <= i < lo + n)%nat -> I i s' -> post (I (S i)) E (body i s')) ->
  post (I (lo + n)%nat) E (for_loopE lo n body s).
Proof.
  unfold for_loopE. revert lo s. induction n as [|n IH]; intros lo s H0 Hstep; simpl.
  - by rewrite Nat.add_0_r.
  - eapply post_bind; [apply Hstep; [lia | done]|].
    intros s' Hs'. rewrite <- Nat.add_succ_comm. apply IH; [done|].
    intros i s'' Hi. apply Hstep. lia.
Qed.

(** A loop whose body never fails is the loop of its effect. *)
Lemma for_loopE_pure {St} (n lo : nat) (body : nat -> St -> result St) (f : nat -> St -> St) (s : St) :
  (forall i s', body i s' = Ok (f i s')) ->
  for_loopE lo n body s = Ok (for_loop lo n f s).
Proof.
  intros Hb. unfold for_loopE, for_loop. revert lo s.
  induction n as [|n IH]; intros lo s; simpl; [done|].
  rewrite Hb. simpl. apply IH.
Qed.

Lemma for_loop_ind0 {St} (I : nat -> St -> Prop) (n : nat) (body : nat -> St -> St) (s : St) :
  I 0%nat s ->
  (forall i s', (i < n)%nat -> I i s' -> I (S i) (body i s')) ->
  I n (for_loop 0 n body s).
Proof.
  intros H0 Hs. apply (for_loop_ind I 0 n); [done|]. intros i s' Hi. apply Hs. lia.
Qed.

Lemma for_loopE_ind0 {St} (I : nat -> St -> Prop) (E : AMR_t -> Prop) (n : nat)
    (body : nat -> St -> result St) (s : St) :
  I 0%nat s ->
  (forall i s', (i < n)%nat -> I i s' -> post (I (S i)) E (body i s')) ->
  post (I n) E (for_loopE 0 n body s).
Proof.
  intros H0 Hs. apply (for_loopE_ind I E n 0); [done|]. intros i s' Hi. apply Hs. lia.
Qed.

(** ** Patches and their updates *)

Lemma get_patch_upd (lv PID : nat) (f : patch_t -> patch_t) (amr : AMR_t) (l P : nat) :
  get_patch (upd_patch lv PID f amr) l P =
  if decide (l = lv /\ P = PID) then f <$> get_patch amr l P else get_patch amr l P.
Proof.
  unfold get_patch, upd_patch. simpl. rewrite list_lookup_alter.
  destruct (decide (lv = l)) as [->|Hl].
  - destruct (patch amr !! l) as [ps|]; simpl.
    + rewrite list_lookup_alter. destruct (decide (PID = P)) as [->|HP].
      * by rewrite decide_True.
      * rewrite decide_False; [done | intros [_ ?]; congruence].
    + by destruct (decide _).
  - rewrite decide_False; [done | intros [? _]; congruence].
Qed.

Lemma get_patch_zupd (lv : nat) (PID : Z) (f : patch_t -> patch_t) (amr : AMR_t) (l P : nat) :
  get_patch (zupd_patch lv PID f amr) l P =
  if decide (l = lv /\ Z.of_nat P = PID) then f <$> get_patch amr l P else get_patch amr l P.
Proof.
  unfold zupd_patch. destruct (Z.ltb_spec PID 0).
  - rewrite decide_False; [done | lia].
  - rewrite get_patch_upd. destruct (decide (l = lv /\ P = Z.to_nat PID)) as [[-> ->]|Hn].
    + rewrite decide_True; [done | lia].
    + rewrite decide_False; [done | intros [-> <-]; apply Hn; split; [done | lia]].
Qed.

(** An update that leaves the patch as it is leaves the hierarchy as it is. *)
Lemma upd_patch_id (lv PID : nat) (f : patch_t -> patch_t) (amr : AMR_t) :
  (forall p, get_patch amr lv PID = Some p -> f p = p) ->
  upd_patch lv PID f amr = amr.
Proof.
  intros Hf. unfold upd_patch, set_patch. destruct amr as [ps ? ? ? ? ? ?]; simpl.
  f_equal. unfold get_patch in Hf; simpl in Hf.
  apply list_eq; intros l. rewrite list_lookup_alter.
  destruct (decide (lv = l)) as [<-|]; [|done].
  destruct (ps !! lv) as [pl|] eqn:Hpl; simpl in *; [|done].
  f_equal. apply list_eq; intros P. rewrite list_lookup_alter.
  destruct (decide (PID = P)) as [<-|]; [|done].
  destruct (pl !! PID) as [p|] eqn:Hp; simpl; [|done].
  by rewrite Hf.
Qed.

Lemma zupd_patch_id (lv : nat) (PID : Z) (f : patch_t -> patch_t) (amr : AMR_t) :
  (forall P p, Z.of_nat P = PID -> get_patch amr lv P = Some p -> f p = p) ->
  zupd_patch lv PID f amr = amr.
Proof.
  intros Hf. unfold zupd_patch. destruct (Z.ltb_spec PID 0); [done|].
  apply upd_patch_id. intros p. apply Hf. lia.
Qed.

Lemma same_env_refl (a : AMR_t) : same_env a a.
Proof. by repeat split. Qed.

Lemma same_env_trans (a b c : AMR_t) : same_env a b -> same_env b c -> same_env a c.
Proof. unfold same_env. intuition congruence. Qed.

Lemma same_env_upd (lv PID : nat) (f : patch_t -> patch_t) (a : AMR_t) :
  same_env a (upd_patch lv PID f a).
Proof. by repeat split. Qed.

Lemma same_env_zupd (lv : nat) (PID : Z) (f : patch_t -> patch_t) (a : AMR_t) :
  same_env a (zupd_patch lv PID f a).
Proof. unfold zupd_patch. destruct (_ <? _); [apply same_env_refl | apply same_env_upd]. Qed.

(** The effect of one update after the other, for the patches listed. *)
Lemma foldl_zupd_env (lv : nat) (f : patch_t -> patch_t) (pids : list Z) (amr : AMR_t) :
  same_env amr (foldl (fun a pid => zupd_patch lv pid f a) amr pids).
Proof.
  revert amr. induction pids as [|pid pids IH]; intros amr; simpl.
  - apply same_env_refl.
  - eapply same_env_trans; [apply same_env_zupd | apply IH].
Qed.

Lemma foldl_zupd_other (lv : nat) (f : patch_t -> patch_t) (pids : list Z) (amr : AMR_t)
    (l P : nat) :
  l <> lv \/ Z.of_nat P ∉ pids ->
  get_patch (foldl (fun a pid => zupd_patch lv pid f a) amr pids) l P = get_patch amr l P.
Proof.
  revert amr. induction pids as [|pid pids IH]; intros amr Hno; simpl; [done|].
  rewrite IH.
  - rewrite get_patch_zupd, decide_False; [done|].
    intros [-> <-]. destruct Hno as [?|Hno]; [done|]. apply Hno. by left.
  - destruct Hno as [?|Hno]; [by left | right]. intros ?. apply Hno. by right.
Qed.

Lemma foldl_zupd_listed (lv : nat) (f : patch_t -> patch_t) (pids : list Z) (amr : AMR_t)
    (P : nat) :
  (forall p, f (f p) = f p) ->
  Z.of_nat P ∈ pids ->
  get_patch (foldl (fun a pid => zupd_patch lv pid f a) amr pids) lv P
  = f <$> get_patch amr lv P.
Proof.
  intros Hf. revert amr. induction pids as [|pid pids IH]; intros amr Hin; simpl.
  - by apply elem_of_nil in Hin.
  - destruct (decide (Z.of_nat P ∈ pids)) as [Hin'|Hnin].
    + rewrite IH by done. rewrite get_patch_zupd. destruct (decide _); [|done].
      destruct (get_patch amr lv P); simpl; [by rewrite Hf | done].
    + rewrite foldl_zupd_other by (by right).
      apply elem_of_cons in Hin as [Heq|?]; [|done].
      rewrite get_patch_zupd, decide_True; done.
Qed.

(** ** Releasing the shadow copies *)

Lemma shadow_clear_spec (p : patch_t) :
  shadow_clear p = true <->
  NPar_Copy p = -1 /\ forall v, (v < NParVar)%nat -> not_null p v = false.
Proof.
  unfold shadow_clear. rewrite andb_true_iff, Z.eqb_eq, forallb_forall.
  split; intros [H1 H2]; (split; [done|]).
  - intros v Hv. apply negb_true_iff, H2, in_seq. lia.
  - intros v Hv%in_seq. apply negb_true_iff, H2. lia.
Qed.

Lemma not_null_free_var (v w : nat) (p : patch_t) :
  not_null (free_var v p) w = if decide (v = w) then false else not_null p w.
Proof.
  unfold free_var, not_null.
  destruct (ParMassPos_Copy p !! v) as [[a|]|] eqn:Hv; simpl.
  - destruct (decide (v = w)) as [<-|Hne].
    + rewrite list_lookup_insert_eq; [done | by eapply lookup_lt_Some].
    + by rewrite list_lookup_insert_ne.
  - destruct (decide (v = w)) as [<-|]; [by rewrite Hv | done].
  - destruct (decide (v = w)) as [<-|]; [by rewrite Hv | done].
Qed.

Lemma free_var_id (v : nat) (p : patch_t) : not_null p v = false -> free_var v p = p.
Proof. unfold free_var, not_null. by destruct (ParMassPos_Copy p !! v) as [[a|]|]. Qed.

Lemma free_patch_clear (p : patch_t) : shadow_clear (free_patch p) = true.
Proof.
  apply shadow_clear_spec. split; [done|]. intros v Hv.
  unfold free_patch, for_loop, NParVar in *. simpl.
  change (not_null (set_NPar_Copy (-1) ?q) v) with (not_null q v).
  rewrite !not_null_free_var.
  repeat (destruct (decide _); [done|]). lia.
Qed.

Lemma free_patch_id (p : patch_t) : shadow_clear p = true -> free_patch p = p.
Proof.
  intros [Hn Hv]%shadow_clear_spec. unfold free_patch, for_loop, NParVar in *. simpl.
  rewrite (free_var_id 0 p), (free_var_id 1 p), (free_var_id 2 p), (free_var_id 3 p)
    by (apply Hv; lia).
  destruct p; simpl in *. unfold set_NPar_Copy; simpl. by rewrite Hn.
Qed.

Lemma free_patch_idem (p : patch_t) : free_patch (free_patch p) = free_patch p.
Proof. apply free_patch_id, free_patch_clear. Qed.

(** A loop over table entries is the sequence of its updates. *)
Lemma for_loop_listed (lv' lv k n : nat) (f : patch_t -> patch_t) (amr : AMR_t) :
  for_loop 0 n
    (fun p a => zupd_patch lv' (nget 0 (R2B [] (R2B_Buff_PIDList (Par a)) lv k) p) f a) amr
  = foldl (fun a pid => zupd_patch lv' pid f a) amr
      ((fun p => nget 0 (R2B [] (R2B_Buff_PIDList (Par amr)) lv k) p) <$> seq 0 n).
Proof.
  induction n as [|n IH]; [done|].
  rewrite for_loop_S, seq_S, fmap_app, foldl_app, IH. simpl.
  set (a := foldl _ _ _).
  assert (Par a = Par amr) as ->; [|done].
  apply (foldl_zupd_env lv' f _ amr).
Qed.

Lemma for_loop_real (lv n : nat) (f : patch_t -> patch_t) (amr : AMR_t) :
  for_loop 0 n (fun PID a => upd_patch lv PID f a) amr
  = foldl (fun a pid => zupd_patch lv pid f a) amr (Z.of_nat <$> seq 0 n).
Proof.
  induction n as [|n IH]; [done|].
  rewrite for_loop_S, seq_S, fmap_app, foldl_app, IH. simpl.
  unfold zupd_patch at 2. destruct (Z.ltb_spec (Z.of_nat n) 0); [lia|].
  by rewrite Nat2Z.id.
Qed.

Lemma elem_of_real_PIDs (P n : nat) : Z.of_nat P ∈ Z.of_nat <$> seq 0 n <-> (P < n)%nat.
Proof.
  rewrite list_elem_of_fmap. split.
  - intros (i & Hi & Hin%elem_of_seq). lia.
  - intros HP. exists P. split; [done|]. apply elem_of_seq. lia.
Qed.

Lemma listed_PIDs_env (a a' : AMR_t) (lv k : nat) :
  same_env a a' -> listed_PIDs a' lv k = listed_PIDs a lv k.
Proof. intros (_ & _ & _ & _ & _ & HP). unfold listed_PIDs. by rewrite HP. Qed.

Lemma FreeMemory_release_unfold (lv : nat) (Sib FaSib : bool) (amr : AMR_t) :
  FreeMemory_release lv Sib FaSib amr =
  let a1 := foldl (fun a pid => zupd_patch lv pid free_patch a) amr
              (Z.of_nat <$> seq 0 (NReal amr lv)) in
  let a2 := if Sib
            then foldl (fun a pid => zupd_patch lv pid free_patch a) a1 (listed_PIDs amr lv 0)
            else a1 in
  if FaSib && (1 <=? lv)%nat
  then foldl (fun a pid => zupd_patch (lv - 1) pid free_patch a) a2 (listed_PIDs amr lv 1)
  else a2.
Proof.
  unfold FreeMemory_release. rewrite for_loop_real. cbv zeta.
  set (a1 := foldl _ amr _).
  assert (same_env amr a1) as H1 by apply foldl_zupd_env.
  assert (forall l a, same_env amr a ->
            for_loop 0 (Z.to_nat (R2B 0 (R2B_Buff_NPatchTotal (Par a)) lv l))
              (fun p a0 => zupd_patch lv (nget 0 (R2B [] (R2B_Buff_PIDList (Par a0)) lv l) p)
                             free_patch a0) a
            = foldl (fun a0 pid => zupd_patch lv pid free_patch a0) a (listed_PIDs amr lv l)) as Hl.
  { intros l a Ha. rewrite for_loop_listed. by rewrite <- (listed_PIDs_env amr a). }
  assert (forall l a, same_env amr a ->
            for_loop 0 (Z.to_nat (R2B 0 (R2B_Buff_NPatchTotal (Par a)) lv l))
              (fun p a0 => zupd_patch (lv - 1)
                             (nget 0 (R2B [] (R2B_Buff_PIDList (Par a0)) lv l) p)
                             free_patch a0) a
            = foldl (fun a0 pid => zupd_patch (lv - 1) pid free_patch a0) a
                (listed_PIDs amr lv l)) as Hl'.
  { intros l a Ha. rewrite for_loop_listed. by rewrite <- (listed_PIDs_env amr a). }
  rewrite (Hl 0%nat a1 H1).
  set (a2 := if Sib then _ else a1).
  assert (same_env amr a2) as H2.
  { subst a2. destruct Sib; [|done].
    eapply same_env_trans; [apply H1 | apply foldl_zupd_env]. }
  by rewrite (Hl' 1%nat a2 H2).
Qed.

Lemma stage_cases (lv : nat) (f : patch_t -> patch_t) (pids : list Z) (a : AMR_t) (l P : nat) :
  (forall p, f (f p) = f p) ->
  get_patch (foldl (fun a pid => zupd_patch lv pid f a) a pids) l P =
  if decide (l = lv /\ Z.of_nat P ∈ pids) then f <$> get_patch a l P else get_patch a l P.
Proof.
  intros Hf. destruct (decide _) as [[-> Hin]|Hn].
  - by apply foldl_zupd_listed.
  - apply foldl_zupd_other. destruct (decide (l = lv)); [right | by left].
    intros ?. by apply Hn.
Qed.

Lemma FreeMemory_release_env (lv : nat) (Sib FaSib : bool) (amr : AMR_t) :
  same_env amr (FreeMemory_release lv Sib FaSib amr).
Proof.
  rewrite FreeMemory_release_unfold. cbv zeta.
  assert (forall l pids a, same_env amr a ->
            same_env amr (foldl (fun a pid => zupd_patch l pid free_patch a) a pids)) as Hs.
  { intros l pids a Ha. eapply same_env_trans; [apply Ha | apply foldl_zupd_env]. }
  destruct Sib, (FaSib && _); repeat apply Hs; apply same_env_refl.
Qed.

Lemma fmap_free_patch_idem (x : option patch_t) :
  free_patch <$> (free_patch <$> x) = free_patch <$> x.
Proof. destruct x; simpl; [by rewrite free_patch_idem | done]. Qed.

(** What a release does to each patch. *)
Lemma FreeMemory_release_spec (lv : nat) (Sib FaSib : bool) (amr : AMR_t) (l P : nat) :
  (released lv Sib FaSib amr l P ->
   get_patch (FreeMemory_release lv Sib FaSib amr) l P = free_patch <$> get_patch amr l P) /\
  (~ released lv Sib FaSib amr l P ->
   get_patch (FreeMemory_release lv Sib FaSib amr) l P = get_patch amr l P).
Proof.
  rewrite FreeMemory_release_unfold. cbv zeta. unfold released.
  pose proof (elem_of_real_PIDs P (NReal amr lv)) as Hreal.
  assert (false = true -> False) as Hft by discriminate.
  destruct (Nat.leb_spec 1 lv) as [Hlv|Hlv];
    [|assert (~ (1 <= lv)%nat) by lia; clear Hlv];
    destruct Sib, FaSib; simpl;
    rewrite ?(stage_cases _ _ _ _ _ _ free_patch_idem);
    repeat (destruct (decide _));
    rewrite ?fmap_free_patch_idem;
    (split; [intros Hr | intros Hn]); try done; exfalso; tauto.
Qed.

Lemma foldl_zupd_noop (lv : nat) (pids : list Z) (amr : AMR_t) :
  (forall P p, Z.of_nat P ∈ pids -> get_patch amr lv P = Some p -> shadow_clear p = true) ->
  foldl (fun a pid => zupd_patch lv pid free_patch a) amr pids = amr.
Proof.
  induction pids as [|pid pids IH]; intros Hc; simpl; [done|].
  rewrite zupd_patch_id.
  - apply IH. intros P p Hin. apply Hc. by right.
  - intros P p HP Hp. apply free_patch_id, (Hc P); [|done]. rewrite HP. by left.
Qed.

Lemma FreeMemory_release_noop (lv : nat) (Sib FaSib : bool) (amr : AMR_t) :
  released_clear lv Sib FaSib amr -> FreeMemory_release lv Sib FaSib amr = amr.
Proof.
  intros Hc. rewrite FreeMemory_release_unfold. cbv zeta.
  rewrite (foldl_zupd_noop lv (Z.of_nat <$> _)).
  2:{ intros P p HP%elem_of_real_PIDs. apply Hc. by left. }
  assert ((if Sib then foldl (fun a pid => zupd_patch lv pid free_patch a) amr
                         (listed_PIDs amr lv 0) else amr) = amr) as ->.
  { destruct Sib; [|done]. apply foldl_zupd_noop. intros P p HP. apply Hc.
    right; left. done. }
  destruct (Nat.leb_spec 1 lv); destruct FaSib; simpl; try done.
  apply foldl_zupd_noop. intros P p HP. apply Hc. right; right. done.
Qed.

Lemma released_env (lv : nat) (Sib FaSib : bool) (a a' : AMR_t) (l P : nat) :
  same_env a a' -> released lv Sib FaSib a' l P <-> released lv Sib FaSib a l P.
Proof.
  intros He. unfold released, NReal.
  rewrite !(listed_PIDs_env a a') by done.
  destruct He as (-> & _). done.
Qed.

Lemma FreeMemory_release_clear (lv : nat) (Sib FaSib : bool) (amr : AMR_t) :
  released_clear lv Sib FaSib (FreeMemory_release lv Sib FaSib amr).
Proof.
  intros l P p Hr Hp.
  apply (released_env _ _ _ amr) in Hr; [|apply FreeMemory_release_env].
  apply FreeMemory_release_spec in Hr. rewrite Hr in Hp.
  destruct (get_patch amr l P); simplify_eq/=. apply free_patch_clear.
Qed.

Lemma FreeMemory_release_idem (lv : nat) (Sib FaSib : bool) (amr : AMR_t) :
  FreeMemory_release lv Sib FaSib (FreeMemory_release lv Sib FaSib amr)
  = FreeMemory_release lv Sib FaSib amr.
Proof. apply FreeMemory_release_noop, FreeMemory_release_clear. Qed.

Lemma shadow_clear_false_null (p : patch_t) (v : nat) :
  (v < NParVar)%nat -> not_null p v = true -> shadow_clear p = false.
Proof.
  intros Hv Hn. destruct (shadow_clear p) eqn:Hc; [|done].
  apply shadow_clear_spec in Hc as [_ Hc]. rewrite Hc in Hn; done.
Qed.

Lemma shadow_clear_false_count (p : patch_t) :
  NPar_Copy p <> -1 -> shadow_clear p = false.
Proof.
  intros Hn. destruct (shadow_clear p) eqn:Hc; [|done].
  by apply shadow_clear_spec in Hc as [? _].
Qed.

Lemma FreeMemory_check_level_post (TLv : nat) (a : AMR_t) :
  post (fun a' => a' = a /\
                  forall PID, (PID < nget 0%nat (num a) TLv)%nat ->
                              shadow_clear (the_patch a TLv PID) = true)
       (fun s => s = a /\
                 exists PID, (PID < nget 0%nat (num a) TLv)%nat /\
                             shadow_clear (the_patch a TLv PID) = false)
       (FreeMemory_check_level TLv a).
Proof.
  unfold FreeMemory_check_level.
  set (E := fun s => s = a /\ exists PID, (PID < nget 0%nat (num a) TLv)%nat /\
                                          shadow_clear (the_patch a TLv PID) = false).
  apply (for_loopE_ind
           (fun i s => s = a /\ forall PID, (PID < i)%nat ->
                                            shadow_clear (the_patch a TLv PID) = true) E).
  { split; [done | lia]. }
  intros i s' Hi [-> Hprev].
  eapply post_bind.
  - apply (for_loopE_ind
             (fun v s => s = a /\ forall w, (w < v)%nat ->
                                            not_null (the_patch a TLv i) w = false) E).
    { split; [done | lia]. }
    intros v s'' Hv [-> Hw].
    destruct (not_null (the_patch a TLv i) v) eqn:Hnn; simpl.
    + split; [done|]. exists i. split; [lia|].
      apply (shadow_clear_false_null _ v); [lia | done].
    + split; [done|]. intros w Hw'.
      destruct (decide (w = v)) as [->|]; [done | apply Hw; lia].
  - intros s'' [-> Hnull]. simpl in Hnull.
    destruct (Z.eqb_spec (NPar_Copy (the_patch a TLv i)) (-1)) as [Hc|Hc]; simpl.
    + split; [done|]. intros PID HPID.
      destruct (decide (PID = i)) as [->|]; [|apply Hprev; lia].
      apply shadow_clear_spec. split; [done|]. intros v Hv. apply Hnull. done.
    + split; [done|]. exists i. split; [lia|]. by apply shadow_clear_false_count.
Qed.

Lemma FreeMemory_check_post (lv : nat) (a : AMR_t) :
  post (fun a' => a' = a /\ scan_clear lv a)
       (fun s => s = a /\ ~ scan_clear lv a)
       (FreeMemory_check lv a).
Proof.
  unfold FreeMemory_check.
  eapply post_bind.
  - eapply post_mono; [apply FreeMemory_check_level_post | intros a' H; exact H |].
    intros s [-> (PID & HPID & Hc)]. split; [done|]. intros Hs.
    rewrite (Hs lv PID) in Hc; [done | by left | done].
  - intros a' [-> H1]. destruct (Nat.ltb_spec 0 lv) as [Hlv|Hlv].
    + eapply post_mono; [apply FreeMemory_check_level_post | |].
      * intros a' [-> H2]. split; [done|]. intros TLv PID [->|[_ ->]]; auto.
      * intros s [-> (PID & HPID & Hc)]. split; [done|]. intros Hs.
        rewrite (Hs (lv - 1)%nat PID) in Hc; [done | right; split; [lia | done] | done].
    + simpl. split; [done|]. intros TLv PID [->|[? ->]]; [auto | lia].
Qed.

Lemma FreeMemory_state (dbg : bool) (lv : nat) (Sib FaSib : bool) (amr : AMR_t) :
  state_of (Par_LB_CollectParticle2OneLevel_FreeMemory dbg lv Sib FaSib amr)
  = FreeMemory_release lv Sib FaSib amr.
Proof.
  unfold Par_LB_CollectParticle2OneLevel_FreeMemory. destruct dbg; [|done].
  pose proof (FreeMemory_check_post lv (FreeMemory_release lv Sib FaSib amr)) as H.
  destruct (FreeMemory_check _ _); simpl in *; by destruct H.
Qed.

(** C8, as amended.  Let every patch that the call is to release (the real
    patches of the level and the buffer patches that the two flags select)
    have NPar_Copy == -1 and four NULL pointers.  Then the production build
    returns the state as it was.  The diagnostic build returns the state as
    it was when every patch of the level and of the level below, real or
    buffer, holds no shadow copy; when one of them holds a shadow copy, it
    stops in Aux_Error, the state still as it was.  And for every state, in
    either build, a second call right after a first one gives what the first
    one gave. *)
Theorem FreeMemory_idempotent (dbg : bool) (lv : nat) (Sib FaSib : bool) (amr : AMR_t) :
  (released_clear lv Sib FaSib amr ->
   Par_LB_CollectParticle2OneLevel_FreeMemory false lv Sib FaSib amr = Ok amr /\
   (scan_clear lv amr ->
    Par_LB_CollectParticle2OneLevel_FreeMemory true lv Sib FaSib amr = Ok amr) /\
   (~ scan_clear lv amr ->
    exists msg, Par_LB_CollectParticle2OneLevel_FreeMemory true lv Sib FaSib amr
                = Aux_Error msg amr)) /\
  (amr' <- Par_LB_CollectParticle2OneLevel_FreeMemory dbg lv Sib FaSib amr ;;
   Par_LB_CollectParticle2OneLevel_FreeMemory dbg lv Sib FaSib amr')
  = Par_LB_CollectParticle2OneLevel_FreeMemory dbg lv Sib FaSib amr.
Proof.
  split.
  - intros Hc. unfold Par_LB_CollectParticle2OneLevel_FreeMemory.
    rewrite FreeMemory_release_noop by done.
    pose proof (FreeMemory_check_post lv amr) as H.
    split; [done|].
    destruct (FreeMemory_check lv amr) as [a'|msg s]; simpl in H; destruct H as [-> Hs].
    + split; [done|]. by intros Hn.
    + split; [by intros Hy | by exists msg].
  - unfold Par_LB_CollectParticle2OneLevel_FreeMemory. destruct dbg; simpl.
    + pose proof (FreeMemory_check_post lv (FreeMemory_release lv Sib FaSib amr)) as H.
      destruct (FreeMemory_check lv (FreeMemory_release lv Sib FaSib amr)) as [a'|msg s] eqn:Hchk;
        simpl in *; [|done].
      destruct H as [-> _]. by rewrite FreeMemory_release_idem.
    + by rewrite FreeMemory_release_idem.
Qed.

(** C9, as amended.  Whatever the two flags, a call either returns or, in
    the diagnostic build only, stops in Aux_Error.  When it returns, every
    patch it was to release (real patches of the level; listed sibling-buffer
    patches of the level if SibBufPatch; listed father-sibling-buffer patches
    of the level below if FaSibBufPatch and lv > 0) has NPar_Copy == -1 and
    four NULL pointers, every other patch is as it was, and in the diagnostic
    build all patches of both levels passed the scan.  When it stops, some
    patch of the two levels still held a shadow copy after the release. *)
Theorem FreeMemory_postcondition (dbg : bool) (lv : nat) (Sib FaSib : bool) (amr : AMR_t) :
  post (fun amr' =>
          (forall l P p', released lv Sib FaSib amr l P -> get_patch amr' l P = Some p' ->
                          shadow_clear p' = true) /\
          (forall l P, ~ released lv Sib FaSib amr l P ->
                       get_patch amr' l P = get_patch amr l P) /\
          (dbg = true -> scan_clear lv amr'))
       (fun s => dbg = true /\ s = FreeMemory_release lv Sib FaSib amr /\ ~ scan_clear lv s)
       (Par_LB_CollectParticle2OneLevel_FreeMemory dbg lv Sib FaSib amr).
Proof.
  assert (forall l P p', released lv Sib FaSib amr l P ->
            get_patch (FreeMemory_release lv Sib FaSib amr) l P = Some p' ->
            shadow_clear p' = true) as H1.
  { intros l P p' Hr Hp. apply (FreeMemory_release_clear lv Sib FaSib amr l P); [|done].
    apply (released_env lv Sib FaSib amr); [apply FreeMemory_release_env | done]. }
  assert (forall l P, ~ released lv Sib FaSib amr l P ->
            get_patch (FreeMemory_release lv Sib FaSib amr) l P = get_patch amr l P) as H2.
  { intros l P. apply FreeMemory_release_spec. }
  unfold Par_LB_CollectParticle2OneLevel_FreeMemory. destruct dbg; simpl.
  - eapply post_mono; [apply FreeMemory_check_post | |].
    + intros a' [-> Hs]. auto.
    + intros s [-> Hs]. auto.
  - repeat split; [done | done | discriminate].
Qed.

(** ** What a call leaves alone *)

Lemma same_base_refl (p : patch_t) : same_base p p.
Proof. by repeat split. Qed.

Lemma same_base_trans (p q r : patch_t) : same_base p q -> same_base q r -> same_base p r.
Proof. unfold same_base. intuition congruence. Qed.

Lemma patches_rel_refl (R : nat -> patch_t -> patch_t -> Prop) (lv : nat) (amr : AMR_t) :
  (forall P p, get_patch amr lv P = Some p -> R P p p) -> patches_rel R lv amr amr.
Proof.
  intros HR. split; [apply same_env_refl|]. split; [done|].
  intros P. destruct (get_patch amr lv P) eqn:Hp; constructor. by apply HR.
Qed.

Lemma patches_rel_mono (R R' : nat -> patch_t -> patch_t -> Prop) (lv : nat) (amr a : AMR_t) :
  patches_rel R lv amr a ->
  (forall P p0 p, get_patch amr lv P = Some p0 -> get_patch a lv P = Some p ->
                  R P p0 p -> R' P p0 p) ->
  patches_rel R' lv amr a.
Proof.
  intros (He & Ho & HR) Hm. split; [done|]. split; [done|].
  intros P. specialize (HR P). specialize (Hm P).
  destruct HR; constructor. by apply Hm.
Qed.

(** One assignment to the patch [pid] of the level. *)
Lemma patches_rel_zupd (R R' : nat -> patch_t -> patch_t -> Prop) (lv : nat) (pid : Z)
    (f : patch_t -> patch_t) (amr a : AMR_t) :
  patches_rel R lv amr a ->
  (forall P p0 p, get_patch amr lv P = Some p0 -> get_patch a lv P = Some p -> R P p0 p ->
                  if decide (Z.of_nat P = pid) then R' P p0 (f p) else R' P p0 p) ->
  patches_rel R' lv amr (zupd_patch lv pid f a).
Proof.
  intros (He & Ho & HR) Hstep. split; [|split].
  - eapply same_env_trans; [apply He | apply same_env_zupd].
  - intros l P Hl. rewrite get_patch_zupd, decide_False; [by apply Ho | by intros [? _]].
  - intros P. rewrite get_patch_zupd. specialize (HR P). specialize (Hstep P).
    destruct HR as [p0 p Hp|].
    + specialize (Hstep p0 p eq_refl eq_refl Hp).
      destruct (decide (Z.of_nat P = pid)).
      * rewrite decide_True by done. by constructor.
      * rewrite decide_False by (by intros [_ ?]). by constructor.
    + destruct (decide (lv = lv /\ Z.of_nat P = pid)); constructor.
Qed.

Lemma patches_rel_upd (R R' : nat -> patch_t -> patch_t -> Prop) (lv PID : nat)
    (f : patch_t -> patch_t) (amr a : AMR_t) :
  patches_rel R lv amr a ->
  (forall P p0 p, get_patch amr lv P = Some p0 -> get_patch a lv P = Some p -> R P p0 p ->
                  if decide (P = PID) then R' P p0 (f p) else R' P p0 p) ->
  patches_rel R' lv amr (upd_patch lv PID f a).
Proof.
  intros Hrel Hstep.
  replace (upd_patch lv PID f a) with (zupd_patch lv (Z.of_nat PID) f a).
  - eapply patches_rel_zupd; [done|]. intros P p0 p H0 H1 H2.
    specialize (Hstep P p0 p H0 H1 H2).
    destruct (decide (P = PID)) as [->|]; [by rewrite decide_True|].
    rewrite decide_False; [done | lia].
  - unfold zupd_patch. destruct (Z.ltb_spec (Z.of_nat PID) 0); [lia|]. by rewrite Nat2Z.id.
Qed.

Lemma the_patch_Some (a : AMR_t) (lv P : nat) (p : patch_t) :
  get_patch a lv P = Some p -> the_patch a lv P = p.
Proof. unfold the_patch. by intros ->. Qed.

Lemma zthe_patch_of_nat (a : AMR_t) (lv P : nat) :
  zthe_patch a lv (Z.of_nat P) = the_patch a lv P.
Proof.
  unfold zthe_patch. destruct (Z.ltb_spec (Z.of_nat P) 0); [lia|]. by rewrite Nat2Z.id.
Qed.

Lemma frame_refl (FaLv : nat) (amr : AMR_t) : frame FaLv amr amr.
Proof. apply patches_rel_refl. intros. apply same_base_refl. Qed.

Lemma frame_zupd (FaLv : nat) (pid : Z) (f : patch_t -> patch_t) (amr a : AMR_t) :
  (forall p, same_base p (f p)) -> frame FaLv amr a -> frame FaLv amr (zupd_patch FaLv pid f a).
Proof.
  intros Hf Hfr. eapply patches_rel_zupd; [apply Hfr|].
  intros P p0 p _ _ Hb. destruct (decide _); [|done].
  eapply same_base_trans; [apply Hb | apply Hf].
Qed.

Lemma frame_upd (FaLv PID : nat) (f : patch_t -> patch_t) (amr a : AMR_t) :
  (forall p, same_base p (f p)) -> frame FaLv amr a -> frame FaLv amr (upd_patch FaLv PID f a).
Proof.
  intros Hf Hfr. eapply patches_rel_upd; [apply Hfr|].
  intros P p0 p _ _ Hb. destruct (decide _); [|done].
  eapply same_base_trans; [apply Hb | apply Hf].
Qed.

Lemma same_base_set_NPar_Copy (n : Z) (p : patch_t) : same_base p (set_NPar_Copy n p).
Proof. by repeat split. Qed.

Lemma same_base_set_ParMassPos_Copy (x : list (option (list real))) (p : patch_t) :
  same_base p (set_ParMassPos_Copy x p).
Proof. by repeat split. Qed.

Lemma for_loop_inv {St} (I : St -> Prop) (lo n : nat) (body : nat -> St -> St) (s : St) :
  I s -> (forall i s', I s' -> I (body i s')) -> I (for_loop lo n body s).
Proof. intros H0 Hs. apply (for_loop_ind (fun _ => I)); auto. Qed.

Lemma for_loopE_inv {St} (I : St -> Prop) (E : AMR_t -> Prop) (lo n : nat)
    (body : nat -> St -> result St) (s : St) :
  I s -> (forall i s', I s' -> post I E (body i s')) -> post I E (for_loopE lo n body s).
Proof. intros H0 Hs. apply (for_loopE_ind (fun _ => I)); auto. Qed.

Lemma post_check {A} (dbg bad : bool) (msg : string) (s : AMR_t) (k : result A)
    (Q : A -> Prop) (E : AMR_t -> Prop) :
  E s -> post Q E k -> post Q E (check dbg bad msg s k).
Proof. intros HE Hk. unfold check. by destruct (dbg && bad). Qed.

Lemma post_check_inv {A} (dbg bad : bool) (msg : string) (s : AMR_t) (k : result A)
    (Q : A -> Prop) (E : AMR_t -> Prop) :
  E s -> (dbg && bad = false -> post Q E k) -> post Q E (check dbg bad msg s k).
Proof. intros HE Hk. unfold check. destruct (dbg && bad); [done | by apply Hk]. Qed.

Lemma post_check_at {A} (dbg bad : bool) (msg : string) (s : AMR_t) (k : result A)
    (Q : A -> Prop) (E : AMR_t -> Prop) :
  (dbg = true -> E s) -> post Q E k -> post Q E (check dbg bad msg s k).
Proof. intros HE Hk. unfold check. destruct dbg, bad; simpl; auto. Qed.

(** A check stops the diagnostic build only. *)
Lemma post_check_debug {A} (dbg bad : bool) (msg : string) (s : AMR_t) (k : result A)
    (Q : A -> Prop) :
  post Q (fun _ => dbg = true) k -> post Q (fun _ => dbg = true) (check dbg bad msg s k).
Proof. unfold check. destruct dbg, bad; simpl; auto. Qed.

(** A check that [Sure] rules out. *)
Lemma post_check_sure {A} (dbg bad : bool) (msg : string) (s : AMR_t) (k : result A)
    (Q : A -> Prop) (Sure : Prop) :
  (Sure -> bad = false) ->
  post Q (fun _ => dbg = true /\ ~ Sure) k ->
  post Q (fun _ => dbg = true /\ ~ Sure) (check dbg bad msg s k).
Proof.
  intros Hb Hk. unfold check. destruct dbg, bad; simpl; try done.
  split; [done|]. intros HS. by specialize (Hb HS).
Qed.

Lemma same_base_write_shadow (v : nat) (i : Z) (x : real) (p : patch_t) :
  same_base p (write_shadow v i x p).
Proof. by repeat split. Qed.

Lemma same_base_alloc_shadow (n : Z) (v : nat) (p : patch_t) :
  same_base p (alloc_shadow n v p).
Proof. by repeat split. Qed.

Lemma option_Forall2_same_base_refl (x : option patch_t) : option_Forall2 same_base x x.
Proof. destruct x; constructor. apply same_base_refl. Qed.

Lemma option_Forall2_same_base_trans (x y z : option patch_t) :
  option_Forall2 same_base x y -> option_Forall2 same_base y z -> option_Forall2 same_base x z.
Proof.
  intros H1 H2. destruct H1; inversion H2; subst; constructor.
  by eapply same_base_trans.
Qed.

Lemma only_shadows_written_refl (FaLv : nat) (amr : AMR_t) : only_shadows_written FaLv amr amr.
Proof.
  split; [apply same_env_refl|]. split; [|done].
  intros. apply option_Forall2_same_base_refl.
Qed.

Lemma only_shadows_written_trans (FaLv : nat) (a b c : AMR_t) :
  only_shadows_written FaLv a b -> only_shadows_written FaLv b c ->
  only_shadows_written FaLv a c.
Proof.
  intros (E1 & B1 & F1) (E2 & B2 & F2). split; [by eapply same_env_trans|]. split.
  - intros l P. by eapply option_Forall2_same_base_trans.
  - intros l P Hl. by rewrite F2, F1.
Qed.

Lemma frame_only_shadows (FaLv : nat) (amr a : AMR_t) :
  frame FaLv amr a -> only_shadows_written FaLv amr a.
Proof.
  intros (He & Ho & HR). split; [done|]. split.
  - intros l P. destruct (decide (l = FaLv)) as [->|Hl]; [apply HR|].
    rewrite Ho by done. apply option_Forall2_same_base_refl.
  - intros l P Hl. apply Ho. lia.
Qed.

Section CollectProperties.

Variables DEBUG_PARTICLE HILBERT : bool.
Variables MAX_LEVEL MPI_NRank MPI_Rank : nat.
Variable PS1 : Z.
Variable LB_Corner2Index : nat -> list Z -> Z.
Variable LB_Index2Rank : nat -> Z -> Z.
Variable Par_PredictPos : AMR_t -> Z -> real * real * real -> real -> real * real * real.
Variable Par_LB_CollectParticleFromRealPatch :
  nat -> Z -> list Z -> list Z -> Z -> list Z -> list Z -> bool -> real -> AMR_t -> AMR_t.
Variable Par_LB_SendParticleData : nat -> SendBuf_t -> bool -> RecvBuf_t.
Variable MPI_Reduce_SUM : nat -> Z -> Z.

Local Abbreviation prepare_send_ :=
  (prepare_send DEBUG_PARTICLE HILBERT MAX_LEVEL MPI_NRank PS1 LB_Corner2Index
     LB_Index2Rank Par_PredictPos).
Local Abbreviation store_received_ := (store_received DEBUG_PARTICLE).
Local Abbreviation collect_buffer_patches_ :=
  (collect_buffer_patches Par_LB_CollectParticleFromRealPatch).
Local Abbreviation Collect :=
  (Par_LB_CollectParticle2OneLevel DEBUG_PARTICLE HILBERT MAX_LEVEL MPI_NRank MPI_Rank PS1
     LB_Corner2Index LB_Index2Rank Par_PredictPos Par_LB_CollectParticleFromRealPatch
     Par_LB_SendParticleData MPI_Reduce_SUM).

(** *** The checks and the send buffers write nothing *)

Lemma for_finer_inv {St} (I : St -> Prop) (E : AMR_t -> Prop) (amr : AMR_t) (FaLv : nat)
    (body : nat -> nat -> St -> result St) (s : St) :
  I s -> (forall lv PID s', I s' -> post I E (body lv PID s')) ->
  post I E (for_finer MAX_LEVEL amr FaLv body s).
Proof.
  intros H0 Hb. unfold for_finer. apply for_loopE_inv; [done|].
  intros lv s' Hs'. apply for_loopE_inv; [done|]. intros PID s''. apply Hb.
Qed.

Lemma prepare_send_post (amr : AMR_t) (FaLv : nat) (PredictPos : bool) (TargetTime : real)
    (JustCountNPar : bool) :
  post (fun _ => True) (fun s => s = amr /\ DEBUG_PARTICLE = true)
       (prepare_send_ amr FaLv PredictPos TargetTime JustCountNPar).
Proof.
  unfold prepare_send. eapply post_bind with (Q' := fun _ => True).
  - apply (for_finer_inv (fun _ => True)); [done|]. intros lv PID s _.
    unfold count_body. destruct (_ =? 0); [done|].
    repeat (apply post_check_at; [done|]). done.
  - intros cnt _. eapply post_bind with (Q' := fun _ => True); [|done].
    apply (for_finer_inv (fun _ => True)); [done|]. intros lv PID s _.
    unfold fill_body. destruct (_ =? 0); [done|].
    repeat (apply post_check_at; [done|]).
    eapply post_bind with (Q' := fun _ => True); [|done]. destruct JustCountNPar; [done|].
    apply (for_loopE_inv (fun _ => True)); [done|]. intros p s' _.
    unfold fill_particle. eapply post_bind with (Q' := fun _ => True); [|done].
    destruct PredictPos; [|done]. by apply post_check_at.
Qed.

Lemma check_flags_post (dbg a b c d : bool) (amr : AMR_t) :
  post (fun s => s = amr) (fun s => s = amr) (check_flags dbg a b c d amr).
Proof. unfold check_flags. destruct d; [|done]. by repeat (apply post_check; [done|]). Qed.

Lemma check_uninitialized_post (FaLv : nat) (amr : AMR_t) :
  post (fun s => s = amr /\
                 (DEBUG_PARTICLE = true ->
                  forall P, (P < NReal amr FaLv)%nat ->
                            shadow_clear (the_patch amr FaLv P) = true))
       (fun s => s = amr /\ DEBUG_PARTICLE = true /\
                 exists P, (P < NReal amr FaLv)%nat /\
                           shadow_clear (the_patch amr FaLv P) = false)
       (check_uninitialized DEBUG_PARTICLE FaLv amr).
Proof.
  unfold check_uninitialized. destruct DEBUG_PARTICLE; [|by split].
  set (E := fun s => s = amr /\ true = true /\
                     exists P, (P < NReal amr FaLv)%nat /\
                               shadow_clear (the_patch amr FaLv P) = false).
  eapply post_mono;
    [apply (for_loopE_ind
              (fun i s => s = amr /\ forall P, (P < i)%nat ->
                                               shadow_clear (the_patch amr FaLv P) = true) E)
    | | done].
  - split; [done | lia].
  - intros i s' Hi [-> Hprev].
    destruct (Z.eqb_spec (NPar_Copy (the_patch amr FaLv i)) (-1)) as [Hc|Hc]; simpl.
    + eapply post_mono;
        [apply (for_loopE_ind
                  (fun v s => s = amr /\ forall w, (w < v)%nat ->
                                                   not_null (the_patch amr FaLv i) w = false) E)
        | | done].
      * split; [done | lia].
      * intros v s'' Hv [-> Hw].
        destruct (not_null (the_patch amr FaLv i) v) eqn:Hnn; simpl.
        -- split; [done|]. split; [done|]. exists i. split; [lia|].
           apply (shadow_clear_false_null _ v); [lia | done].
        -- split; [done|]. intros w Hw'.
           destruct (decide (w = v)) as [->|]; [done | apply Hw; lia].
      * intros s'' [-> Hnull]. split; [done|]. intros P HP.
        destruct (decide (P = i)) as [->|]; [|apply Hprev; lia].
        apply shadow_clear_spec. split; [done|]. intros v Hv. by apply Hnull.
    + split; [done|]. split; [done|]. exists i. split; [lia|].
      by apply shadow_clear_false_count.
  - intros s [-> H]. split; [done|]. intros _. apply H.
Qed.

(** *** The reconciliation writes shadow copies of level FaLv only *)

Lemma store_received_frame (FaLv : nat) (PredictPos JustCountNPar : bool) (recv : RecvBuf_t)
    (amr0 amr : AMR_t) :
  frame FaLv amr0 amr ->
  post (frame FaLv amr0) (frame FaLv amr0)
       (store_received_ FaLv PredictPos JustCountNPar recv amr).
Proof.
  intros Hfr. unfold store_received.
  set (amr1 := for_loop 0 _ (seed_body FaLv) amr).
  assert (frame FaLv amr0 amr1) as H1.
  { apply for_loop_inv; [done|]. intros i a Ha. unfold seed_body.
    destruct (negb _); [|done]. apply frame_upd; [|done].
    intros p. apply same_base_set_NPar_Copy. }
  eapply post_bind.
  { apply (for_loopE_inv (fun st => frame FaLv amr0 st.1)); [done|].
    intros t st Hst. unfold accumulate_body.
    repeat (apply post_check; [done|]). simpl.
    apply frame_zupd; [|done]. intros p. apply same_base_set_NPar_Copy. }
  intros st2 H2. eapply post_bind with (Q' := fun st => frame FaLv amr0 st.1).
  { destruct DEBUG_PARTICLE; [|done]. unfold check_FaPIDList.
    apply (for_loopE_inv (fun st => frame FaLv amr0 st.1)); [done|].
    intros t st Hst. by apply post_check. }
  intros st2' H2'. destruct JustCountNPar; [done|].
  set (amr3 := for_loop 0 _ (allocate_body FaLv) _).
  assert (frame FaLv amr0 amr3) as H3.
  { apply for_loop_inv; [done|]. intros i a Ha. unfold allocate_body.
    destruct (0 <? _); [|done]. apply frame_upd; [apply same_base_set_NPar_Copy|].
    apply for_loop_inv; [done|]. intros v a' Ha'. apply frame_upd; [|done].
    intros p. apply same_base_alloc_shadow. }
  eapply post_bind with (Q' := fun st => frame FaLv amr0 st.1).
  { apply (for_loopE_inv (fun st => frame FaLv amr0 st.1)); [done|].
    intros t st Hst. unfold store_body.
    assert (frame FaLv amr0
              (zupd_patch FaLv (nget 0 st2'.2 t)
                 (fun q => set_NPar_Copy
                             (NPar_Copy q + nget 0 (RecvBuf_NParEachPatch recv) t) q) st.1)) as Hq.
    { apply frame_zupd; [|done]. intros p. apply same_base_set_NPar_Copy. }
    apply post_check; [done|].
    apply (for_loopE_inv (fun st => frame FaLv amr0 st.1)); [done|].
    intros i st' Hst'. unfold store_particle.
    eapply post_bind with (Q' := fun st => frame FaLv amr0 st.1).
    { apply (for_loopE_inv (fun st => frame FaLv amr0 st.1)); [done|].
      intros v s Hs. by apply post_check. }
    intros _ _.
    set (st3 := for_loop 0 NParVar _ st').
    assert (frame FaLv amr0 st3.1) as Hst3.
    { apply (for_loop_inv (fun st => frame FaLv amr0 st.1)); [done|].
      intros v s Hs. simpl. apply frame_zupd; [|done].
      intros p. apply same_base_write_shadow. }
    apply post_check; [done|]. destruct (negb PredictPos); [|done].
    apply (for_loopE_inv (fun st => frame FaLv amr0 st.1)); [done|].
    intros d s Hs. by apply post_check. }
  intros st4 H4.
  apply for_loopE_inv; [done|]. intros P a Ha. unfold merge_body.
  destruct (_ && _); [|done].
  eapply post_bind with (Q' := frame FaLv amr0).
  - apply for_loopE_inv; [done|]. intros p a' Ha'. unfold merge_particle.
    apply post_check; [done|]. simpl. apply frame_upd; [|done].
    intros q. repeat (eapply same_base_trans; [|apply same_base_write_shadow]).
    apply same_base_refl.
  - intros a' Ha'. simpl. apply frame_upd; [|done]. intros q. apply same_base_set_NPar_Copy.
Qed.

Lemma check_total_post (FaLv : nat) (amr : AMR_t) :
  post (fun s => s = amr) (fun s => s = amr /\ DEBUG_PARTICLE = true)
       (check_total DEBUG_PARTICLE MAX_LEVEL MPI_Rank MPI_Reduce_SUM FaLv amr).
Proof. unfold check_total. destruct DEBUG_PARTICLE; [|done]. by destruct (_ && _). Qed.

Lemma collect_buffer_patches_only_shadows (FaLv : nat) (PredictPos : bool) (TargetTime : real)
    (Sib FaSib JustCountNPar : bool) (amr : AMR_t) :
  writes_buffers_only Par_LB_CollectParticleFromRealPatch ->
  only_shadows_written FaLv amr
    (collect_buffer_patches_ FaLv PredictPos TargetTime Sib FaSib JustCountNPar amr).
Proof.
  intros HF.
  assert (forall lv n1 l1 l2 n2 l3 l4 pp tt a, (lv <= FaLv)%nat ->
            only_shadows_written FaLv a
              (Par_LB_CollectParticleFromRealPatch lv n1 l1 l2 n2 l3 l4 pp tt a)) as Hone.
  { intros lv n1 l1 l2 n2 l3 l4 pp tt a Hlv.
    destruct (HF lv n1 l1 l2 n2 l3 l4 pp tt a) as (He & Ho & Hb).
    split; [done|]. split; [done|]. intros l P Hl. apply Ho. left. lia. }
  unfold collect_buffer_patches.
  set (amr1 := if Sib && negb JustCountNPar then _ else amr).
  assert (only_shadows_written FaLv amr amr1) as H1.
  { subst amr1. destruct (Sib && _); [by apply Hone | apply only_shadows_written_refl]. }
  destruct (FaSib && _ && _); [|done].
  eapply only_shadows_written_trans; [apply H1|]. apply Hone. lia.
Qed.

(** The state a call returns or stops in differs from the state it was given
    in shadow copies only. *)
Lemma Collect_writes_only_shadows (FaLv : nat) (PredictPos : bool) (TargetTime : real)
    (Sib FaSib JustCountNPar : bool) (amr : AMR_t) :
  writes_buffers_only Par_LB_CollectParticleFromRealPatch ->
  post (only_shadows_written FaLv amr) (only_shadows_written FaLv amr)
       (Collect FaLv PredictPos TargetTime Sib FaSib JustCountNPar amr).
Proof.
  intros HF. unfold Par_LB_CollectParticle2OneLevel.
  destruct (_ <? _)%nat; [apply only_shadows_written_refl|].
  eapply post_bind with (Q' := fun _ => True).
  { destruct DEBUG_PARTICLE; [|done].
    eapply post_mono; [apply check_flags_post | done |].
    intros s ->. apply only_shadows_written_refl. }
  intros _ _. eapply post_bind with (Q' := fun _ => True).
  { eapply post_mono; [apply check_uninitialized_post | done |].
    intros s [-> _]. apply only_shadows_written_refl. }
  intros _ _. destruct (_ =? _)%nat.
  { by apply collect_buffer_patches_only_shadows. }
  eapply post_bind with (Q' := fun _ => True).
  { eapply post_mono; [apply prepare_send_post | done |].
    intros s [-> _]. apply only_shadows_written_refl. }
  intros send _. eapply post_bind with (Q' := only_shadows_written FaLv amr).
  { eapply post_mono; [apply store_received_frame, frame_refl | |];
      intros s; apply frame_only_shadows. }
  intros amr4 H4. eapply post_bind with (Q' := only_shadows_written FaLv amr).
  { eapply post_mono; [apply check_total_post | |]; [by intros s -> | by intros s [-> _]]. }
  intros amr5 H5. simpl.
  eapply only_shadows_written_trans; [apply H5|].
  by apply collect_buffer_patches_only_shadows.
Qed.

(** C10. Above the maximum level a call returns at once, with the state it
    was given, whatever the flags and the build. *)
Theorem Collect_above_max_level (FaLv : nat) (PredictPos : bool) (TargetTime : real)
    (Sib FaSib JustCountNPar : bool) (amr : AMR_t) :
  (MAX_LEVEL < FaLv)%nat ->
  Collect FaLv PredictPos TargetTime Sib FaSib JustCountNPar amr = Ok amr.
Proof.
  intros H. unfold Par_LB_CollectParticle2OneLevel.
  by destruct (Nat.ltb_spec MAX_LEVEL FaLv); [|lia].
Qed.

End CollectProperties.

(** ** Loops over patches as functions on one patch *)

Lemma upd_patch_ext (lv PID : nat) (f g : patch_t -> patch_t) (amr : AMR_t) :
  (forall p, get_patch amr lv PID = Some p -> f p = g p) ->
  upd_patch lv PID f amr = upd_patch lv PID g amr.
Proof.
  intros Hfg. unfold upd_patch. f_equal. unfold get_patch in Hfg.
  apply list_alter_ext; [|done]. intros ps Hps.
  apply list_alter_ext; [|done]. intros p Hp. apply Hfg.
  by rewrite Hps.
Qed.

Lemma zupd_patch_ext (lv : nat) (pid : Z) (f g : patch_t -> patch_t) (amr : AMR_t) :
  (forall P p, Z.of_nat P = pid -> get_patch amr lv P = Some p -> f p = g p) ->
  zupd_patch lv pid f amr = zupd_patch lv pid g amr.
Proof.
  intros Hfg. unfold zupd_patch. destruct (Z.ltb_spec pid 0); [done|].
  apply upd_patch_ext. intros p. apply Hfg. lia.
Qed.

Lemma upd_patch_compose (lv PID : nat) (f g : patch_t -> patch_t) (amr : AMR_t) :
  upd_patch lv PID f (upd_patch lv PID g amr) = upd_patch lv PID (f ∘ g) amr.
Proof.
  unfold upd_patch, set_patch. simpl. f_equal.
  rewrite list_alter_alter_eq. apply list_alter_ext; [|done].
  intros ps _. simpl. by rewrite list_alter_alter_eq.
Qed.

Lemma zupd_patch_compose (lv : nat) (pid : Z) (f g : patch_t -> patch_t) (amr : AMR_t) :
  zupd_patch lv pid f (zupd_patch lv pid g amr) = zupd_patch lv pid (f ∘ g) amr.
Proof. unfold zupd_patch. destruct (pid <? 0); [done | apply upd_patch_compose]. Qed.

Lemma zupd_patch_of_nat (lv PID : nat) (f : patch_t -> patch_t) (amr : AMR_t) :
  zupd_patch lv (Z.of_nat PID) f amr = upd_patch lv PID f amr.
Proof.
  unfold zupd_patch. destruct (Z.ltb_spec (Z.of_nat PID) 0); [lia|]. by rewrite Nat2Z.id.
Qed.

Lemma patches_are_refl (lv : nat) (amr : AMR_t) : patches_are (fun _ p => p) lv amr amr.
Proof. by apply patches_rel_refl. Qed.

Lemma patches_are_ext (F F' : nat -> patch_t -> patch_t) (lv : nat) (amr a : AMR_t) :
  (forall P p0, get_patch amr lv P = Some p0 -> F P p0 = F' P p0) ->
  patches_are F lv amr a -> patches_are F' lv amr a.
Proof.
  intros Hext H. eapply patches_rel_mono; [apply H|].
  intros P p0 p H0 _ ->. by apply Hext.
Qed.

Lemma patches_are_get (F : nat -> patch_t -> patch_t) (lv : nat) (amr a : AMR_t) (P : nat) :
  patches_are F lv amr a -> get_patch a lv P = F P <$> get_patch amr lv P.
Proof. intros (_ & _ & HR). specialize (HR P). destruct HR; simpl; congruence. Qed.

Lemma patches_are_env (F : nat -> patch_t -> patch_t) (lv : nat) (amr a : AMR_t) :
  patches_are F lv amr a -> same_env amr a.
Proof. by intros (? & _). Qed.

Lemma patches_are_zupd (F : nat -> patch_t -> patch_t) (lv : nat) (pid : Z)
    (f : patch_t -> patch_t) (amr a : AMR_t) :
  patches_are F lv amr a ->
  patches_are (fun P p0 => if decide (Z.of_nat P = pid) then f (F P p0) else F P p0)
              lv amr (zupd_patch lv pid f a).
Proof.
  intros H. eapply patches_rel_zupd; [apply H|].
  intros P p0 p _ _ ->. by destruct (decide _).
Qed.

Lemma patches_are_upd (F : nat -> patch_t -> patch_t) (lv PID : nat)
    (f : patch_t -> patch_t) (amr a : AMR_t) :
  patches_are F lv amr a ->
  patches_are (fun P p0 => if decide (P = PID) then f (F P p0) else F P p0)
              lv amr (upd_patch lv PID f a).
Proof.
  intros H. eapply patches_rel_upd; [apply H|].
  intros P p0 p _ _ ->. by destruct (decide _).
Qed.

Lemma patches_are_frame (F : nat -> patch_t -> patch_t) (lv : nat) (amr a : AMR_t) :
  (forall P p, same_base p (F P p)) -> patches_are F lv amr a -> frame lv amr a.
Proof.
  intros HF H. eapply patches_rel_mono; [apply H|]. intros P p0 p _ _ ->. apply HF.
Qed.

(** A loop that assigns to the patches [0 .. n-1] of the level in turn. *)
Lemma patches_are_for_loop (F : nat -> patch_t -> patch_t) (g : patch_t -> patch_t)
    (lv n : nat) (body : nat -> AMR_t -> AMR_t) (amr a : AMR_t) :
  (forall P a', body P a' = upd_patch lv P g a') ->
  patches_are F lv amr a ->
  patches_are (fun P p0 => if decide (P < n)%nat then g (F P p0) else F P p0)
              lv amr (for_loop 0 n body a).
Proof.
  intros Hbody H.
  pose proof (for_loop_ind
                (fun i a' => patches_are
                               (fun P p0 => if decide (P < i)%nat then g (F P p0) else F P p0)
                               lv amr a') 0 n body a) as HI.
  simpl in HI. apply HI; clear HI.
  - apply H.
  - intros i a' Hi Ha'. rewrite Hbody.
    eapply patches_are_ext; [|apply patches_are_upd, Ha']. intros P p0 _. simpl.
    destruct (decide (P = i)) as [->|].
    + rewrite decide_False by lia. by rewrite decide_True by lia.
    + destruct (decide (P < i)%nat); [rewrite decide_True by lia | rewrite decide_False by lia];
        done.
Qed.

Lemma the_patch_cases (a : AMR_t) (lv P : nat) :
  (exists p, get_patch a lv P = Some p /\ the_patch a lv P = p) \/
  (get_patch a lv P = None /\ the_patch a lv P = no_patch).
Proof. unfold the_patch. destruct (get_patch a lv P); eauto. Qed.

Lemma upd_patch_None (lv P : nat) (f : patch_t -> patch_t) (a : AMR_t) :
  get_patch a lv P = None -> upd_patch lv P f a = a.
Proof. intros H. apply upd_patch_id. intros p. by rewrite H. Qed.

Lemma seed_body_upd (FaLv P : nat) (a : AMR_t) :
  seed_body FaLv P a = upd_patch FaLv P seed_patch a.
Proof.
  unfold seed_body.
  destruct (the_patch_cases a FaLv P) as [(p & Hg & ->)|[Hg ->]].
  - destruct (negb (son p =? -1)) eqn:Hs.
    + apply upd_patch_ext. intros p' Hp'. simplify_eq. unfold seed_patch. by rewrite Hs.
    + symmetry. apply upd_patch_id. intros p' Hp'. simplify_eq. unfold seed_patch.
      by rewrite Hs.
  - simpl. by rewrite upd_patch_None.
Qed.

Lemma allocate_body_upd (FaLv P : nat) (a : AMR_t) :
  allocate_body FaLv P a = upd_patch FaLv P allocate_patch a.
Proof.
  unfold allocate_body.
  destruct (the_patch_cases a FaLv P) as [(p & Hg & ->)|[Hg ->]].
  - destruct (0 <? NPar_Copy p) eqn:Hs.
    + unfold for_loop. simpl. rewrite !upd_patch_compose.
      apply upd_patch_ext. intros p' Hp'. simplify_eq. unfold allocate_patch.
      by rewrite Hs.
    + symmetry. apply upd_patch_id. intros p' Hp'. simplify_eq. unfold allocate_patch.
      by rewrite Hs.
  - simpl. by rewrite upd_patch_None.
Qed.

Lemma Par_attr_env (a a' : AMR_t) (v : nat) (ParID : Z) :
  same_env a a' -> Par_attr a' v ParID = Par_attr a v ParID.
Proof. intros (_ & _ & _ & _ & _ & HP). unfold Par_attr. by rewrite HP. Qed.

Lemma merge_one_env (a a' : AMR_t) (k : nat) (q : patch_t) :
  same_env a a' -> merge_one a' k q = merge_one a k q.
Proof. intros He. unfold merge_one. by rewrite !(Par_attr_env a a'). Qed.

Lemma NPar_Copy_write_shadow (v : nat) (i : Z) (x : real) (q : patch_t) :
  NPar_Copy (write_shadow v i x q) = NPar_Copy q.
Proof. done. Qed.

Lemma merge_one_base (amr : AMR_t) (k : nat) (q : patch_t) :
  same_base q (merge_one amr k q) /\ NPar_Copy (merge_one amr k q) = NPar_Copy q.
Proof. by repeat split. Qed.

Lemma for_loop_merge_one_base (amr : AMR_t) (n : nat) (q : patch_t) :
  same_base q (for_loop 0 n (merge_one amr) q) /\
  NPar_Copy (for_loop 0 n (merge_one amr) q) = NPar_Copy q.
Proof.
  induction n as [|n [IH1 IH2]]; [by repeat split|].
  rewrite for_loop_S. simpl. split.
  - eapply same_base_trans; [apply IH1 | apply merge_one_base].
  - by rewrite <- IH2.
Qed.

(** ** The sorting and matching primitives *)

Lemma insert_key_perm (x : Z * Z) (l : list (Z * Z)) : insert_key x l ≡ₚ x :: l.
Proof.
  induction l as [|y l IH]; simpl; [done|].
  destruct (x.1 <=? y.1); [done|]. rewrite IH. apply Permutation_swap.
Qed.

Lemma foldr_insert_key_perm (l : list (Z * Z)) : foldr insert_key [] l ≡ₚ l.
Proof.
  induction l as [|x l IH]; simpl; [done|]. by rewrite insert_key_perm, IH.
Qed.

(** The table of a sort lists every position once, and the sorted keys are
    the keys at the positions of the table. *)
Lemma Mis_Heapsort_spec (N : nat) (keys : list Z) :
  length keys = N ->
  exists sigma : list nat,
    sigma ≡ₚ seq 0 N /\
    (Mis_Heapsort N keys).2 = Z.of_nat <$> sigma /\
    (Mis_Heapsort N keys).1 = (fun i => nget 0 keys i) <$> sigma.
Proof.
  intros Hlen. unfold Mis_Heapsort. cbn [fst snd].
  set (s := foldr insert_key [] _).
  assert (s ≡ₚ zip (take N keys) (Z.of_nat <$> seq 0 N)) as Hperm
    by apply foldr_insert_key_perm.
  rewrite firstn_all2 in Hperm by lia.
  assert (zip keys (Z.of_nat <$> seq 0 N)
          = (fun i => (nget 0 keys i, Z.of_nat i)) <$> seq 0 N) as Hzip.
  { apply list_eq. intros i. rewrite list_lookup_fmap.
    destruct (decide (i < N)%nat) as [Hi|Hi].
    - rewrite lookup_seq_lt by done. simpl.
      destruct (lookup_lt_is_Some_2 keys i) as [k Hk]; [lia|].
      apply lookup_zip_Some. rewrite list_lookup_fmap, lookup_seq_lt by done.
      unfold nget. by rewrite Hk.
    - rewrite lookup_seq_ge by lia. simpl.
      apply lookup_zip_None. left. apply lookup_ge_None. lia. }
  rewrite Hzip in Hperm.
  apply Permutation_map_inv in Hperm as (sigma & Hs & Hsig).
  exists sigma. split; [by symmetry|].
  rewrite Hs. split.
  - apply list_eq. intros i. by rewrite !list_lookup_fmap; destruct (sigma !! i).
  - apply list_eq. intros i. by rewrite !list_lookup_fmap; destruct (sigma !! i).
Qed.

Lemma find_index_elem (k : Z) (a : list Z) (i0 : Z) :
  k ∈ a -> exists j, find_index k a i0 = i0 + Z.of_nat j /\ a !! j = Some k.
Proof.
  revert i0. induction a as [|x a IH]; intros i0 Hin; [by apply elem_of_nil in Hin|].
  simpl. destruct (Z.eqb_spec x k) as [->|Hne].
  - exists 0%nat. split; [lia | done].
  - apply elem_of_cons in Hin as [?|Hin]; [congruence|].
    destruct (IH (i0 + 1) Hin) as (j & Hj & Hl). exists (S j). split; [lia | done].
Qed.

Lemma Mis_Matching_int_lookup (N : nat) (Array : list Z) (M : nat) (Key : list Z) (t : nat)
    (k : Z) :
  (t < M)%nat -> Key !! t = Some k ->
  nget 0 (Mis_Matching_int N Array M Key) t = find_index k (take N Array) 0.
Proof.
  intros Ht Hk. unfold Mis_Matching_int, nget.
  by rewrite list_lookup_fmap, lookup_take_lt, Hk.
Qed.

Lemma apply_records_S (pid : nat -> Z) (f : nat -> patch_t -> patch_t) (n P : nat)
    (p : patch_t) :
  apply_records pid f (S n) P p =
  if decide (Z.of_nat P = pid n) then f n (apply_records pid f n P p)
  else apply_records pid f n P p.
Proof. unfold apply_records. by rewrite seq_S, foldl_snoc. Qed.

Lemma foldr_add_snoc (l : list nat) (x : nat) :
  foldr Nat.add 0%nat (l ++ [x]) = (foldr Nat.add 0%nat l + x)%nat.
Proof. induction l as [|y l IH]; simpl; [lia|]. rewrite IH. lia. Qed.

Lemma data_offset_S (recv : RecvBuf_t) (t : nat) :
  data_offset recv (S t)
  = (data_offset recv t + NParVar * Z.to_nat (nget 0%Z (RecvBuf_NParEachPatch recv) t))%nat.
Proof. unfold data_offset. rewrite seq_S, fmap_app. apply foldr_add_snoc. Qed.

Lemma owner_of_spec (FaLv : nat) (amr : AMR_t) (P : nat) (p : patch_t) :
  level_ok FaLv amr -> (P < NReal amr FaLv)%nat -> get_patch amr FaLv P = Some p ->
  owner_of FaLv amr (LB_Idx p) = Z.of_nat P.
Proof.
  intros Hok HP Hp. unfold owner_of.
  destruct (find_index_elem (LB_Idx p) _ 0 (lo_all _ _ Hok P p HP Hp)) as (j & -> & Hj).
  destruct (lo_tab _ _ Hok j _ Hj) as (Q & q & HQ & HT & Hq & Hkey).
  rewrite (lo_inj _ _ Hok P Q p q HP HQ Hp Hq) by done.
  unfold zget. destruct (Z.ltb_spec (0 + Z.of_nat j) 0); [lia|].
  replace (Z.to_nat (0 + Z.of_nat j)) with j by lia. by rewrite HT.
Qed.

Lemma recv_owner (FaLv : nat) (amr : AMR_t) (recv : RecvBuf_t) (i : nat) :
  level_ok FaLv amr -> recv_ok FaLv amr recv -> (i < NRecvPatchTotal recv)%nat ->
  exists P p, (P < NReal amr FaLv)%nat /\ get_patch amr FaLv P = Some p /\
              LB_Idx p = nget 0 (RecvBuf_LBIdxEachPatch recv) i /\ son p <> -1 /\
              owner_of FaLv amr (nget 0 (RecvBuf_LBIdxEachPatch recv) i) = Z.of_nat P.
Proof.
  intros Hok Hrecv Hi.
  destruct (lookup_lt_is_Some_2 (RecvBuf_LBIdxEachPatch recv) i) as [k Hk];
    [rewrite (ro_keys _ _ _ Hrecv); lia|].
  destruct (ro_owner _ _ _ Hrecv i k Hk) as (P & p & HP & Hp & Hkey & Hson).
  exists P, p. unfold nget. rewrite Hk. simpl. repeat split; try done.
  rewrite <- Hkey. by apply owner_of_spec.
Qed.

(** What the sort and the match give for the record at position [t] of the
    sorted keys: its position [i] of arrival, and the patch of its key. *)
Lemma sorted_records (FaLv : nat) (amr : AMR_t) (recv : RecvBuf_t) :
  recv_ok FaLv amr recv ->
  let N := NRecvPatchTotal recv in
  let sorted := Mis_Heapsort N (RecvBuf_LBIdxEachPatch recv) in
  let Match := Mis_Matching_int (NReal amr FaLv) (nget [] (IdxList_Real amr) FaLv)
                 N sorted.1 in
  exists sigma : list nat,
    sigma ≡ₚ seq 0 N /\
    forall t, (t < N)%nat ->
      exists i, sigma !! t = Some i /\ (i < N)%nat /\
                nget 0 sorted.2 t = Z.of_nat i /\
                zget (-1) (nget [] (IdxList_Real_IdxTable amr) FaLv) (nget 0 Match t)
                = owner_of FaLv amr (nget 0 (RecvBuf_LBIdxEachPatch recv) i).
Proof.
  intros Hrecv N sorted Match.
  destruct (Mis_Heapsort_spec N (RecvBuf_LBIdxEachPatch recv) (ro_keys _ _ _ Hrecv))
    as (sigma & Hperm & H2 & H1).
  exists sigma. split; [done|]. intros t Ht.
  assert (length sigma = N) as Hlen by (by rewrite Hperm, length_seq).
  destruct (lookup_lt_is_Some_2 sigma t) as [i Hi]; [lia|].
  exists i. split; [done|]. split.
  { assert (i ∈ seq 0 N) as Hin%elem_of_seq; [|lia].
    rewrite <- Hperm. by eapply list_elem_of_lookup_2. }
  subst sorted. split.
  - rewrite H2. unfold nget. by rewrite list_lookup_fmap, Hi.
  - subst Match. unfold owner_of.
    erewrite Mis_Matching_int_lookup; [done | done |].
    rewrite H1. by rewrite list_lookup_fmap, Hi.
Qed.

Lemma zget_of_nat {A} (d : A) (l : list A) (i : nat) : zget d l (Z.of_nat i) = nget d l i.
Proof.
  unfold zget, nget. destruct (Z.ltb_spec (Z.of_nat i) 0); [lia|]. by rewrite Nat2Z.id.
Qed.

Lemma zset_of_nat {A} (l : list A) (i : nat) (x : A) : zset (Z.of_nat i) x l = <[i := x]> l.
Proof.
  unfold zset, zalter. destruct (Z.ltb_spec (Z.of_nat i) 0); [lia|]. rewrite Nat2Z.id.
  apply list_eq. intros j. rewrite list_lookup_alter.
  destruct (decide (i = j)) as [->|].
  - destruct (l !! j) eqn:Hj; simpl.
    + rewrite list_lookup_insert_eq; [done | by eapply lookup_lt_Some].
    + rewrite list_insert_ge; [done | by apply lookup_ge_None].
  - by rewrite list_lookup_insert_ne.
Qed.

(** The list of patch indices that step 3-2 builds names, for each record in
    the order of arrival, the patch of its key. *)
Lemma FaPIDList_spec (FaLv : nat) (amr : AMR_t) (recv : RecvBuf_t) :
  recv_ok FaLv amr recv ->
  let N := NRecvPatchTotal recv in
  let sorted := Mis_Heapsort N (RecvBuf_LBIdxEachPatch recv) in
  let Match := Mis_Matching_int (NReal amr FaLv) (nget [] (IdxList_Real amr) FaLv)
                 N sorted.1 in
  forall i, (i < N)%nat ->
    nget 0 (for_loop 0 N
              (fun t l => zset (nget 0 sorted.2 t)
                            (zget (-1) (nget [] (IdxList_Real_IdxTable amr) FaLv)
                               (nget 0 Match t)) l)
              (replicate N (-1))) i
    = owner_of FaLv amr (nget 0 (RecvBuf_LBIdxEachPatch recv) i).
Proof.
  intros Hrecv N sorted Match.
  destruct (sorted_records FaLv amr recv Hrecv) as (sigma & Hperm & Hsig).
  fold N sorted Match in Hsig.
  set (body := fun (t : nat) (l : list Z) => zset _ _ l).
  assert (forall n, (n <= N)%nat ->
            length (for_loop 0 n body (replicate N (-1))) = N /\
            forall t i, (t < n)%nat -> sigma !! t = Some i ->
                        for_loop 0 n body (replicate N (-1)) !! i
                        = Some (owner_of FaLv amr (nget 0 (RecvBuf_LBIdxEachPatch recv) i)))
    as Hinv.
  { induction n as [|n IH]; intros Hn.
    - split; [apply length_replicate | lia].
    - destruct IH as [IHlen IH]; [lia|].
      destruct (Hsig n) as (i & Hi & HiN & Hidx & Hpid); [lia|].
      assert (forall l, body n l
                = <[i := owner_of FaLv amr (nget 0 (RecvBuf_LBIdxEachPatch recv) i)]> l) as Hb.
      { intros l. unfold body. rewrite Hidx, Hpid. apply zset_of_nat. }
      rewrite for_loop_S. simpl. rewrite Hb. split; [by rewrite length_insert|].
      intros t j Ht Hj. destruct (decide (i = j)) as [->|Hne].
      + rewrite list_lookup_insert_eq; [done | lia].
      + rewrite list_lookup_insert_ne by done.
        apply (IH t); [|done]. destruct (decide (t = n)) as [->|]; [congruence | lia]. }
  intros i Hi. destruct (Hinv N) as [_ Hall]; [lia|].
  assert (i ∈ sigma) as (t & Ht)%list_elem_of_lookup_1.
  { rewrite Hperm. apply elem_of_seq. lia. }
  unfold nget. erewrite Hall; [done | | done].
  apply lookup_lt_Some in Ht. by rewrite Hperm, length_seq in Ht.
Qed.

(** ** The counts that steps 3 and 4 leave in a patch *)

Lemma sumZ_snoc (l : list Z) (x : Z) : sumZ (l ++ [x]) = sumZ l + x.
Proof. unfold sumZ. induction l as [|y l IH]; simpl; lia. Qed.

Lemma sumZ_cons (a : Z) (l : list Z) : sumZ (a :: l) = a + sumZ l.
Proof. done. Qed.

Lemma length_le_sumZ (l : list Z) : (forall v, v ∈ l -> 1 <= v) -> Z.of_nat (length l) <= sumZ l.
Proof.
  induction l as [|x l IH]; intros Hl; [done|].
  rewrite sumZ_cons. cbn [length]. rewrite Nat2Z.inj_succ.
  pose proof (Hl x (list_elem_of_here _ _)).
  assert (Z.of_nat (length l) <= sumZ l); [|lia].
  apply IH. intros v Hv. apply Hl. by apply list_elem_of_further.
Qed.

Lemma sumZ_app (l k : list Z) : sumZ (l ++ k) = sumZ l + sumZ k.
Proof. unfold sumZ. induction l as [|y l IH]; simpl; lia. Qed.

Lemma sumZ_perm (l k : list Z) : l ≡ₚ k -> sumZ l = sumZ k.
Proof. unfold sumZ. induction 1; simpl; lia. Qed.

Lemma sumZ_nonneg (l : list Z) : Forall (fun x => 0 <= x) l -> 0 <= sumZ l.
Proof. unfold sumZ. induction 1; simpl; lia. Qed.

Lemma sumZ_zero (l : list Z) : Forall (fun x => x = 0) l -> sumZ l = 0.
Proof. unfold sumZ. induction 1; simpl; lia. Qed.

Lemma sumZ_fmap_seq_S (f : nat -> Z) (n : nat) :
  sumZ (f <$> seq 0 (S n)) = sumZ (f <$> seq 0 n) + f n.
Proof. rewrite seq_S, fmap_app. apply sumZ_snoc. Qed.

Lemma add_count_add (n m : Z) (p : patch_t) : add_count n (add_count m p) = add_count (m + n) p.
Proof. unfold add_count, set_NPar_Copy. simpl. f_equal. lia. Qed.

Lemma add_count_0 (p : patch_t) : add_count 0 p = p.
Proof. unfold add_count, set_NPar_Copy. destruct p; simpl. f_equal. lia. Qed.

Lemma apply_records_none (pid : nat -> Z) (f : nat -> patch_t -> patch_t) (n P : nat)
    (p : patch_t) :
  (forall t, (t < n)%nat -> Z.of_nat P <> pid t) -> apply_records pid f n P p = p.
Proof.
  induction n as [|n IH]; intros Hno; [done|].
  rewrite apply_records_S, decide_False by (apply Hno; lia). apply IH. intros t Ht.
  apply Hno. lia.
Qed.

(** The count after the records, for steps that add to the count. *)
Lemma apply_records_count (pid : nat -> Z) (f : nat -> patch_t -> patch_t) (c : nat -> Z)
    (n P : nat) (p : patch_t) :
  (forall t q, NPar_Copy (f t q) = NPar_Copy q + c t) ->
  NPar_Copy (apply_records pid f n P p)
  = NPar_Copy p + sumZ ((fun t => if decide (Z.of_nat P = pid t) then c t else 0) <$> seq 0 n).
Proof.
  intros Hf. induction n as [|n IH]; [unfold apply_records, sumZ; simpl; lia|].
  rewrite apply_records_S, sumZ_fmap_seq_S.
  destruct (decide (Z.of_nat P = pid n)).
  - rewrite Hf, IH. lia.
  - rewrite IH. lia.
Qed.

Lemma apply_records_base (pid : nat -> Z) (f : nat -> patch_t -> patch_t) (n P : nat)
    (p : patch_t) :
  (forall t q, same_base q (f t q)) -> same_base p (apply_records pid f n P p).
Proof.
  intros Hf. induction n as [|n IH]; [apply same_base_refl|].
  rewrite apply_records_S. destruct (decide _); [|done].
  eapply same_base_trans; [apply IH | apply Hf].
Qed.

Lemma apply_records_add_count (pid : nat -> Z) (c : nat -> Z) (n P : nat) (p : patch_t) :
  apply_records pid (fun t => add_count (c t)) n P p
  = add_count (sumZ ((fun t => if decide (Z.of_nat P = pid t) then c t else 0) <$> seq 0 n)) p.
Proof.
  induction n as [|n IH]; [by rewrite add_count_0|].
  rewrite apply_records_S, sumZ_fmap_seq_S, IH.
  destruct (decide (Z.of_nat P = pid n)).
  - by rewrite add_count_add.
  - f_equal. lia.
Qed.

Lemma store_one_base (data : list real) (i : Z) (ptr : nat) (q : patch_t) :
  same_base q (store_one data i ptr q) /\ NPar_Copy (store_one data i ptr q) = NPar_Copy q.
Proof. by repeat split. Qed.

Lemma store_patch_base (data : list real) (n : Z) (ptr : nat) (q : patch_t) :
  same_base q (store_patch data n ptr q) /\
  NPar_Copy (store_patch data n ptr q) = NPar_Copy q + n.
Proof.
  unfold store_patch.
  assert (forall (g : nat -> Z) (h : nat -> nat) m q0,
            same_base q0 (for_loop 0 m (fun k q' => store_one data (g k) (h k) q') q0) /\
            NPar_Copy (for_loop 0 m (fun k q' => store_one data (g k) (h k) q') q0)
            = NPar_Copy q0) as Hloop.
  { intros g h m q0. induction m as [|k [IH1 IH2]]; [by repeat split|].
    rewrite for_loop_S. split.
    - eapply same_base_trans; [apply IH1 | apply store_one_base].
    - by rewrite <- IH2. }
  destruct (Hloop (fun k => NPar_Copy q + Z.of_nat k) (fun k => (ptr + NParVar * k)%nat)
              (Z.to_nat n) (add_count n q)) as [H1 H2].
  split; [|by rewrite H2].
  eapply same_base_trans; [|apply H1]. apply same_base_set_NPar_Copy.
Qed.

Lemma allocate_patch_base (p : patch_t) :
  same_base p (allocate_patch p) /\
  NPar_Copy (allocate_patch p) = (if 0 <? NPar_Copy p then 0 else NPar_Copy p).
Proof. unfold allocate_patch. destruct (0 <? NPar_Copy p); by repeat split. Qed.

Lemma merge_patch_base (amr : AMR_t) (q : patch_t) :
  same_base q (merge_patch amr q) /\
  NPar_Copy (merge_patch amr q)
  = (if negb (son q =? -1) && (0 <? NPar q) then NPar_Copy q + NPar q else NPar_Copy q).
Proof.
  unfold merge_patch. destruct (_ && _); [|by repeat split].
  destruct (for_loop_merge_one_base amr (Z.to_nat (NPar q)) q) as [Hb Hc].
  split.
  - eapply same_base_trans; [apply Hb|]. apply same_base_set_NPar_Copy.
  - unfold add_count. simpl. by rewrite Hc.
Qed.

Lemma seed_patch_base (p : patch_t) :
  same_base p (seed_patch p) /\
  NPar_Copy (seed_patch p) = (if son p =? -1 then NPar_Copy p else NPar p).
Proof. unfold seed_patch. destruct (son p =? -1); by repeat split. Qed.

Lemma received_count_nonneg (FaLv : nat) (amr : AMR_t) (recv : RecvBuf_t) (k : Z) :
  recv_ok FaLv amr recv -> 0 <= received_count recv k.
Proof.
  intros Hrecv.
  apply sumZ_nonneg, Forall_fmap, Forall_forall. intros i Hi%elem_of_seq. simpl.
  destruct (_ =? k); [|lia].
  destruct (lookup_lt_is_Some_2 (RecvBuf_NParEachPatch recv) i) as [n Hn];
    [rewrite (ro_cnts _ _ _ Hrecv); lia|].
  unfold nget. rewrite Hn. simpl. by eapply (ro_cnt _ _ _ Hrecv).
Qed.

Section CollectPatch.

Variable FaLv : nat.
Variable amr : AMR_t.
Variable recv : RecvBuf_t.
Hypothesis Hlevel : level_ok FaLv amr.
Hypothesis Hrecv : recv_ok FaLv amr recv.

Variable P : nat.
Variable p0 : patch_t.
Hypothesis HP : (P < NReal amr FaLv)%nat.
Hypothesis Hp0 : get_patch amr FaLv P = Some p0.

(** A record goes to the patch exactly when it carries the key of the patch. *)
Lemma owner_key_iff (i : nat) :
  (i < NRecvPatchTotal recv)%nat ->
  Z.of_nat P = owner_of FaLv amr (nget 0 (RecvBuf_LBIdxEachPatch recv) i) <->
  nget 0 (RecvBuf_LBIdxEachPatch recv) i = LB_Idx p0.
Proof.
  intros Hi.
  destruct (recv_owner FaLv amr recv i Hlevel Hrecv Hi) as (Q & q & HQ & Hq & Hkey & _ & Hown).
  rewrite Hown. split.
  - intros HPQ. assert (P = Q) as -> by lia. congruence.
  - intros Hk. f_equal. apply (lo_inj _ _ Hlevel P Q p0 q); try done. congruence.
Qed.

Lemma owner_count_eq (c : nat -> Z) :
  sumZ ((fun t => if decide (Z.of_nat P
                             = owner_of FaLv amr (nget 0 (RecvBuf_LBIdxEachPatch recv) t))
                  then c t else 0) <$> seq 0 (NRecvPatchTotal recv))
  = sumZ ((fun t => if nget 0 (RecvBuf_LBIdxEachPatch recv) t =? LB_Idx p0 then c t else 0)
            <$> seq 0 (NRecvPatchTotal recv)).
Proof.
  f_equal. apply list_fmap_ext. intros j t Ht.
  apply lookup_seq in Ht as [-> Ht]. simpl.
  pose proof (owner_key_iff j Ht) as Hiff.
  destruct (decide _) as [Hd|Hd], (Z.eqb_spec (nget 0 (RecvBuf_LBIdxEachPatch recv) j) (LB_Idx p0));
    tauto.
Qed.

Lemma accumulate_patch_count (p : patch_t) :
  accumulate_patch FaLv amr recv P p = add_count (received_count recv (LB_Idx p0)) p.
Proof.
  unfold accumulate_patch. cbv zeta. rewrite apply_records_add_count. f_equal.
  destruct (sorted_records FaLv amr recv Hrecv) as (sigma & Hperm & Hsig).
  cbv zeta in Hsig. unfold received_count.
  set (g := fun i => if nget 0 (RecvBuf_LBIdxEachPatch recv) i =? LB_Idx p0
                     then nget 0 (RecvBuf_NParEachPatch recv) i else 0).
  transitivity (sumZ (g <$> sigma)); [|by apply sumZ_perm, fmap_Permutation].
  f_equal. apply list_eq. intros t. rewrite !list_lookup_fmap. subst g.
  assert (length sigma = NRecvPatchTotal recv) as Hlen by (by rewrite Hperm, length_seq).
  destruct (decide (t < NRecvPatchTotal recv)%nat) as [Ht|Ht].
  - rewrite lookup_seq_lt by done. destruct (Hsig t Ht) as (i & -> & Hi & Hidx & Hpid).
    cbn -[Mis_Heapsort Mis_Matching_int]. rewrite Hidx, Hpid, zget_of_nat. f_equal.
    pose proof (owner_key_iff i Hi) as Hiff.
    destruct (decide _) as [Hd|Hd],
      (Z.eqb_spec (nget 0 (RecvBuf_LBIdxEachPatch recv) i) (LB_Idx p0)); tauto.
  - rewrite lookup_seq_ge by lia. rewrite (lookup_ge_None_2 sigma) by lia. done.
Qed.

Lemma store_all_patch_base (p : patch_t) :
  same_base p (store_all_patch FaLv amr recv P p) /\
  NPar_Copy (store_all_patch FaLv amr recv P p)
  = NPar_Copy p + received_count recv (LB_Idx p0).
Proof.
  unfold store_all_patch. split.
  - apply apply_records_base. intros t q. apply store_patch_base.
  - rewrite (apply_records_count _ _ (fun t => nget 0 (RecvBuf_NParEachPatch recv) t)).
    + by rewrite owner_count_eq.
    + intros t q. apply store_patch_base.
Qed.

(** No record carries the key of a leaf. *)
Lemma leaf_no_record (i : nat) :
  son p0 = -1 -> (i < NRecvPatchTotal recv)%nat ->
  nget 0 (RecvBuf_LBIdxEachPatch recv) i <> LB_Idx p0.
Proof.
  intros Hleaf Hi Hk.
  destruct (recv_owner FaLv amr recv i Hlevel Hrecv Hi) as (Q & q & HQ & Hq & Hkey & Hson & _).
  assert (P = Q) as <- by (apply (lo_inj _ _ Hlevel P Q p0 q); try done; congruence).
  congruence.
Qed.

Lemma leaf_received_count : son p0 = -1 -> received_count recv (LB_Idx p0) = 0.
Proof.
  intros Hleaf. apply sumZ_zero, Forall_fmap, Forall_forall. intros i Hi%elem_of_seq. simpl.
  destruct (Z.eqb_spec (nget 0 (RecvBuf_LBIdxEachPatch recv) i) (LB_Idx p0)) as [Hk|]; [|done].
  exfalso. eapply leaf_no_record; [done | | done]. lia.
Qed.

(** What steps 3 and 4 leave in a real patch of the level. *)
Lemma collect_patch_spec (JustCountNPar : bool) :
  let p' := collect_patch FaLv JustCountNPar amr recv P p0 in
  same_base p0 p' /\
  (son p0 = -1 -> p' = p0) /\
  (son p0 <> -1 -> NPar_Copy p' = NPar p0 + received_count recv (LB_Idx p0)) /\
  (JustCountNPar = true -> ParMassPos_Copy p' = ParMassPos_Copy p0).
Proof.
  pose proof (lo_clear _ _ Hlevel P p0 HP Hp0) as [Hclr _]%shadow_clear_spec.
  pose proof (lo_NPar _ _ Hlevel P p0 HP Hp0) as HN.
  pose proof (received_count_nonneg FaLv amr recv (LB_Idx p0) Hrecv) as HS.
  unfold collect_patch. rewrite bool_decide_eq_true_2 by done. cbv zeta.
  rewrite accumulate_patch_count.
  destruct (Z.eqb_spec (son p0) (-1)) as [Hleaf|Hson].
  - (* a leaf *)
    assert (seed_patch p0 = p0) as Hseed.
    { unfold seed_patch. rewrite Hleaf. done. }
    rewrite Hseed, leaf_received_count, add_count_0 by done.
    assert (allocate_patch p0 = p0) as ->.
    { unfold allocate_patch. rewrite Hclr. done. }
    assert (store_all_patch FaLv amr recv P p0 = p0) as ->.
    { apply apply_records_none. intros t Ht Ho.
      apply (owner_key_iff t Ht) in Ho. by eapply leaf_no_record. }
    assert (merge_patch amr p0 = p0) as ->.
    { unfold merge_patch. rewrite Hleaf. done. }
    destruct JustCountNPar; repeat split; try done; apply same_base_refl.
  - (* a patch with a son *)
    set (S := received_count recv (LB_Idx p0)) in *.
    set (p2 := add_count S (seed_patch p0)).
    assert (same_base p0 p2 /\ NPar_Copy p2 = NPar p0 + S) as [Hb2 Hc2].
    { destruct (seed_patch_base p0) as [Hb Hc]. split.
      - eapply same_base_trans; [apply Hb | apply same_base_set_NPar_Copy].
      - subst p2. unfold add_count. simpl. rewrite Hc.
        destruct (Z.eqb_spec (son p0) (-1)); [done | lia]. }
    destruct JustCountNPar.
    { split; [done|]. split; [done|]. split; [done|]. intros _. subst p2.
      unfold seed_patch. by destruct (negb (son p0 =? -1)). }
    destruct (allocate_patch_base p2) as [Hb3 Hc3].
    destruct (store_all_patch_base (allocate_patch p2)) as [Hb4 Hc4].
    destruct (merge_patch_base amr (store_all_patch FaLv amr recv P (allocate_patch p2)))
      as [Hb5 Hc5].
    assert (same_base p0 (store_all_patch FaLv amr recv P (allocate_patch p2))) as Hb04.
    { eapply same_base_trans; [apply Hb2|]. eapply same_base_trans; [apply Hb3 | apply Hb4]. }
    split; [by eapply same_base_trans|]. split; [done|]. split; [|done].
    intros _. rewrite Hc5, Hc4, Hc3, Hc2.
    destruct Hb04 as (_ & _ & -> & -> & _). fold S.
    destruct (Z.eqb_spec (son p0) (-1)); [done|]. simpl.
    destruct (Z.ltb_spec 0 (NPar p0 + S)), (Z.ltb_spec 0 (NPar p0)); lia.
Qed.

End CollectPatch.

Lemma shadow_write_shadow_ne (v v' : nat) (i k : Z) (x : real) (q : patch_t) :
  v' <> v \/ k <> i -> shadow (write_shadow v i x q) v' k = shadow q v' k.
Proof.
  intros Hne. unfold shadow, write_shadow, nget. simpl. rewrite list_lookup_alter.
  destruct (decide (v = v')) as [->|Hv]; [|done].
  destruct Hne as [?|Hk]; [done|].
  destruct (ParMassPos_Copy q !! v') as [[arr|]|]; simpl; try done.
  unfold zget, zset, zalter. destruct (Z.ltb_spec k 0); [done|].
  destruct (Z.ltb_spec i 0); [done|].
  rewrite list_lookup_alter_ne; [done | lia].
Qed.

Lemma shadow_write_shadow_eq (L v : nat) (i : Z) (x : real) (q : patch_t) :
  allocated L q -> (v < NParVar)%nat -> 0 <= i < Z.of_nat L ->
  shadow (write_shadow v i x q) v i = x.
Proof.
  intros Hq Hv Hi. destruct (Hq v Hv) as (arr & Harr & Hlen).
  unfold shadow, write_shadow, nget. simpl. rewrite list_lookup_alter_eq, Harr. simpl.
  unfold zget, zset, zalter. destruct (Z.ltb_spec i 0); [lia|].
  rewrite list_lookup_alter_eq.
  destruct (_ !! Z.to_nat i) as [y|] eqn:Hy; [done|]. apply lookup_ge_None in Hy.
  unfold real in *. lia.
Qed.

Lemma allocated_write_shadow (L v : nat) (i : Z) (x : real) (q : patch_t) :
  allocated L q -> allocated L (write_shadow v i x q).
Proof.
  intros Hq w Hw. destruct (Hq w Hw) as (arr & Harr & Hlen).
  unfold write_shadow. simpl. rewrite list_lookup_alter.
  destruct (decide (v = w)) as [->|]; [|by exists arr].
  rewrite Harr. simpl. eexists. split; [done|].
  unfold zset, zalter. destruct (i <? 0); [done|]. by rewrite length_alter.
Qed.

(** Four writes to the entry [i], one to each array. *)
Lemma four_writes (L : nat) (i : Z) (x : nat -> real) (q : patch_t) :
  allocated L q -> 0 <= i < Z.of_nat L ->
  let q' := for_loop 0 NParVar (fun v q' => write_shadow v i (x v) q') q in
  allocated L q' /\ NPar_Copy q' = NPar_Copy q /\ same_base q q' /\
  (forall v, (v < NParVar)%nat -> shadow q' v i = x v) /\
  (forall v k, k <> i -> shadow q' v k = shadow q v k).
Proof.
  intros Hq Hi q'. subst q'. unfold for_loop, NParVar. cbn [seq foldl].
  split; [by repeat apply allocated_write_shadow|]. split; [done|].
  split; [by repeat split|]. split.
  - intros v Hv.
    assert (v = 0 \/ v = 1 \/ v = 2 \/ v = 3)%nat as [-> | [-> | [-> | ->]]] by (unfold NParVar in Hv; lia).
    + rewrite !shadow_write_shadow_ne by (left; lia).
      by apply (shadow_write_shadow_eq L).
    + rewrite !shadow_write_shadow_ne by (left; lia).
      apply (shadow_write_shadow_eq L); [by apply allocated_write_shadow | done | done].
    + rewrite !shadow_write_shadow_ne by (left; lia).
      apply (shadow_write_shadow_eq L); [by repeat apply allocated_write_shadow | done | done].
    + apply (shadow_write_shadow_eq L); [by repeat apply allocated_write_shadow | done | done].
  - intros v k Hk. by rewrite !shadow_write_shadow_ne by (by right).
Qed.

(** A loop of such writes to the entries from [c0] on. *)
Lemma block_writes (L : nat) (c0 : Z) (n : nat) (x : nat -> nat -> real)
    (f : nat -> patch_t -> patch_t) (q : patch_t) :
  (forall k q', f k q' = for_loop 0 NParVar
                           (fun v q'' => write_shadow v (c0 + Z.of_nat k) (x k v) q'') q') ->
  allocated L q -> 0 <= c0 -> c0 + Z.of_nat n <= Z.of_nat L ->
  let q' := for_loop 0 n f q in
  allocated L q' /\ NPar_Copy q' = NPar_Copy q /\ same_base q q' /\
  (forall j v, (j < n)%nat -> (v < NParVar)%nat -> shadow q' v (c0 + Z.of_nat j) = x j v) /\
  (forall v k, ~ (c0 <= k < c0 + Z.of_nat n) -> shadow q' v k = shadow q v k).
Proof.
  intros Hf Hq Hc0 Hfit q'. subst q'.
  apply (for_loop_ind0
           (fun m q' =>
              (m <= n)%nat ->
              allocated L q' /\ NPar_Copy q' = NPar_Copy q /\ same_base q q' /\
              (forall j v, (j < m)%nat -> (v < NParVar)%nat ->
                           shadow q' v (c0 + Z.of_nat j) = x j v) /\
              (forall v k, ~ (c0 <= k < c0 + Z.of_nat m) -> shadow q' v k = shadow q v k)));
    [| |done].
  - intros _. split; [done|]. split; [done|]. split; [apply same_base_refl|].
    split; [intros; lia | done].
  - intros m q' Hm IH _. destruct (IH ltac:(lia)) as (Ha & Hc & Hb & Hw & Ho).
    rewrite Hf.
    destruct (four_writes L (c0 + Z.of_nat m) (x m) q' Ha ltac:(lia))
      as (Ha' & Hc' & Hb' & Hw' & Ho').
    split; [done|]. split; [congruence|]. split; [by eapply same_base_trans|]. split.
    + intros j v Hj Hv. destruct (decide (j = m)) as [->|Hne]; [by apply Hw'|].
      rewrite Ho' by lia. apply Hw; [lia | done].
    + intros v k Hk. rewrite Ho' by lia. apply Ho. lia.
Qed.

(** Step 3-4 on a record: its particles go to the entries from the count
    on. *)
Lemma store_patch_spec (L : nat) (data : list real) (n : Z) (ptr : nat) (q : patch_t) :
  allocated L q -> 0 <= NPar_Copy q -> 0 <= n -> NPar_Copy q + n <= Z.of_nat L ->
  let q' := store_patch data n ptr q in
  allocated L q' /\ NPar_Copy q' = NPar_Copy q + n /\
  (forall j v, (j < Z.to_nat n)%nat -> (v < NParVar)%nat ->
               shadow q' v (NPar_Copy q + Z.of_nat j)
               = nget 0%Q data (ptr + NParVar * j + v)) /\
  (forall v k, ~ (NPar_Copy q <= k < NPar_Copy q + n) -> shadow q' v k = shadow q v k).
Proof.
  intros Hq Hc Hn Hfit q'. subst q'. unfold store_patch.
  destruct (block_writes L (NPar_Copy q) (Z.to_nat n)
              (fun k v => nget 0%Q data (ptr + NParVar * k + v))
              (fun k q' => store_one data (NPar_Copy q + Z.of_nat k) (ptr + NParVar * k) q')
              (add_count n q))
    as (Ha & Hc' & Hb & Hw & Ho); [done | done | done | lia |].
  split; [done|]. split; [by rewrite Hc'|]. split; [done|].
  intros v k Hk. rewrite Ho by lia. done.
Qed.

(** Step 4 on a patch with a son: its own particles go to the entries from
    the count on. *)
Lemma merge_patch_spec (L : nat) (amr : AMR_t) (q : patch_t) :
  allocated L q -> 0 <= NPar_Copy q -> son q <> -1 -> 0 < NPar q ->
  NPar_Copy q + NPar q <= Z.of_nat L ->
  let q' := merge_patch amr q in
  NPar_Copy q' = NPar_Copy q + NPar q /\
  (forall j v, (j < Z.to_nat (NPar q))%nat -> (v < NParVar)%nat ->
               shadow q' v (NPar_Copy q + Z.of_nat j)
               = Par_attr amr v (nget 0 (ParList q) j)) /\
  (forall v k, ~ (NPar_Copy q <= k < NPar_Copy q + NPar q) -> shadow q' v k = shadow q v k).
Proof.
  intros Hq Hc Hson HN Hfit q'. subst q'. unfold merge_patch.
  destruct (Z.eqb_spec (son q) (-1)); [done|]. destruct (Z.ltb_spec 0 (NPar q)); [|lia].
  cbn [negb andb].
  assert (forall m, (m <= Z.to_nat (NPar q))%nat ->
            let q' := for_loop 0 m (merge_one amr) q in
            allocated L q' /\ NPar_Copy q' = NPar_Copy q /\ ParList q' = ParList q /\
            (forall j v, (j < m)%nat -> (v < NParVar)%nat ->
                         shadow q' v (NPar_Copy q + Z.of_nat j)
                         = Par_attr amr v (nget 0 (ParList q) j)) /\
            (forall v k, ~ (NPar_Copy q <= k < NPar_Copy q + Z.of_nat m) ->
                         shadow q' v k = shadow q v k)) as Hloop.
  { induction m as [|m IH]; intros Hm; cbv zeta.
    - split; [done|]. split; [done|]. split; [done|]. split; [intros; lia | done].
    - destruct (IH ltac:(lia)) as (Ha & Hc' & Hl & Hw & Ho). rewrite for_loop_S.
      set (q1 := for_loop 0 m (merge_one amr) q) in *. simpl.
      destruct (four_writes L (NPar_Copy q1 + Z.of_nat m)
                  (fun v => Par_attr amr v (nget 0 (ParList q1) m)) q1 Ha ltac:(lia))
        as (Ha' & Hc'' & Hb' & Hw' & Ho').
      assert (merge_one amr m q1
              = for_loop 0 NParVar
                  (fun v q' => write_shadow v (NPar_Copy q1 + Z.of_nat m)
                                 (Par_attr amr v (nget 0 (ParList q1) m)) q') q1) as ->.
      { done. }
      split; [done|]. split; [congruence|].
      split; [done|]. split.
      + intros j v Hj Hv. destruct (decide (j = m)) as [->|Hne].
        * rewrite <- Hc', <- Hl. by apply Hw'.
        * rewrite Ho' by lia. apply Hw; [lia | done].
      + intros v k Hk. rewrite Ho' by lia. apply Ho. lia. }
  destruct (Hloop (Z.to_nat (NPar q)) ltac:(lia)) as (Ha & Hc' & Hl & Hw & Ho).
  unfold add_count. simpl. split; [by rewrite Hc'|]. split; [done|].
  intros v k Hk. apply Ho. lia.
Qed.

(** Step 3-3 allocates the four arrays with NPar_Copy entries. *)
Lemma allocate_patch_spec (p : patch_t) :
  length (ParMassPos_Copy p) = NParVar -> 0 < NPar_Copy p ->
  allocated (Z.to_nat (NPar_Copy p)) (allocate_patch p) /\ NPar_Copy (allocate_patch p) = 0.
Proof.
  intros Hlen Hpos. unfold allocate_patch. destruct (Z.ltb_spec 0 (NPar_Copy p)); [|lia].
  split; [|done]. intros v Hv. unfold for_loop, NParVar in *. cbn [seq foldl].
  unfold alloc_shadow. simpl. eexists.
  assert (v = 0 \/ v = 1 \/ v = 2 \/ v = 3)%nat as [-> | [-> | [-> | ->]]] by lia.
  - rewrite !list_lookup_insert_ne by lia.
    rewrite list_lookup_insert_eq by lia. by rewrite length_replicate.
  - rewrite !list_lookup_insert_ne by lia.
    rewrite list_lookup_insert_eq by (rewrite !length_insert; lia). by rewrite length_replicate.
  - rewrite !list_lookup_insert_ne by lia.
    rewrite list_lookup_insert_eq by (rewrite !length_insert; lia). by rewrite length_replicate.
  - rewrite list_lookup_insert_eq by (rewrite !length_insert; lia). by rewrite length_replicate.
Qed.

Lemma in_patch_base (p q : patch_t) (pos : nat -> real) :
  same_base p q -> in_patch p pos -> in_patch q pos.
Proof. intros (_ & _ & _ & _ & _ & HL & HR) Hin d Hd. rewrite HL, HR. by apply Hin. Qed.

Lemma sumZ_fmap_seq_le (f : nat -> Z) (n N : nat) :
  (forall t, 0 <= f t) -> (n <= N)%nat -> sumZ (f <$> seq 0 n) <= sumZ (f <$> seq 0 N).
Proof.
  intros Hf. induction 1 as [|N _ IH]; [lia|].
  rewrite sumZ_fmap_seq_S. specialize (Hf N). lia.
Qed.

Section CollectPatchBounds.

Variable FaLv : nat.
Variable amr : AMR_t.
Variable recv : RecvBuf_t.
Hypothesis Hlevel : level_ok FaLv amr.
Hypothesis Hrecv : recv_ok FaLv amr recv.
Hypothesis Hdata : recv_in_patch FaLv amr recv.
Hypothesis Hown : own_in_patch FaLv amr.

Variable P : nat.
Variable p0 : patch_t.
Hypothesis HP : (P < NReal amr FaLv)%nat.
Hypothesis Hp0 : get_patch amr FaLv P = Some p0.

Local Abbreviation cnt t := (nget 0 (RecvBuf_NParEachPatch recv) t).
Local Abbreviation prefix n :=
  (sumZ ((fun t => if decide (Z.of_nat P
                              = owner_of FaLv amr (nget 0 (RecvBuf_LBIdxEachPatch recv) t))
                   then cnt t else 0) <$> seq 0 n)).

Lemma cnt_nonneg (t : nat) : 0 <= cnt t.
Proof.
  unfold nget. destruct (RecvBuf_NParEachPatch recv !! t) as [n|] eqn:Hn; simpl; [|lia].
  by apply (ro_cnt _ _ _ Hrecv t).
Qed.

Lemma prefix_le (n : nat) :
  (n <= NRecvPatchTotal recv)%nat ->
  0 <= prefix n <= received_count recv (LB_Idx p0).
Proof.
  intros Hn.
  assert (forall t, 0 <= (if decide (Z.of_nat P = owner_of FaLv amr
                                       (nget 0 (RecvBuf_LBIdxEachPatch recv) t))
                          then cnt t else 0)) as Hterm.
  { intros t. pose proof (cnt_nonneg t). by destruct (decide _). }
  split.
  - apply sumZ_nonneg, Forall_fmap, Forall_forall. intros t _. apply Hterm.
  - unfold received_count.
    rewrite <- (owner_count_eq FaLv amr recv Hlevel Hrecv P p0 HP Hp0 (fun t => cnt t)).
    by apply sumZ_fmap_seq_le.
Qed.

(** Step 3-4 on the patch, when its arrays are allocated for the particles
    to come. *)
Lemma store_all_patch_in_patch (L : nat) (p3 : patch_t) :
  allocated L p3 -> same_base p0 p3 -> NPar_Copy p3 = 0 ->
  received_count recv (LB_Idx p0) <= Z.of_nat L ->
  let q := store_all_patch FaLv amr recv P p3 in
  allocated L q /\ same_base p0 q /\ NPar_Copy q = received_count recv (LB_Idx p0) /\
  forall k, 0 <= k < NPar_Copy q -> in_patch p0 (fun d => shadow q (PAR_POSX + d) k).
Proof.
  intros Ha Hb Hc HL q. subst q. unfold store_all_patch.
  assert (forall n, (n <= NRecvPatchTotal recv)%nat ->
            let q := apply_records
                       (fun t => owner_of FaLv amr (nget 0 (RecvBuf_LBIdxEachPatch recv) t))
                       (fun t => store_patch (RecvBuf_ParDataEachPatch recv) (cnt t)
                                   (data_offset recv t)) n P p3 in
            allocated L q /\ same_base p0 q /\ NPar_Copy q = prefix n /\
            forall k, 0 <= k < prefix n -> in_patch p0 (fun d => shadow q (PAR_POSX + d) k))
    as Hloop.
  { induction n as [|n IH]; intros Hn; cbv zeta.
    - split; [done|]. split; [done|]. split; [done|]. intros k Hk.
      unfold sumZ in Hk. simpl in Hk. lia.
    - destruct (IH ltac:(lia)) as (Ha' & Hb' & Hc' & Hin).
      rewrite apply_records_S, sumZ_fmap_seq_S.
      set (q := apply_records _ _ n P p3) in *.
      destruct (decide (Z.of_nat P
                        = owner_of FaLv amr (nget 0 (RecvBuf_LBIdxEachPatch recv) n)))
        as [Heq|Hne].
      2:{ rewrite Z.add_0_r. done. }
      pose proof (cnt_nonneg n) as Hcn.
      pose proof (prefix_le n ltac:(lia)) as Hpn.
      pose proof (prefix_le (S n) Hn) as HpS.
      rewrite sumZ_fmap_seq_S, decide_True in HpS by done.
      destruct (store_patch_spec L (RecvBuf_ParDataEachPatch recv) (cnt n)
                  (data_offset recv n) q Ha' ltac:(lia) Hcn ltac:(lia))
        as (Ha'' & Hc'' & Hw & Ho).
      split; [done|]. split; [eapply same_base_trans; [done | apply store_patch_base]|].
      split; [lia|]. intros k Hk d Hd.
      destruct (decide (k < prefix n)) as [Hlt|Hge].
      + rewrite Ho by lia. apply Hin; [lia | done].
      + replace k with (NPar_Copy q + Z.of_nat (Z.to_nat (k - prefix n))) by lia.
        rewrite Hw by (unfold PAR_POSX, NParVar; lia).
        apply (Hdata n P p0 (Z.to_nat (k - prefix n))); [lia | done | done | | lia | done].
        by apply (owner_key_iff FaLv amr recv Hlevel Hrecv P p0 HP Hp0 n ltac:(lia)). }
  destruct (Hloop (NRecvPatchTotal recv) ltac:(lia)) as (Ha' & Hb' & Hc' & Hin).
  rewrite (owner_count_eq FaLv amr recv Hlevel Hrecv P p0 HP Hp0 (fun t => cnt t)) in Hc', Hin.
  fold (received_count recv (LB_Idx p0)) in Hc', Hin.
  split; [done|]. split; [done|]. split; [done|]. by rewrite Hc'.
Qed.

(** Steps 3 and 4 put into the shadow copy of a real patch particles that
    are inside the patch only. *)
Lemma collect_patch_in_patch :
  shadow_in_patch (collect_patch FaLv false amr recv P p0).
Proof.
  destruct (collect_patch_spec FaLv amr recv Hlevel Hrecv P p0 HP Hp0 false)
    as (Hbase & Hleaf & Hcount & _).
  pose proof (lo_clear _ _ Hlevel P p0 HP Hp0) as [Hclr _]%shadow_clear_spec.
  pose proof (lo_NPar _ _ Hlevel P p0 HP Hp0) as HN.
  pose proof (lo_shape _ _ Hlevel P p0 HP Hp0) as Hshape.
  pose proof (received_count_nonneg FaLv amr recv (LB_Idx p0) Hrecv) as Hrc.
  destruct (decide (son p0 = -1)) as [Hs|Hs].
  { rewrite (Hleaf Hs). intros k Hk. lia. }
  specialize (Hcount Hs). intros k Hk. rewrite Hcount in Hk.
  apply (in_patch_base p0); [done|]. clear Hbase Hleaf.
  unfold collect_patch in *. rewrite bool_decide_eq_true_2 in * by done. cbv zeta in *.
  rewrite (accumulate_patch_count FaLv amr recv Hlevel Hrecv P p0 HP Hp0) in *.
  set (rc := received_count recv (LB_Idx p0)) in *.
  set (p2 := add_count rc (seed_patch p0)) in *.
  assert (NPar_Copy p2 = NPar p0 + rc) as Hc2.
  { subst p2. unfold add_count, seed_patch. destruct (Z.eqb_spec (son p0) (-1)); [done|].
    simpl. done. }
  assert (same_base p0 p2) as Hb2.
  { subst p2. unfold add_count, seed_patch. destruct (negb _); by repeat split. }
  assert (length (ParMassPos_Copy p2) = NParVar) as Hshape2.
  { subst p2. unfold add_count, seed_patch. by destruct (negb _). }
  destruct (allocate_patch_spec p2 Hshape2 ltac:(lia)) as (Ha3 & Hc3).
  destruct (allocate_patch_base p2) as [Hb3 _].
  destruct (store_all_patch_in_patch (Z.to_nat (NPar_Copy p2)) (allocate_patch p2) Ha3
              ltac:(by eapply same_base_trans) Hc3 ltac:(fold rc; lia))
    as (Ha4 & Hb4 & Hc4 & Hin4).
  set (p4 := store_all_patch FaLv amr recv P (allocate_patch p2)) in *.
  fold rc in Hc4. destruct Hb4 as (Hb4 & Hk4 & Hs4 & HN4 & HL4 & HE4).
  destruct (decide (NPar p0 = 0)) as [Hz|Hnz].
  - assert (merge_patch amr p4 = p4) as ->.
    { unfold merge_patch. rewrite HN4, Hz. by rewrite andb_false_r. }
    apply Hin4. lia.
  - destruct (merge_patch_spec (Z.to_nat (NPar_Copy p2)) amr p4 Ha4 ltac:(lia)
                ltac:(congruence) ltac:(lia) ltac:(lia)) as (Hc5 & Hw5 & Ho5).
    intros d Hd. destruct (decide (k < rc)) as [Hlt|Hge].
    + rewrite Ho5 by lia. apply Hin4; [lia | done].
    + replace k with (NPar_Copy p4 + Z.of_nat (Z.to_nat (k - rc))) by lia.
      rewrite Hw5 by (unfold PAR_POSX, NParVar; lia). rewrite HL4.
      apply (Hown P p0 (Z.to_nat (k - rc))); [done | done | done | lia | done].
Qed.

End CollectPatchBounds.

(** ** The checks of the diagnostic build

    The lemmas of this part state the effect of a step together with the
    condition under which the diagnostic build stops it: it stops only if
    [Sure] fails, where [Sure] is any proposition that rules out each check
    of the step. *)

Section StoreOnePatch.

Variable DEBUG_PARTICLE : bool.
Variable FaLv : nat.
Variable PredictPos : bool.
Variable recv : RecvBuf_t.

Lemma merge_body_sure (Sure : Prop) (P : nat) (amr a : AMR_t) :
  same_env amr a ->
  (Sure -> forall q j, get_patch a FaLv P = Some q -> son q <> -1 ->
                       (j < Z.to_nat (NPar q))%nat ->
                       Integ_KDK (Par amr)
                       && real_ge (zget 0%Q (Time (Par amr)) (nget 0 (ParList q) j)) 0%Q
                       = false) ->
  post (fun a' => a' = upd_patch FaLv P (merge_patch amr) a)
       (fun _ => DEBUG_PARTICLE = true /\ ~ Sure)
       (merge_body DEBUG_PARTICLE FaLv P a).
Proof.
  intros He Hwait. unfold merge_body.
  destruct (the_patch_cases a FaLv P) as [(q & Hg & ->)|[Hg ->]].
  2:{ simpl. by rewrite upd_patch_None. }
  destruct (negb (son q =? -1) && (0 <? NPar q)) eqn:Hc.
  2:{ simpl. symmetry. apply upd_patch_id. intros p' Hp'. simplify_eq.
      unfold merge_patch. by rewrite Hc. }
  eapply post_bind with
    (Q' := fun a' => a' = upd_patch FaLv P (for_loop 0 (Z.to_nat (NPar q)) (merge_one amr)) a).
  - pose proof (for_loopE_ind
                  (fun i a' => a' = upd_patch FaLv P (for_loop 0 i (merge_one amr)) a)
                  (fun _ => DEBUG_PARTICLE = true /\ ~ Sure) (Z.to_nat (NPar q)) 0
                  (merge_particle DEBUG_PARTICLE FaLv P) a) as HI.
    simpl in HI. apply HI; clear HI.
    + symmetry. by apply upd_patch_id.
    + intros i a' Hi ->. unfold merge_particle.
      set (a1 := upd_patch FaLv P (for_loop 0 i (merge_one amr)) a).
      assert (the_patch a1 FaLv P = for_loop 0 i (merge_one amr) q) as Hq1.
      { unfold the_patch, a1. by rewrite get_patch_upd, decide_True, Hg. }
      assert (same_env amr a1) as He1
        by (eapply same_env_trans; [done | apply same_env_upd]).
      apply post_check_sure.
      { intros HS. rewrite Hq1. destruct He1 as (_ & _ & _ & _ & _ & ->).
        destruct (for_loop_merge_one_base amr i q) as [(_ & _ & _ & _ & -> & _) _].
        apply (Hwait HS q i); [done | | lia].
        destruct (Z.eqb_spec (son q) (-1)); [done | done]. }
      simpl.
      rewrite Hq1, !(Par_attr_env amr a1) by done.
      subst a1. rewrite upd_patch_compose. apply upd_patch_ext.
      intros p' Hp'. simplify_eq. by rewrite for_loop_S.
  - intros a' ->. simpl. rewrite upd_patch_compose. apply upd_patch_ext.
    intros p' Hp'. simplify_eq. unfold merge_patch. rewrite Hc. simpl.
    unfold add_count.
    destruct (for_loop_merge_one_base amr (Z.to_nat (NPar q)) q) as [(_&_&_&->&_) _].
    done.
Qed.

Lemma accumulate_body_sure (Sure : Prop) (sorted_LBIdx IdxTable Match : list Z) (t : nat)
    (amr : AMR_t) (st : AMR_t * list Z) :
  same_env amr st.1 ->
  (Sure -> nget 0 Match t <> -1 /\
           son (zthe_patch st.1 FaLv
                  (zget (-1) (nget [] (IdxList_Real_IdxTable amr) FaLv) (nget 0 Match t)))
           <> -1) ->
  post (fun s' =>
          s' = (zupd_patch FaLv
                  (zget (-1) (nget [] (IdxList_Real_IdxTable amr) FaLv) (nget 0 Match t))
                  (add_count (zget 0 (RecvBuf_NParEachPatch recv) (nget 0 IdxTable t))) st.1,
                zset (nget 0 IdxTable t)
                  (zget (-1) (nget [] (IdxList_Real_IdxTable amr) FaLv) (nget 0 Match t))
                  st.2))
       (fun _ => DEBUG_PARTICLE = true /\ ~ Sure)
       (accumulate_body DEBUG_PARTICLE FaLv recv sorted_LBIdx IdxTable Match t st).
Proof.
  intros (_ & _ & _ & _ & HT & _) Hsure. unfold accumulate_body. rewrite HT.
  apply post_check_sure; [intros HS; destruct (Hsure HS) as [? _]; by apply Z.eqb_neq|].
  apply post_check_sure; [intros HS; destruct (Hsure HS) as [_ ?]; by apply Z.eqb_neq|].
  done.
Qed.


Lemma allocated_not_null (L : nat) (q : patch_t) (v : nat) :
  allocated L q -> (v < NParVar)%nat -> not_null q v = true.
Proof.
  intros Hq Hv. destruct (Hq v Hv) as (arr & Harr & _). unfold not_null. by rewrite Harr.
Qed.

Lemma store_particle_sure (Sure : Prop) (P : nat) (q0 : patch_t) (L : nat) (i : Z)
    (st : AMR_t * nat) :
  get_patch st.1 FaLv P = Some q0 ->
  (Sure -> allocated L q0 /\ 0 <= i < Z.of_nat L /\
           real_lt (nget 0%Q (RecvBuf_ParDataEachPatch recv) (st.2 + PAR_MASS)) 0%Q = false /\
           (PredictPos = false ->
            in_patch q0 (fun d => nget 0%Q (RecvBuf_ParDataEachPatch recv)
                                    (st.2 + (PAR_POSX + d))))) ->
  post (fun s' =>
          s' = (zupd_patch FaLv (Z.of_nat P)
                  (store_one (RecvBuf_ParDataEachPatch recv) i st.2) st.1,
                (st.2 + NParVar)%nat))
       (fun _ => DEBUG_PARTICLE = true /\ ~ Sure)
       (store_particle DEBUG_PARTICLE FaLv PredictPos recv (Z.of_nat P) i st).
Proof.
  intros Hq0 Hsure. unfold store_particle. eapply post_bind with (Q' := fun _ => True).
  { eapply post_mono;
      [apply (for_loopE_ind0 (fun _ s => s = st) (fun _ => DEBUG_PARTICLE = true /\ ~ Sure))
      | done | intros ? HE; exact HE]; [done|].
    intros v s Hv ->. apply post_check_sure; [|done].
    intros HS. destruct (Hsure HS) as (Ha & _).
    rewrite zthe_patch_of_nat, (the_patch_Some _ _ _ _ Hq0).
    by rewrite (allocated_not_null L). }
  intros _ _.
  set (st' := for_loop 0 NParVar _ st).
  assert (st' = (zupd_patch FaLv (Z.of_nat P)
                   (store_one (RecvBuf_ParDataEachPatch recv) i st.2) st.1,
                 (st.2 + NParVar)%nat)) as ->.
  { subst st'. destruct st as [a ptr]. unfold for_loop, store_one, for_loop. simpl.
    rewrite !zupd_patch_compose. f_equal; [|unfold NParVar; lia].
    apply zupd_patch_ext. intros P' p _ _. simpl.
    by rewrite !Nat.add_succ_r, Nat.add_0_r. }
  cbn [fst snd].
  assert (zthe_patch (zupd_patch FaLv (Z.of_nat P)
                        (store_one (RecvBuf_ParDataEachPatch recv) i st.2) st.1) FaLv
            (Z.of_nat P)
          = store_one (RecvBuf_ParDataEachPatch recv) i st.2 q0) as ->.
  { rewrite zthe_patch_of_nat, zupd_patch_of_nat. unfold the_patch.
    by rewrite get_patch_upd, decide_True, Hq0. }
  apply post_check_sure.
  { intros HS. destruct (Hsure HS) as (Ha & Hi & Hm & _).
    destruct (four_writes L i (fun v => nget 0%Q (RecvBuf_ParDataEachPatch recv) (st.2 + v))
                q0 Ha Hi) as (_ & _ & _ & Hw & _).
    unfold store_one. rewrite Hw by (unfold PAR_MASS, NParVar; lia). done. }
  destruct PredictPos; [done|]. cbn [negb].
  apply (for_loopE_ind0 (fun _ s => s = _) (fun _ => DEBUG_PARTICLE = true /\ ~ Sure)); [done|].
  intros d s Hd ->. apply post_check_sure; [|done].
  intros HS. destruct (Hsure HS) as (Ha & Hi & _ & Hin).
  destruct (four_writes L i (fun v => nget 0%Q (RecvBuf_ParDataEachPatch recv) (st.2 + v))
              q0 Ha Hi) as (_ & _ & Hb & Hw & _).
  unfold store_one. rewrite Hw by (unfold PAR_POSX, NParVar; lia).
  by apply (in_patch_base q0 _ _ Hb (Hin eq_refl) d).
Qed.

Lemma store_body_sure (Sure : Prop) (FaPIDList : list Z) (t P : nat) (q : patch_t) (L : nat)
    (st : AMR_t * nat) :
  nget 0 FaPIDList t = Z.of_nat P ->
  get_patch st.1 FaLv P = Some q ->
  (Sure ->
   let n := nget 0 (RecvBuf_NParEachPatch recv) t in
   0 < n /\ allocated L q /\ 0 <= NPar_Copy q /\ NPar_Copy q + n <= Z.of_nat L /\
   forall j, (j < Z.to_nat n)%nat ->
     real_lt (nget 0%Q (RecvBuf_ParDataEachPatch recv) (st.2 + NParVar * j + PAR_MASS)) 0%Q
     = false /\
     (PredictPos = false ->
      in_patch q (fun d => nget 0%Q (RecvBuf_ParDataEachPatch recv)
                             (st.2 + NParVar * j + (PAR_POSX + d))))) ->
  post (fun s' =>
          s' = (upd_patch FaLv P
                  (store_patch (RecvBuf_ParDataEachPatch recv)
                     (nget 0 (RecvBuf_NParEachPatch recv) t) st.2) st.1,
                (st.2 + NParVar * Z.to_nat (nget 0%Z (RecvBuf_NParEachPatch recv) t))%nat))
       (fun _ => DEBUG_PARTICLE = true /\ ~ Sure)
       (store_body DEBUG_PARTICLE FaLv PredictPos recv FaPIDList t st).
Proof.
  intros Hpid Hq Hsure. unfold store_body.
  rewrite Hpid, zupd_patch_of_nat, !zthe_patch_of_nat.
  set (n := nget 0 (RecvBuf_NParEachPatch recv) t) in *.
  set (data := RecvBuf_ParDataEachPatch recv) in *.
  set (a1 := upd_patch FaLv P (fun q0 => set_NPar_Copy (NPar_Copy q0 + n) q0) st.1).
  assert (the_patch a1 FaLv P = add_count n q) as Hq1.
  { unfold the_patch, a1. by rewrite get_patch_upd, decide_True, Hq. }
  rewrite Hq1, (the_patch_Some _ _ _ _ Hq). unfold add_count at 1.
  cbn [NPar_Copy set_NPar_Copy].
  replace (NPar_Copy q + n - NPar_Copy q) with n by lia.
  apply post_check_sure.
  { intros HS. destruct (Hsure HS) as (Hn & _). by apply Z.leb_gt. }
  eapply post_mono; [| |intros ? HE; exact HE].
  - apply (for_loopE_ind0
             (fun i s =>
                s = (upd_patch FaLv P
                       (for_loop 0 i
                          (fun k q' => store_one data (NPar_Copy q + Z.of_nat k)
                                         (st.2 + NParVar * k) q')
                        ∘ add_count n) st.1,
                     (st.2 + NParVar * i)%nat))
             (fun _ => DEBUG_PARTICLE = true /\ ~ Sure)).
    + rewrite Nat.mul_0_r, Nat.add_0_r. subst a1. reflexivity.
    + intros i s Hi ->.
      set (qi := for_loop 0 i
                   (fun k q' => store_one data (NPar_Copy q + Z.of_nat k)
                                  (st.2 + NParVar * k) q') (add_count n q)).
      assert (get_patch (upd_patch FaLv P
                           (for_loop 0 i
                              (fun k q' => store_one data (NPar_Copy q + Z.of_nat k)
                                             (st.2 + NParVar * k) q')
                            ∘ add_count n) st.1) FaLv P = Some qi) as Hqi.
      { by rewrite get_patch_upd, decide_True, Hq. }
      eapply post_mono;
        [apply (store_particle_sure Sure P qi L (NPar_Copy q + Z.of_nat i)
                  (upd_patch FaLv P
                     (for_loop 0 i
                        (fun k q' => store_one data (NPar_Copy q + Z.of_nat k)
                                       (st.2 + NParVar * k) q')
                      ∘ add_count n) st.1, (st.2 + NParVar * i)%nat) Hqi)
        | | intros ? HE; exact HE].
      * intros HS. cbn [fst snd]. destruct (Hsure HS) as (Hn & Ha & Hc & Hfit & Hdata).
        fold n in Hn, Hfit, Hdata.
        destruct (block_writes L (NPar_Copy q) i
                    (fun k v => nget 0%Q data (st.2 + NParVar * k + v))
                    (fun k q' => store_one data (NPar_Copy q + Z.of_nat k)
                                   (st.2 + NParVar * k) q')
                    (add_count n q))
          as (Ha' & _ & Hb & _); [done | done | done | simpl; lia |].
        fold qi in Ha', Hb.
        destruct (Hdata i ltac:(lia)) as [Hm Hin].
        split; [done|]. split; [lia|]. split; [done|].
        intros Hpp. apply (in_patch_base q); [|by apply Hin].
        eapply same_base_trans; [|apply Hb]. by repeat split.
      * intros s' ->. cbn [fst snd]. rewrite zupd_patch_of_nat, upd_patch_compose.
        f_equal; [|unfold NParVar; lia].
        apply upd_patch_ext. intros p' _. cbn [compose]. by rewrite for_loop_S.
  - intros s' ->. f_equal. apply upd_patch_ext. intros p' Hp'. simplify_eq. done.
Qed.

End StoreOnePatch.

Section StoreReceived.

Variable DEBUG_PARTICLE : bool.
Variable FaLv : nat.
Variable PredictPos : bool.
Variable JustCountNPar : bool.
Variable recv : RecvBuf_t.
Variable amr : AMR_t.
Hypothesis Hlevel : level_ok FaLv amr.
Hypothesis Hrecv : recv_ok FaLv amr recv.

Local Abbreviation cnt t := (nget 0 (RecvBuf_NParEachPatch recv) t).
Local Abbreviation owner t :=
  (owner_of FaLv amr (nget 0 (RecvBuf_LBIdxEachPatch recv) t)).

(** A real patch with a son while step 3-4 runs: its arrays are allocated
    for all the particles to come, and its count is the number of those
    that the records so far have brought. *)
Lemma store_prefix (P : nat) (p0 : patch_t) (n : nat) :
  (P < NReal amr FaLv)%nat -> get_patch amr FaLv P = Some p0 -> son p0 <> -1 ->
  0 < NPar p0 + received_count recv (LB_Idx p0) ->
  (n <= NRecvPatchTotal recv)%nat ->
  let q := apply_records (fun t => owner t)
             (fun t => store_patch (RecvBuf_ParDataEachPatch recv) (cnt t)
                         (data_offset recv t))
             n P (allocate_patch (accumulate_patch FaLv amr recv P (seed_patch p0))) in
  allocated (Z.to_nat (NPar p0 + received_count recv (LB_Idx p0))) q /\
  same_base p0 q /\
  NPar_Copy q
  = sumZ ((fun t => if decide (Z.of_nat P = owner t) then cnt t else 0) <$> seq 0 n).
Proof.
  intros HP Hp0 Hson Hpos.
  rewrite (accumulate_patch_count FaLv amr recv Hlevel Hrecv P p0 HP Hp0).
  set (rc := received_count recv (LB_Idx p0)) in *.
  set (p2 := add_count rc (seed_patch p0)).
  assert (NPar_Copy p2 = NPar p0 + rc) as Hc2.
  { subst p2. unfold add_count, seed_patch. destruct (Z.eqb_spec (son p0) (-1)); [done|].
    simpl. done. }
  assert (same_base p0 p2) as Hb2.
  { subst p2. unfold add_count, seed_patch. destruct (negb _); by repeat split. }
  assert (length (ParMassPos_Copy p2) = NParVar) as Hshape2.
  { subst p2. unfold add_count, seed_patch.
    pose proof (lo_shape _ _ Hlevel P p0 HP Hp0). by destruct (negb _). }
  destruct (allocate_patch_spec p2 Hshape2 ltac:(lia)) as (Ha3 & Hc3).
  destruct (allocate_patch_base p2) as [Hb3 _].
  rewrite Hc2 in Ha3.
  induction n as [|n IH]; intros Hn; cbv zeta.
  - split; [done|]. split; [by eapply same_base_trans|]. done.
  - destruct (IH ltac:(lia)) as (Ha' & Hb' & Hc').
    rewrite apply_records_S, sumZ_fmap_seq_S.
    set (q := apply_records _ _ n P (allocate_patch p2)) in *.
    destruct (decide (Z.of_nat P = owner n)) as [Heq|Hne].
    2:{ rewrite Z.add_0_r. done. }
    pose proof (cnt_nonneg FaLv amr recv Hrecv P HP n) as Hcn.
    pose proof (prefix_le FaLv amr recv Hlevel Hrecv P p0 HP Hp0 n ltac:(lia)) as Hpn.
    pose proof (prefix_le FaLv amr recv Hlevel Hrecv P p0 HP Hp0 (S n) Hn) as HpS.
    rewrite sumZ_fmap_seq_S, decide_True in HpS by done.
    destruct (store_patch_spec (Z.to_nat (NPar p0 + rc)) (RecvBuf_ParDataEachPatch recv)
                (cnt n) (data_offset recv n) q Ha' ltac:(lia) Hcn)
      as (Ha'' & Hc'' & Hw & Ho).
    { pose proof (lo_NPar _ _ Hlevel P p0 HP Hp0). fold rc in HpS. lia. }
    split; [done|]. split; [eapply same_base_trans; [done | apply store_patch_base]|].
    lia.
Qed.

Variable Sure : Prop.

Hypothesis Hpos : Sure -> forall t, (t < NRecvPatchTotal recv)%nat -> 0 < cnt t.
Hypothesis Hmass :
  Sure -> JustCountNPar = false ->
  forall t j, (t < NRecvPatchTotal recv)%nat -> (j < Z.to_nat (cnt t))%nat ->
    real_lt (nget 0%Q (RecvBuf_ParDataEachPatch recv)
               (data_offset recv t + NParVar * j + PAR_MASS)) 0%Q = false.
Hypothesis Hhome :
  Sure -> JustCountNPar = false -> PredictPos = false -> recv_in_patch FaLv amr recv.
Hypothesis Hwait :
  Sure -> JustCountNPar = false ->
  forall P p j, (P < NReal amr FaLv)%nat -> get_patch amr FaLv P = Some p -> son p <> -1 ->
    (j < Z.to_nat (NPar p))%nat ->
    Integ_KDK (Par amr) && real_ge (zget 0%Q (Time (Par amr)) (nget 0 (ParList p) j)) 0%Q
    = false.

(** Steps 3 and 4 are [collect_patch] on each patch of the level; the
    diagnostic build stops them only if [Sure] fails. *)
Lemma store_received_sure :
  post (fun a' => patches_are (collect_patch FaLv JustCountNPar amr recv) FaLv amr a')
       (fun _ => DEBUG_PARTICLE = true /\ ~ Sure)
       (store_received DEBUG_PARTICLE FaLv PredictPos JustCountNPar recv amr).
Proof.
  unfold store_received.
  set (N := NRecvPatchTotal recv).
  set (sorted := Mis_Heapsort N (RecvBuf_LBIdxEachPatch recv)).
  set (Match := Mis_Matching_int _ _ N sorted.1).
  set (NR := NReal amr FaLv).
  set (F1 := fun (P : nat) (p0 : patch_t) =>
               if bool_decide (P < NR)%nat then seed_patch p0 else p0).
  set (amr1 := for_loop 0 NR (seed_body FaLv) amr).
  assert (patches_are F1 FaLv amr amr1) as H1.
  { eapply patches_are_ext;
      [|apply (patches_are_for_loop (fun _ p => p) seed_patch FaLv NR (seed_body FaLv));
        [apply seed_body_upd | apply patches_are_refl]].
    intros P p0 _. subst F1. simpl. by destruct (decide (P < NR)%nat), (bool_decide_reflect (P < NR)%nat). }
  set (pid_s := fun t => zget (-1) (nget [] (IdxList_Real_IdxTable amr) FaLv) (nget 0 Match t)).
  set (cnt_s := fun t => zget 0 (RecvBuf_NParEachPatch recv) (nget 0 sorted.2 t)).
  set (F2 := fun (P : nat) (p0 : patch_t) => accumulate_patch FaLv amr recv P (F1 P p0)).
  set (FaPIDList := for_loop 0 N (fun t l => zset (nget 0 sorted.2 t) (pid_s t) l)
                      (replicate N (-1))).
  destruct (sorted_records FaLv amr recv Hrecv) as (sigma & Hperm & Hsig).
  fold N sorted Match in Hsig.
  eapply post_bind with (Q' := fun st => patches_are F2 FaLv amr st.1 /\ st.2 = FaPIDList).
  { apply (for_loopE_ind0
             (fun t st =>
                patches_are (fun P p0 => apply_records pid_s (fun t => add_count (cnt_s t))
                                           t P (F1 P p0)) FaLv amr st.1 /\
                st.2 = for_loop 0 t (fun t l => zset (nget 0 sorted.2 t) (pid_s t) l)
                         (replicate N (-1)))
             (fun _ => DEBUG_PARTICLE = true /\ ~ Sure)).
    - split; [apply H1 | done].
    - intros t st Ht [Hp Hl].
      eapply post_mono;
        [apply (accumulate_body_sure DEBUG_PARTICLE FaLv recv Sure sorted.1 sorted.2 Match t
                  amr st (patches_are_env _ _ _ _ Hp))
        | | intros ? HE; exact HE].
      + intros _.
        destruct (Hsig t Ht) as (i & _ & Hi & _ & Hpid).
        destruct (recv_owner FaLv amr recv i Hlevel Hrecv Hi)
          as (P & p & HP & Hgp & _ & Hson & Hown).
        fold (pid_s t) in Hpid |- *. rewrite Hown in Hpid. split.
        * intros Heq. subst pid_s. cbv beta in Hpid. rewrite Heq in Hpid.
          unfold zget in Hpid. simpl in Hpid. lia.
        * rewrite Hpid, zthe_patch_of_nat.
          pose proof (patches_are_get _ _ _ _ P Hp) as Hq. rewrite Hgp in Hq.
          rewrite (the_patch_Some _ _ _ _ Hq).
          assert (same_base p (apply_records pid_s (fun t0 => add_count (cnt_s t0)) t P
                                 (F1 P p))) as (_ & _ & -> & _); [|done].
          eapply same_base_trans; [|apply apply_records_base].
          -- subst F1. cbv beta. destruct (bool_decide _); [apply seed_patch_base|].
             apply same_base_refl.
          -- intros t0 q0. apply same_base_set_NPar_Copy.
      + intros s' ->. cbn [fst snd]. split.
        * eapply patches_are_ext; [|apply patches_are_zupd, Hp].
          intros P p0 _. cbn beta. by rewrite apply_records_S.
        * by rewrite for_loop_S, Hl. }
  intros st2 [H2 HFa].
  assert (NReal st2.1 FaLv = NR) as HNR2.
  { destruct (patches_are_env _ _ _ _ H2) as (HC & _). unfold NReal. by rewrite HC. }
  eapply post_bind with (Q' := fun st => st = st2).
  { destruct DEBUG_PARTICLE; [|done]. unfold check_FaPIDList.
    apply (for_loopE_ind0 (fun _ st => st = st2) (fun _ => true = true /\ ~ Sure)); [done|].
    intros t s Ht ->. apply post_check_sure; [|done]. intros _.
    destruct (recv_owner FaLv amr recv t Hlevel Hrecv Ht)
      as (P & p & HP & _ & _ & _ & Hown).
    assert (nget 0 st2.2 t = Z.of_nat P) as HFaP.
    { rewrite HFa, <- Hown. apply (FaPIDList_spec FaLv amr recv Hrecv t Ht). }
    cbn [fst snd]. rewrite HFaP, HNR2. fold NR in HP. apply orb_false_iff. split; [apply Z.ltb_ge | apply Z.leb_gt]; lia. }
  intros st2' ->.
  destruct JustCountNPar eqn:HJ.
  { simpl. eapply patches_are_ext; [|apply H2]. intros P p0 _. unfold collect_patch.
    done. }
  rewrite HNR2.
  set (F3 := fun (P : nat) (p0 : patch_t) =>
               if bool_decide (P < NR)%nat then allocate_patch (F2 P p0) else F2 P p0).
  set (amr3 := for_loop 0 NR (allocate_body FaLv) st2.1).
  assert (patches_are F3 FaLv amr amr3) as H3.
  { eapply patches_are_ext;
      [|apply (patches_are_for_loop F2 allocate_patch FaLv NR (allocate_body FaLv));
        [apply allocate_body_upd | apply H2]].
    intros P p0 _. subst F3. simpl.
    by destruct (decide (P < NR)%nat), (bool_decide_reflect (P < NR)%nat). }
  set (F4 := fun (P : nat) (p0 : patch_t) => store_all_patch FaLv amr recv P (F3 P p0)).
  eapply post_bind with
    (Q' := fun st => patches_are F4 FaLv amr st.1).
  { eapply post_mono; [| |intros ? HE; exact HE].
    - apply (for_loopE_ind0
               (fun t st =>
                  patches_are
                    (fun P p0 =>
                       apply_records
                         (fun t => owner_of FaLv amr (nget 0 (RecvBuf_LBIdxEachPatch recv) t))
                         (fun t => store_patch (RecvBuf_ParDataEachPatch recv)
                                     (nget 0 (RecvBuf_NParEachPatch recv) t)
                                     (data_offset recv t))
                         t P (F3 P p0)) FaLv amr st.1 /\
                  st.2 = data_offset recv t)
               (fun _ => DEBUG_PARTICLE = true /\ ~ Sure)).
      + split; [apply H3 | done].
      + intros t st Ht [Hp Hptr].
        destruct (recv_owner FaLv amr recv t Hlevel Hrecv Ht)
          as (P & p & HP & Hgp & Hkey & Hson & Hown).
        assert (nget 0 st2.2 t = Z.of_nat P) as HFaP.
        { rewrite HFa, <- Hown. apply (FaPIDList_spec FaLv amr recv Hrecv t Ht). }
        pose proof (patches_are_get _ _ _ _ P Hp) as Hq. rewrite Hgp in Hq. simpl in Hq.
        eapply post_mono;
          [apply (store_body_sure DEBUG_PARTICLE FaLv PredictPos recv Sure st2.2 t P _
                    (Z.to_nat (NPar p + received_count recv (LB_Idx p))) st HFaP Hq)
          | | intros ? HE; exact HE].
        * intros HS. cbv zeta.
          pose proof (Hpos HS t Ht) as Hct.
          pose proof (prefix_le FaLv amr recv Hlevel Hrecv P p HP Hgp t ltac:(fold N; lia))
            as Hpt.
          pose proof (prefix_le FaLv amr recv Hlevel Hrecv P p HP Hgp (S t) Ht) as HpS.
          rewrite sumZ_fmap_seq_S, decide_True in HpS by done.
          pose proof (lo_NPar _ _ Hlevel P p HP Hgp) as HNp.
          subst F3 F2 F1. cbv beta. rewrite !bool_decide_eq_true_2 by done.
          destruct (store_prefix P p t HP Hgp Hson ltac:(lia) ltac:(fold N; lia))
            as (Ha & Hb & Hc).
          split; [done|]. split; [done|]. split; [lia|]. split; [lia|].
          intros j Hj. rewrite Hptr. split; [by apply (Hmass HS)|].
          intros Hpp. apply (in_patch_base p); [done|].
          by apply (Hhome HS eq_refl Hpp t P p j).
        * intros s' ->. cbn [fst snd]. split.
          -- rewrite <- zupd_patch_of_nat.
             eapply patches_are_ext; [|apply patches_are_zupd, Hp].
             intros Q q0 _. cbn beta. rewrite apply_records_S, Hown, Hptr. done.
          -- by rewrite data_offset_S, Hptr.
    - by intros st [Hp _]. }
  intros st4 H4.
  assert (NReal st4.1 FaLv = NR) as ->.
  { destruct (patches_are_env _ _ _ _ H4) as (HC & _). unfold NReal. by rewrite HC. }
  eapply post_mono; [| |intros ? HE; exact HE].
  - apply (for_loopE_ind0
             (fun i a => patches_are
                           (fun P p0 => if decide (P < i)%nat then merge_patch amr (F4 P p0)
                                        else F4 P p0) FaLv amr a)
             (fun _ => DEBUG_PARTICLE = true /\ ~ Sure)).
    + eapply patches_are_ext; [|apply H4]. intros P p0 _. by rewrite decide_False by lia.
    + intros i a Hi Ha.
      eapply post_mono;
        [apply (merge_body_sure DEBUG_PARTICLE FaLv Sure i amr a (patches_are_env _ _ _ _ Ha))
        | | intros ? HE; exact HE].
      * intros HS q j Hq Hsq Hj.
        rewrite (patches_are_get _ _ _ _ i Ha) in Hq.
        destruct (get_patch amr FaLv i) as [p|] eqn:Hgp; [|done].
        injection Hq as <-. rewrite decide_False in Hsq, Hj |- * by lia.
        assert (same_base p (F4 i p)) as (_ & _ & Hs & HN & HL & _).
        { subst F4 F3 F2 F1. cbv beta. rewrite !bool_decide_eq_true_2 by done.
          eapply same_base_trans; [|apply (store_all_patch_base FaLv amr recv Hlevel Hrecv i p Hi Hgp)].
          eapply same_base_trans; [|apply allocate_patch_base].
          rewrite (accumulate_patch_count FaLv amr recv Hlevel Hrecv i p Hi Hgp).
          eapply same_base_trans; [apply seed_patch_base | apply same_base_set_NPar_Copy]. }
        rewrite HL. rewrite Hs in Hsq. rewrite HN in Hj.
        by apply (Hwait HS eq_refl i p j).
      * intros a' ->. eapply patches_are_ext; [|apply patches_are_upd, Ha].
        intros P p0 _. cbn beta. destruct (decide (P = i)) as [->|].
        -- rewrite decide_False by lia. by rewrite decide_True by lia.
        -- destruct (decide (P < i)%nat); [rewrite decide_True by lia | rewrite decide_False by lia];
             done.
  - intros a' Ha'. eapply patches_are_ext; [|apply Ha']. intros P p0 _. cbn beta.
    unfold collect_patch. fold NR. fold (F1 P p0). fold (F2 P p0).
    subst F4 F3. cbn beta.
    by destruct (decide (P < NR)%nat), (bool_decide_reflect (P < NR)%nat).
Qed.

End StoreReceived.

(** Whatever the particles, the production build runs steps 3 and 4 to their
    end. *)
Lemma store_received_patches (DEBUG_PARTICLE : bool) (FaLv : nat)
    (PredictPos JustCountNPar : bool) (recv : RecvBuf_t) (amr : AMR_t) :
  level_ok FaLv amr -> recv_ok FaLv amr recv ->
  post (fun a' => patches_are (collect_patch FaLv JustCountNPar amr recv) FaLv amr a')
       (fun _ => DEBUG_PARTICLE = true)
       (store_received DEBUG_PARTICLE FaLv PredictPos JustCountNPar recv amr).
Proof.
  intros Hlevel Hrecv.
  eapply post_mono;
    [apply (store_received_sure DEBUG_PARTICLE FaLv PredictPos JustCountNPar recv amr
              Hlevel Hrecv False); by intros []
    | done | by intros _ [? _]].
Qed.

(** ** The shadow counts after a call *)

Lemma post_total {A} (dbg : bool) (Q : A -> Prop) (r : result A) :
  post Q (fun _ => dbg = true) r -> dbg = false -> exists a, r = Ok a /\ Q a.
Proof. destruct r as [a|msg s]; simpl; [eauto | congruence]. Qed.

Section CollectCounts.

Variables DEBUG_PARTICLE HILBERT : bool.
Variables MAX_LEVEL MPI_NRank MPI_Rank : nat.
Variable PS1 : Z.
Variable LB_Corner2Index : nat -> list Z -> Z.
Variable LB_Index2Rank : nat -> Z -> Z.
Variable Par_PredictPos : AMR_t -> Z -> real * real * real -> real -> real * real * real.
Variable Par_LB_CollectParticleFromRealPatch :
  nat -> Z -> list Z -> list Z -> Z -> list Z -> list Z -> bool -> real -> AMR_t -> AMR_t.
Variable Par_LB_SendParticleData : nat -> SendBuf_t -> bool -> RecvBuf_t.
Variable MPI_Reduce_SUM : nat -> Z -> Z.

Local Abbreviation Collect :=
  (Par_LB_CollectParticle2OneLevel DEBUG_PARTICLE HILBERT MAX_LEVEL MPI_NRank MPI_Rank PS1
     LB_Corner2Index LB_Index2Rank Par_PredictPos Par_LB_CollectParticleFromRealPatch
     Par_LB_SendParticleData MPI_Reduce_SUM).
Local Abbreviation received :=
  (received_records DEBUG_PARTICLE HILBERT MAX_LEVEL MPI_NRank PS1 LB_Corner2Index
     LB_Index2Rank Par_PredictPos Par_LB_SendParticleData).

Hypothesis Hbuffers : writes_buffers_only Par_LB_CollectParticleFromRealPatch.

Lemma collect_buffer_patches_real (FaLv : nat) (PredictPos : bool) (TargetTime : real)
    (Sib FaSib JustCountNPar : bool) (a : AMR_t) (P : nat) :
  (P < NReal a FaLv)%nat ->
  get_patch (collect_buffer_patches Par_LB_CollectParticleFromRealPatch FaLv PredictPos
               TargetTime Sib FaSib JustCountNPar a) FaLv P
  = get_patch a FaLv P.
Proof.
  intros HP. unfold collect_buffer_patches.
  set (a1 := if Sib && negb JustCountNPar then _ else a).
  assert (get_patch a1 FaLv P = get_patch a FaLv P) as H1.
  { subst a1. destruct (Sib && _); [|done]. apply Hbuffers. by right. }
  destruct FaSib; [|done]. destruct (Nat.ltb_spec 0 FaLv); [|done].
  destruct (negb JustCountNPar); [|done]. simpl.
  rewrite <- H1. apply Hbuffers. left. lia.
Qed.

(** A call below the maximum level leaves, in each real patch of the level,
    what steps 3 and 4 make of it. *)
Lemma Collect_patches (FaLv : nat) (PredictPos : bool) (TargetTime : real)
    (Sib FaSib JustCountNPar : bool) (amr : AMR_t) :
  (FaLv < MAX_LEVEL)%nat ->
  level_ok FaLv amr ->
  recv_ok FaLv amr (received amr FaLv PredictPos TargetTime JustCountNPar) ->
  post (fun amr' =>
          forall P p0, (P < NReal amr FaLv)%nat -> get_patch amr FaLv P = Some p0 ->
            get_patch amr' FaLv P
            = Some (collect_patch FaLv JustCountNPar amr
                      (received amr FaLv PredictPos TargetTime JustCountNPar) P p0))
       (fun _ => DEBUG_PARTICLE = true)
       (Collect FaLv PredictPos TargetTime Sib FaSib JustCountNPar amr).
Proof.
  intros Hlv Hlevel Hrecv. unfold Par_LB_CollectParticle2OneLevel.
  destruct (Nat.ltb_spec MAX_LEVEL FaLv); [lia|].
  eapply post_bind with (Q' := fun _ => True).
  { destruct DEBUG_PARTICLE; [|done].
    eapply post_mono; [apply check_flags_post | done | done]. }
  intros _ _. eapply post_bind with (Q' := fun _ => True).
  { eapply post_mono; [apply check_uninitialized_post | done |]. by intros s (_ & ? & _). }
  intros _ _. destruct (Nat.eqb_spec FaLv MAX_LEVEL); [lia|].
  unfold received_records in *.
  pose proof (prepare_send_post DEBUG_PARTICLE HILBERT MAX_LEVEL MPI_NRank PS1 LB_Corner2Index
                LB_Index2Rank Par_PredictPos amr FaLv PredictPos TargetTime JustCountNPar)
    as Hsend.
  destruct (prepare_send _ _ _ _ _ _ _ _ amr FaLv PredictPos TargetTime JustCountNPar)
    as [send|msg s]; [|by destruct Hsend].
  cbn [bind].
  eapply post_bind.
  { apply (store_received_patches DEBUG_PARTICLE FaLv PredictPos JustCountNPar _ amr);
      [done | apply Hrecv]. }
  intros amr4 H4. eapply post_bind with (Q' := fun s => s = amr4).
  { eapply post_mono; [apply check_total_post | done |]. by intros s [_ ?]. }
  intros amr5 ->. simpl. intros P p0 HP Hp0.
  rewrite collect_buffer_patches_real.
  - by rewrite (patches_are_get _ _ _ _ P H4), Hp0.
  - destruct (patches_are_env _ _ _ _ H4) as (HC & _). unfold NReal. by rewrite HC.
Qed.

(** C1. The shadow counts after a collection below the maximum level.  Let
    the state be ready for a collection at FaLv, the records that the rank
    receives belong to it, and the collection for buffer patches write buffer
    patches only.  Then a call with JustCountNPar off returns (the diagnostic
    build may stop instead), and in the state it returns every real patch of
    the level that has a son has NPar_Copy equal to its NPar plus the sum of
    the particle counts of the received records that carry its key, while
    every real patch without a son is as it was: NPar_Copy is -1 and the four
    pointers are NULL. *)
Theorem Collect_shadow_counts (FaLv : nat) (PredictPos : bool) (TargetTime : real)
    (Sib FaSib : bool) (amr : AMR_t) :
  (FaLv < MAX_LEVEL)%nat ->
  level_ok FaLv amr ->
  recv_ok FaLv amr (received amr FaLv PredictPos TargetTime false) ->
  post (fun amr' =>
          forall P p0, (P < NReal amr FaLv)%nat -> get_patch amr FaLv P = Some p0 ->
            exists p', get_patch amr' FaLv P = Some p' /\
              (son p0 <> -1 ->
               NPar_Copy p'
               = NPar p0 + received_count (received amr FaLv PredictPos TargetTime false)
                             (LB_Idx p0)) /\
              (son p0 = -1 ->
               NPar_Copy p' = -1 /\ forall v, (v < NParVar)%nat -> not_null p' v = false))
       (fun _ => DEBUG_PARTICLE = true)
       (Collect FaLv PredictPos TargetTime Sib FaSib false amr).
Proof.
  intros Hlv Hlevel Hrecv.
  eapply post_mono; [by apply Collect_patches | | done].
  intros amr' Hall P p0 HP Hp0. eexists. split; [by apply Hall|].
  destruct (collect_patch_spec FaLv amr _ Hlevel Hrecv P p0 HP Hp0 false)
    as (_ & Hleaf & Hson & _).
  split; [done|]. intros Hs. rewrite (Hleaf Hs).
  by apply shadow_clear_spec, (lo_clear _ _ Hlevel P).
Qed.

End CollectCounts.

(** ** Calls on a state that holds shadow copies *)

Section CollectTwice.

Variable HILBERT : bool.
Variables MAX_LEVEL MPI_NRank MPI_Rank : nat.
Variable PS1 : Z.
Variable LB_Corner2Index : nat -> list Z -> Z.
Variable LB_Index2Rank : nat -> Z -> Z.
Variable Par_PredictPos : AMR_t -> Z -> real * real * real -> real -> real * real * real.
Variable Par_LB_CollectParticleFromRealPatch :
  nat -> Z -> list Z -> list Z -> Z -> list Z -> list Z -> bool -> real -> AMR_t -> AMR_t.
Variable Par_LB_SendParticleData : nat -> SendBuf_t -> bool -> RecvBuf_t.
Variable MPI_Reduce_SUM : nat -> Z -> Z.

(** The diagnostic build. *)
Local Abbreviation Collect_debug :=
  (Par_LB_CollectParticle2OneLevel true HILBERT MAX_LEVEL MPI_NRank MPI_Rank PS1
     LB_Corner2Index LB_Index2Rank Par_PredictPos Par_LB_CollectParticleFromRealPatch
     Par_LB_SendParticleData MPI_Reduce_SUM).
Local Abbreviation received :=
  (received_records true HILBERT MAX_LEVEL MPI_NRank PS1 LB_Corner2Index
     LB_Index2Rank Par_PredictPos Par_LB_SendParticleData).

Lemma Collect_debug_initialized (FaLv : nat) (PredictPos : bool) (TargetTime : real)
    (Sib FaSib JustCountNPar : bool) (amr : AMR_t) (P : nat) :
  (FaLv <= MAX_LEVEL)%nat ->
  (P < NReal amr FaLv)%nat ->
  shadow_clear (the_patch amr FaLv P) = false ->
  exists msg, Collect_debug FaLv PredictPos TargetTime Sib FaSib JustCountNPar amr
              = Aux_Error msg amr.
Proof.
  intros Hlv HP Hdirty. unfold Par_LB_CollectParticle2OneLevel.
  destruct (Nat.ltb_spec MAX_LEVEL FaLv); [lia|].
  pose proof (check_flags_post true PredictPos Sib FaSib JustCountNPar amr) as Hf.
  destruct (check_flags _ _ _ _ _ amr) as [a|msg s]; cbn [bind post] in *; [|subst; eauto].
  pose proof (check_uninitialized_post true FaLv amr) as Hu.
  destruct (check_uninitialized true FaLv amr) as [a'|msg s]; cbn [bind post] in *.
  - destruct Hu as [_ Hu]. rewrite Hu in Hdirty; done.
  - destruct Hu as [-> _]. eauto.
Qed.

(** C7, as amended.  In the diagnostic build, a call at a level not above
    the maximum level, made when a real patch of the level has NPar_Copy other
    than -1 or a pointer that is not NULL, stops in Aux_Error with the state as
    it was given.  A second call with no release in between is detected in
    this way when the level is below the maximum level and has a real patch
    with a son: the first call, if it returns, leaves a count in that patch.
    It is not detected when the level is the maximum level, or when every real
    patch of the level is a leaf: the first call, if it returns, leaves the
    real patches of the level as they were, and the check of lines 90 to 103
    lets the second call pass. *)
Theorem Collect_detects_initialized (FaLv : nat) (PredictPos PredictPos' : bool)
    (TargetTime TargetTime' : real) (Sib FaSib JustCountNPar Sib' FaSib' JustCountNPar' : bool)
    (amr : AMR_t) (P : nat) :
  ((FaLv <= MAX_LEVEL)%nat ->
   (P < NReal amr FaLv)%nat ->
   shadow_clear (the_patch amr FaLv P) = false ->
   exists msg, Collect_debug FaLv PredictPos TargetTime Sib FaSib JustCountNPar amr
               = Aux_Error msg amr) /\
  (forall p0 amr',
     (FaLv < MAX_LEVEL)%nat ->
     writes_buffers_only Par_LB_CollectParticleFromRealPatch ->
     level_ok FaLv amr ->
     recv_ok FaLv amr (received amr FaLv PredictPos TargetTime JustCountNPar) ->
     (P < NReal amr FaLv)%nat -> get_patch amr FaLv P = Some p0 -> son p0 <> -1 ->
     Collect_debug FaLv PredictPos TargetTime Sib FaSib JustCountNPar amr = Ok amr' ->
     exists msg, Collect_debug FaLv PredictPos' TargetTime' Sib' FaSib' JustCountNPar' amr'
                 = Aux_Error msg amr') /\
  (forall amr',
     writes_buffers_only Par_LB_CollectParticleFromRealPatch ->
     (FaLv = MAX_LEVEL \/
      ((FaLv < MAX_LEVEL)%nat /\ level_ok FaLv amr /\
       recv_ok FaLv amr (received amr FaLv PredictPos TargetTime JustCountNPar) /\
       forall Q q, (Q < NReal amr FaLv)%nat -> get_patch amr FaLv Q = Some q -> son q = -1)) ->
     Collect_debug FaLv PredictPos TargetTime Sib FaSib JustCountNPar amr = Ok amr' ->
     (forall Q, (Q < NReal amr FaLv)%nat -> get_patch amr' FaLv Q = get_patch amr FaLv Q) /\
     check_uninitialized true FaLv amr' = Ok amr').
Proof.
  split; [apply Collect_debug_initialized|]. split; cycle 1.
  { intros amr' HF Hcase Hrun.
    assert (FaLv <= MAX_LEVEL)%nat as Hle by (destruct Hcase as [->|[? _]]; lia).
    assert (forall Q, (Q < NReal amr FaLv)%nat ->
                      shadow_clear (the_patch amr FaLv Q) = true) as Hclr.
    { intros Q HQ. destruct (shadow_clear (the_patch amr FaLv Q)) eqn:Hc; [done|].
      destruct (Collect_debug_initialized FaLv PredictPos TargetTime Sib FaSib JustCountNPar
                  amr Q Hle HQ Hc) as [msg Hstop].
      congruence. }
    pose proof (Collect_writes_only_shadows true HILBERT MAX_LEVEL MPI_NRank MPI_Rank PS1
                  LB_Corner2Index LB_Index2Rank Par_PredictPos
                  Par_LB_CollectParticleFromRealPatch Par_LB_SendParticleData MPI_Reduce_SUM
                  FaLv PredictPos TargetTime Sib FaSib JustCountNPar amr HF) as Hframe.
    rewrite Hrun in Hframe. destruct Hframe as ((HC & _) & _ & _).
    assert (NReal amr' FaLv = NReal amr FaLv) as HN by (unfold NReal; by rewrite HC).
    assert (forall Q, (Q < NReal amr FaLv)%nat ->
                      get_patch amr' FaLv Q = get_patch amr FaLv Q) as Hsame.
    { intros Q HQ. destruct Hcase as [Heq|(Hlt & Hlevel & Hrecv & Hleaves)].
      - unfold Par_LB_CollectParticle2OneLevel in Hrun.
        destruct (Nat.ltb_spec MAX_LEVEL FaLv); [lia|].
        destruct (check_flags _ _ _ _ _ _) as [?|? ?]; cbn [bind] in Hrun; [|done].
        destruct (check_uninitialized _ _ _) as [?|? ?]; cbn [bind] in Hrun; [|done].
        destruct (Nat.eqb_spec FaLv MAX_LEVEL); [|done].
        injection Hrun as <-. by apply collect_buffer_patches_real.
      - pose proof (Collect_patches true HILBERT MAX_LEVEL MPI_NRank MPI_Rank PS1
                      LB_Corner2Index LB_Index2Rank Par_PredictPos
                      Par_LB_CollectParticleFromRealPatch Par_LB_SendParticleData
                      MPI_Reduce_SUM HF FaLv PredictPos TargetTime Sib FaSib JustCountNPar
                      amr Hlt Hlevel Hrecv) as Hpatches.
        rewrite Hrun in Hpatches. simpl in Hpatches.
        destruct (lo_real _ _ Hlevel Q HQ) as [q Hq].
        rewrite (Hpatches Q q HQ Hq), Hq. f_equal.
        destruct (collect_patch_spec FaLv amr _ Hlevel Hrecv Q q HQ Hq JustCountNPar)
          as (_ & Hleaf & _).
        apply Hleaf. by apply (Hleaves Q). }
    split; [done|].
    pose proof (check_uninitialized_post true FaLv amr') as Hu.
    destruct (check_uninitialized true FaLv amr') as [a|msg s]; simpl in Hu.
    - by destruct Hu as [-> _].
    - destruct Hu as (_ & _ & Q & HQ & Hc). rewrite HN in HQ.
      unfold the_patch in Hc. rewrite (Hsame Q HQ) in Hc.
      fold (the_patch amr FaLv Q) in Hc. rewrite (Hclr Q HQ) in Hc. done. }
  intros p0 amr' Hlv HF Hlevel Hrecv HP Hp0 Hson Hrun.
  pose proof (Collect_patches true HILBERT MAX_LEVEL MPI_NRank MPI_Rank PS1 LB_Corner2Index
                LB_Index2Rank Par_PredictPos Par_LB_CollectParticleFromRealPatch
                Par_LB_SendParticleData MPI_Reduce_SUM HF FaLv PredictPos TargetTime
                Sib FaSib JustCountNPar amr Hlv Hlevel Hrecv) as Hpatches.
  pose proof (Collect_writes_only_shadows true HILBERT MAX_LEVEL MPI_NRank MPI_Rank PS1
                LB_Corner2Index LB_Index2Rank Par_PredictPos
                Par_LB_CollectParticleFromRealPatch Par_LB_SendParticleData MPI_Reduce_SUM
                FaLv PredictPos TargetTime Sib FaSib JustCountNPar amr HF) as Hframe.
  rewrite Hrun in Hpatches, Hframe. simpl in Hpatches, Hframe.
  destruct Hframe as ((HC & _) & _ & _).
  apply (Collect_debug_initialized _ _ _ _ _ _ _ P); [lia | |].
  - unfold NReal. by rewrite HC.
  - rewrite (the_patch_Some _ _ _ _ (Hpatches P p0 HP Hp0)).
    apply shadow_clear_false_count.
    destruct (collect_patch_spec FaLv amr _ Hlevel Hrecv P p0 HP Hp0 JustCountNPar)
      as (_ & _ & Hcount & _).
    rewrite (Hcount Hson).
    pose proof (lo_NPar _ _ Hlevel P p0 HP Hp0).
    pose proof (received_count_nonneg FaLv amr _ (LB_Idx p0) Hrecv). lia.
Qed.

End CollectTwice.

(** ** The layout of the send buffers *)

(** The layout of the send buffers: items, each with a destination rank and
    a payload, are written to one flat buffer in which the payloads for rank 0
    come first, then those for rank 1, and so on, each group in the order of
    the items. *)
Section Buckets.

Context {A : Type}.

Lemma payloads_to_app (r : nat) (l k : list (nat * list A)) :
  payloads_to r (l ++ k) = payloads_to r l ++ payloads_to r k.
Proof. unfold payloads_to. by rewrite filter_app, fmap_app, concat_app. Qed.

Lemma payloads_to_cons (r : nat) (it : nat * list A) (l : list (nat * list A)) :
  payloads_to r (it :: l) = (if decide (it.1 = r) then it.2 else []) ++ payloads_to r l.
Proof.
  unfold payloads_to. rewrite filter_cons. destruct (decide (it.1 = r)); done.
Qed.

Lemma payloads_to_singleton (r : nat) (it : nat * list A) :
  payloads_to r [it] = if decide (it.1 = r) then it.2 else [].
Proof. rewrite payloads_to_cons. unfold payloads_to. simpl. by rewrite app_nil_r. Qed.

Lemma group_start_S (items : list (nat * list A)) (r : nat) :
  group_start items (S r) = (group_start items r + length (payloads_to r items))%nat.
Proof.
  unfold group_start. rewrite seq_S, fmap_app, concat_app, length_app. simpl.
  by rewrite app_nil_r.
Qed.

Lemma group_start_le (items : list (nat * list A)) (r r' : nat) :
  (r < r')%nat ->
  (group_start items r + length (payloads_to r items) <= group_start items r')%nat.
Proof.
  induction 1 as [|r' _ IH]; rewrite group_start_S; lia.
Qed.

(** One more item is written at the cursor of its group. *)
Lemma groups_filled_step (NRank : nat) (all done todo : list (nat * list A))
    (it : nat * list A) (buf buf' : list A) :
  let off := (group_start all it.1 + length (payloads_to it.1 done))%nat in
  all = done ++ it :: todo ->
  groups_filled NRank all done buf ->
  (forall i, ~ (off <= i < off + length it.2)%nat -> buf' !! i = buf !! i) ->
  (forall j v, it.2 !! j = Some v -> buf' !! (off + j)%nat = Some v) ->
  groups_filled NRank all (done ++ [it]) buf'.
Proof.
  intros off Hall Hfill Hother Hwritten r j v Hr Hj.
  rewrite payloads_to_app, payloads_to_singleton in Hj.
  assert (forall r', length (payloads_to r' all)
                     = (length (payloads_to r' done)
                        + length (if decide (it.1 = r') then it.2 else [])
                        + length (payloads_to r' todo))%nat) as Hlen.
  { intros r'. rewrite Hall. rewrite payloads_to_app, payloads_to_cons, !length_app. lia. }
  destruct (decide (it.1 = r)) as [Heq|Hne].
  - subst r. apply lookup_app_Some in Hj as [Hj|[Hge Hj]].
    + rewrite Hother; [by apply Hfill|]. apply lookup_lt_Some in Hj. subst off. lia.
    + replace (group_start all it.1 + j)%nat
        with (off + (j - length (payloads_to it.1 done)))%nat by (subst off; lia).
      by apply Hwritten.
  - rewrite app_nil_r in Hj. rewrite Hother; [by apply Hfill|].
    apply lookup_lt_Some in Hj.
    pose proof (Hlen r) as Hr'. pose proof (Hlen it.1) as Hi'.
    rewrite decide_False in Hr' by done. rewrite decide_True in Hi' by done.
    simpl in Hr'. subst off.
    destruct (decide (r < it.1)%nat).
    + pose proof (group_start_le all r it.1). lia.
    + pose proof (group_start_le all it.1 r). lia.
Qed.

(** When all items are written, the buffer is the groups in a row. *)
Lemma groups_filled_all (NRank : nat) (all : list (nat * list A)) (buf : list A) :
  groups_filled NRank all all buf ->
  length buf = group_start all NRank ->
  buf = concat ((fun r => payloads_to r all) <$> seq 0 NRank).
Proof.
  intros Hfill Hlen. apply list_eq. intros i.
  destruct (decide (i < length buf)%nat) as [Hi|Hi].
  2:{ rewrite !(lookup_ge_None_2 _ i); [done | fold (group_start all NRank) | ]; lia. }
  assert (forall n, (n <= NRank)%nat -> (i < group_start all n)%nat ->
            buf !! i = concat ((fun r => payloads_to r all) <$> seq 0 n) !! i) as Hn.
  { induction n as [|n IH]; intros Hn Hin.
    - unfold group_start in Hin. simpl in Hin. lia.
    - rewrite seq_S, fmap_app, concat_app. simpl. rewrite app_nil_r.
      fold (group_start all n) in *.
      destruct (decide (i < group_start all n)%nat) as [Hlt|Hge].
      + rewrite lookup_app_l by done. apply IH; [lia | done].
      + rewrite lookup_app_r by (unfold group_start in Hge; lia).
        fold (group_start all n). rewrite group_start_S in Hin.
        destruct (lookup_lt_is_Some_2 (payloads_to n all) (i - group_start all n)) as [v Hv];
          [lia|].
        rewrite Hv. replace i with (group_start all n + (i - group_start all n))%nat at 1 by lia.
        apply Hfill; [lia | done]. }
  rewrite (Hn NRank); [done | lia | lia].
Qed.

(** The group of a rank, cut out of the buffer. *)
Lemma take_drop_group (NRank : nat) (all : list (nat * list A)) (r : nat) :
  (r < NRank)%nat ->
  take (length (payloads_to r all))
       (drop (group_start all r) (concat ((fun r' => payloads_to r' all) <$> seq 0 NRank)))
  = payloads_to r all.
Proof.
  intros Hr.
  replace NRank with (r + (1 + (NRank - S r)))%nat by lia.
  rewrite !seq_app, !fmap_app, !concat_app. simpl. rewrite app_nil_r.
  unfold group_start. rewrite drop_app_length, take_app_length. done.
Qed.

End Buckets.

Lemma foldE_app {X St} (body : X -> St -> result St) (l k : list X) (s : St) :
  foldE body (l ++ k) s = (s' <- foldE body l s ;; foldE body k s').
Proof.
  revert s. induction l as [|x l IH]; intros s; simpl; [done|].
  destruct (body x s); simpl; [apply IH | done].
Qed.

Lemma for_each_foldE {X St} (f : nat -> X) (body : X -> St -> result St) (idx : list nat)
    (s : St) :
  for_each idx (fun i => body (f i)) s = foldE body (f <$> idx) s.
Proof.
  revert s. induction idx as [|i idx IH]; intros s; simpl; [done|].
  destruct (body (f i) s); simpl; [apply IH | done].
Qed.

Lemma for_finer_foldE {St} (MAX_LEVEL : nat) (amr : AMR_t) (FaLv : nat)
    (body : nat -> nat -> St -> result St) (s : St) :
  for_finer MAX_LEVEL amr FaLv body s
  = foldE (fun x => body x.1 x.2) (finer_patches MAX_LEVEL amr FaLv) s.
Proof.
  unfold for_finer, finer_patches, for_loopE.
  generalize (seq (FaLv + 1) (MAX_LEVEL - FaLv)). intros lvs. revert s.
  induction lvs as [|lv lvs IH]; intros s; simpl; [done|].
  rewrite foldE_app.
  rewrite <- (for_each_foldE (pair lv) (fun x => body x.1 x.2)). simpl.
  destruct (for_each _ _ s); simpl; [apply IH | done].
Qed.

(** The invariant rule: the invariant speaks of the elements done so far. *)
Lemma foldE_ind {X St} (I : list X -> St -> Prop) (E : AMR_t -> Prop)
    (body : X -> St -> result St) (l : list X) (s : St) :
  I [] s ->
  (forall done x todo s', l = done ++ x :: todo -> I done s' ->
                          post (I (done ++ [x])) E (body x s')) ->
  post (I l) E (foldE body l s).
Proof.
  intros H0 Hstep.
  assert (forall todo done s', l = done ++ todo -> I done s' ->
                               post (I l) E (foldE body todo s')) as Hgen.
  { induction todo as [|x todo IH]; intros done s' Hl Hd; simpl.
    - by rewrite Hl, app_nil_r.
    - eapply post_bind; [by eapply Hstep|]. intros s'' Hs''.
      apply (IH (done ++ [x])); [|done]. by rewrite <- app_assoc. }
  by apply (Hgen l []).
Qed.

Lemma elem_of_concat {A} (x : A) (ls : list (list A)) :
  x ∈ concat ls <-> exists l, x ∈ l /\ l ∈ ls.
Proof.
  induction ls as [|l ls IH]; simpl.
  - split; [by intros ?%elem_of_nil | by intros (? & _ & ?%elem_of_nil)].
  - rewrite elem_of_app, IH. split.
    + intros [H|(l' & H1 & H2)]; [exists l | exists l']; split; try done;
        [apply list_elem_of_here | by apply list_elem_of_further].
    + intros (l' & H1 & [->|H2]%elem_of_cons); [by left | right; eauto].
Qed.

Lemma elem_of_finer_patches (MAX_LEVEL : nat) (amr : AMR_t) (FaLv lv PID : nat) :
  (lv, PID) ∈ finer_patches MAX_LEVEL amr FaLv <->
  (FaLv < lv <= MAX_LEVEL)%nat /\ (PID < NReal amr lv)%nat.
Proof.
  unfold finer_patches. rewrite elem_of_concat. split.
  - intros (l & Hin & Hl). apply list_elem_of_fmap in Hl as (lv' & -> & Hlv').
    apply list_elem_of_fmap in Hin as (P & [= -> ->] & HP).
    apply elem_of_seq in Hlv', HP. lia.
  - intros [Hlv HP]. exists (pair lv <$> seq 0 (NReal amr lv)). split.
    + apply list_elem_of_fmap. exists PID. split; [done|]. apply elem_of_seq. lia.
    + apply list_elem_of_fmap. exists lv. split; [done|]. apply elem_of_seq. lia.
Qed.

(** ** Sums *)

Lemma sumZ_take_S (l : list Z) (i : nat) :
  sumZ (take (S i) l) = sumZ (take i l) + nget 0 l i.
Proof.
  revert i. induction l as [|x l IH]; intros i.
  - by destruct i.
  - destruct i as [|i].
    + unfold nget, sumZ. simpl. lia.
    + change (take (S (S i)) (x :: l)) with (x :: take (S i) l).
      change (take (S i) (x :: l)) with (x :: take i l).
      change (sumZ (x :: take (S i) l)) with (x + sumZ (take (S i) l)).
      change (sumZ (x :: take i l)) with (x + sumZ (take i l)).
      rewrite IH. unfold nget. simpl. lia.
Qed.

Lemma sumZ_concat (ls : list (list Z)) : sumZ (concat ls) = sumZ (sumZ <$> ls).
Proof.
  induction ls as [|l ls IH]; [done|]. simpl. rewrite sumZ_app.
  unfold sumZ in *. simpl. by rewrite IH.
Qed.

Lemma length_concat_sumZ {A} (ls : list (list A)) :
  Z.of_nat (length (concat ls)) = sumZ ((fun l => Z.of_nat (length l)) <$> ls).
Proof.
  induction ls as [|l ls IH]; [done|]. simpl. rewrite length_app.
  change (sumZ (Z.of_nat (length l) :: ((fun l0 : list A => Z.of_nat (length l0)) <$> ls)))
    with (Z.of_nat (length l) + sumZ ((fun l0 : list A => Z.of_nat (length l0)) <$> ls)).
  by rewrite Nat2Z.inj_add, IH.
Qed.

Lemma take_fmap_seq {A} (f : nat -> A) (r N : nat) :
  (r <= N)%nat -> take r (f <$> seq 0 N) = f <$> seq 0 r.
Proof.
  intros Hr. rewrite <- fmap_take, take_seq. by rewrite Nat.min_l.
Qed.

Lemma replicate_fmap_seq {A} (c : A) (f : nat -> A) (N : nat) :
  (forall r, f r = c) -> replicate N c = f <$> seq 0 N.
Proof.
  intros Hf. generalize 0%nat. induction N as [|N IH]; intros j; simpl; [done|].
  by rewrite Hf, <- IH.
Qed.

Lemma alter_fmap_seq {A} (g : A -> A) (f : nat -> A) (r N : nat) :
  alter g r (f <$> seq 0 N) = (fun r' => if decide (r' = r) then g (f r') else f r') <$> seq 0 N.
Proof.
  apply list_eq. intros i. rewrite list_lookup_alter, !list_lookup_fmap.
  destruct (decide (r = i)) as [->|Hne].
  - destruct (decide (i < N)%nat) as [Hi|Hi].
    + rewrite lookup_seq_lt by done. simpl. by rewrite decide_True.
    + by rewrite lookup_seq_ge by lia.
  - destruct (decide (i < N)%nat) as [Hi|Hi].
    + rewrite lookup_seq_lt by done. simpl. by rewrite decide_False.
    + by rewrite lookup_seq_ge by lia.
Qed.

Lemma send_items_app {A} (amr : AMR_t) (dest : nat * nat -> Z) (payload : nat * nat -> list A)
    (l k : list (nat * nat)) :
  send_items amr dest payload (l ++ k)
  = send_items amr dest payload l ++ send_items amr dest payload k.
Proof. unfold send_items. by rewrite fmap_app, concat_app. Qed.

Lemma send_items_cons {A} (amr : AMR_t) (dest : nat * nat -> Z) (payload : nat * nat -> list A)
    (x : nat * nat) (k : list (nat * nat)) :
  send_items amr dest payload (x :: k)
  = (if NPar (the_patch amr x.1 x.2) =? 0 then [] else [(Z.to_nat (dest x), payload x)])
    ++ send_items amr dest payload k.
Proof. done. Qed.

Lemma send_items_skip {A} (amr : AMR_t) (dest : nat * nat -> Z) (payload : nat * nat -> list A)
    (l : list (nat * nat)) (x : nat * nat) :
  NPar (the_patch amr x.1 x.2) = 0 ->
  send_items amr dest payload (l ++ [x]) = send_items amr dest payload l.
Proof.
  intros Hx. rewrite send_items_app, send_items_cons, Hx. simpl.
  unfold send_items at 2. simpl. by rewrite !app_nil_r.
Qed.

Lemma send_items_snoc {A} (amr : AMR_t) (dest : nat * nat -> Z) (payload : nat * nat -> list A)
    (l : list (nat * nat)) (x : nat * nat) :
  NPar (the_patch amr x.1 x.2) <> 0 ->
  send_items amr dest payload (l ++ [x])
  = send_items amr dest payload l ++ [(Z.to_nat (dest x), payload x)].
Proof.
  intros Hx. rewrite send_items_app, send_items_cons.
  destruct (Z.eqb_spec (NPar (the_patch amr x.1 x.2)) 0); [done|].
  unfold send_items at 2. simpl. done.
Qed.

Lemma send_items_split {A} (amr : AMR_t) (dest : nat * nat -> Z) (payload : nat * nat -> list A)
    (l k : list (nat * nat)) (x : nat * nat) :
  NPar (the_patch amr x.1 x.2) <> 0 ->
  send_items amr dest payload (l ++ x :: k)
  = send_items amr dest payload l
    ++ (Z.to_nat (dest x), payload x) :: send_items amr dest payload k.
Proof.
  intros Hx. rewrite send_items_app, send_items_cons.
  by destruct (Z.eqb_spec (NPar (the_patch amr x.1 x.2)) 0).
Qed.

(** The sizes of the groups depend on the sizes of the payloads only. *)
Lemma length_payloads_to_ext {A B} (amr : AMR_t) (dest : nat * nat -> Z)
    (pa : nat * nat -> list A) (pb : nat * nat -> list B) (l : list (nat * nat)) (r : nat) :
  (forall x, length (pa x) = length (pb x)) ->
  length (payloads_to r (send_items amr dest pa l))
  = length (payloads_to r (send_items amr dest pb l)).
Proof.
  intros Hlen. induction l as [|x l IH]; [done|].
  rewrite !send_items_cons, !payloads_to_app, !length_app, IH. f_equal.
  destruct (NPar _ =? 0); [done|]. rewrite !payloads_to_singleton. simpl.
  destruct (decide _); [apply Hlen | done].
Qed.

Lemma group_start_ext {A B} (amr : AMR_t) (dest : nat * nat -> Z)
    (pa : nat * nat -> list A) (pb : nat * nat -> list B) (l : list (nat * nat)) (r : nat) :
  (forall x, length (pa x) = length (pb x)) ->
  group_start (send_items amr dest pa l) r = group_start (send_items amr dest pb l) r.
Proof.
  intros Hlen. induction r as [|r IH]; [done|].
  rewrite !group_start_S, IH. f_equal. by apply length_payloads_to_ext.
Qed.

Lemma sumZ_take_lengths {A} (items : list (nat * list A)) (r N : nat) :
  (r <= N)%nat ->
  sumZ (take r ((fun r' => Z.of_nat (length (payloads_to r' items))) <$> seq 0 N))
  = Z.of_nat (group_start items r).
Proof.
  intros Hr. rewrite take_fmap_seq by done. unfold group_start.
  rewrite length_concat_sumZ, <- list_fmap_compose. done.
Qed.

(** Steps 1-2 and 1-3: the totals and the offsets. *)
Lemma send_totals_spec (N : nat) (NParForEachRank NPatchForEachRank : list Z) :
  send_totals N NParForEachRank NPatchForEachRank
  = (sumZ (take N NPatchForEachRank), sumZ (take N NParForEachRank)).
Proof.
  unfold send_totals.
  apply (for_loop_ind0
           (fun i t => t = (sumZ (take i NPatchForEachRank), sumZ (take i NParForEachRank)))).
  - by rewrite !take_0.
  - intros i t _ ->. simpl. by rewrite !sumZ_take_S.
Qed.

Lemma send_offsets_spec (N : nat) (NParForEachRank NPatchForEachRank : list Z) :
  send_offsets N NParForEachRank NPatchForEachRank
  = ((fun r => sumZ (take r NPatchForEachRank)) <$> seq 0 N,
     (fun r => sumZ (take r NParForEachRank) * Z.of_nat NParVar) <$> seq 0 N).
Proof.
  unfold send_offsets. destruct N as [|n]; [done|].
  replace (S n - 1)%nat with n by lia.
  pose proof (for_loop_ind
    (fun i (off : list Z * list Z) =>
       length off.1 = S n /\ length off.2 = S n /\
       forall r, (r < i)%nat ->
         off.1 !! r = Some (sumZ (take r NPatchForEachRank)) /\
         off.2 !! r = Some (sumZ (take r NParForEachRank) * Z.of_nat NParVar))
    1 n
    (fun r off =>
       (<[r := nget 0 off.1 (r - 1) + nget 0 NPatchForEachRank (r - 1)]> off.1,
        <[r := nget 0 off.2 (r - 1) + nget 0 NParForEachRank (r - 1) * Z.of_nat NParVar]> off.2))
    (<[0%nat := 0]> (replicate (S n) 0), <[0%nat := 0]> (replicate (S n) 0))) as HI.
  destruct HI as (L1 & L2 & HI).
  - simpl. split; [by rewrite length_replicate|]. split; [by rewrite length_replicate|].
    intros r Hr. replace r with 0%nat by lia. by rewrite !take_0.
  - intros i off Hi (L1 & L2 & IH). cbn [fst snd].
    rewrite !length_insert. split; [done|]. split; [done|].
    intros r Hr. destruct (decide (r = i)) as [->|Hne].
    + rewrite !list_lookup_insert_eq by lia.
      destruct (IH (i - 1)%nat) as [H1 H2]; [lia|]. unfold nget at 1 3. rewrite H1, H2. simpl.
      replace i with (S (i - 1)) at 3 6 by lia. rewrite !sumZ_take_S.
      split; f_equal; lia.
    + rewrite !list_lookup_insert_ne by done. apply IH. lia.
  - set (off := for_loop _ _ _ _) in *. destruct off as [o1 o2]. cbn [fst snd] in *.
    f_equal; apply list_eq; intros i; rewrite list_lookup_fmap;
      (destruct (decide (i < S n)%nat);
       [rewrite lookup_seq_lt by done; by apply HI
       |rewrite lookup_seq_ge by lia; apply lookup_ge_None; lia]).
Qed.

Lemma zget_fmap_seq {A} (d : A) (f : nat -> A) (N : nat) (i : Z) :
  0 <= i < Z.of_nat N -> zget d (f <$> seq 0 N) i = f (Z.to_nat i).
Proof.
  intros Hi. unfold zget. destruct (Z.ltb_spec i 0); [lia|].
  rewrite list_lookup_fmap, lookup_seq_lt by lia. done.
Qed.

Lemma elem_of_payloads_send {A} (amr : AMR_t) (dest : nat * nat -> Z)
    (payload : nat * nat -> list A) (l : list (nat * nat)) (r : nat) (v : A) :
  v ∈ payloads_to r (send_items amr dest payload l) ->
  exists x, x ∈ l /\ NPar (the_patch amr x.1 x.2) <> 0 /\ Z.to_nat (dest x) = r /\
            v ∈ payload x.
Proof.
  induction l as [|x l IH]; [by intros ?%elem_of_nil|].
  rewrite send_items_cons, payloads_to_app, elem_of_app. intros [Hv|Hv].
  - destruct (Z.eqb_spec (NPar (the_patch amr x.1 x.2)) 0); [by apply elem_of_nil in Hv|].
    rewrite payloads_to_singleton in Hv. simpl in Hv.
    destruct (decide _); [|by apply elem_of_nil in Hv].
    exists x. split; [apply list_elem_of_here | done].
  - destruct (IH Hv) as (y & Hy & ?). exists y. split; [by apply list_elem_of_further | done].
Qed.

Section SendBuffers.

Variables DEBUG_PARTICLE HILBERT : bool.
Variables MAX_LEVEL MPI_NRank : nat.
Variable PS1 : Z.
Variable LB_Corner2Index : nat -> list Z -> Z.
Variable LB_Index2Rank : nat -> Z -> Z.
Variable Par_PredictPos : AMR_t -> Z -> real * real * real -> real -> real * real * real.
Variable amr : AMR_t.
Variable FaLv : nat.
Variable PredictPos : bool.
Variable TargetTime : real.
Variable JustCountNPar : bool.

Local Abbreviation key_of := (key_of HILBERT PS1 LB_Corner2Index amr FaLv).
Local Abbreviation TRank_of := (TRank_of HILBERT PS1 LB_Corner2Index LB_Index2Rank amr FaLv).
Local Abbreviation count_items :=
  (count_items HILBERT PS1 LB_Corner2Index LB_Index2Rank amr FaLv).
Local Abbreviation key_items :=
  (key_items HILBERT PS1 LB_Corner2Index LB_Index2Rank amr FaLv).
Local Abbreviation all := (finer_patches MAX_LEVEL amr FaLv).

Hypothesis Hdest : forall x, x ∈ all -> NPar (the_patch amr x.1 x.2) <> 0 ->
                             0 <= TRank_of x < Z.of_nat MPI_NRank.

Variable Sure : Prop.

(** The particles to send are in leaves, and no count is negative. *)
Hypothesis Hleaf : Sure -> forall x, x ∈ all -> NPar (the_patch amr x.1 x.2) <> 0 ->
                            son (the_patch amr x.1 x.2) = -1 /\ 0 <= NPar (the_patch amr x.1 x.2).

(** A particle whose position is to be predicted has a time that is not
    negative. *)
Hypothesis Htime :
  Sure -> PredictPos = true -> JustCountNPar = false ->
  forall x j, x ∈ all -> (j < Z.to_nat (NPar (the_patch amr x.1 x.2)))%nat ->
    real_lt (zget 0%Q (Time (Par amr)) (nget 0 (ParList (the_patch amr x.1 x.2)) j)) 0%Q
    = false.

Lemma count_pass_sure :
  post (fun c =>
          c = ((fun r => sumZ (payloads_to r (count_items all))) <$> seq 0 MPI_NRank,
               (fun r => Z.of_nat (length (payloads_to r (count_items all))))
                 <$> seq 0 MPI_NRank))
       (fun _ => DEBUG_PARTICLE = true /\ ~ Sure)
       (for_finer MAX_LEVEL amr FaLv
          (count_body DEBUG_PARTICLE HILBERT PS1 LB_Corner2Index LB_Index2Rank amr FaLv)
          (replicate MPI_NRank 0, replicate MPI_NRank 0)).
Proof.
  rewrite for_finer_foldE.
  apply (foldE_ind
           (fun done c =>
              c = ((fun r => sumZ (payloads_to r (count_items done))) <$> seq 0 MPI_NRank,
                   (fun r => Z.of_nat (length (payloads_to r (count_items done))))
                     <$> seq 0 MPI_NRank))).
  - f_equal; by apply replicate_fmap_seq.
  - intros done x todo c Hl ->. unfold count_body, count_items.
    destruct (Z.eqb_spec (NPar (the_patch amr x.1 x.2)) 0) as [Hz|Hnz].
    { simpl. by rewrite send_items_skip. }
    assert (x ∈ all) as Hx.
    { rewrite Hl. apply elem_of_app. right. apply list_elem_of_here. }
    apply post_check_sure.
    { intros HS. destruct (Hleaf HS x Hx Hnz) as [-> _]. done. }
    apply post_check_sure.
    { intros HS. destruct (Hleaf HS x Hx Hnz) as [_ ?]. by apply Z.ltb_ge. }
    simpl.
    pose proof (Hdest x Hx Hnz) as Hr. fold (key_of x). fold (TRank_of x).
    unfold zalter. destruct (Z.ltb_spec (TRank_of x) 0); [lia|].
    rewrite !alter_fmap_seq, send_items_snoc by done.
    f_equal; apply list_fmap_ext; intros _ r _;
      rewrite payloads_to_app, payloads_to_singleton; simpl.
    + rewrite sumZ_app.
      destruct (decide (r = Z.to_nat (TRank_of x))), (decide (Z.to_nat (TRank_of x) = r));
        try congruence; unfold sumZ at 3; simpl; lia.
    + rewrite length_app.
      destruct (decide (r = Z.to_nat (TRank_of x))), (decide (Z.to_nat (TRank_of x) = r));
        try congruence; simpl; lia.
Qed.

Lemma fill_particles_sure (x : nat * nat) (TRank : Z) (st : list real * list Z) :
  x ∈ all ->
  JustCountNPar = false ->
  post (fun _ => True) (fun _ => DEBUG_PARTICLE = true /\ ~ Sure)
       (for_loopE 0 (Z.to_nat (NPar (the_patch amr x.1 x.2)))
          (fill_particle DEBUG_PARTICLE Par_PredictPos amr PredictPos TargetTime x.1 x.2 TRank)
          st).
Proof.
  intros Hx HJ.
  eapply post_mono;
    [apply (for_loopE_ind0 (fun _ _ => True) (fun _ => DEBUG_PARTICLE = true /\ ~ Sure))
    | done | intros ? HE; exact HE]; [done|].
  intros p s' Hp _.
  unfold fill_particle. eapply post_bind with (Q' := fun _ => True); [|done].
  destruct PredictPos eqn:Hpp; [|done]. apply post_check_sure; [|done].
  intros HS. by apply (Htime HS eq_refl HJ x p).
Qed.

Lemma fill_pass_counts_sure (NSendPatchTotal NSendParTotal : Z) (data : list real)
    (off_data : list Z) :
  (Sure -> NSendPatchTotal = Z.of_nat (group_start (count_items all) MPI_NRank) /\
           NSendPatchTotal <= NSendParTotal) ->
  post (fun st =>
          f_NParEachPatch st
          = concat ((fun r => payloads_to r (count_items all)) <$> seq 0 MPI_NRank) /\
          f_LBIdxEachPatch st
          = concat ((fun r => payloads_to r (key_items all)) <$> seq 0 MPI_NRank))
       (fun _ => DEBUG_PARTICLE = true /\ ~ Sure)
       (for_finer MAX_LEVEL amr FaLv
          (fill_body DEBUG_PARTICLE HILBERT PS1 LB_Corner2Index LB_Index2Rank Par_PredictPos
             amr FaLv PredictPos TargetTime JustCountNPar NSendPatchTotal NSendParTotal)
          (mk_fill (replicate (group_start (count_items all) MPI_NRank) 0)
                   (replicate (group_start (count_items all) MPI_NRank) 0)
                   data
                   ((fun r => Z.of_nat (group_start (count_items all) r)) <$> seq 0 MPI_NRank)
                   off_data)).
Proof.
  intros Htot. rewrite for_finer_foldE.
  assert (forall l r, group_start (key_items l) r = group_start (count_items l) r) as Hgs.
  { intros l r. by apply group_start_ext. }
  assert (forall l r, length (payloads_to r (key_items l))
                      = length (payloads_to r (count_items l))) as Hlen.
  { intros l r. by apply length_payloads_to_ext. }
  eapply post_mono;
    [apply (foldE_ind
       (fun done st =>
          Offset_NParEachPatch st
          = (fun r => Z.of_nat (group_start (count_items all) r
                                + length (payloads_to r (count_items done)))) <$> seq 0 MPI_NRank /\
          length (f_NParEachPatch st) = group_start (count_items all) MPI_NRank /\
          length (f_LBIdxEachPatch st) = group_start (count_items all) MPI_NRank /\
          groups_filled MPI_NRank (count_items all) (count_items done) (f_NParEachPatch st) /\
          groups_filled MPI_NRank (key_items all) (key_items done) (f_LBIdxEachPatch st)))
    | | intros ? HE; exact HE].
  - simpl. split; [|split; [|split; [|split]]].
    + apply list_fmap_ext. intros _ r _. unfold count_items, send_items, payloads_to. simpl. lia.
    + by rewrite length_replicate.
    + by rewrite length_replicate.
    + intros r j v _ Hj. by destruct j.
    + intros r j v _ Hj. by destruct j.
  - intros done x todo st Hl (Hoff & L1 & L2 & G1 & G2). unfold fill_body.
    destruct (Z.eqb_spec (NPar (the_patch amr x.1 x.2)) 0) as [Hz|Hnz].
    { simpl. unfold count_items, key_items in *. by rewrite !send_items_skip. }
    assert (x ∈ all) as Hx.
    { rewrite Hl. apply elem_of_app. right. apply list_elem_of_here. }
    pose proof (Hdest x Hx Hnz) as Hr. fold (key_of x). fold (TRank_of x).
    set (r := Z.to_nat (TRank_of x)).
    assert (count_items all = count_items done
              ++ (r, [NPar (the_patch amr x.1 x.2)]) :: count_items todo) as Hcall.
    { rewrite Hl. unfold count_items, key_items. by rewrite send_items_split. }
    assert (key_items all = key_items done ++ (r, [key_of x]) :: key_items todo) as Hkall.
    { rewrite Hl. unfold count_items, key_items. by rewrite send_items_split. }
    assert (count_items (done ++ [x])
            = count_items done ++ [(r, [NPar (the_patch amr x.1 x.2)])]) as Hcdone.
    { unfold count_items, key_items. by rewrite send_items_snoc. }
    assert (key_items (done ++ [x]) = key_items done ++ [(r, [key_of x])]) as Hkdone.
    { unfold count_items, key_items. by rewrite send_items_snoc. }
    rewrite Hoff, zget_fmap_seq by done. fold r.
    set (off := (group_start (count_items all) r
                 + length (payloads_to r (count_items done)))%nat).
    assert (off < group_start (count_items all) MPI_NRank)%nat as Hoff_lt.
    { pose proof (group_start_le (count_items all) r MPI_NRank ltac:(lia)) as Hle.
      rewrite Hcall in Hle at 2.
      rewrite payloads_to_app, payloads_to_cons, !length_app in Hle. simpl in Hle.
      rewrite decide_True in Hle by done. simpl in Hle. subst off. lia. }
    apply post_check_sure.
    { intros HS. destruct (Htot HS) as [-> _]. apply Z.leb_gt. lia. }
    apply post_check_sure.
    { intros HS. destruct (Htot HS) as [Heq Hle]. apply Z.leb_gt.
      unfold NParVar, PAR_POSZ. lia. }
    eapply post_bind with (Q' := fun _ => True).
    { destruct (bool_dec JustCountNPar true) as [HJ|HJ%not_true_is_false].
      - by rewrite HJ.
      - rewrite HJ at 1. by apply fill_particles_sure. }
    intros pd _. simpl.
    rewrite !zset_of_nat, !length_insert.
    split; [|split; [done|split; [done|split]]].
    + unfold zalter. destruct (Z.ltb_spec (TRank_of x) 0); [lia|]. fold r.
      rewrite alter_fmap_seq. apply list_fmap_ext. intros _ r' _.
      rewrite Hcdone, payloads_to_app, payloads_to_singleton, length_app. simpl.
      destruct (decide (r' = r)), (decide (r = r')); try congruence; simpl; lia.
    + rewrite Hcdone.
      apply (groups_filled_step _ _ _ (count_items todo) _ (f_NParEachPatch st));
        [done | done | |]; cbn [fst snd length]; fold off.
      * intros i Hi. apply list_lookup_insert_ne. lia.
      * intros j v Hj. destruct j; [|done]. injection Hj as <-.
        rewrite Nat.add_0_r. apply list_lookup_insert_eq. lia.
    + rewrite Hkdone.
      assert (group_start (key_items all) r + length (payloads_to r (key_items done))
              = off)%nat as Hoffk.
      { by rewrite Hgs, Hlen. }
      apply (groups_filled_step _ _ _ (key_items todo) _ (f_LBIdxEachPatch st));
        [done | done | |]; cbn [fst snd length]; rewrite Hoffk.
      * intros i Hi. apply list_lookup_insert_ne. lia.
      * intros j v Hj. destruct j; [|done]. injection Hj as <-.
        rewrite Nat.add_0_r. apply list_lookup_insert_eq. lia.
  - intros st (_ & L1 & L2 & G1 & G2). split.
    + by apply groups_filled_all.
    + apply groups_filled_all; [done|]. by rewrite Hgs.
Qed.

Lemma prepare_send_sure :
  post (send_counts_are HILBERT MAX_LEVEL MPI_NRank PS1 LB_Corner2Index LB_Index2Rank amr FaLv)
       (fun _ => DEBUG_PARTICLE = true /\ ~ Sure)
       (prepare_send DEBUG_PARTICLE HILBERT MAX_LEVEL MPI_NRank PS1 LB_Corner2Index
          LB_Index2Rank Par_PredictPos amr FaLv PredictPos TargetTime JustCountNPar).
Proof.
  unfold prepare_send. eapply post_bind; [apply count_pass_sure|].
  intros cnt ->. cbn [fst snd].
  rewrite send_totals_spec, send_offsets_spec. cbn [fst snd].
  rewrite sumZ_take_lengths by done. rewrite Nat2Z.id.
  assert ((fun r => sumZ (take r ((fun r0 => Z.of_nat (length (payloads_to r0
                         (count_items all)))) <$> seq 0 MPI_NRank))) <$> seq 0 MPI_NRank
          = (fun r => Z.of_nat (group_start (count_items all) r)) <$> seq 0 MPI_NRank) as ->.
  { apply list_fmap_ext. intros i r Hi. apply lookup_seq in Hi as [-> Hi].
    apply sumZ_take_lengths. lia. }
  eapply post_bind; [apply fill_pass_counts_sure|].
  - intros HS. split; [done|].
    rewrite firstn_all2 by (by rewrite length_fmap, length_seq).
    rewrite (list_fmap_compose (fun r => payloads_to r (count_items all)) sumZ).
    rewrite <- sumZ_concat. unfold group_start. apply length_le_sumZ.
    intros v (l & Hv & Hl)%elem_of_concat.
    apply list_elem_of_fmap in Hl as (r & -> & _).
    apply elem_of_payloads_send in Hv as (x & Hx & Hnz & _ & Hv).
    apply list_elem_of_singleton in Hv as ->.
    destruct (Hleaf HS x Hx Hnz). lia.
  - intros st [H1 H2]. simpl. done.
Qed.

End SendBuffers.

(** Whatever the particles, the production build counts them to the end. *)
Lemma count_pass (DEBUG_PARTICLE HILBERT : bool) (MAX_LEVEL MPI_NRank : nat) (PS1 : Z)
    (LB_Corner2Index : nat -> list Z -> Z) (LB_Index2Rank : nat -> Z -> Z)
    (amr : AMR_t) (FaLv : nat) :
  (forall x, x ∈ finer_patches MAX_LEVEL amr FaLv -> NPar (the_patch amr x.1 x.2) <> 0 ->
             0 <= TRank_of HILBERT PS1 LB_Corner2Index LB_Index2Rank amr FaLv x
             < Z.of_nat MPI_NRank) ->
  let items := count_items HILBERT PS1 LB_Corner2Index LB_Index2Rank amr FaLv
                 (finer_patches MAX_LEVEL amr FaLv) in
  post (fun c =>
          c = ((fun r => sumZ (payloads_to r items)) <$> seq 0 MPI_NRank,
               (fun r => Z.of_nat (length (payloads_to r items))) <$> seq 0 MPI_NRank))
       (fun _ => DEBUG_PARTICLE = true)
       (for_finer MAX_LEVEL amr FaLv
          (count_body DEBUG_PARTICLE HILBERT PS1 LB_Corner2Index LB_Index2Rank amr FaLv)
          (replicate MPI_NRank 0, replicate MPI_NRank 0)).
Proof.
  intros Hdest items.
  eapply post_mono;
    [apply (count_pass_sure DEBUG_PARTICLE HILBERT MAX_LEVEL MPI_NRank PS1 LB_Corner2Index
              LB_Index2Rank amr FaLv Hdest False); by intros []
    | done | by intros _ [? _]].
Qed.

(** Whatever the particles, the production build runs step 1 to its end. *)
Lemma prepare_send_counts (DEBUG_PARTICLE HILBERT : bool) (MAX_LEVEL MPI_NRank : nat) (PS1 : Z)
    (LB_Corner2Index : nat -> list Z -> Z) (LB_Index2Rank : nat -> Z -> Z)
    (Par_PredictPos : AMR_t -> Z -> real * real * real -> real -> real * real * real)
    (amr : AMR_t) (FaLv : nat) :
  (forall x, x ∈ finer_patches MAX_LEVEL amr FaLv -> NPar (the_patch amr x.1 x.2) <> 0 ->
             0 <= TRank_of HILBERT PS1 LB_Corner2Index LB_Index2Rank amr FaLv x
             < Z.of_nat MPI_NRank) ->
  forall (PredictPos : bool) (TargetTime : real) (JustCountNPar : bool),
    post (send_counts_are HILBERT MAX_LEVEL MPI_NRank PS1 LB_Corner2Index LB_Index2Rank amr FaLv)
         (fun _ => DEBUG_PARTICLE = true)
         (prepare_send DEBUG_PARTICLE HILBERT MAX_LEVEL MPI_NRank PS1 LB_Corner2Index
            LB_Index2Rank Par_PredictPos amr FaLv PredictPos TargetTime JustCountNPar).
Proof.
  intros Hdest PredictPos TargetTime JustCountNPar.
  eapply post_mono;
    [apply (prepare_send_sure DEBUG_PARTICLE HILBERT MAX_LEVEL MPI_NRank PS1 LB_Corner2Index
              LB_Index2Rank Par_PredictPos amr FaLv PredictPos TargetTime JustCountNPar Hdest
              False); by intros []
    | done | by intros _ [? _]].
Qed.

Section SentCounts.

Variable HILBERT : bool.
Variables MAX_LEVEL MPI_NRank : nat.
Variable PS1 : Z.
Variable LB_Corner2Index : nat -> list Z -> Z.
Variable LB_Index2Rank : nat -> Z -> Z.
Variable amr : AMR_t.
Variable FaLv : nat.

Local Abbreviation key_of := (key_of HILBERT PS1 LB_Corner2Index amr FaLv).
Local Abbreviation TRank_of := (TRank_of HILBERT PS1 LB_Corner2Index LB_Index2Rank amr FaLv).
Local Abbreviation count_items :=
  (count_items HILBERT PS1 LB_Corner2Index LB_Index2Rank amr FaLv).
Local Abbreviation key_items :=
  (key_items HILBERT PS1 LB_Corner2Index LB_Index2Rank amr FaLv).
Local Abbreviation send_counts_are :=
  (send_counts_are HILBERT MAX_LEVEL MPI_NRank PS1 LB_Corner2Index LB_Index2Rank amr FaLv).

(** What the exchange takes from such buffers for the rank [r]. *)
Lemma sent_counts (sb : SendBuf_t) (r : nat) :
  send_counts_are sb -> (r < MPI_NRank)%nat ->
  let all := finer_patches MAX_LEVEL amr FaLv in
  nget 0 (SendBuf_NPatchEachRank sb) r = Z.of_nat (length (payloads_to r (count_items all))) /\
  sent_NParEachPatch r sb = payloads_to r (count_items all) /\
  sent_LBIdxEachPatch r sb = payloads_to r (key_items all).
Proof.
  intros (H1 & H2 & H3) Hr all. fold all in H1, H2, H3.
  assert (nget 0 (SendBuf_NPatchEachRank sb) r
          = Z.of_nat (length (payloads_to r (count_items all)))) as Hn.
  { unfold nget. by rewrite H1, list_lookup_fmap, lookup_seq_lt. }
  assert (sent_patch_offset sb r = group_start (count_items all) r) as Ho.
  { unfold sent_patch_offset. rewrite H1, sumZ_take_lengths by lia. apply Nat2Z.id. }
  split; [done|]. unfold sent_NParEachPatch, sent_LBIdxEachPatch, sent_NPatch.
  rewrite Hn, Ho, Nat2Z.id, H2, H3. split.
  - by apply take_drop_group.
  - unfold count_items, key_items.
    rewrite (length_payloads_to_ext amr TRank_of _ (fun x => [key_of x])) by done.
    rewrite (group_start_ext amr TRank_of _ (fun x => [key_of x])) by done.
    by apply take_drop_group.
Qed.

End SentCounts.

Lemma sumZ_fmap_add {X} (f g : X -> Z) (l : list X) :
  sumZ ((fun x => f x + g x) <$> l) = sumZ (f <$> l) + sumZ (g <$> l).
Proof.
  induction l as [|x l IH]; [done|]. rewrite !fmap_cons, !sumZ_cons, IH. lia.
Qed.

Lemma sumZ_fmap_ext {X} (f g : X -> Z) (l : list X) :
  (forall x, x ∈ l -> f x = g x) -> sumZ (f <$> l) = sumZ (g <$> l).
Proof.
  intros H. f_equal. apply list_fmap_ext. intros i x Hx. apply H.
  by eapply list_elem_of_lookup_2.
Qed.

Lemma sumZ_indicator (r0 : nat) (c : Z) (N : nat) :
  sumZ ((fun r => if decide (r0 = r) then c else 0) <$> seq 0 N)
  = if decide (r0 < N)%nat then c else 0.
Proof.
  induction N as [|N IH]; [done|].
  rewrite seq_S, fmap_app, sumZ_app, IH. simpl.
  destruct (decide (r0 < N)%nat), (decide (r0 = N)), (decide (r0 < S N)%nat); lia.
Qed.

(** The groups of all ranks together hold every payload once. *)
Lemma sumZ_groups (items : list (nat * list Z)) (N : nat) :
  (forall it, it ∈ items -> (it.1 < N)%nat) ->
  sumZ ((fun r => sumZ (payloads_to r items)) <$> seq 0 N) = sumZ (concat (snd <$> items)).
Proof.
  induction items as [|it items IH]; intros Hlt.
  - rewrite (sumZ_fmap_ext _ (fun r => if decide (0%nat = r) then 0 else 0)).
    + rewrite sumZ_indicator. by destruct (decide _).
    + intros r _. by destruct (decide _).
  - rewrite fmap_cons. change (concat (it.2 :: (snd <$> items)))
      with (it.2 ++ concat (snd <$> items)).
    rewrite sumZ_app, <- IH.
    2:{ intros it' Hit'. apply Hlt. by apply list_elem_of_further. }
    assert (it.1 < N)%nat as Hr by (apply Hlt, list_elem_of_here).
    rewrite (sumZ_fmap_ext _ (fun r => (if decide (it.1 = r) then sumZ it.2 else 0)
                                        + sumZ (payloads_to r items))).
    + rewrite sumZ_fmap_add, sumZ_indicator. by rewrite decide_True.
    + intros r _. rewrite payloads_to_cons, sumZ_app. by destruct (decide _).
Qed.

Lemma sumZ_const0 {X} (l : list X) : sumZ ((fun _ => 0) <$> l) = 0.
Proof. induction l as [|x l IH]; [done|]. by rewrite fmap_cons, sumZ_cons, IH. Qed.

Lemma sumZ_swap {X Y} (f : X -> Y -> Z) (la : list X) (lb : list Y) :
  sumZ ((fun a => sumZ ((fun b => f a b) <$> lb)) <$> la)
  = sumZ ((fun b => sumZ ((fun a => f a b) <$> la)) <$> lb).
Proof.
  induction la as [|a la IH].
  - simpl. by rewrite sumZ_const0.
  - rewrite fmap_cons, sumZ_cons, IH, <- sumZ_fmap_add. done.
Qed.

Lemma sumZ_fmap_concat {X} (f : X -> Z) (ls : list (list X)) :
  sumZ (f <$> concat ls) = sumZ ((fun l => sumZ (f <$> l)) <$> ls).
Proof.
  induction ls as [|l ls IH]; [done|].
  simpl. rewrite fmap_app, sumZ_app, IH. done.
Qed.

Lemma for_loop_sum (f : nat -> Z) (lo n : nat) :
  for_loop lo n (fun i acc => acc + f i) 0 = sumZ (f <$> seq lo n).
Proof.
  induction n as [|n IH]; [done|].
  rewrite for_loop_S, IH, seq_S, fmap_app. simpl. by rewrite sumZ_snoc.
Qed.

Lemma fmap_nget_seq {A} (d : A) (l : list A) :
  (fun i => nget d l i) <$> seq 0 (length l) = l.
Proof.
  apply list_eq. intros i. rewrite list_lookup_fmap.
  destruct (decide (i < length l)%nat) as [Hi|Hi].
  - rewrite lookup_seq_lt by done. simpl. unfold nget.
    destruct (lookup_lt_is_Some_2 l i Hi) as [x Hx]. by rewrite Hx.
  - rewrite lookup_seq_ge by lia. by rewrite lookup_ge_None_2 by lia.
Qed.

(** The counts of steps 5 as sums. *)
Lemma NParLocal_Get_sum (FaLv : nat) (amr : AMR_t) :
  NParLocal_Get FaLv amr
  = sumZ ((fun P => if son (the_patch amr FaLv P) =? -1
                    then NPar (the_patch amr FaLv P)
                    else NPar_Copy (the_patch amr FaLv P)) <$> seq 0 (NReal amr FaLv)).
Proof. unfold NParLocal_Get. by rewrite for_loop_sum. Qed.

Lemma NParLocal_Check_sum (MAX_LEVEL FaLv : nat) (amr : AMR_t) :
  NParLocal_Check MAX_LEVEL FaLv amr
  = sumZ ((fun lv => nget 0 (NPar_Lv (Par amr)) lv) <$> seq FaLv (MAX_LEVEL + 1 - FaLv)).
Proof. unfold NParLocal_Check. by rewrite for_loop_sum. Qed.

(** Every received record is counted in one patch. *)
Lemma matched_total (FaLv : nat) (amr : AMR_t) (recv : RecvBuf_t) :
  level_ok FaLv amr -> recv_ok FaLv amr recv ->
  sumZ ((fun P => received_count recv (LB_Idx (the_patch amr FaLv P)))
          <$> seq 0 (NReal amr FaLv))
  = sumZ (RecvBuf_NParEachPatch recv).
Proof.
  intros Hlevel Hrecv. unfold received_count.
  rewrite (sumZ_swap (fun P i => if nget 0 (RecvBuf_LBIdxEachPatch recv) i
                                    =? LB_Idx (the_patch amr FaLv P)
                                 then nget 0 (RecvBuf_NParEachPatch recv) i else 0)).
  transitivity (sumZ ((fun i => nget 0 (RecvBuf_NParEachPatch recv) i)
                        <$> seq 0 (NRecvPatchTotal recv))).
  2:{ by rewrite <- (ro_cnts _ _ _ Hrecv), fmap_nget_seq. }
  apply sumZ_fmap_ext. intros i Hi%elem_of_seq.
  destruct (recv_owner FaLv amr recv i Hlevel Hrecv ltac:(lia))
    as (Q & q & HQ & Hq & Hkey & _ & _).
  rewrite (sumZ_fmap_ext _ (fun P => if decide (Q = P)
                                     then nget 0 (RecvBuf_NParEachPatch recv) i else 0)).
  - rewrite sumZ_indicator. by rewrite decide_True.
  - intros P HP%elem_of_seq.
    destruct (lo_real _ _ Hlevel P ltac:(lia)) as [p Hp].
    rewrite (the_patch_Some _ _ _ _ Hp).
    destruct (decide (Q = P)) as [->|Hne].
    + assert (p = q) as -> by congruence. rewrite <- Hkey. by rewrite Z.eqb_refl.
    + destruct (Z.eqb_spec (nget 0 (RecvBuf_LBIdxEachPatch recv) i) (LB_Idx p)) as [He|]; [|done].
      exfalso. apply Hne. apply (lo_inj _ _ Hlevel Q P q p); try done; [lia | congruence].
Qed.

Section AllRankCounts.

Variables DEBUG_PARTICLE HILBERT : bool.
Variable MAX_LEVEL : nat.
Variable PS1 : Z.
Variable LB_Corner2Index : nat -> list Z -> Z.
Variable LB_Index2Rank : nat -> Z -> Z.
Variable Par_PredictPos : AMR_t -> Z -> real * real * real -> real -> real * real * real.
Variable FaLv : nat.
Variable PredictPos : bool.
Variable TargetTime : real.
Variable JustCountNPar : bool.
Variable ranks : list AMR_t.

Hypothesis Hranks : ranks_ok HILBERT MAX_LEVEL PS1 LB_Corner2Index LB_Index2Rank FaLv ranks.

Local Abbreviation prepare_send_ :=
  (prepare_send DEBUG_PARTICLE HILBERT MAX_LEVEL (length ranks) PS1 LB_Corner2Index
     LB_Index2Rank Par_PredictPos).
Local Abbreviation recv_ :=
  (recv_AllRank DEBUG_PARTICLE HILBERT MAX_LEVEL PS1 LB_Corner2Index LB_Index2Rank
     Par_PredictPos FaLv PredictPos TargetTime JustCountNPar ranks).
Local Abbreviation counts_of amr :=
  (count_items HILBERT PS1 LB_Corner2Index LB_Index2Rank amr FaLv
     (finer_patches MAX_LEVEL amr FaLv)).
Local Abbreviation keys_of amr :=
  (key_items HILBERT PS1 LB_Corner2Index LB_Index2Rank amr FaLv
     (finer_patches MAX_LEVEL amr FaLv)).

(** Step 1 succeeds on every rank. *)
Hypothesis Hsends : forall s amr, ranks !! s = Some amr ->
                      exists sb, prepare_send_ amr FaLv PredictPos TargetTime JustCountNPar = Ok sb.

Lemma dest_valid (s : nat) (amr : AMR_t) (x : nat * nat) :
  ranks !! s = Some amr ->
  x ∈ finer_patches MAX_LEVEL amr FaLv -> NPar (the_patch amr x.1 x.2) <> 0 ->
  0 <= TRank_of HILBERT PS1 LB_Corner2Index LB_Index2Rank amr FaLv x < Z.of_nat (length ranks).
Proof.
  intros Hs Hx Hn.
  destruct (go_owner _ _ _ _ _ _ _ Hranks s amr x Hs Hx Hn) as (r & a & _ & _ & -> & Hr & _).
  apply lookup_lt_Some in Hr. lia.
Qed.

Lemma sends_counts (s : nat) (amr : AMR_t) :
  ranks !! s = Some amr ->
  send_counts_are HILBERT MAX_LEVEL (length ranks) PS1 LB_Corner2Index LB_Index2Rank amr FaLv
    (match prepare_send_ amr FaLv PredictPos TargetTime JustCountNPar with
     | Ok sb => sb
     | Aux_Error _ _ => empty_SendBuf
     end).
Proof.
  intros Hs. destruct (Hsends s amr Hs) as [sb Hsb].
  pose proof (prepare_send_counts DEBUG_PARTICLE HILBERT MAX_LEVEL (length ranks) PS1
                LB_Corner2Index LB_Index2Rank Par_PredictPos amr FaLv
                (fun x => dest_valid s amr x Hs) PredictPos TargetTime JustCountNPar) as Hpost.
  rewrite Hsb in *. exact Hpost.
Qed.

(** What the rank [r] receives: the counts and the keys that the ranks have
    for it, in the order of the ranks. *)
Lemma recv_AllRank_counts (r : nat) :
  (r < length ranks)%nat ->
  RecvBuf_NParEachPatch (recv_ r)
  = concat ((fun amr => payloads_to r (counts_of amr)) <$> ranks) /\
  RecvBuf_LBIdxEachPatch (recv_ r)
  = concat ((fun amr => payloads_to r (keys_of amr)) <$> ranks) /\
  NRecvPatchTotal (recv_ r) = length (RecvBuf_NParEachPatch (recv_ r)) /\
  NRecvPatchTotal (recv_ r) = length (RecvBuf_LBIdxEachPatch (recv_ r)).
Proof.
  intros Hr. unfold recv_AllRank, Par_LB_SendParticleData_AllRank, sends_AllRank.
  cbn [RecvBuf_NParEachPatch RecvBuf_LBIdxEachPatch NRecvPatchTotal].
  rewrite <- !list_fmap_compose.
  assert (forall amr, amr ∈ ranks ->
            let sb := match prepare_send_ amr FaLv PredictPos TargetTime JustCountNPar with
                      | Ok sb => sb
                      | Aux_Error _ _ => empty_SendBuf
                      end in
            nget 0 (SendBuf_NPatchEachRank sb) r
            = Z.of_nat (length (payloads_to r (counts_of amr))) /\
            sent_NParEachPatch r sb = payloads_to r (counts_of amr) /\
            sent_LBIdxEachPatch r sb = payloads_to r (keys_of amr)) as Hsent.
  { intros amr [s Hs]%list_elem_of_lookup_1.
    apply (sent_counts HILBERT MAX_LEVEL (length ranks) PS1 LB_Corner2Index LB_Index2Rank
             amr FaLv); [|done].
    by apply (sends_counts s). }
  assert (sent_NParEachPatch r
            ∘ (fun amr => match prepare_send_ amr FaLv PredictPos TargetTime JustCountNPar with
                          | Ok sb => sb
                          | Aux_Error _ _ => empty_SendBuf
                          end) <$> ranks
          = (fun amr => payloads_to r (counts_of amr)) <$> ranks) as ->.
  { apply list_fmap_ext. intros i amr Hi. apply Hsent. by eapply list_elem_of_lookup_2. }
  assert (sent_LBIdxEachPatch r
            ∘ (fun amr => match prepare_send_ amr FaLv PredictPos TargetTime JustCountNPar with
                          | Ok sb => sb
                          | Aux_Error _ _ => empty_SendBuf
                          end) <$> ranks
          = (fun amr => payloads_to r (keys_of amr)) <$> ranks) as ->.
  { apply list_fmap_ext. intros i amr Hi. apply Hsent. by eapply list_elem_of_lookup_2. }
  assert ((fun sb => nget 0 (SendBuf_NPatchEachRank sb) r)
            ∘ (fun amr => match prepare_send_ amr FaLv PredictPos TargetTime JustCountNPar with
                          | Ok sb => sb
                          | Aux_Error _ _ => empty_SendBuf
                          end) <$> ranks
          = (fun amr => Z.of_nat (length (payloads_to r (counts_of amr)))) <$> ranks) as ->.
  { apply list_fmap_ext. intros i amr Hi. apply Hsent. by eapply list_elem_of_lookup_2. }
  split; [done|]. split; [done|].
  assert (forall (f g : AMR_t -> list Z),
            (forall amr, length (f amr) = length (g amr)) ->
            Z.to_nat (sumZ ((fun amr => Z.of_nat (length (f amr))) <$> ranks))
            = length (concat (g <$> ranks))) as Hlen.
  { intros f g Hfg. apply Nat2Z.inj. rewrite length_concat_sumZ, <- list_fmap_compose.
    rewrite Z2Nat.id.
    - apply sumZ_fmap_ext. intros amr _. simpl. by rewrite Hfg.
    - apply sumZ_nonneg, Forall_fmap, Forall_forall. intros amr _. simpl. lia. }
  split; apply Hlen; [done|]. intros amr.
  by apply length_payloads_to_ext.
Qed.

(** The records that a rank receives belong to it. *)
Lemma recv_AllRank_ok (r : nat) (amr : AMR_t) :
  ranks !! r = Some amr -> recv_ok FaLv amr (recv_ r).
Proof.
  intros Hr. pose proof (lookup_lt_Some _ _ _ Hr) as Hlt.
  destruct (recv_AllRank_counts r Hlt) as (Hc & Hk & Hn & Hn').
  split; [done | done | |].
  - intros i k Hi. rewrite Hk in Hi. apply list_elem_of_lookup_2 in Hi.
    apply elem_of_concat in Hi as (l & Hkl & Hl).
    apply list_elem_of_fmap in Hl as (a & -> & [s Hs]%list_elem_of_lookup_1).
    apply elem_of_payloads_send in Hkl as (x & Hx & Hnz & Hdest & Hkx).
    apply list_elem_of_singleton in Hkx as ->.
    destruct (go_owner _ _ _ _ _ _ _ Hranks s a x Hs Hx Hnz)
      as (r' & a' & P & p & Hr' & Ha' & HP & Hp & Hkey & Hson).
    assert (r' = r) as -> by lia.
    assert (a' = amr) as -> by congruence.
    by exists P, p.
  - intros i n Hi. rewrite Hc in Hi. apply list_elem_of_lookup_2 in Hi.
    apply elem_of_concat in Hi as (l & Hnl & Hl).
    apply list_elem_of_fmap in Hl as (a & -> & [s Hs]%list_elem_of_lookup_1).
    apply elem_of_payloads_send in Hnl as (x & Hx & Hnz & Hdest & Hnx).
    apply list_elem_of_singleton in Hnx as ->.
    by apply (go_NPar _ _ _ _ _ _ _ Hranks s a x).
Qed.

Lemma count_items_total (amr : AMR_t) (l : list (nat * nat)) :
  sumZ (concat (snd <$> count_items HILBERT PS1 LB_Corner2Index LB_Index2Rank amr FaLv l))
  = sumZ ((fun x => NPar (the_patch amr x.1 x.2)) <$> l).
Proof.
  induction l as [|x l IH]; [done|].
  unfold count_items in *. rewrite send_items_cons, fmap_app, concat_app, sumZ_app, IH.
  rewrite fmap_cons, sumZ_cons. f_equal.
  destruct (Z.eqb_spec (NPar (the_patch amr x.1 x.2)) 0) as [->|]; [done|].
  simpl. unfold sumZ. simpl. lia.
Qed.

Lemma finer_total (amr : AMR_t) :
  sumZ ((fun x => NPar (the_patch amr x.1 x.2)) <$> finer_patches MAX_LEVEL amr FaLv)
  = sumZ ((fun lv => sumZ ((fun P => NPar (the_patch amr lv P)) <$> seq 0 (NReal amr lv)))
            <$> seq (FaLv + 1) (MAX_LEVEL - FaLv)).
Proof.
  unfold finer_patches. rewrite sumZ_fmap_concat, <- list_fmap_compose.
  apply sumZ_fmap_ext. intros lv _. simpl. by rewrite <- list_fmap_compose.
Qed.

(** The particles received by all ranks are the particles of the finer
    patches of all ranks. *)
Lemma recv_AllRank_total :
  sumZ ((fun r => sumZ (RecvBuf_NParEachPatch (recv_ r))) <$> seq 0 (length ranks))
  = sumZ ((fun amr => sumZ ((fun lv => nget 0 (NPar_Lv (Par amr)) lv)
                              <$> seq (FaLv + 1) (MAX_LEVEL - FaLv))) <$> ranks).
Proof.
  rewrite (sumZ_fmap_ext _ (fun r => sumZ ((fun amr => sumZ (payloads_to r (counts_of amr)))
                                             <$> ranks))).
  2:{ intros r Hr%elem_of_seq. destruct (recv_AllRank_counts r) as (-> & _); [lia|].
      by rewrite sumZ_concat, <- list_fmap_compose. }
  rewrite (sumZ_swap (fun r amr => sumZ (payloads_to r (counts_of amr)))).
  apply sumZ_fmap_ext. intros amr [s Hs]%list_elem_of_lookup_1.
  rewrite sumZ_groups.
  - rewrite count_items_total, finer_total. apply sumZ_fmap_ext. intros lv Hlv%elem_of_seq.
    symmetry. apply (go_NPar_Lv _ _ _ _ _ _ _ Hranks s); [done | lia].
  - intros it Hi.
    unfold count_items, send_items in Hi. apply elem_of_concat in Hi as (l & Hl & Hl').
    apply list_elem_of_fmap in Hl' as (x & -> & Hx).
    destruct (Z.eqb_spec (NPar (the_patch amr x.1 x.2)) 0) as [|Hnz];
      [by apply elem_of_nil in Hl|].
    apply list_elem_of_singleton in Hl as ->. simpl.
    pose proof (dest_valid s amr x Hs Hx Hnz). lia.
Qed.

End AllRankCounts.

(** ** Conservation of the particles *)

(** The count of step 5 on a rank whose patches are those of steps 3 and 4:
    its own particles of the level and the particles received. *)
Lemma stored_Get (FaLv : nat) (JustCountNPar : bool) (amr a : AMR_t) (recv : RecvBuf_t) :
  level_ok FaLv amr -> recv_ok FaLv amr recv ->
  patches_are (collect_patch FaLv JustCountNPar amr recv) FaLv amr a ->
  NParLocal_Get FaLv a
  = sumZ ((fun P => NPar (the_patch amr FaLv P)) <$> seq 0 (NReal amr FaLv))
    + sumZ (RecvBuf_NParEachPatch recv).
Proof.
  intros Hlevel Hrecv Ha. rewrite NParLocal_Get_sum.
  destruct (patches_are_env _ _ _ _ Ha) as (HC & _).
  assert (NReal a FaLv = NReal amr FaLv) as -> by (unfold NReal; by rewrite HC).
  rewrite <- (matched_total FaLv amr recv Hlevel Hrecv), <- sumZ_fmap_add.
  apply sumZ_fmap_ext. intros P HP%elem_of_seq.
  destruct (lo_real _ _ Hlevel P ltac:(lia)) as [p0 Hp0].
  pose proof (patches_are_get _ _ _ _ P Ha) as Hget. rewrite Hp0 in Hget. simpl in Hget.
  rewrite (the_patch_Some _ _ _ _ Hget), (the_patch_Some _ _ _ _ Hp0).
  destruct (collect_patch_spec FaLv amr recv Hlevel Hrecv P p0 ltac:(lia) Hp0 JustCountNPar)
    as ((_ & _ & Hson & HNPar & _) & Hleaf & Hcount & _).
  rewrite Hson. destruct (Z.eqb_spec (son p0) (-1)) as [Hs|Hs].
  - rewrite HNPar, (leaf_received_count FaLv amr recv Hlevel Hrecv P p0) by (done || lia). lia.
  - by apply Hcount.
Qed.

Lemma sumZ_imap_split {X} (f : nat -> X -> Z) (h : X -> Z) (g : nat -> Z) (l : list X) :
  (forall r a, l !! r = Some a -> f r a = h a + g r) ->
  sumZ (imap f l) = sumZ (h <$> l) + sumZ (g <$> seq 0 (length l)).
Proof.
  revert f g. induction l as [|a l IH]; intros f g Hf; [done|].
  cbn [imap length]. rewrite fmap_cons, !sumZ_cons.
  change (seq 0 (S (length l))) with (0%nat :: seq 1 (length l)).
  rewrite <- fmap_S_seq, fmap_cons, <- list_fmap_compose, sumZ_cons.
  rewrite (IH (f ∘ S) (g ∘ S)).
  - rewrite (Hf 0%nat a) by done. lia.
  - intros r b Hr. simpl. by apply Hf.
Qed.

Lemma sumZ_imap_ext {X} (f g : nat -> X -> Z) (l : list X) :
  (forall r a, l !! r = Some a -> f r a = g r a) -> sumZ (imap f l) = sumZ (imap g l).
Proof. intros H. f_equal. by apply imap_ext. Qed.

Lemma check_flags_ok (dbg PredictPos Sib FaSib JustCountNPar : bool) (amr : AMR_t) :
  dbg && JustCountNPar && (PredictPos || Sib || FaSib) = false ->
  check_flags dbg PredictPos Sib FaSib JustCountNPar amr = Ok amr.
Proof.
  unfold check_flags, check. destruct dbg, JustCountNPar, PredictPos, Sib, FaSib; done.
Qed.

Lemma check_uninitialized_ok (dbg : bool) (FaLv : nat) (amr : AMR_t) :
  level_ok FaLv amr -> check_uninitialized dbg FaLv amr = Ok amr.
Proof.
  intros Hlevel. pose proof (check_uninitialized_post dbg FaLv amr) as Hpost.
  destruct (check_uninitialized dbg FaLv amr) as [a|msg s]; simpl in Hpost.
  - by destruct Hpost as [-> _].
  - destruct Hpost as (_ & _ & P & HP & Hdirty).
    destruct (lo_real _ _ Hlevel P HP) as [p Hp].
    rewrite (the_patch_Some _ _ _ _ Hp), (lo_clear _ _ Hlevel P p HP Hp) in Hdirty. done.
Qed.

Lemma Get_collect_buffer_patches
    (F : nat -> Z -> list Z -> list Z -> Z -> list Z -> list Z -> bool -> real ->
         AMR_t -> AMR_t)
    (FaLv : nat) (PredictPos : bool) (TargetTime : real) (Sib FaSib JustCountNPar : bool)
    (a : AMR_t) :
  writes_buffers_only F ->
  NParLocal_Get FaLv (collect_buffer_patches F FaLv PredictPos TargetTime Sib FaSib
                        JustCountNPar a)
  = NParLocal_Get FaLv a.
Proof.
  intros HF. rewrite !NParLocal_Get_sum.
  destruct (collect_buffer_patches_only_shadows F FaLv PredictPos TargetTime Sib FaSib
              JustCountNPar a HF) as ((HC & _) & _).
  assert (NReal (collect_buffer_patches F FaLv PredictPos TargetTime Sib FaSib
                                 JustCountNPar a) FaLv = NReal a FaLv) as ->.
  { unfold NReal. by rewrite HC. }
  apply sumZ_fmap_ext. intros P HP%elem_of_seq. unfold the_patch.
  rewrite collect_buffer_patches_real; [done | done | lia].
Qed.

Section AllRankConservation.

Variables DEBUG_PARTICLE HILBERT : bool.
Variable MAX_LEVEL : nat.
Variable PS1 : Z.
Variable LB_Corner2Index : nat -> list Z -> Z.
Variable LB_Index2Rank : nat -> Z -> Z.
Variable Par_PredictPos : AMR_t -> Z -> real * real * real -> real -> real * real * real.
Variable Par_LB_CollectParticleFromRealPatch :
  nat -> nat -> Z -> list Z -> list Z -> Z -> list Z -> list Z -> bool -> real ->
  AMR_t -> AMR_t.
Variable FaLv : nat.
Variable PredictPos : bool.
Variable TargetTime : real.
Variables SibBufPatch FaSibBufPatch JustCountNPar : bool.
Variable ranks : list AMR_t.

Local Abbreviation send_ amr :=
  (prepare_send DEBUG_PARTICLE HILBERT MAX_LEVEL (length ranks) PS1 LB_Corner2Index
     LB_Index2Rank Par_PredictPos amr FaLv PredictPos TargetTime JustCountNPar).
Local Abbreviation recv_ :=
  (recv_AllRank DEBUG_PARTICLE HILBERT MAX_LEVEL PS1 LB_Corner2Index LB_Index2Rank
     Par_PredictPos FaLv PredictPos TargetTime JustCountNPar ranks).
Local Abbreviation stored_ :=
  (stored_AllRank DEBUG_PARTICLE HILBERT MAX_LEVEL PS1 LB_Corner2Index LB_Index2Rank
     Par_PredictPos FaLv PredictPos TargetTime JustCountNPar ranks).
Local Abbreviation reduce_ :=
  (MPI_Reduce_SUM_AllRank DEBUG_PARTICLE HILBERT MAX_LEVEL PS1 LB_Corner2Index LB_Index2Rank
     Par_PredictPos FaLv PredictPos TargetTime JustCountNPar ranks).
Local Abbreviation Collect_ :=
  (Collect_AllRank DEBUG_PARTICLE HILBERT MAX_LEVEL PS1 LB_Corner2Index LB_Index2Rank
     Par_PredictPos Par_LB_CollectParticleFromRealPatch FaLv PredictPos TargetTime
     SibBufPatch FaSibBufPatch JustCountNPar ranks).
Local Abbreviation steps_succeed :=
  (steps_succeed DEBUG_PARTICLE HILBERT MAX_LEVEL PS1 LB_Corner2Index LB_Index2Rank
     Par_PredictPos FaLv PredictPos TargetTime JustCountNPar ranks).
Local Abbreviation Collect_AllRank_states :=
  (Collect_AllRank_states DEBUG_PARTICLE HILBERT MAX_LEVEL PS1 LB_Corner2Index
     LB_Index2Rank Par_PredictPos Par_LB_CollectParticleFromRealPatch FaLv PredictPos
     TargetTime SibBufPatch FaSibBufPatch JustCountNPar ranks).

Hypothesis Hbuffers : forall r, writes_buffers_only (Par_LB_CollectParticleFromRealPatch r).
Hypothesis Hranks : ranks_ok HILBERT MAX_LEVEL PS1 LB_Corner2Index LB_Index2Rank FaLv ranks.
Hypothesis Hlv : (FaLv <= MAX_LEVEL)%nat.

Lemma Check_split (amr : AMR_t) :
  NParLocal_Check MAX_LEVEL FaLv amr
  = nget 0 (NPar_Lv (Par amr)) FaLv
    + sumZ ((fun lv => nget 0 (NPar_Lv (Par amr)) lv) <$> seq (FaLv + 1) (MAX_LEVEL - FaLv)).
Proof.
  rewrite NParLocal_Check_sum. replace (MAX_LEVEL + 1 - FaLv)%nat with (S (MAX_LEVEL - FaLv)) by lia.
  cbn [seq]. rewrite fmap_cons, sumZ_cons. by rewrite Nat.add_1_r.
Qed.

(** Steps 3 and 4 on a rank are [collect_patch] on each patch of the level. *)
Lemma stored_patches (r : nat) (amr : AMR_t) :
  steps_succeed -> ranks !! r = Some amr ->
  recv_ok FaLv amr (recv_ r) /\
  exists a, stored_ r amr = Ok a /\
            patches_are (collect_patch FaLv JustCountNPar amr (recv_ r)) FaLv amr a.
Proof.
  intros Hsteps Hr.
  assert (forall s amr, ranks !! s = Some amr -> exists sb, send_ amr = Ok sb) as Hsends.
  { intros s amr' Hs. by destruct (Hsteps s amr' Hs). }
  pose proof (recv_AllRank_ok DEBUG_PARTICLE HILBERT MAX_LEVEL PS1 LB_Corner2Index
                LB_Index2Rank Par_PredictPos FaLv PredictPos TargetTime JustCountNPar
                ranks Hranks Hsends r amr Hr) as Hrecv.
  split; [done|].
  destruct (Hsteps r amr Hr) as [_ [a Ha]]. exists a. split; [done|].
  pose proof (store_received_patches DEBUG_PARTICLE FaLv PredictPos JustCountNPar
                (recv_ r) amr (go_level _ _ _ _ _ _ _ Hranks r amr Hr) Hrecv) as Hpost.
  unfold stored_AllRank in Ha. by rewrite Ha in Hpost.
Qed.

(** The two sums of step 5 are the particles that the tables of the ranks
    hold for the levels from FaLv up. *)
Lemma reduce_sums (x y : Z) :
  steps_succeed ->
  reduce_ 0%nat x = sumZ (NParLocal_Check MAX_LEVEL FaLv <$> ranks) /\
  reduce_ 1%nat y = sumZ (NParLocal_Check MAX_LEVEL FaLv <$> ranks).
Proof.
  intros Hsteps. unfold MPI_Reduce_SUM_AllRank.
  assert (forall s amr, ranks !! s = Some amr -> exists sb, send_ amr = Ok sb) as Hsends.
  { intros s amr Hs. by destruct (Hsteps s amr Hs). }
  split.
  - rewrite (sumZ_imap_split _ (fun amr => nget 0 (NPar_Lv (Par amr)) FaLv)
               (fun r => sumZ (RecvBuf_NParEachPatch (recv_ r)))).
    2:{ intros r amr Hr. destruct (stored_patches r amr Hsteps Hr) as (Hrecv & a & -> & Ha).
        cbn [state_of].
        rewrite (stored_Get FaLv JustCountNPar amr a (recv_ r)); try done.
        - f_equal. symmetry. apply (go_NPar_Lv _ _ _ _ _ _ _ Hranks r); [done | lia].
        - by apply (go_level _ _ _ _ _ _ _ Hranks r). }
    rewrite recv_AllRank_total by done.
    rewrite (sumZ_fmap_ext (fun amr => NParLocal_Check MAX_LEVEL FaLv amr) _ _
               (fun amr _ => Check_split amr)).
    by rewrite sumZ_fmap_add.
  - rewrite (sumZ_imap_split _ (fun amr => NParLocal_Check MAX_LEVEL FaLv amr) (fun _ => 0)).
    2:{ intros r amr Hr. destruct (stored_patches r amr Hsteps Hr) as (_ & a & -> & Ha).
        cbn [state_of].
        destruct (patches_are_env _ _ _ _ Ha) as (_ & _ & _ & _ & _ & HPar).
        unfold NParLocal_Check. rewrite HPar. lia. }
    by rewrite sumZ_const0, Z.add_0_r.
Qed.

(** The count of step 5 at the maximum level, where every patch is a leaf. *)
Lemma Get_max_level (r : nat) (amr : AMR_t) :
  ranks !! r = Some amr -> FaLv = MAX_LEVEL ->
  NParLocal_Get FaLv amr = NParLocal_Check MAX_LEVEL FaLv amr.
Proof.
  intros Hr Heq. rewrite Check_split. replace (MAX_LEVEL - FaLv)%nat with 0%nat by lia.
  simpl. rewrite Z.add_0_r.
  rewrite (go_NPar_Lv _ _ _ _ _ _ _ Hranks r amr FaLv Hr) by lia.
  rewrite NParLocal_Get_sum.
  apply sumZ_fmap_ext. intros P HP%elem_of_seq.
  destruct (lo_real _ _ (go_level _ _ _ _ _ _ _ Hranks r amr Hr) P ltac:(lia)) as [p Hp].
  rewrite (the_patch_Some _ _ _ _ Hp).
  assert (son p = -1) as ->; [|done].
  apply (go_max _ _ _ _ _ _ _ Hranks r amr P p Hr); rewrite <- Heq; [lia | done].
Qed.

(** The call returns on every rank. *)
Lemma Collect_AllRank_returns :
  DEBUG_PARTICLE && JustCountNPar && (PredictPos || SibBufPatch || FaSibBufPatch) = false ->
  ((FaLv < MAX_LEVEL)%nat -> steps_succeed) ->
  Collect_ = Ok <$> Collect_AllRank_states.
Proof.
  intros Hflags Hsteps.
  unfold Collect_AllRank, Collect_AllRank_states. rewrite fmap_imap.
  apply imap_ext. intros r amr Hr. simpl.
  unfold Collect_on_rank, Par_LB_CollectParticle2OneLevel.
  destruct (Nat.ltb_spec MAX_LEVEL FaLv); [lia|].
  rewrite check_uninitialized_ok by (by apply (go_level _ _ _ _ _ _ _ Hranks r)).
  assert ((if DEBUG_PARTICLE
           then check_flags DEBUG_PARTICLE PredictPos SibBufPatch FaSibBufPatch
                  JustCountNPar amr
           else Ok amr) = Ok amr) as ->.
  { destruct DEBUG_PARTICLE; [by apply check_flags_ok | done]. }
  cbn [bind]. destruct (Nat.eqb_spec FaLv MAX_LEVEL) as [|Hne]; [done|].
  assert (FaLv < MAX_LEVEL)%nat as Hlt by lia.
  destruct (Hsteps Hlt r amr Hr) as [[sb Hsb] [a Ha]].
  pose proof (reduce_sums (NParLocal_Get FaLv a) (NParLocal_Check MAX_LEVEL FaLv a)
                (Hsteps Hlt)) as [HG HC].
  assert (state_of (stored_ r amr) = a) as -> by (by rewrite Ha).
  rewrite Hsb. cbn [bind]. unfold stored_AllRank, recv_AllRank in Ha. rewrite Ha.
  cbn [bind]. unfold check_total. rewrite HG, HC, Z.eqb_refl, andb_false_r.
  by destruct DEBUG_PARTICLE.
Qed.

(** When steps 1 to 4 run to their end on every rank, the call returns on
    every rank and the two sums of step 5 agree. *)
Lemma conserves_when_steps_succeed :
  DEBUG_PARTICLE && JustCountNPar && (PredictPos || SibBufPatch || FaSibBufPatch) = false ->
  ((FaLv < MAX_LEVEL)%nat -> steps_succeed) ->
  Collect_ = Ok <$> Collect_AllRank_states /\
  sumZ (NParLocal_Get FaLv <$> Collect_AllRank_states)
  = sumZ (NParLocal_Check MAX_LEVEL FaLv <$> ranks).
Proof.
  intros Hflags Hsteps. split; [by apply Collect_AllRank_returns|].
  unfold Collect_AllRank_states. rewrite fmap_imap.
  destruct (Nat.eqb_spec FaLv MAX_LEVEL) as [Heq|Hne].
  - rewrite <- imap_const. apply sumZ_imap_ext. intros r amr Hr. simpl.
    rewrite Get_collect_buffer_patches by done. by apply (Get_max_level r).
  - assert (FaLv < MAX_LEVEL)%nat as Hlt by lia.
    destruct (reduce_sums 0 0 (Hsteps Hlt)) as [<- _].
    unfold MPI_Reduce_SUM_AllRank. apply sumZ_imap_ext. intros r amr Hr. simpl.
    by rewrite Get_collect_buffer_patches.
Qed.

(** The state that a rank returns, and the real patches of the level in it. *)
Lemma Collect_AllRank_state (r : nat) (amr : AMR_t) :
  ((FaLv < MAX_LEVEL)%nat -> steps_succeed) -> ranks !! r = Some amr ->
  exists a a',
    Collect_AllRank_states !! r = Some a' /\
    a' = collect_buffer_patches (Par_LB_CollectParticleFromRealPatch r) FaLv PredictPos
           TargetTime SibBufPatch FaSibBufPatch JustCountNPar a /\
    recv_ok FaLv amr (recv_ r) /\
    patches_are (if (FaLv =? MAX_LEVEL)%nat then fun _ p => p
                 else collect_patch FaLv JustCountNPar amr (recv_ r)) FaLv amr a /\
    forall P, (P < NReal amr FaLv)%nat -> get_patch a' FaLv P = get_patch a FaLv P.
Proof.
  intros Hsteps Hr. unfold Collect_AllRank_states. rewrite list_lookup_imap, Hr. simpl.
  assert (forall s amr, ranks !! s = Some amr ->
            recv_ok FaLv amr (recv_ s)) as Hrecv.
  { intros s amr' Hs. destruct (Nat.eqb_spec FaLv MAX_LEVEL) as [Heq|Hne].
    - apply (recv_AllRank_ok DEBUG_PARTICLE HILBERT MAX_LEVEL PS1 LB_Corner2Index
               LB_Index2Rank Par_PredictPos FaLv PredictPos TargetTime JustCountNPar
               ranks Hranks); [|done].
      intros s' a' Hs'. unfold prepare_send, for_finer.
      replace (MAX_LEVEL - FaLv)%nat with 0%nat by lia. simpl. eauto.
    - by apply stored_patches; [apply Hsteps; lia|]. }
  destruct (Nat.eqb_spec FaLv MAX_LEVEL) as [Heq|Hne].
  - exists amr. eexists. split; [done|]. split; [done|]. split; [by apply Hrecv|].
    split; [apply patches_are_refl|]. intros P HP.
    by apply collect_buffer_patches_real.
  - destruct (stored_patches r amr (Hsteps ltac:(lia)) Hr) as (_ & a & Ha & Hpatches).
    exists a. eexists. split; [done|]. rewrite Ha. split; [done|].
    split; [by apply Hrecv|]. split; [done|]. intros P HP.
    apply collect_buffer_patches_real; [done|].
    destruct (patches_are_env _ _ _ _ Hpatches) as (HC & _). unfold NReal. by rewrite HC.
Qed.

End AllRankConservation.

(** ** A call that counts only *)

Lemma collect_patch_count_only (FaLv : nat) (amr : AMR_t) (recv : RecvBuf_t) (P : nat)
    (p0 : patch_t) :
  ParMassPos_Copy (collect_patch FaLv true amr recv P p0) = ParMassPos_Copy p0.
Proof.
  unfold collect_patch, accumulate_patch. cbv zeta. rewrite apply_records_add_count.
  unfold add_count, seed_patch. simpl.
  destruct (bool_decide _); [|done]. by destruct (negb _).
Qed.

Lemma collect_buffer_patches_count_only
    (F : nat -> Z -> list Z -> list Z -> Z -> list Z -> list Z -> bool -> real ->
         AMR_t -> AMR_t)
    (FaLv : nat) (PredictPos : bool) (TargetTime : real) (Sib FaSib : bool) (a : AMR_t) :
  collect_buffer_patches F FaLv PredictPos TargetTime Sib FaSib true a = a.
Proof. unfold collect_buffer_patches. simpl. by rewrite !andb_false_r. Qed.

Section CountOnly.

Variables DEBUG_PARTICLE HILBERT : bool.
Variable MAX_LEVEL : nat.
Variable PS1 : Z.
Variable LB_Corner2Index : nat -> list Z -> Z.
Variable LB_Index2Rank : nat -> Z -> Z.
Variable Par_PredictPos : AMR_t -> Z -> real * real * real -> real -> real * real * real.
Variable Par_LB_CollectParticleFromRealPatch :
  nat -> nat -> Z -> list Z -> list Z -> Z -> list Z -> list Z -> bool -> real ->
  AMR_t -> AMR_t.
Variable FaLv : nat.
Variable ranks : list AMR_t.

(** The arguments of the call that counts, and of the call that collects. *)
Variables (TargetTime TargetTime' : real) (SibBufPatch FaSibBufPatch : bool).

Local Abbreviation Count_ :=
  (Collect_AllRank DEBUG_PARTICLE HILBERT MAX_LEVEL PS1 LB_Corner2Index LB_Index2Rank
     Par_PredictPos Par_LB_CollectParticleFromRealPatch FaLv false TargetTime
     false false true ranks).
Local Abbreviation Count_states :=
  (Collect_AllRank_states DEBUG_PARTICLE HILBERT MAX_LEVEL PS1 LB_Corner2Index LB_Index2Rank
     Par_PredictPos Par_LB_CollectParticleFromRealPatch FaLv false TargetTime
     false false true ranks).
Local Abbreviation Count_steps :=
  (steps_succeed DEBUG_PARTICLE HILBERT MAX_LEVEL PS1 LB_Corner2Index LB_Index2Rank
     Par_PredictPos FaLv false TargetTime true ranks).
Local Abbreviation Collect_ :=
  (Collect_AllRank DEBUG_PARTICLE HILBERT MAX_LEVEL PS1 LB_Corner2Index LB_Index2Rank
     Par_PredictPos Par_LB_CollectParticleFromRealPatch FaLv false TargetTime'
     SibBufPatch FaSibBufPatch false ranks).
Local Abbreviation Collect_states :=
  (Collect_AllRank_states DEBUG_PARTICLE HILBERT MAX_LEVEL PS1 LB_Corner2Index LB_Index2Rank
     Par_PredictPos Par_LB_CollectParticleFromRealPatch FaLv false TargetTime'
     SibBufPatch FaSibBufPatch false ranks).
Local Abbreviation Collect_steps :=
  (steps_succeed DEBUG_PARTICLE HILBERT MAX_LEVEL PS1 LB_Corner2Index LB_Index2Rank
     Par_PredictPos FaLv false TargetTime' false ranks).

(** When steps 1 to 4 of a call that counts and of a call that collects run
    to their end on every rank, both calls return and leave the same counts. *)
Lemma count_only_when_steps_succeed :
  (forall r, writes_buffers_only (Par_LB_CollectParticleFromRealPatch r)) ->
  ranks_ok HILBERT MAX_LEVEL PS1 LB_Corner2Index LB_Index2Rank FaLv ranks ->
  (FaLv <= MAX_LEVEL)%nat ->
  ((FaLv < MAX_LEVEL)%nat -> Count_steps /\ Collect_steps) ->
  Count_ = Ok <$> Count_states /\
  Collect_ = Ok <$> Collect_states /\
  forall r amr, ranks !! r = Some amr ->
    exists a_count a_full,
      Count_states !! r = Some a_count /\ Collect_states !! r = Some a_full /\
      (forall P, (P < NReal amr FaLv)%nat ->
                 NPar_Copy (the_patch a_count FaLv P) = NPar_Copy (the_patch a_full FaLv P)) /\
      (forall lv P, ParMassPos_Copy (the_patch a_count lv P)
                    = ParMassPos_Copy (the_patch amr lv P)) /\
      (forall P v, (P < NReal amr FaLv)%nat -> (v < NParVar)%nat ->
                   not_null (the_patch a_count FaLv P) v = false).
Proof.
  intros Hbuffers Hranks Hlv Hsteps.
  split; [apply Collect_AllRank_returns; try done; [by destruct DEBUG_PARTICLE | by intros [? ?]%Hsteps]|].
  split; [apply Collect_AllRank_returns; try done; [by destruct DEBUG_PARTICLE | by intros [? ?]%Hsteps]|].
  intros r amr Hr.
  destruct (Collect_AllRank_state DEBUG_PARTICLE HILBERT MAX_LEVEL PS1 LB_Corner2Index
              LB_Index2Rank Par_PredictPos Par_LB_CollectParticleFromRealPatch FaLv false
              TargetTime false false true ranks Hbuffers Hranks Hlv r amr
              ltac:(by intros [? ?]%Hsteps) Hr)
    as (ac & ac' & Hac' & Eac & Hrecv_c & Hpc & Hreal_c).
  destruct (Collect_AllRank_state DEBUG_PARTICLE HILBERT MAX_LEVEL PS1 LB_Corner2Index
              LB_Index2Rank Par_PredictPos Par_LB_CollectParticleFromRealPatch FaLv false
              TargetTime' SibBufPatch FaSibBufPatch false ranks Hbuffers Hranks Hlv r amr
              ltac:(by intros [? ?]%Hsteps) Hr)
    as (af & af' & Haf' & Eaf & Hrecv_f & Hpf & Hreal_f).
  rewrite collect_buffer_patches_count_only in Eac. subst ac'.
  exists ac, af'. split; [done|]. split; [done|].
  pose proof (go_level _ _ _ _ _ _ _ Hranks r amr Hr) as Hlevel.
  assert (forall lv P, ParMassPos_Copy (the_patch ac lv P)
                       = ParMassPos_Copy (the_patch amr lv P)) as Hfields.
  { intros lv P. unfold the_patch. destruct (decide (lv = FaLv)) as [->|Hne].
    - rewrite (patches_are_get _ _ _ _ P Hpc). destruct (get_patch amr FaLv P) as [p0|]; [|done].
      simpl. destruct (FaLv =? MAX_LEVEL)%nat; [done | apply collect_patch_count_only].
    - destruct Hpc as (_ & Hother & _). by rewrite Hother. }
  split; [|split; [done|]].
  - intros P HP. unfold the_patch. rewrite (Hreal_f P HP).
    rewrite (patches_are_get _ _ _ _ P Hpc), (patches_are_get _ _ _ _ P Hpf).
    destruct (lo_real _ _ Hlevel P HP) as [p0 Hp0]. rewrite Hp0. simpl.
    destruct (Nat.eqb_spec FaLv MAX_LEVEL) as [Heq|Hne]; [done|].
    destruct (collect_patch_spec FaLv amr _ Hlevel Hrecv_c P p0 HP Hp0 true)
      as (_ & Hleaf_c & Hson_c & _).
    destruct (collect_patch_spec FaLv amr _ Hlevel Hrecv_f P p0 HP Hp0 false)
      as (_ & Hleaf_f & Hson_f & _).
    destruct (decide (son p0 = -1)) as [Hs|Hs].
    + by rewrite (Hleaf_c Hs), (Hleaf_f Hs).
    + rewrite (Hson_c Hs), (Hson_f Hs). f_equal. unfold received_count.
      assert (FaLv < MAX_LEVEL)%nat as Hlt by lia. destruct (Hsteps Hlt) as [Hc Hf].
      destruct (recv_AllRank_counts DEBUG_PARTICLE HILBERT MAX_LEVEL PS1 LB_Corner2Index
                  LB_Index2Rank Par_PredictPos FaLv false TargetTime true ranks Hranks
                  (fun s a Hs' => proj1 (Hc s a Hs')) r (lookup_lt_Some _ _ _ Hr))
        as (-> & -> & -> & _).
      destruct (recv_AllRank_counts DEBUG_PARTICLE HILBERT MAX_LEVEL PS1 LB_Corner2Index
                  LB_Index2Rank Par_PredictPos FaLv false TargetTime' false ranks Hranks
                  (fun s a Hs' => proj1 (Hf s a Hs')) r (lookup_lt_Some _ _ _ Hr))
        as (-> & -> & -> & _).
      done.
  - intros P v HP Hv. unfold not_null. rewrite Hfields.
    destruct (lo_real _ _ Hlevel P HP) as [p0 Hp0].
    rewrite (the_patch_Some _ _ _ _ Hp0).
    pose proof (lo_clear _ _ Hlevel P p0 HP Hp0) as [_ Hnull]%shadow_clear_spec.
    by apply Hnull.
Qed.

End CountOnly.

Ltac lookup_inserts :=
  repeat (rewrite list_lookup_insert_ne by lia);
  try (rewrite list_lookup_insert_eq by (rewrite ?length_insert; unfold real in *; lia)).

Lemma length_par_record
    (Par_PredictPos : AMR_t -> Z -> real * real * real -> real -> real * real * real)
    (amr : AMR_t) (PredictPos : bool) (TargetTime : real) (ParID : Z) :
  length (par_record Par_PredictPos amr PredictPos TargetTime ParID) = NParVar.
Proof. unfold par_record. by destruct PredictPos. Qed.

Lemma par_block_S
    (Par_PredictPos : AMR_t -> Z -> real * real * real -> real -> real * real * real)
    (amr : AMR_t) (PredictPos : bool) (TargetTime : real) (x : nat * nat) (n : nat) :
  par_block Par_PredictPos amr PredictPos TargetTime x (S n)
  = par_block Par_PredictPos amr PredictPos TargetTime x n
    ++ par_record Par_PredictPos amr PredictPos TargetTime
         (nget 0 (ParList (the_patch amr x.1 x.2)) n).
Proof.
  unfold par_block. rewrite seq_S, fmap_app, concat_app. simpl. by rewrite app_nil_r.
Qed.

Lemma length_par_block
    (Par_PredictPos : AMR_t -> Z -> real * real * real -> real -> real * real * real)
    (amr : AMR_t) (PredictPos : bool) (TargetTime : real) (x : nat * nat) (n : nat) :
  length (par_block Par_PredictPos amr PredictPos TargetTime x n) = (NParVar * n)%nat.
Proof.
  induction n as [|n IH]; [done|].
  rewrite par_block_S, length_app, IH, length_par_record. lia.
Qed.

(** Step 1-4 on one particle: its four values go to the cursor of the rank,
    and the cursor moves on. *)
Lemma fill_particle_spec (DEBUG_PARTICLE : bool)
    (Par_PredictPos : AMR_t -> Z -> real * real * real -> real -> real * real * real)
    (amr : AMR_t) (PredictPos : bool) (TargetTime : real) (lv PID : nat) (TRank : Z) (p : nat)
    (buf : list real) (offs : list Z) (o : nat) :
  zget 0 offs TRank = Z.of_nat o -> (o + NParVar <= length buf)%nat ->
  post (fun st' =>
          st'.2 = zalter (fun o' => o' + Z.of_nat NParVar) TRank offs /\
          length st'.1 = length buf /\
          (forall i, ~ (o <= i < o + NParVar)%nat -> st'.1 !! i = buf !! i) /\
          (forall v y, par_record Par_PredictPos amr PredictPos TargetTime
                         (nget 0 (ParList (the_patch amr lv PID)) p) !! v = Some y ->
                       st'.1 !! (o + v)%nat = Some y))
       (fun _ => DEBUG_PARTICLE = true)
       (fill_particle DEBUG_PARTICLE Par_PredictPos amr PredictPos TargetTime lv PID TRank p
          (buf, offs)).
Proof.
  intros Hoff Hfit. unfold fill_particle, NParVar in *. cbn [fst snd]. rewrite Hoff.
  rewrite <- !Nat2Z.inj_add, !zset_of_nat, !zget_of_nat.
  unfold PAR_MASS, PAR_POSX, PAR_POSY, PAR_POSZ, par_record.
  set (ParID := nget 0 (ParList (the_patch amr lv PID)) p).
  set (m := Par_attr amr 0 ParID). set (x := Par_attr amr 1 ParID).
  set (y := Par_attr amr 2 ParID). set (z := Par_attr amr 3 ParID).
  eapply post_bind with
    (Q' := fun b5 => length b5 = length buf /\
                     (forall i, ~ (o <= i < o + 4)%nat -> b5 !! i = buf !! i) /\
                     (forall v w, (if PredictPos
                                   then let xyz := Par_PredictPos amr ParID (x, y, z) TargetTime in
                                        [m; xyz.1.1; xyz.1.2; xyz.2]
                                   else [m; x; y; z]) !! v = Some w ->
                                  b5 !! (o + v)%nat = Some w)).
  - destruct PredictPos.
    + apply post_check_debug. cbn [post].
      set (b4 := <[(o + 3)%nat:=z]> (<[(o + 2)%nat:=y]> (<[(o + 1)%nat:=x]>
                   (<[(o + 0)%nat:=m]> buf)))).
      assert (nget 0%Q b4 (o + 1) = x) as ->.
      { unfold nget. subst b4. lookup_inserts. done. }
      assert (nget 0%Q b4 (o + 2) = y) as ->.
      { unfold nget. subst b4. lookup_inserts. done. }
      assert (nget 0%Q b4 (o + 3) = z) as ->.
      { unfold nget. subst b4. lookup_inserts. done. }
      subst b4. set (xyz := Par_PredictPos amr ParID (x, y, z) TargetTime).
      split; [by rewrite !length_insert|]. split.
      * intros i Hi. by lookup_inserts.
      * intros v w Hv. destruct v as [|[|[|[|v]]]]; cbn in Hv; try done;
          injection Hv as <-; lookup_inserts; done.
    + cbn [post]. split; [by rewrite !length_insert|]. split.
      * intros i Hi. by lookup_inserts.
      * intros v w Hv. destruct v as [|[|[|[|v]]]]; cbn in Hv; try done;
          injection Hv as <-; lookup_inserts; done.
  - intros b5 (Hlen & Hother & Hwritten). cbn [post fst snd]. done.
Qed.

Section SendData.

Variables DEBUG_PARTICLE HILBERT : bool.
Variables MAX_LEVEL MPI_NRank : nat.
Variable PS1 : Z.
Variable LB_Corner2Index : nat -> list Z -> Z.
Variable LB_Index2Rank : nat -> Z -> Z.
Variable Par_PredictPos : AMR_t -> Z -> real * real * real -> real -> real * real * real.
Variable amr : AMR_t.
Variable FaLv : nat.
Variable PredictPos : bool.
Variable TargetTime : real.

Local Abbreviation key_of_ := (key_of HILBERT PS1 LB_Corner2Index amr FaLv).
Local Abbreviation TRank_of_ := (TRank_of HILBERT PS1 LB_Corner2Index LB_Index2Rank amr FaLv).
Local Abbreviation count_items_ :=
  (count_items HILBERT PS1 LB_Corner2Index LB_Index2Rank amr FaLv).
Local Abbreviation par_block_ := (par_block Par_PredictPos amr PredictPos TargetTime).
Local Abbreviation par_data :=
  (par_data Par_PredictPos amr PredictPos TargetTime).
Local Abbreviation data_items :=
  (data_items HILBERT PS1 LB_Corner2Index LB_Index2Rank Par_PredictPos amr FaLv
     PredictPos TargetTime).

Hypothesis Hdest : forall x, x ∈ finer_patches MAX_LEVEL amr FaLv ->
                             NPar (the_patch amr x.1 x.2) <> 0 ->
                             0 <= TRank_of_ x < Z.of_nat MPI_NRank.
Hypothesis HNPar : forall x, x ∈ finer_patches MAX_LEVEL amr FaLv ->
                             0 <= NPar (the_patch amr x.1 x.2).

(** Step 1-4, the loop over the particles of a patch. *)
Lemma fill_particles_spec (x : nat * nat) (n : nat) (TRank : Z) (c : nat -> nat)
    (buf : list real) :
  0 <= TRank < Z.of_nat MPI_NRank ->
  (c (Z.to_nat TRank) + NParVar * n <= length buf)%nat ->
  post (fun st' =>
          st'.2 = (fun r' => Z.of_nat (c r' + (if decide (r' = Z.to_nat TRank)
                                               then NParVar * n else 0)))
                    <$> seq 0 MPI_NRank /\
          length st'.1 = length buf /\
          (forall i, ~ (c (Z.to_nat TRank) <= i < c (Z.to_nat TRank) + NParVar * n)%nat ->
                     st'.1 !! i = buf !! i) /\
          (forall j v, par_block_ x n !! j = Some v ->
                       st'.1 !! (c (Z.to_nat TRank) + j)%nat = Some v))
       (fun _ => DEBUG_PARTICLE = true)
       (for_loopE 0 n
          (fill_particle DEBUG_PARTICLE Par_PredictPos amr PredictPos TargetTime x.1 x.2 TRank)
          (buf, (fun r' => Z.of_nat (c r')) <$> seq 0 MPI_NRank)).
Proof.
  intros Hr Hfit. set (r := Z.to_nat TRank) in *.
  eapply post_mono;
    [apply (for_loopE_ind0
       (fun p st' =>
          (p <= n)%nat /\
          st'.2 = (fun r' => Z.of_nat (c r' + (if decide (r' = r) then NParVar * p else 0)))
                    <$> seq 0 MPI_NRank /\
          length st'.1 = length buf /\
          (forall i, ~ (c r <= i < c r + NParVar * p)%nat -> st'.1 !! i = buf !! i) /\
          (forall j v, par_block_ x p !! j = Some v -> st'.1 !! (c r + j)%nat = Some v)))
    | intros st' HI; apply HI | intros ? HE; exact HE].
  - cbn [fst snd]. split; [lia|]. split.
    + apply list_fmap_ext. intros _ r' _. destruct (decide _); f_equal; lia.
    + split; [done|]. split; [done|]. intros j v Hj. by destruct j.
  - intros p [b offs] Hp (_ & Hoffs & Hlen & Hother & Hwritten). cbn [fst snd] in *.
    eapply post_mono;
      [apply (fill_particle_spec DEBUG_PARTICLE Par_PredictPos amr PredictPos TargetTime
                x.1 x.2 TRank p b offs (c r + NParVar * p))
      | | intros ? HE; exact HE].
    + rewrite Hoffs, zget_fmap_seq by done. fold r. by rewrite decide_True.
    + unfold NParVar in *. lia.
    + intros [b' offs'] (Hoffs' & Hlen' & Hother' & Hwritten'). cbn [fst snd] in *.
      split; [lia|]. split.
      * rewrite Hoffs', Hoffs. unfold zalter. destruct (Z.ltb_spec TRank 0); [lia|]. fold r.
        rewrite alter_fmap_seq. apply list_fmap_ext. intros _ r' _.
        destruct (decide (r' = r)); unfold NParVar; lia.
      * split; [congruence|]. split.
        -- intros i Hi. rewrite Hother' by (unfold NParVar in *; lia).
           apply Hother. unfold NParVar in *. lia.
        -- intros j v Hj. rewrite par_block_S in Hj.
           apply lookup_app_Some in Hj as [Hj|[Hge Hj]].
           ++ rewrite Hother'; [by apply Hwritten|].
              apply lookup_lt_Some in Hj. rewrite length_par_block in Hj. lia.
           ++ rewrite length_par_block in Hge, Hj.
              replace (c r + j)%nat with (c r + NParVar * p + (j - NParVar * p))%nat by lia.
              by apply Hwritten'.
Qed.

Lemma length_data_payloads (l : list (nat * nat)) (r : nat) :
  (forall x, x ∈ l -> 0 <= NPar (the_patch amr x.1 x.2)) ->
  Z.of_nat (length (payloads_to r (data_items l)))
  = sumZ (payloads_to r (count_items_ l)) * Z.of_nat NParVar.
Proof.
  unfold data_items, count_items. induction l as [|x l IH]; intros Hl; [done|].
  rewrite !send_items_cons, !payloads_to_app, length_app, sumZ_app, Nat2Z.inj_add, IH.
  2:{ intros y Hy. apply Hl. by apply list_elem_of_further. }
  destruct (Z.eqb_spec (NPar (the_patch amr x.1 x.2)) 0) as [|Hnz]; [done|].
  rewrite !payloads_to_singleton. cbn [fst snd].
  destruct (decide _); [|cbn; lia].
  unfold par_data. rewrite length_par_block. unfold sumZ. cbn.
  specialize (Hl x (list_elem_of_here _ _)). unfold NParVar. lia.
Qed.

Lemma group_start_data (l : list (nat * nat)) (r N : nat) :
  (forall x, x ∈ l -> 0 <= NPar (the_patch amr x.1 x.2)) -> (r <= N)%nat ->
  sumZ (take r ((fun r' => sumZ (payloads_to r' (count_items_ l))) <$> seq 0 N))
  * Z.of_nat NParVar
  = Z.of_nat (group_start (data_items l) r).
Proof.
  intros Hl Hr. rewrite take_fmap_seq by done. clear Hr.
  induction r as [|r IH]; [done|].
  rewrite sumZ_fmap_seq_S, group_start_S, Nat2Z.inj_add, <- IH, length_data_payloads by done.
  lia.
Qed.

(** Step 1-4 writes the particle data of the patches group by group. *)
Lemma fill_pass_data (NSendPatchTotal NSendParTotal : Z) (b1 b2 : list Z) (o1 : list Z) :
  let all := finer_patches MAX_LEVEL amr FaLv in
  post (fun st =>
          f_ParDataEachPatch st
          = concat ((fun r => payloads_to r (data_items all)) <$> seq 0 MPI_NRank))
       (fun _ => DEBUG_PARTICLE = true)
       (for_finer MAX_LEVEL amr FaLv
          (fill_body DEBUG_PARTICLE HILBERT PS1 LB_Corner2Index LB_Index2Rank Par_PredictPos
             amr FaLv PredictPos TargetTime false NSendPatchTotal NSendParTotal)
          (mk_fill b1 b2
                   (replicate (group_start (data_items all) MPI_NRank) 0%Q)
                   o1
                   ((fun r => Z.of_nat (group_start (data_items all) r)) <$> seq 0 MPI_NRank))).
Proof.
  intros all. rewrite for_finer_foldE. fold all.
  eapply post_mono;
    [apply (foldE_ind
       (fun done st =>
          Offset_ParDataEachPatch st
          = (fun r => Z.of_nat (group_start (data_items all) r
                                + length (payloads_to r (data_items done)))) <$> seq 0 MPI_NRank /\
          length (f_ParDataEachPatch st) = group_start (data_items all) MPI_NRank /\
          groups_filled MPI_NRank (data_items all) (data_items done) (f_ParDataEachPatch st)))
    | | intros ? HE; exact HE].
  - simpl. split; [|split].
    + apply list_fmap_ext. intros _ r _. unfold data_items, send_items, payloads_to. simpl. lia.
    + by rewrite length_replicate.
    + intros r j v _ Hj. by destruct j.
  - intros done x todo st Hl (Hoff & L1 & G1). unfold fill_body.
    destruct (Z.eqb_spec (NPar (the_patch amr x.1 x.2)) 0) as [Hz|Hnz].
    { simpl. unfold data_items in *. by rewrite !send_items_skip. }
    do 2 apply post_check_debug.
    assert (x ∈ all) as Hx.
    { rewrite Hl. apply elem_of_app. right. apply list_elem_of_here. }
    pose proof (Hdest x Hx Hnz) as Hr. pose proof (HNPar x Hx) as Hn.
    fold (key_of_ x). fold (TRank_of_ x).
    set (r := Z.to_nat (TRank_of_ x)).
    assert (data_items all = data_items done ++ (r, par_data x) :: data_items todo) as Hall.
    { rewrite Hl. unfold data_items. by rewrite send_items_split. }
    assert (data_items (done ++ [x]) = data_items done ++ [(r, par_data x)]) as Hdone.
    { unfold data_items. by rewrite send_items_snoc. }
    set (c := fun r' => (group_start (data_items all) r'
                         + length (payloads_to r' (data_items done)))%nat) in *.
    assert (c r + NParVar * Z.to_nat (NPar (the_patch amr x.1 x.2))
            <= group_start (data_items all) MPI_NRank)%nat as Hfit.
    { pose proof (group_start_le (data_items all) r MPI_NRank ltac:(lia)) as Hle.
      rewrite Hall in Hle at 2.
      rewrite payloads_to_app, payloads_to_cons, !length_app in Hle. cbn [fst snd] in Hle.
      rewrite decide_True in Hle by done. unfold par_data in Hle at 1.
      rewrite length_par_block in Hle. subst c. cbn beta. lia. }
    eapply post_bind;
      [rewrite Hoff;
       apply (fill_particles_spec x (Z.to_nat (NPar (the_patch amr x.1 x.2)))
                (TRank_of_ x) c (f_ParDataEachPatch st)); [done | fold r; lia]|].
    intros [b offs] (Hoffs & Hlen & Hother & Hwritten).
    cbn [post fst snd f_ParDataEachPatch Offset_ParDataEachPatch] in *.
    fold r in Hoffs, Hother, Hwritten.
    split; [|split; [by rewrite Hlen|]].
    + rewrite Hoffs. apply list_fmap_ext. intros _ r' _. subst c. cbn beta.
      rewrite Hdone, payloads_to_app, payloads_to_singleton, length_app. cbn [fst snd].
      destruct (decide (r' = r)), (decide (r = r')); try congruence; [|simpl; lia].
      unfold par_data. rewrite length_par_block. lia.
    + rewrite Hdone.
      apply (groups_filled_step _ _ _ (data_items todo) _ (f_ParDataEachPatch st));
        [done | done | |]; cbn [fst snd]; fold (c r).
      * intros i Hi. apply Hother. unfold par_data in Hi. rewrite length_par_block in Hi. lia.
      * intros j v Hj. by apply Hwritten.
  - intros st (_ & L1 & G1). by apply groups_filled_all.
Qed.

(** Step 1: the particle data in the send buffer. *)
Lemma prepare_send_data :
  post (fun sb =>
          SendBuf_ParDataEachPatch sb
          = concat ((fun r => payloads_to r (data_items (finer_patches MAX_LEVEL amr FaLv)))
                      <$> seq 0 MPI_NRank))
       (fun _ => DEBUG_PARTICLE = true)
       (prepare_send DEBUG_PARTICLE HILBERT MAX_LEVEL MPI_NRank PS1 LB_Corner2Index
          LB_Index2Rank Par_PredictPos amr FaLv PredictPos TargetTime false).
Proof.
  unfold prepare_send.
  eapply post_bind;
    [apply (count_pass DEBUG_PARTICLE HILBERT MAX_LEVEL MPI_NRank PS1 LB_Corner2Index
              LB_Index2Rank amr FaLv Hdest)|].
  intros cnt ->. cbn [fst snd].
  rewrite send_totals_spec, send_offsets_spec. cbn [fst snd].
  rewrite (group_start_data _ _ MPI_NRank HNPar) by done. rewrite Nat2Z.id.
  assert ((fun r => sumZ (take r ((fun r0 => sumZ (payloads_to r0
                         (count_items_ (finer_patches MAX_LEVEL amr FaLv))))
                       <$> seq 0 MPI_NRank)) * Z.of_nat NParVar) <$> seq 0 MPI_NRank
          = (fun r => Z.of_nat (group_start
                                  (data_items (finer_patches MAX_LEVEL amr FaLv)) r))
              <$> seq 0 MPI_NRank) as ->.
  { apply list_fmap_ext. intros i r Hi. apply lookup_seq in Hi as [-> Hi].
    apply group_start_data; [done | lia]. }
  eapply post_bind; [apply fill_pass_data|].
  intros st Hst. simpl. done.
Qed.

(** What the exchange takes of the particle data for the rank [r]. *)
Lemma sent_data (sb : SendBuf_t) (r : nat) :
  send_counts_are HILBERT MAX_LEVEL MPI_NRank PS1 LB_Corner2Index LB_Index2Rank amr FaLv sb ->
  SendBuf_ParDataEachPatch sb
  = concat ((fun r => payloads_to r (data_items (finer_patches MAX_LEVEL amr FaLv)))
              <$> seq 0 MPI_NRank) ->
  (r < MPI_NRank)%nat ->
  sent_ParDataEachPatch NParVar r sb
  = payloads_to r (data_items (finer_patches MAX_LEVEL amr FaLv)).
Proof.
  intros Hcounts Hdata Hr.
  destruct (sent_counts HILBERT MAX_LEVEL MPI_NRank PS1 LB_Corner2Index LB_Index2Rank amr FaLv
              sb r Hcounts Hr) as (Hn & Hsent & _).
  destruct Hcounts as (H1 & H2 & H3).
  unfold sent_ParDataEachPatch. rewrite Hsent, Hdata.
  assert (sent_patch_offset sb r
          = group_start (count_items_ (finer_patches MAX_LEVEL amr FaLv)) r) as ->.
  { unfold sent_patch_offset. rewrite H1, sumZ_take_lengths by lia. apply Nat2Z.id. }
  rewrite H2.
  assert (take (group_start (count_items_ (finer_patches MAX_LEVEL amr FaLv)) r)
            (concat ((fun r0 => payloads_to r0 (count_items_ (finer_patches MAX_LEVEL amr FaLv)))
                       <$> seq 0 MPI_NRank))
          = concat ((fun r0 => payloads_to r0 (count_items_ (finer_patches MAX_LEVEL amr FaLv)))
                      <$> seq 0 r)) as ->.
  { replace MPI_NRank with (r + (MPI_NRank - r))%nat at 1 by lia.
    rewrite seq_app, fmap_app, concat_app. unfold group_start. by rewrite take_app_length. }
  rewrite sumZ_concat, <- list_fmap_compose.
  pose proof (group_start_data (finer_patches MAX_LEVEL amr FaLv) r r HNPar ltac:(lia)) as Hgs.
  rewrite take_fmap_seq in Hgs by done.
  pose proof (length_data_payloads (finer_patches MAX_LEVEL amr FaLv) r HNPar) as Hlen.
  assert (0 <= sumZ (payloads_to r (count_items_ (finer_patches MAX_LEVEL amr FaLv)))) as Hnn.
  { unfold NParVar in Hlen. lia. }
  assert (0 <= sumZ ((fun r0 => sumZ (payloads_to r0
                        (count_items_ (finer_patches MAX_LEVEL amr FaLv)))) <$> seq 0 r))
    as Hnn'.
  { unfold NParVar in Hgs. lia. }
  replace (Z.to_nat (sumZ (payloads_to r (count_items_ (finer_patches MAX_LEVEL amr FaLv))))
           * NParVar)%nat
    with (length (payloads_to r (data_items (finer_patches MAX_LEVEL amr FaLv)))) by lia.
  replace (Z.to_nat (sumZ ((fun r0 => sumZ (payloads_to r0
                        (count_items_ (finer_patches MAX_LEVEL amr FaLv)))) <$> seq 0 r))
           * NParVar)%nat
    with (group_start (data_items (finer_patches MAX_LEVEL amr FaLv)) r).
  - by apply take_drop_group.
  - unfold compose in *. lia.
Qed.

End SendData.

Lemma payloads_to_sent {A} (amr : AMR_t) (dest : nat * nat -> Z)
    (payload : nat * nat -> list A) (l : list (nat * nat)) (r : nat) :
  payloads_to r (send_items amr dest payload l) = concat (payload <$> sent_to amr dest r l).
Proof.
  induction l as [|x l IH]; [done|].
  rewrite send_items_cons, payloads_to_app, IH. unfold sent_to. rewrite fmap_cons.
  cbn [concat]. rewrite fmap_app, concat_app. f_equal.
  destruct (NPar _ =? 0); [done|]. rewrite payloads_to_singleton. cbn [fst snd].
  destruct (decide _); [|done]. simpl. by rewrite app_nil_r.
Qed.

Lemma elem_of_sent_to (amr : AMR_t) (dest : nat * nat -> Z) (r : nat) (l : list (nat * nat))
    (x : nat * nat) :
  x ∈ sent_to amr dest r l ->
  x ∈ l /\ NPar (the_patch amr x.1 x.2) <> 0 /\ Z.to_nat (dest x) = r.
Proof.
  unfold sent_to. intros (k & Hx & Hk)%elem_of_concat.
  apply list_elem_of_fmap in Hk as (y & -> & Hy).
  destruct (Z.eqb_spec (NPar (the_patch amr y.1 y.2)) 0); [by apply elem_of_nil in Hx|].
  destruct (decide _); [|by apply elem_of_nil in Hx].
  by apply list_elem_of_singleton in Hx as ->.
Qed.

Lemma concat_singletons {A B} (f : A -> B) (l : list A) :
  concat ((fun a => [f a]) <$> l) = f <$> l.
Proof. induction l as [|a l IH]; [done|]. rewrite !fmap_cons. cbn [concat app]. by rewrite IH. Qed.

Lemma lookup_concat_blocks {A} (ls : list (list A)) (t i : nat) (l : list A) :
  ls !! t = Some l -> (i < length l)%nat ->
  concat ls !! (length (concat (take t ls)) + i)%nat = l !! i.
Proof.
  revert t. induction ls as [|k ls IH]; intros t Ht Hi; [done|].
  destruct t as [|t]; simpl in *.
  - injection Ht as ->. by rewrite lookup_app_l.
  - rewrite length_app, <- Nat.add_assoc, lookup_app_r by lia.
    replace (length k + (length (concat (take t ls)) + i) - length k)%nat
      with (length (concat (take t ls)) + i)%nat by lia.
    by apply IH.
Qed.

Lemma par_block_lookup
    (Par_PredictPos : AMR_t -> Z -> real * real * real -> real -> real * real * real)
    (amr : AMR_t) (PredictPos : bool) (TargetTime : real) (x : nat * nat) (n j v : nat) :
  (j < n)%nat -> (v < NParVar)%nat ->
  par_block Par_PredictPos amr PredictPos TargetTime x n !! (NParVar * j + v)%nat
  = par_record Par_PredictPos amr PredictPos TargetTime
      (nget 0 (ParList (the_patch amr x.1 x.2)) j) !! v.
Proof.
  intros Hj Hv. unfold par_block.
  set (blocks := (fun j' => par_record Par_PredictPos amr PredictPos TargetTime
                              (nget 0 (ParList (the_patch amr x.1 x.2)) j')) <$> seq 0 n).
  assert (length (concat (take j blocks)) = NParVar * j)%nat as <-.
  { subst blocks. rewrite take_fmap_seq by lia.
    apply (length_par_block Par_PredictPos amr PredictPos TargetTime x j). }
  apply lookup_concat_blocks.
  - subst blocks. by rewrite list_lookup_fmap, lookup_seq_lt.
  - by rewrite length_par_record.
Qed.

Lemma concat_payloads_records {A} (HILBERT : bool) (MAX_LEVEL : nat) (PS1 : Z)
    (LB_Corner2Index : nat -> list Z -> Z) (LB_Index2Rank : nat -> Z -> Z)
    (FaLv : nat) (ranks : list AMR_t) (r : nat) (payload : AMR_t -> nat * nat -> list A) :
  concat ((fun amr => payloads_to r
                        (send_items amr
                           (TRank_of HILBERT PS1 LB_Corner2Index LB_Index2Rank amr FaLv)
                           (payload amr) (finer_patches MAX_LEVEL amr FaLv))) <$> ranks)
  = concat ((fun ax => payload ax.1 ax.2)
              <$> records_to HILBERT MAX_LEVEL PS1 LB_Corner2Index LB_Index2Rank FaLv ranks r).
Proof.
  unfold records_to. induction ranks as [|amr rs IH]; [done|].
  rewrite !fmap_cons. cbn [concat]. rewrite fmap_app, concat_app, IH, payloads_to_sent.
  by rewrite <- list_fmap_compose.
Qed.

Lemma elem_of_records_to (HILBERT : bool) (MAX_LEVEL : nat) (PS1 : Z)
    (LB_Corner2Index : nat -> list Z -> Z) (LB_Index2Rank : nat -> Z -> Z)
    (FaLv : nat) (ranks : list AMR_t) (r : nat) (ax : AMR_t * (nat * nat)) :
  ax ∈ records_to HILBERT MAX_LEVEL PS1 LB_Corner2Index LB_Index2Rank FaLv ranks r ->
  (exists s, ranks !! s = Some ax.1) /\
  ax.2 ∈ finer_patches MAX_LEVEL ax.1 FaLv /\
  NPar (the_patch ax.1 ax.2.1 ax.2.2) <> 0 /\
  Z.to_nat (TRank_of HILBERT PS1 LB_Corner2Index LB_Index2Rank ax.1 FaLv ax.2) = r.
Proof.
  unfold records_to. intros (k & Hax & Hk)%elem_of_concat.
  apply list_elem_of_fmap in Hk as (amr & -> & Hamr).
  apply list_elem_of_fmap in Hax as (x & -> & Hx). cbn [fst snd].
  split; [by apply list_elem_of_lookup_1|]. by apply elem_of_sent_to in Hx.
Qed.

Section AllRankData.

Variables DEBUG_PARTICLE HILBERT : bool.
Variable MAX_LEVEL : nat.
Variable PS1 : Z.
Variable LB_Corner2Index : nat -> list Z -> Z.
Variable LB_Index2Rank : nat -> Z -> Z.
Variable Par_PredictPos : AMR_t -> Z -> real * real * real -> real -> real * real * real.
Variable FaLv : nat.
Variable PredictPos : bool.
Variable TargetTime : real.
Variable ranks : list AMR_t.

Hypothesis Hranks : ranks_ok HILBERT MAX_LEVEL PS1 LB_Corner2Index LB_Index2Rank FaLv ranks.

Local Abbreviation prepare_send_ :=
  (prepare_send DEBUG_PARTICLE HILBERT MAX_LEVEL (length ranks) PS1 LB_Corner2Index
     LB_Index2Rank Par_PredictPos).
Local Abbreviation recv_ :=
  (recv_AllRank DEBUG_PARTICLE HILBERT MAX_LEVEL PS1 LB_Corner2Index LB_Index2Rank
     Par_PredictPos FaLv PredictPos TargetTime false ranks).
Local Abbreviation records_ :=
  (records_to HILBERT MAX_LEVEL PS1 LB_Corner2Index LB_Index2Rank FaLv ranks).

Hypothesis Hsends : forall s amr, ranks !! s = Some amr ->
                      exists sb, prepare_send_ amr FaLv PredictPos TargetTime false = Ok sb.

(** What the rank [r] receives, record by record. *)
Lemma recv_AllRank_records (r : nat) :
  (r < length ranks)%nat ->
  RecvBuf_NParEachPatch (recv_ r)
  = (fun ax => NPar (the_patch ax.1 ax.2.1 ax.2.2)) <$> records_ r /\
  RecvBuf_LBIdxEachPatch (recv_ r)
  = (fun ax => key_of HILBERT PS1 LB_Corner2Index ax.1 FaLv ax.2) <$> records_ r /\
  RecvBuf_ParDataEachPatch (recv_ r)
  = concat ((fun ax => par_data Par_PredictPos ax.1 PredictPos TargetTime ax.2)
              <$> records_ r) /\
  NRecvPatchTotal (recv_ r) = length (records_ r).
Proof.
  intros Hr.
  destruct (recv_AllRank_counts DEBUG_PARTICLE HILBERT MAX_LEVEL PS1 LB_Corner2Index
              LB_Index2Rank Par_PredictPos FaLv PredictPos TargetTime false ranks Hranks
              Hsends r Hr) as (Hc & Hk & Hn & _).
  unfold count_items, key_items in Hc, Hk.
  rewrite concat_payloads_records, concat_singletons in Hc.
  rewrite (concat_payloads_records HILBERT MAX_LEVEL PS1 LB_Corner2Index LB_Index2Rank FaLv
             ranks r (fun amr x => [key_of HILBERT PS1 LB_Corner2Index amr FaLv x])),
    concat_singletons in Hk.
  split; [done|]. split; [done|]. split; [|by rewrite Hn, Hc, length_fmap].
  unfold recv_AllRank, Par_LB_SendParticleData_AllRank, sends_AllRank.
  cbn [RecvBuf_ParDataEachPatch negb]. rewrite <- list_fmap_compose.
  rewrite <- (concat_payloads_records HILBERT MAX_LEVEL PS1 LB_Corner2Index LB_Index2Rank FaLv
                ranks r (fun amr => par_data Par_PredictPos amr PredictPos TargetTime)).
  f_equal. apply list_fmap_ext. intros s amr Hs. cbn [compose].
  pose proof (sends_counts DEBUG_PARTICLE HILBERT MAX_LEVEL PS1 LB_Corner2Index LB_Index2Rank
                Par_PredictPos FaLv PredictPos TargetTime false ranks Hranks Hsends s amr Hs)
    as Hcounts.
  pose proof (prepare_send_data DEBUG_PARTICLE HILBERT MAX_LEVEL (length ranks) PS1
                LB_Corner2Index LB_Index2Rank Par_PredictPos amr FaLv PredictPos TargetTime
                (fun x => dest_valid HILBERT MAX_LEVEL PS1 LB_Corner2Index LB_Index2Rank FaLv
                            ranks Hranks s amr x Hs)
                (fun x Hx => go_NPar _ _ _ _ _ _ _ Hranks s amr x Hs Hx)) as Hdata.
  destruct (Hsends s amr Hs) as [sb Hsb]. rewrite Hsb in *. cbn [post] in Hdata.
  apply (sent_data HILBERT MAX_LEVEL (length ranks) PS1 LB_Corner2Index LB_Index2Rank
           Par_PredictPos amr FaLv PredictPos TargetTime); try done.
  intros x Hx. by apply (go_NPar _ _ _ _ _ _ _ Hranks s amr x Hs).
Qed.

Lemma data_offset_records (r t : nat) :
  (r < length ranks)%nat -> (t <= length (records_ r))%nat ->
  data_offset (recv_ r) t
  = length (concat (take t ((fun ax => par_data Par_PredictPos ax.1 PredictPos TargetTime ax.2)
                              <$> records_ r))).
Proof.
  intros Hr. destruct (recv_AllRank_records r Hr) as (Hc & _).
  induction t as [|t IH]; intros Ht; [done|].
  destruct (lookup_lt_is_Some_2 (records_ r) t ltac:(lia)) as [ax Hax].
  rewrite data_offset_S, IH by lia.
  rewrite (take_S_r _ _ (par_data Par_PredictPos ax.1 PredictPos TargetTime ax.2))
    by (by rewrite list_lookup_fmap, Hax).
  rewrite concat_app, length_app. f_equal. cbn [concat]. rewrite app_nil_r.
  unfold par_data. rewrite length_par_block. unfold nget.
  by rewrite Hc, list_lookup_fmap, Hax.
Qed.

(** Without prediction, the positions received are the positions of the
    particles of the finer patches. *)
Lemma recv_AllRank_in_patch (r : nat) (amr_r : AMR_t) :
  PredictPos = false ->
  sent_in_patch HILBERT MAX_LEVEL PS1 LB_Corner2Index LB_Index2Rank FaLv ranks ->
  ranks !! r = Some amr_r ->
  recv_in_patch FaLv amr_r (recv_ r).
Proof.
  intros Hpp Hsent Hr t P p j Ht HP Hp Hkey Hj d Hd.
  pose proof (lookup_lt_Some _ _ _ Hr) as Hlt.
  destruct (recv_AllRank_records r Hlt) as (Hc & Hk & Hdat & Hn).
  rewrite Hn in Ht.
  destruct (lookup_lt_is_Some_2 (records_ r) t Ht) as [[amr x] Hax].
  destruct (elem_of_records_to HILBERT MAX_LEVEL PS1 LB_Corner2Index LB_Index2Rank FaLv ranks r
              (amr, x) (list_elem_of_lookup_2 _ _ _ Hax)) as ([s Hs] & Hx & Hnz & Hdest).
  cbn [fst snd] in *.
  pose proof (dest_valid HILBERT MAX_LEVEL PS1 LB_Corner2Index LB_Index2Rank FaLv ranks
                Hranks s amr x Hs Hx Hnz) as Hvalid.
  assert (nget 0 (RecvBuf_NParEachPatch (recv_ r)) t = NPar (the_patch amr x.1 x.2)) as Hcnt.
  { unfold nget. by rewrite Hc, list_lookup_fmap, Hax. }
  assert (nget 0 (RecvBuf_LBIdxEachPatch (recv_ r)) t
          = key_of HILBERT PS1 LB_Corner2Index amr FaLv x) as Hkey'.
  { unfold nget. by rewrite Hk, list_lookup_fmap, Hax. }
  rewrite Hcnt in Hj. rewrite Hkey' in Hkey.
  rewrite (data_offset_records r t Hlt ltac:(lia)), Hdat.
  unfold nget at 1 3. rewrite <- !Nat.add_assoc.
  rewrite (lookup_concat_blocks _ t _ (par_data Par_PredictPos amr PredictPos TargetTime x)).
  2:{ by rewrite list_lookup_fmap, Hax. }
  2:{ unfold par_data. rewrite length_par_block. unfold NParVar, PAR_POSX. lia. }
  unfold par_data. rewrite par_block_lookup by (unfold NParVar, PAR_POSX; lia).
  rewrite Hpp. unfold par_record.
  assert (([Par_attr amr PAR_MASS (nget 0 (ParList (the_patch amr x.1 x.2)) j);
            Par_attr amr PAR_POSX (nget 0 (ParList (the_patch amr x.1 x.2)) j);
            Par_attr amr PAR_POSY (nget 0 (ParList (the_patch amr x.1 x.2)) j);
            Par_attr amr PAR_POSZ (nget 0 (ParList (the_patch amr x.1 x.2)) j)]
           : list real) !! (PAR_POSX + d)%nat
          = Some (Par_attr amr (PAR_POSX + d) (nget 0 (ParList (the_patch amr x.1 x.2)) j)))
    as ->.
  { destruct d as [|[|[|d]]]; [done | done | done | lia]. }
  cbn [default from_option id].
  apply (Hsent s amr x r amr_r P p j); try done. lia.
Qed.

End AllRankData.

(** ** The checks pass on all ranks *)

Section AllRankSure.

Variables DEBUG_PARTICLE HILBERT : bool.
Variable MAX_LEVEL : nat.
Variable PS1 : Z.
Variable LB_Corner2Index : nat -> list Z -> Z.
Variable LB_Index2Rank : nat -> Z -> Z.
Variable Par_PredictPos : AMR_t -> Z -> real * real * real -> real -> real * real * real.
Variable FaLv : nat.
Variable PredictPos : bool.
Variable TargetTime : real.
Variable JustCountNPar : bool.
Variable ranks : list AMR_t.

Hypothesis Hranks : ranks_ok HILBERT MAX_LEVEL PS1 LB_Corner2Index LB_Index2Rank FaLv ranks.
Hypothesis Hchecks :
  DEBUG_PARTICLE = true ->
  checks_ok HILBERT MAX_LEVEL PS1 LB_Corner2Index LB_Index2Rank FaLv PredictPos JustCountNPar
    ranks.

Local Abbreviation prepare_send_ :=
  (prepare_send DEBUG_PARTICLE HILBERT MAX_LEVEL (length ranks) PS1 LB_Corner2Index
     LB_Index2Rank Par_PredictPos).
Local Abbreviation recv_ :=
  (recv_AllRank DEBUG_PARTICLE HILBERT MAX_LEVEL PS1 LB_Corner2Index LB_Index2Rank
     Par_PredictPos FaLv PredictPos TargetTime JustCountNPar ranks).
Local Abbreviation records_ :=
  (records_to HILBERT MAX_LEVEL PS1 LB_Corner2Index LB_Index2Rank FaLv ranks).

(** Step 1 runs to its end on every rank. *)
Lemma prepare_send_returns (s : nat) (amr : AMR_t) :
  ranks !! s = Some amr ->
  exists sb, prepare_send_ amr FaLv PredictPos TargetTime JustCountNPar = Ok sb.
Proof.
  intros Hs.
  pose proof (prepare_send_sure DEBUG_PARTICLE HILBERT MAX_LEVEL (length ranks) PS1
                LB_Corner2Index LB_Index2Rank Par_PredictPos amr FaLv PredictPos TargetTime
                JustCountNPar
                (fun x => dest_valid HILBERT MAX_LEVEL PS1 LB_Corner2Index LB_Index2Rank FaLv
                            ranks Hranks s amr x Hs)
                (DEBUG_PARTICLE = true)) as Hpost.
  destruct (prepare_send_ amr FaLv PredictPos TargetTime JustCountNPar) as [sb|msg a];
    [by exists sb|].
  exfalso. cbn [post] in Hpost. destruct Hpost as [Hd Hn].
  - intros Hdbg x Hx Hnz. split.
    + by apply (ck_leaf _ _ _ _ _ _ _ _ _ (Hchecks Hdbg) s amr x).
    + by apply (go_NPar _ _ _ _ _ _ _ Hranks s amr x).
  - intros Hdbg Hpp HJ x j Hx Hj.
    by apply (ck_time _ _ _ _ _ _ _ _ _ (Hchecks Hdbg) Hpp HJ s amr x j).
  - by apply Hn.
Qed.

(** The counts received are positive. *)
Lemma recv_AllRank_positive (r t : nat) :
  (r < length ranks)%nat -> (t < NRecvPatchTotal (recv_ r))%nat ->
  0 < nget 0 (RecvBuf_NParEachPatch (recv_ r)) t.
Proof.
  intros Hr Ht.
  destruct (recv_AllRank_counts DEBUG_PARTICLE HILBERT MAX_LEVEL PS1 LB_Corner2Index
              LB_Index2Rank Par_PredictPos FaLv PredictPos TargetTime JustCountNPar ranks
              Hranks prepare_send_returns r Hr) as (Hc & _ & Hn & _).
  destruct (lookup_lt_is_Some_2 (RecvBuf_NParEachPatch (recv_ r)) t) as [n Hi]; [lia|].
  unfold nget. rewrite Hi. simpl.
  rewrite Hc in Hi. apply list_elem_of_lookup_2 in Hi.
  apply elem_of_concat in Hi as (l & Hnl & Hl).
  apply list_elem_of_fmap in Hl as (a & -> & [s Hs]%list_elem_of_lookup_1).
  apply elem_of_payloads_send in Hnl as (x & Hx & Hnz & Hdest & Hnx).
  apply list_elem_of_singleton in Hnx as ->.
  pose proof (go_NPar _ _ _ _ _ _ _ Hranks s a x Hs Hx). lia.
Qed.


(** The masses received are the masses of the particles of the finer
    patches. *)
Lemma recv_AllRank_mass (r t j : nat) :
  DEBUG_PARTICLE = true -> JustCountNPar = false ->
  (r < length ranks)%nat -> (t < NRecvPatchTotal (recv_ r))%nat ->
  (j < Z.to_nat (nget 0%Z (RecvBuf_NParEachPatch (recv_ r)) t))%nat ->
  real_lt (nget 0%Q (RecvBuf_ParDataEachPatch (recv_ r))
             (data_offset (recv_ r) t + NParVar * j + PAR_MASS)) 0%Q = false.
Proof.
  intros Hdbg HJ Hlt.
  assert (forall s amr, ranks !! s = Some amr ->
            exists sb, prepare_send_ amr FaLv PredictPos TargetTime false = Ok sb) as Hsends.
  { intros s amr Hs. rewrite <- HJ. by apply (prepare_send_returns s). }
  pose proof (ck_mass _ _ _ _ _ _ _ _ _ (Hchecks Hdbg) HJ) as Hmass.
  rewrite HJ. intros Ht Hj.
  destruct (recv_AllRank_records DEBUG_PARTICLE HILBERT MAX_LEVEL PS1 LB_Corner2Index
              LB_Index2Rank Par_PredictPos FaLv PredictPos TargetTime ranks Hranks Hsends r Hlt)
    as (Hc & Hk & Hdat & Hn).
  rewrite Hn in Ht.
  destruct (lookup_lt_is_Some_2 (records_ r) t Ht) as [[amr x] Hax].
  destruct (elem_of_records_to HILBERT MAX_LEVEL PS1 LB_Corner2Index LB_Index2Rank FaLv ranks r
              (amr, x) (list_elem_of_lookup_2 _ _ _ Hax)) as ([s Hs] & Hx & Hnz & Hdest).
  cbn [fst snd] in *.
  assert (nget 0 (RecvBuf_NParEachPatch
                    (recv_AllRank DEBUG_PARTICLE HILBERT MAX_LEVEL PS1 LB_Corner2Index
                       LB_Index2Rank Par_PredictPos FaLv PredictPos TargetTime false ranks r)) t
          = NPar (the_patch amr x.1 x.2)) as Hcnt.
  { unfold nget. by rewrite Hc, list_lookup_fmap, Hax. }
  rewrite Hcnt in Hj.
  rewrite (data_offset_records DEBUG_PARTICLE HILBERT MAX_LEVEL PS1 LB_Corner2Index
             LB_Index2Rank Par_PredictPos FaLv PredictPos TargetTime ranks Hranks Hsends r t Hlt
             ltac:(lia)), Hdat.
  unfold nget at 1. rewrite <- !Nat.add_assoc.
  rewrite (lookup_concat_blocks _ t _ (par_data Par_PredictPos amr PredictPos TargetTime x)).
  2:{ by rewrite list_lookup_fmap, Hax. }
  2:{ unfold par_data. rewrite length_par_block. unfold NParVar, PAR_MASS. lia. }
  unfold par_data. rewrite par_block_lookup by (unfold NParVar, PAR_MASS; lia).
  assert (par_record Par_PredictPos amr PredictPos TargetTime
            (nget 0 (ParList (the_patch amr x.1 x.2)) j) !! PAR_MASS
          = Some (Par_attr amr PAR_MASS (nget 0 (ParList (the_patch amr x.1 x.2)) j))) as ->.
  { unfold par_record. by destruct PredictPos. }
  cbn [default from_option id]. by apply (Hmass s amr x j).
Qed.

(** Steps 1 to 4 run to their end on every rank: in the production build
    always, in the diagnostic build when the particles are as it checks. *)
Lemma steps_succeed_checked :
  steps_succeed DEBUG_PARTICLE HILBERT MAX_LEVEL PS1 LB_Corner2Index LB_Index2Rank
    Par_PredictPos FaLv PredictPos TargetTime JustCountNPar ranks.
Proof.
  intros r amr Hr. split; [by apply (prepare_send_returns r)|].
  pose proof (lookup_lt_Some _ _ _ Hr) as Hlt.
  pose proof (store_received_sure DEBUG_PARTICLE FaLv PredictPos JustCountNPar (recv_ r) amr
                (go_level _ _ _ _ _ _ _ Hranks r amr Hr)
                (recv_AllRank_ok DEBUG_PARTICLE HILBERT MAX_LEVEL PS1 LB_Corner2Index
                   LB_Index2Rank Par_PredictPos FaLv PredictPos TargetTime JustCountNPar ranks
                   Hranks prepare_send_returns r amr Hr)
                (DEBUG_PARTICLE = true)) as Hpost.
  unfold stored_AllRank.
  destruct (store_received _ _ _ _ _ _) as [a|msg a]; [by exists a|].
  exfalso. cbn [post] in Hpost. destruct Hpost as [Hd Hn].
  - intros _ t Ht. by apply recv_AllRank_positive.
  - intros Hdbg HJ t j Ht Hj. by apply recv_AllRank_mass.
  - intros Hdbg HJ Hpp.
    pose proof (ck_home _ _ _ _ _ _ _ _ _ (Hchecks Hdbg) HJ Hpp) as Hsent.
    assert (forall s amr', ranks !! s = Some amr' ->
              exists sb, prepare_send_ amr' FaLv PredictPos TargetTime false = Ok sb) as Hsends.
    { intros s amr' Hs. rewrite <- HJ. by apply (prepare_send_returns s). }
    rewrite HJ.
    by apply (recv_AllRank_in_patch DEBUG_PARTICLE HILBERT MAX_LEVEL PS1 LB_Corner2Index
                LB_Index2Rank Par_PredictPos FaLv PredictPos TargetTime ranks Hranks Hsends).
  - intros Hdbg HJ P p j. by apply (ck_wait _ _ _ _ _ _ _ _ _ (Hchecks Hdbg) HJ r amr).
  - by apply Hn.
Qed.

End AllRankSure.

(** ** A call on all ranks *)

Lemma checks_ok_count_only (HILBERT : bool) (MAX_LEVEL : nat) (PS1 : Z)
    (LB_Corner2Index : nat -> list Z -> Z) (LB_Index2Rank : nat -> Z -> Z)
    (FaLv : nat) (PredictPos : bool) (ranks : list AMR_t) :
  checks_ok HILBERT MAX_LEVEL PS1 LB_Corner2Index LB_Index2Rank FaLv PredictPos false ranks ->
  checks_ok HILBERT MAX_LEVEL PS1 LB_Corner2Index LB_Index2Rank FaLv PredictPos true ranks.
Proof. intros [Hleaf _ _ _ _]. by split. Qed.

Section AllRankTheorems.

Variables DEBUG_PARTICLE HILBERT : bool.
Variable MAX_LEVEL : nat.
Variable PS1 : Z.
Variable LB_Corner2Index : nat -> list Z -> Z.
Variable LB_Index2Rank : nat -> Z -> Z.
Variable Par_PredictPos : AMR_t -> Z -> real * real * real -> real -> real * real * real.
Variable Par_LB_CollectParticleFromRealPatch :
  nat -> nat -> Z -> list Z -> list Z -> Z -> list Z -> list Z -> bool -> real ->
  AMR_t -> AMR_t.
Variable FaLv : nat.
Variable ranks : list AMR_t.

Local Abbreviation Collect_ :=
  (Collect_AllRank DEBUG_PARTICLE HILBERT MAX_LEVEL PS1 LB_Corner2Index LB_Index2Rank
     Par_PredictPos Par_LB_CollectParticleFromRealPatch FaLv).
Local Abbreviation states_ :=
  (Collect_AllRank_states DEBUG_PARTICLE HILBERT MAX_LEVEL PS1 LB_Corner2Index LB_Index2Rank
     Par_PredictPos Par_LB_CollectParticleFromRealPatch FaLv).
Local Abbreviation checks_ :=
  (checks_ok HILBERT MAX_LEVEL PS1 LB_Corner2Index LB_Index2Rank FaLv).



End AllRankTheorems.

Lemma truncate_corner_aligned (s : Z) (cr : list Z) :
  length cr = 3%nat -> (forall d c, cr !! d = Some c -> Z.rem c s = 0) ->
  truncate_corner s cr = cr.
Proof.
  intros Hlen Hal. destruct cr as [|x [|y [|z [|? ?]]]]; try done.
  unfold truncate_corner, nget. simpl.
  rewrite (Hal 0%nat x), (Hal 1%nat y), (Hal 2%nat z) by done.
  by rewrite !Z.sub_0_r.
Qed.

Lemma truncate_twice (s : Z) (c : Z) :
  0 < s -> 0 <= c ->
  (c - Z.rem c s) - Z.rem (c - Z.rem c s) (2 * s) = c - Z.rem c (2 * s).
Proof.
  intros Hs Hc.
  pose proof (Z.mod_pos_bound c s Hs) as Hr. pose proof (Z.mod_le c s Hc Hs) as Hle.
  rewrite (Z.rem_mod_nonneg c s) by lia.
  rewrite (Z.rem_mod_nonneg c (2 * s)) by lia.
  rewrite (Z.rem_mod_nonneg (c - c mod s) (2 * s)) by lia.
  assert (c - c mod s = s * (c / s)) as -> by (rewrite Z.mod_eq; lia).
  replace (2 * s) with (s * 2) by lia.
  rewrite Zmult_mod_distr_l.
  set (q := c / s) in *.
  assert (c = s * q + c mod s) as Hc' by (apply Z.div_mod; lia).
  pose proof (Z.div_mod q 2 ltac:(lia)) as Hq. pose proof (Z.mod_pos_bound q 2 ltac:(lia)) as Hb.
  assert (c mod (s * 2) = s * (q mod 2) + c mod s) as ->.
  { symmetry. apply (Z.mod_unique_pos _ _ (q / 2)); nia. }
  nia.
Qed.

Lemma truncate_corner_twice (s : Z) (cr : list Z) :
  0 < s -> (forall d, 0 <= nget 0 cr d) ->
  truncate_corner (2 * s) (truncate_corner s cr) = truncate_corner (2 * s) cr.
Proof.
  intros Hs Hc. unfold truncate_corner at 1 3. apply list_fmap_ext. intros i d Hd.
  apply lookup_seq in Hd as [-> Hd]. rewrite Nat.add_0_l.
  assert (nget 0 (truncate_corner s cr) i = nget 0 cr i - Z.rem (nget 0 cr i) s) as ->.
  { unfold truncate_corner, nget. by rewrite list_lookup_fmap, lookup_seq_lt. }
  by apply truncate_twice.
Qed.

Lemma truncate_corner_nonneg (s : Z) (cr : list Z) (d : nat) :
  0 < s -> (forall d, 0 <= nget 0 cr d) -> 0 <= nget 0 (truncate_corner s cr) d.
Proof.
  intros Hs Hc. unfold truncate_corner, nget. rewrite list_lookup_fmap.
  destruct (decide (d < 3)%nat).
  - rewrite lookup_seq_lt by done. simpl. fold (nget 0 cr d). specialize (Hc d).
    rewrite Z.rem_mod_nonneg by lia. pose proof (Z.mod_pos_bound (nget 0 cr d) s Hs).
    pose proof (Z.mod_le (nget 0 cr d) s). lia.
  - by rewrite lookup_seq_ge by lia.
Qed.

Section KeyPaths.

Variable PS1 : Z.
Variable LB_Corner2Index : nat -> list Z -> Z.
Variable amr : AMR_t.

Hypothesis HPS1 : 0 < PS1.

Lemma quot_key (delta : nat) :
  forall l cr,
    (forall d, 0 <= nget 0 cr d) ->
    recursive_curve PS1 LB_Corner2Index amr l (l + delta) ->
    (forall k, (l <= k < l + delta)%nat ->
               nget 0 (scale amr) k = 2 * nget 0 (scale amr) (S k) /\
               0 < nget 0 (scale amr) (S k)) ->
    Z.quot (LB_Corner2Index (l + delta) cr) (2 ^ (3 * Z.of_nat delta))
    = LB_Corner2Index l (match delta with
                         | O => cr
                         | S _ => truncate_corner (PS1 * nget 0 (scale amr) l) cr
                         end).
Proof.
  induction delta as [|delta IH]; intros l cr Hcr Hcurve Hscale.
  - rewrite Nat.add_0_r. simpl. apply Z.quot_1_r.
  - replace (2 ^ (3 * Z.of_nat (S delta))) with (2 ^ (3 * Z.of_nat delta) * 8).
    2:{ rewrite Nat2Z.inj_succ. replace (3 * Z.succ (Z.of_nat delta))
          with (3 * Z.of_nat delta + 3) by lia.
        rewrite Z.pow_add_r by lia. done. }
    rewrite <- Z.quot_quot by lia. rewrite <- Nat.add_succ_comm.
    rewrite (IH (S l) cr Hcr)
      by (try (intros k c Hk; apply Hcurve; lia); intros k Hk; apply Hscale; lia).
    destruct (Hscale l ltac:(lia)) as [Hdouble Hpos].
    rewrite Hcurve;
      [| lia | destruct delta; [done|]; intros d; apply truncate_corner_nonneg; [nia | done]].
    destruct delta as [|delta]; [done|]. f_equal.
    rewrite Hdouble.
    replace (PS1 * (2 * nget 0 (scale amr) (S l))) with (2 * (PS1 * nget 0 (scale amr) (S l)))
      by lia.
    apply truncate_corner_twice; [nia | done].
Qed.

(** C4.  Let the curve be of the recursive kind, the scale of each level
    from FaLv to lv be twice the scale of the next, and the patch (lv, PID)
    have a corner of three coordinates that are not negative and are
    multiples of the patch size of its level, and the key of that corner.
    Then the key of its father at FaLv is the same by the division of line 172
    (for a shift of [int] that is defined) as by the truncation of the corner
    and the encoding of lines 174 and 175, and so is the rank that any
    function of the level and the key gives for it. *)
Theorem Father_LB_Idx_paths_agree (FaLv lv PID : nat) :
  let p := the_patch amr lv PID in
  (FaLv <= lv)%nat -> (3 * (lv - FaLv) <= 30)%nat ->
  recursive_curve PS1 LB_Corner2Index amr FaLv lv ->
  (forall k, (FaLv <= k < lv)%nat ->
             nget 0 (scale amr) k = 2 * nget 0 (scale amr) (S k) /\
             0 < nget 0 (scale amr) (S k)) ->
  length (corner p) = 3%nat ->
  (forall d c, corner p !! d = Some c ->
               0 <= c /\ Z.rem c (PS1 * nget 0 (scale amr) lv) = 0) ->
  LB_Idx p = LB_Corner2Index lv (corner p) ->
  Father_LB_Idx true PS1 LB_Corner2Index amr FaLv lv PID
  = Father_LB_Idx false PS1 LB_Corner2Index amr FaLv lv PID /\
  forall LB_Index2Rank : nat -> Z -> Z,
    TRank_of true PS1 LB_Corner2Index LB_Index2Rank amr FaLv (lv, PID)
    = TRank_of false PS1 LB_Corner2Index LB_Index2Rank amr FaLv (lv, PID).
Proof.
  intros p Hlv Hshift Hcurve Hscale Hlen Hcorner Hkey.
  assert (Father_LB_Idx true PS1 LB_Corner2Index amr FaLv lv PID
          = Father_LB_Idx false PS1 LB_Corner2Index amr FaLv lv PID) as Hpaths.
  { unfold Father_LB_Idx. fold p.
    fold (truncate_corner (PS1 * nget 0 (scale amr) FaLv) (corner p)).
    unfold int_shl1. rewrite Z.shiftl_1_l, Hkey.
    replace (Z.of_nat lv - Z.of_nat FaLv) with (Z.of_nat (lv - FaLv)) by lia.
    replace lv with (FaLv + (lv - FaLv))%nat at 1 by lia.
    assert (forall d, 0 <= nget 0 (corner p) d) as Hnn.
    { intros d. unfold nget. destruct (corner p !! d) as [c|] eqn:Hc; simpl; [|lia].
      by apply (Hcorner d c). }
    rewrite quot_key;
      [| done | intros k c Hk; apply Hcurve; lia | intros k Hk; apply Hscale; lia].
    destruct (lv - FaLv)%nat eqn:Hdelta; [|done].
    assert (lv = FaLv) as Heq by lia. f_equal. symmetry.
    apply truncate_corner_aligned; [done|]. intros d c Hc.
    destruct (Hcorner d c Hc) as [_ Hal]. by rewrite <- Heq. }
  split; [done|]. intros LB_Index2Rank. unfold TRank_of, key_of. cbn [fst snd].
  by rewrite Hpaths.
Qed.

End KeyPaths.

Lemma forall_real_spec (amr : AMR_t) (lv : nat) (f : nat -> patch_t -> bool) (P : nat) :
  forall_real amr lv f = true -> (P < NReal amr lv)%nat ->
  exists p, get_patch amr lv P = Some p /\ f P p = true.
Proof.
  unfold forall_real. rewrite forallb_forall. intros Hall HP.
  specialize (Hall P). rewrite in_seq in Hall. specialize (Hall ltac:(lia)).
  destruct (get_patch amr lv P) as [p|]; [eauto | done].
Qed.

Lemma exists_real_spec (amr : AMR_t) (lv : nat) (f : nat -> patch_t -> bool) :
  exists_real amr lv f = true ->
  exists P p, (P < NReal amr lv)%nat /\ get_patch amr lv P = Some p /\ f P p = true.
Proof.
  unfold exists_real. rewrite existsb_exists. intros (P & HP%in_seq & Hf).
  destruct (get_patch amr lv P) as [p|] eqn:Hp; [|done]. exists P, p. split; [lia | done].
Qed.

Lemma forallb_lookup {A} (f : A -> bool) (l : list A) (i : nat) (x : A) :
  forallb f l = true -> l !! i = Some x -> f x = true.
Proof.
  rewrite forallb_forall. intros Hall Hx. apply Hall.
  apply list_elem_of_lookup_2 in Hx. by apply list_elem_of_In.
Qed.

Lemma forallb_elem_of {A} (f : A -> bool) (l : list A) (x : A) :
  forallb f l = true -> x ∈ l -> f x = true.
Proof. rewrite forallb_forall. intros Hall Hx. apply Hall. by apply list_elem_of_In. Qed.

Lemma level_okb_sound (FaLv : nat) (amr : AMR_t) :
  level_okb FaLv amr = true -> level_ok FaLv amr.
Proof.
  unfold level_okb. cbv zeta. intros [Hreal Htab]%andb_true_iff.
  assert (forall P p, (P < NReal amr FaLv)%nat -> get_patch amr FaLv P = Some p ->
            length (ParMassPos_Copy p) = NParVar /\ shadow_clear p = true /\ 0 <= NPar p /\
            LB_Idx p ∈ take (NReal amr FaLv) (nget [] (IdxList_Real amr) FaLv) /\
            forall Q q, (Q < NReal amr FaLv)%nat -> get_patch amr FaLv Q = Some q ->
                        LB_Idx p = LB_Idx q -> P = Q) as Hall.
  { intros P p HP Hp. destruct (forall_real_spec _ _ _ P Hreal HP) as (p' & Hp' & Hf).
    assert (p' = p) as -> by congruence.
    repeat (apply andb_true_iff in Hf as [Hf ?]).
    split; [by apply Nat.eqb_eq|]. split; [done|]. split; [lia|]. split.
    - match goal with H : existsb _ _ = true |- _ =>
        apply existsb_exists in H as (k & Hk & ->%Z.eqb_eq) end.
      by apply list_elem_of_In.
    - intros Q q HQ Hq Hkey.
      match goal with H : forall_real _ _ _ = true |- _ =>
        destruct (forall_real_spec _ _ _ Q H HQ) as (q' & Hq' & Himp) end.
      assert (q' = q) as -> by congruence.
      rewrite Hkey, Z.eqb_refl in Himp. simpl in Himp. by apply Nat.eqb_eq. }
  split.
  - intros P HP. destruct (forall_real_spec _ _ _ P Hreal HP) as (p & -> & _). eauto.
  - intros P p HP Hp. by apply (Hall P p).
  - intros P p HP Hp. by apply (Hall P p).
  - intros P p HP Hp. by apply (Hall P p).
  - intros j k Hj.
    pose proof (forallb_elem_of _ _ j Htab) as Hjb. cbv beta in Hjb.
    rewrite Hj in Hjb. specialize (Hjb ltac:(apply elem_of_seq; apply lookup_lt_Some in Hj; lia)).
    destruct (nget [] (IdxList_Real_IdxTable amr) FaLv !! j) as [z|] eqn:Hz; [|done].
    apply andb_true_iff in Hjb as [[Hz0 Hzlt]%andb_true_iff Hp].
    destruct (get_patch amr FaLv (Z.to_nat z)) as [p|] eqn:Hpz; [|done].
    exists (Z.to_nat z), p. apply Nat.ltb_lt in Hzlt. apply Z.eqb_eq in Hp.
    split; [done|]. split; [f_equal; lia | done].
  - intros P p HP Hp. by apply (Hall P p).
  - intros P Q p q HP HQ Hp Hq Hkey. by apply (Hall P p HP Hp) with q.
Qed.

Lemma recv_okb_sound (FaLv : nat) (amr : AMR_t) (recv : RecvBuf_t) :
  recv_okb FaLv amr recv = true -> recv_ok FaLv amr recv.
Proof.
  unfold recv_okb. intros [[[H1 H2]%andb_true_iff H3]%andb_true_iff H4]%andb_true_iff.
  split; [by apply Nat.eqb_eq | by apply Nat.eqb_eq | |].
  - intros i k Hk. pose proof (forallb_lookup _ _ i k H3 Hk) as He.
    apply exists_real_spec in He as (P & p & HP & Hp & [He Hs]%andb_true_iff).
    exists P, p. apply Z.eqb_eq in He. apply negb_true_iff, Z.eqb_neq in Hs. done.
  - intros i n Hn. pose proof (forallb_lookup _ _ i n H4 Hn) as Hb. cbv beta in Hb. lia.
Qed.

Lemma in_patchb_sound (q : patch_t) (pos : nat -> real) :
  in_patchb q pos = true -> in_patch q pos.
Proof.
  unfold in_patchb. intros Hall d Hd.
  apply negb_true_iff, (forallb_elem_of _ _ d Hall), elem_of_seq. lia.
Qed.

Lemma own_in_patchb_sound (FaLv : nat) (amr : AMR_t) :
  own_in_patchb FaLv amr = true -> own_in_patch FaLv amr.
Proof.
  intros Hall P p j HP Hp Hson Hj.
  pose proof (forallb_elem_of _ _ P Hall ltac:(apply elem_of_seq; lia)) as HPb.
  cbv beta in HPb. rewrite Hp in HPb. apply orb_true_iff in HPb as [?%Z.eqb_eq | HPb]; [done|].
  apply in_patchb_sound, (forallb_elem_of _ _ j HPb), elem_of_seq. lia.
Qed.

Lemma ranks_okb_sound (HILBERT : bool) (MAX_LEVEL : nat) (PS1 : Z)
    (LB_Corner2Index : nat -> list Z -> Z) (LB_Index2Rank : nat -> Z -> Z)
    (FaLv : nat) (ranks : list AMR_t) :
  ranks_okb HILBERT MAX_LEVEL PS1 LB_Corner2Index LB_Index2Rank FaLv ranks = true ->
  ranks_ok HILBERT MAX_LEVEL PS1 LB_Corner2Index LB_Index2Rank FaLv ranks.
Proof.
  unfold ranks_okb. intros [Hlevel Hrest]%andb_true_iff.
  assert (forall r amr, ranks !! r = Some amr ->
            (forall x, x ∈ finer_patches MAX_LEVEL amr FaLv ->
               0 <= NPar (the_patch amr x.1 x.2) /\
               (NPar (the_patch amr x.1 x.2) <> 0 ->
                exists r' a P p,
                  TRank_of HILBERT PS1 LB_Corner2Index LB_Index2Rank amr FaLv x = Z.of_nat r' /\
                  ranks !! r' = Some a /\ (P < NReal a FaLv)%nat /\
                  get_patch a FaLv P = Some p /\
                  LB_Idx p = key_of HILBERT PS1 LB_Corner2Index amr FaLv x /\ son p <> -1)) /\
            (forall lv, (FaLv <= lv <= MAX_LEVEL)%nat ->
               nget 0 (NPar_Lv (Par amr)) lv
               = sumZ ((fun P => NPar (the_patch amr lv P)) <$> seq 0 (NReal amr lv))) /\
            (forall P p, (P < NReal amr MAX_LEVEL)%nat -> get_patch amr MAX_LEVEL P = Some p ->
                         son p = -1)) as Hall.
  { intros r amr Hr. pose proof (forallb_lookup _ _ r amr Hrest Hr) as Hamr. cbv beta in Hamr.
    apply andb_true_iff in Hamr as [[Hfiner Htable]%andb_true_iff Hmax].
    split; [|split].
    - intros x Hx. pose proof (forallb_elem_of _ _ x Hfiner Hx) as Hxb. cbv beta zeta in Hxb.
      apply andb_true_iff in Hxb as [Hn Hown]. split; [lia|]. intros Hnz.
      apply orb_true_iff in Hown as [?%Z.eqb_eq | Hown]; [done|].
      apply andb_true_iff in Hown as [Ht Hown].
      destruct (ranks !! Z.to_nat _) as [a|] eqn:Ha; [|done].
      apply exists_real_spec in Hown as (P & p & HP & Hp & [Hk Hs]%andb_true_iff).
      exists (Z.to_nat (TRank_of HILBERT PS1 LB_Corner2Index LB_Index2Rank amr FaLv x)), a, P, p.
      apply Z.eqb_eq in Hk. apply negb_true_iff, Z.eqb_neq in Hs.
      split; [lia | done].
    - intros lv Hlv. apply Z.eqb_eq, (forallb_elem_of _ _ lv Htable), elem_of_seq. lia.
    - intros P p HP Hp.
      pose proof (forallb_elem_of _ _ P Hmax ltac:(apply elem_of_seq; lia)) as HPb.
      cbv beta in HPb. rewrite Hp in HPb. by apply Z.eqb_eq. }
  split.
  - intros r amr Hr. apply level_okb_sound. by apply (forallb_lookup _ _ r amr Hlevel).
  - intros s amr x Hs Hx. by apply (Hall s amr Hs).
  - intros s amr x Hs Hx Hnz. by apply (Hall s amr Hs).
  - intros r amr lv Hr Hlv. by apply (Hall r amr Hr).
  - intros r amr P p Hr HP Hp. by apply (Hall r amr Hr) with P.
Qed.

Lemma sent_in_patchb_sound (HILBERT : bool) (MAX_LEVEL : nat) (PS1 : Z)
    (LB_Corner2Index : nat -> list Z -> Z) (LB_Index2Rank : nat -> Z -> Z)
    (FaLv : nat) (ranks : list AMR_t) :
  sent_in_patchb HILBERT MAX_LEVEL PS1 LB_Corner2Index LB_Index2Rank FaLv ranks = true ->
  sent_in_patch HILBERT MAX_LEVEL PS1 LB_Corner2Index LB_Index2Rank FaLv ranks.
Proof.
  intros Hall s amr x r amr_r P p j Hs Hx Hnz Ht Hr HP Hp Hkey Hj.
  pose proof (forallb_lookup _ _ s amr Hall Hs) as Hamr. cbv beta in Hamr.
  pose proof (forallb_elem_of _ _ x Hamr Hx) as Hxb. cbv beta zeta in Hxb.
  rewrite Ht, Nat2Z.id, Hr in Hxb.
  pose proof (forallb_elem_of _ _ P Hxb ltac:(apply elem_of_seq; lia)) as HPb.
  cbv beta in HPb. rewrite Hp, Hkey, Z.eqb_refl in HPb. simpl in HPb.
  apply in_patchb_sound, (forallb_elem_of _ _ j HPb), elem_of_seq. lia.
Qed.

Lemma checks_okb_sound (HILBERT : bool) (MAX_LEVEL : nat) (PS1 : Z)
    (LB_Corner2Index : nat -> list Z -> Z) (LB_Index2Rank : nat -> Z -> Z)
    (FaLv : nat) (PredictPos JustCountNPar : bool) (ranks : list AMR_t) :
  checks_okb HILBERT MAX_LEVEL PS1 LB_Corner2Index LB_Index2Rank FaLv PredictPos JustCountNPar
    ranks = true ->
  checks_ok HILBERT MAX_LEVEL PS1 LB_Corner2Index LB_Index2Rank FaLv PredictPos JustCountNPar
    ranks.
Proof.
  unfold checks_okb. intros [Hall Hhome]%andb_true_iff.
  assert (forall s amr x, ranks !! s = Some amr -> x ∈ finer_patches MAX_LEVEL amr FaLv ->
            (NPar (the_patch amr x.1 x.2) <> 0 -> son (the_patch amr x.1 x.2) = -1) /\
            (JustCountNPar = false ->
             forall j, (j < Z.to_nat (NPar (the_patch amr x.1 x.2)))%nat ->
               real_lt (Par_attr amr PAR_MASS (nget 0 (ParList (the_patch amr x.1 x.2)) j))
                       0%Q = false /\
               (PredictPos = true ->
                real_lt (zget 0%Q (Time (Par amr))
                           (nget 0 (ParList (the_patch amr x.1 x.2)) j)) 0%Q = false)))
    as Hfiner.
  { intros s amr x Hs Hx. pose proof (forallb_lookup _ _ s amr Hall Hs) as Hamr.
    cbv beta in Hamr. apply andb_true_iff in Hamr as [Hamr _].
    pose proof (forallb_elem_of _ _ x Hamr Hx) as Hxb. cbv beta zeta in Hxb.
    apply andb_true_iff in Hxb as [Hleaf Hpar]. split.
    - intros Hnz. apply orb_true_iff in Hleaf as [?%Z.eqb_eq | ?%Z.eqb_eq]; done.
    - intros HJ j Hj. rewrite HJ in Hpar. cbn [orb] in Hpar.
      pose proof (forallb_elem_of _ _ j Hpar ltac:(apply elem_of_seq; lia)) as Hjb.
      cbv beta zeta in Hjb. apply andb_true_iff in Hjb as [Hm Ht].
      split; [by apply negb_true_iff|]. intros Hpp. rewrite Hpp in Ht. cbn [negb orb] in Ht.
      by apply negb_true_iff. }
  split.
  - intros s amr x Hs Hx. by apply (Hfiner s amr x).
  - intros Hpp HJ s amr x j Hs Hx Hj. by apply (Hfiner s amr x Hs Hx).
  - intros HJ s amr x j Hs Hx Hj. by apply (Hfiner s amr x Hs Hx).
  - intros HJ Hpp. rewrite HJ, Hpp in Hhome. by apply sent_in_patchb_sound.
  - intros HJ r amr P p j Hr HP Hp Hson Hj.
    pose proof (forallb_lookup _ _ r amr Hall Hr) as Hamr. cbv beta in Hamr.
    apply andb_true_iff in Hamr as [_ Hwait]. rewrite HJ in Hwait. cbn [orb] in Hwait.
    pose proof (forallb_elem_of _ _ P Hwait ltac:(apply elem_of_seq; lia)) as HPb.
    cbv beta in HPb. rewrite Hp in HPb.
    apply orb_true_iff in HPb as [?%Z.eqb_eq | HPb]; [done|].
    apply negb_true_iff, (forallb_elem_of _ _ j HPb), elem_of_seq. lia.
Qed.

Lemma spread_pos_pos (p : positive) : 0 < spread_pos p.
Proof. induction p; simpl; lia. Qed.

Lemma spread_nonneg (u : Z) : 0 <= spread u.
Proof. destruct u; simpl; try lia. pose proof (spread_pos_pos p). lia. Qed.

Lemma spread_half (u : Z) : 0 <= u -> spread u = 8 * spread (u / 2) + u mod 2.
Proof.
  intros Hu. destruct u as [|p|p]; [done| |lia].
  destruct p as [q|q|].
  - assert (Z.pos q~1 / 2 = Z.pos q) as -> by (symmetry; apply (Z.div_unique _ _ _ 1); lia).
    assert (Z.pos q~1 mod 2 = 1) as -> by (symmetry; apply (Z.mod_unique _ _ (Z.pos q)); lia).
    done.
  - assert (Z.pos q~0 / 2 = Z.pos q) as -> by (symmetry; apply (Z.div_unique _ _ _ 0); lia).
    assert (Z.pos q~0 mod 2 = 0) as -> by (symmetry; apply (Z.mod_unique _ _ (Z.pos q)); lia).
    cbn [spread spread_pos]. lia.
  - done.
Qed.

Lemma div_truncated (s c : Z) : 0 < s -> 0 <= c -> (c - Z.rem c s) / s = c / s.
Proof.
  intros Hs Hc. rewrite Z.rem_mod_nonneg by lia.
  rewrite (Z.mod_eq c s) by lia.
  replace (c - (c - s * (c / s))) with (c / s * s) by lia. by rewrite Z.div_mul by lia.
Qed.

(** The Morton order is of the recursive kind between two levels whose
    scales differ by the factor two. *)
Lemma morton_recursive (PS1 : Z) (scales : list Z) (l : nat) (cr : list Z) :
  0 < PS1 * nget 0 scales (S l) ->
  nget 0 scales l = 2 * nget 0 scales (S l) ->
  (forall d, 0 <= nget 0 cr d) ->
  Z.quot (morton PS1 scales (S l) cr) 8
  = morton PS1 scales l (truncate_corner (PS1 * nget 0 scales l) cr).
Proof.
  intros Hs Hdouble Hcr. unfold morton. cbv zeta. rewrite Hdouble.
  set (s := PS1 * nget 0 scales (S l)) in *.
  replace (PS1 * (2 * nget 0 scales (S l))) with (2 * s) by (subst s; lia).
  assert (forall d, (d < 3)%nat ->
            nget 0 (truncate_corner (2 * s) cr) d / (2 * s) = nget 0 cr d / s / 2) as Htr.
  { intros d Hd. unfold truncate_corner, nget at 1.
    rewrite list_lookup_fmap, lookup_seq_lt by done. cbn [fmap option_fmap option_map default
      from_option id]. simpl.
    rewrite div_truncated by (try lia; apply Hcr).
    rewrite Z.div_div by lia. f_equal. lia. }
  rewrite !Htr by lia.
  pose proof (Hcr 0%nat) as H0. pose proof (Hcr 1%nat) as H1. pose proof (Hcr 2%nat) as H2.
  set (x := nget 0 cr 0 / s). set (y := nget 0 cr 1 / s). set (z := nget 0 cr 2 / s).
  assert (0 <= x /\ 0 <= y /\ 0 <= z) as (Hx & Hy & Hz).
  { subst x y z. repeat split; apply Z.div_pos; lia. }
  rewrite (spread_half x Hx), (spread_half y Hy), (spread_half z Hz).
  pose proof (Z.mod_pos_bound x 2 ltac:(lia)). pose proof (Z.mod_pos_bound y 2 ltac:(lia)).
  pose proof (Z.mod_pos_bound z 2 ltac:(lia)).
  pose proof (spread_nonneg (x / 2)). pose proof (spread_nonneg (y / 2)).
  pose proof (spread_nonneg (z / 2)).
  rewrite Z.quot_div_nonneg by lia.
  symmetry. apply (Z.div_unique _ _ _ (x mod 2 + 2 * (y mod 2) + 4 * (z mod 2))); lia.
Qed.

(** ** The example satisfies the conditions of the theorems *)

Lemma foldl_zupd_base (lv : nat) (f : patch_t -> patch_t) (pids : list Z) (amr : AMR_t)
    (l P : nat) :
  (forall p, same_base p (f p)) ->
  option_Forall2 same_base (get_patch amr l P)
    (get_patch (foldl (fun a pid => zupd_patch lv pid f a) amr pids) l P).
Proof.
  intros Hf. revert amr. induction pids as [|pid pids IH]; intros amr; simpl.
  - destruct (get_patch amr l P); constructor. apply same_base_refl.
  - specialize (IH (zupd_patch lv pid f amr)). rewrite get_patch_zupd in IH.
    destruct (decide _); [|done].
    destruct (get_patch amr l P) as [p|]; simpl in *; [|done].
    inversion IH as [? q Hq|]; subst. constructor.
    eapply same_base_trans; [apply Hf | done].
Qed.

Lemma CollectFromReal_buffers_only (r : nat) :
  writes_buffers_only (Example.CollectFromReal r).
Proof.
  intros lv n1 l1 l2 n2 l3 l4 pp tt a. unfold Example.CollectFromReal.
  split; [apply foldl_zupd_env|]. split.
  - intros l P HlP. apply foldl_zupd_other.
    destruct HlP as [?|HP]; [by left | right].
    intros Hin. apply list_elem_of_filter in Hin as [Hge _]. lia.
  - intros l P. apply foldl_zupd_base. apply same_base_set_NPar_Copy.
Qed.

Lemma Example_recursive_curve (amr : AMR_t) :
  scale amr = Example.scales ->
  recursive_curve Example.PS1 Example.LB_Corner2Index amr 0 1.
Proof.
  intros Hscale l cr Hl Hcr. assert (l = 0%nat) as -> by lia.
  rewrite Hscale. by apply morton_recursive.
Qed.

Lemma Example_ranks_ok :
  ranks_ok true Example.MAX_LEVEL Example.PS1 Example.LB_Corner2Index Example.LB_Index2Rank
    0 Example.ranks.
Proof. apply ranks_okb_sound. vm_compute. reflexivity. Qed.

Lemma Example_checks_ok :
  checks_ok true Example.MAX_LEVEL Example.PS1 Example.LB_Corner2Index Example.LB_Index2Rank
    0 false false Example.ranks.
Proof. apply checks_okb_sound. vm_compute. reflexivity. Qed.

Lemma Example_own_in_patch (r : nat) (amr : AMR_t) :
  Example.ranks !! r = Some amr -> own_in_patch 0 amr.
Proof.
  intros Hr. apply own_in_patchb_sound.
  destruct r as [|[|r]]; [| |done]; injection Hr as <-; vm_compute; reflexivity.
Qed.

Lemma Example_level_ok : level_ok 0 Example.amr0.
Proof. apply level_okb_sound. vm_compute. reflexivity. Qed.

Lemma Example_recv_ok (JustCountNPar : bool) :
  recv_ok 0 Example.amr0 (Example.received true 0 JustCountNPar 0 Example.amr0).
Proof. apply recv_okb_sound. destruct JustCountNPar; vm_compute; reflexivity. Qed.

Lemma Example_clear (l P : nat) (p : patch_t) :
  get_patch Example.amr0 l P = Some p -> shadow_clear p = true.
Proof.
  destruct l as [|[|l]]; [| |done]; (destruct P as [|[|P]]; [| |done]);
    intros [= <-]; reflexivity.
Qed.

(** The counts of level 0 after a collection there: 5 particles for A (one of
    its own and two from each rank), 2 for B, none for the leaf C, and an
    empty shadow copy for the buffer copy of B. *)
Example Collect_example_counts :
  Example.Collect true 0 true true false = Ok <$> Example.Collect_states true 0 true true false /\
  (fun a => NPar_Copy <$> nget [] (patch a) 0) <$> Example.Collect_states true 0 true true false
  = [[5; 0]; [2; -1]].
Proof. split; vm_compute; reflexivity. Qed.

(** ** The theorems at the example *)

Lemma Collect_shadow_counts_example :
  level_ok 0 Example.amr0 /\
  recv_ok 0 Example.amr0 (Example.received true 0 false 0 Example.amr0) /\
  post (fun amr' =>
          forall P p0, (P < NReal Example.amr0 0)%nat -> get_patch Example.amr0 0 P = Some p0 ->
            exists p', get_patch amr' 0 P = Some p' /\
              (son p0 <> -1 ->
               NPar_Copy p'
               = NPar p0 + received_count (Example.received true 0 false 0 Example.amr0)
                             (LB_Idx p0)) /\
              (son p0 = -1 ->
               NPar_Copy p' = -1 /\ forall v, (v < NParVar)%nat -> not_null p' v = false))
       (fun _ => true = true)
       (Example.Collect_rank true 0 true true false 0 Example.amr0).
Proof.
  split; [apply Example_level_ok|]. split; [apply Example_recv_ok|].
  apply Collect_shadow_counts.
  - apply CollectFromReal_buffers_only.
  - unfold Example.MAX_LEVEL. lia.
  - apply Example_level_ok.
  - apply Example_recv_ok.
Defined.



Lemma Father_LB_Idx_paths_agree_example :
  recursive_curve Example.PS1 Example.LB_Corner2Index Example.amr1 0 1 /\
  Father_LB_Idx true Example.PS1 Example.LB_Corner2Index Example.amr1 0 1 1
  = Father_LB_Idx false Example.PS1 Example.LB_Corner2Index Example.amr1 0 1 1 /\
  forall LB_Index2Rank : nat -> Z -> Z,
    TRank_of true Example.PS1 Example.LB_Corner2Index LB_Index2Rank Example.amr1 0 (1, 1)%nat
    = TRank_of false Example.PS1 Example.LB_Corner2Index LB_Index2Rank Example.amr1 0
        (1, 1)%nat.
Proof.
  split; [by apply Example_recursive_curve|].
  apply Father_LB_Idx_paths_agree.
  - reflexivity.
  - lia.
  - lia.
  - by apply Example_recursive_curve.
  - intros k Hk. assert (k = 0%nat) as -> by lia. split; [reflexivity | reflexivity].
  - reflexivity.
  - intros d c. destruct d as [|[|[|d]]]; [| | |done]; intros [= <-]; split; (lia || reflexivity).
  - reflexivity.
Defined.

Lemma Collect_above_max_level_example :
  (Example.MAX_LEVEL < 2)%nat /\
  Example.Collect_rank true 2 true true false 0 Example.amr0 = Ok Example.amr0.
Proof.
  split; [unfold Example.MAX_LEVEL; lia|].
  apply Collect_above_max_level. unfold Example.MAX_LEVEL. lia.
Defined.

Lemma Collect_detects_initialized_example :
  level_ok 0 Example.amr0 /\
  Example.Collect_rank true 0 true true false 0 Example.amr0 = Ok Example.collected /\
  exists msg, Example.Collect_rank true 0 true true false 0 Example.collected
              = Aux_Error msg Example.collected.
Proof.
  split; [apply Example_level_ok|]. split; [vm_compute; reflexivity|].
  apply (proj1 (proj2 (Collect_detects_initialized true Example.MAX_LEVEL 2 0 Example.PS1
                         Example.LB_Corner2Index Example.LB_Index2Rank Example.Par_PredictPos
                         (Example.CollectFromReal 0) (Example.Send true 0 false 0)
                         (Example.Reduce true 0 false) 0 false false 0%Q 0%Q true true false
                         true true false Example.amr0 0)) Example.A Example.collected).
  - unfold Example.MAX_LEVEL. lia.
  - apply CollectFromReal_buffers_only.
  - apply Example_level_ok.
  - apply Example_recv_ok.
  - vm_compute. lia.
  - reflexivity.
  - vm_compute. discriminate.
  - vm_compute. reflexivity.
Defined.

Lemma FreeMemory_idempotent_example :
  released_clear 0 true true Example.amr0 /\
  scan_clear 0 Example.amr0 /\
  Par_LB_CollectParticle2OneLevel_FreeMemory false 0 true true Example.amr0 = Ok Example.amr0 /\
  Par_LB_CollectParticle2OneLevel_FreeMemory true 0 true true Example.amr0 = Ok Example.amr0.
Proof.
  assert (released_clear 0 true true Example.amr0) as Hclear.
  { intros l P p _. apply Example_clear. }
  assert (scan_clear 0 Example.amr0) as Hscan.
  { intros TLv PID [->|[Hlv _]] HPID; [|lia].
    change (nget 0%nat (num Example.amr0) 0) with 2%nat in HPID.
    destruct PID as [|[|PID]]; [reflexivity | reflexivity | lia]. }
  split; [exact Hclear|]. split; [exact Hscan|].
  destruct (proj1 (FreeMemory_idempotent true 0 true true Example.amr0) Hclear)
    as (Hprod & Hdiag & _).
  split; [exact Hprod | exact (Hdiag Hscan)].
Defined.

(** ** Where the specification goes too far *)

(** A second call in a row is not always detected.  At the maximum level,
    and with no buffer patches to collect for, a call in the diagnostic build
    passes the checks of lines 83 to 103 and returns at line 126; a second
    call, with no release in between, does the same. *)
Lemma Collect_twice_returns :
  (a <- Example.Collect_rank true 1 false false false 0 Example.amr0 ;;
   Example.Collect_rank true 1 false false false 0 a) = Ok Example.amr0.
Proof. vm_compute. reflexivity. Qed.


(** A release where nothing was collected is not a no-op in the diagnostic
    build.  After a collection at level 0, no patch of level 1 holds a shadow
    copy, and all of them are real; a release at level 1, for no buffer
    patches, stops all the same: its scan of the level below finds the
    shadow copy of A. *)
Lemma FreeMemory_stops_when_clear :
  released_clear 1 false false Example.collected /\
  nget 0%nat (num Example.collected) 1 = NReal Example.collected 1 /\
  Par_LB_CollectParticle2OneLevel_FreeMemory true 1 false false Example.collected
  = Aux_Error "ParMassPos_Copy != NULL" Example.collected.
Proof.
  split; [|split; vm_compute; reflexivity].
  intros l P p [[-> HP]|[[Hs _]|[Hs _]]] Hp; [|discriminate Hs..].
  assert (NReal Example.collected 1 = 2%nat) as HN by (vm_compute; reflexivity).
  rewrite HN in HP.
  destruct P as [|[|P]]; [| |lia]; vm_compute in Hp; injection Hp as <-;
    vm_compute; reflexivity.
Qed.

(** In the production build a release that does not name the sibling buffers
    returns with the buffer copy of B still marked, after a collection that
    named them. *)
Lemma FreeMemory_leaves_buffer :
  (a <- Example.Collect_rank false 0 true false false 0 Example.amr0 ;;
   Par_LB_CollectParticle2OneLevel_FreeMemory false 0 false false a) = Ok Example.marked /\
  (1 < nget 0 (num Example.marked) 0)%nat /\
  NPar_Copy (the_patch Example.marked 0 1) = 0.
Proof. repeat split; vm_compute; reflexivity. Qed.

(** ** Runs that stop *)

Lemma stops_bind_l {A B} (m : result A) (k : A -> result B) : stops m -> stops (bind m k).
Proof. intros (msg & s & ->). by exists msg, s. Qed.

Lemma stops_bind_r {A B} (m : result A) (k : A -> result B) :
  (forall a, stops (k a)) -> stops (bind m k).
Proof. intros Hk. destruct m as [a|msg s]; simpl; [apply Hk | by exists msg, s]. Qed.

Lemma stops_post {A} (Q : A -> Prop) (E : AMR_t -> Prop) (r : result A) :
  stops r -> post Q E r -> exists msg s, r = Aux_Error msg s /\ E s.
Proof. intros (msg & s & ->) H. by exists msg, s. Qed.

Lemma foldE_stops {X St} (body : X -> St -> result St) (l : list X) (x : X) (s : St) :
  x ∈ l -> (forall s', stops (body x s')) -> stops (foldE body l s).
Proof.
  intros Hx Hb. revert s. induction l as [|y l IH]; intros s; [by apply elem_of_nil in Hx|].
  apply elem_of_cons in Hx as [->|Hx]; simpl.
  - by apply stops_bind_l.
  - apply stops_bind_r. intros s'. by apply IH.
Qed.

Lemma for_each_stops {St} (idx : list nat) (body : nat -> St -> result St) (i : nat) (s : St) :
  i ∈ idx -> (forall s', stops (body i s')) -> stops (for_each idx body s).
Proof.
  intros Hi Hb. revert s. induction idx as [|j idx IH]; intros s; [by apply elem_of_nil in Hi|].
  apply elem_of_cons in Hi as [->|Hi]; simpl.
  - by apply stops_bind_l.
  - apply stops_bind_r. intros s'. by apply IH.
Qed.

Lemma for_loopE_stops {St} (lo n : nat) (body : nat -> St -> result St) (i : nat) (s : St) :
  (lo <= i < lo + n)%nat -> (forall s', stops (body i s')) -> stops (for_loopE lo n body s).
Proof. intros Hi Hb. apply (for_each_stops _ _ i); [apply elem_of_seq; lia | done]. Qed.

Lemma stops_check {A} (dbg bad : bool) (msg : string) (s : AMR_t) (k : result A) :
  dbg = true -> bad = true \/ stops k -> stops (check dbg bad msg s k).
Proof.
  intros -> [->|Hk]; unfold check; simpl; [by eexists _, _|].
  destruct bad; [by eexists _, _ | done].
Qed.

Section StepOneStops.

Variable HILBERT : bool.
Variables MAX_LEVEL MPI_NRank MPI_Rank : nat.
Variable PS1 : Z.
Variable LB_Corner2Index : nat -> list Z -> Z.
Variable LB_Index2Rank : nat -> Z -> Z.
Variable Par_PredictPos : AMR_t -> Z -> real * real * real -> real -> real * real * real.
Variable Par_LB_CollectParticleFromRealPatch :
  nat -> Z -> list Z -> list Z -> Z -> list Z -> list Z -> bool -> real -> AMR_t -> AMR_t.
Variable Par_LB_SendParticleData : nat -> SendBuf_t -> bool -> RecvBuf_t.
Variable MPI_Reduce_SUM : nat -> Z -> Z.

Local Abbreviation Collect_debug :=
  (Par_LB_CollectParticle2OneLevel true HILBERT MAX_LEVEL MPI_NRank MPI_Rank PS1
     LB_Corner2Index LB_Index2Rank Par_PredictPos Par_LB_CollectParticleFromRealPatch
     Par_LB_SendParticleData MPI_Reduce_SUM).
Local Abbreviation prepare_send_debug :=
  (prepare_send true HILBERT MAX_LEVEL MPI_NRank PS1 LB_Corner2Index LB_Index2Rank
     Par_PredictPos).

(** A call of the diagnostic build whose step 1 stops, stops with the state
    it was given. *)
Lemma Collect_debug_stops_in_step_1 (FaLv : nat) (PredictPos : bool) (TargetTime : real)
    (Sib FaSib JustCountNPar : bool) (amr : AMR_t) :
  (FaLv < MAX_LEVEL)%nat ->
  stops (prepare_send_debug amr FaLv PredictPos TargetTime JustCountNPar) ->
  exists msg, Collect_debug FaLv PredictPos TargetTime Sib FaSib JustCountNPar amr
              = Aux_Error msg amr.
Proof.
  intros Hlv Hstop. unfold Par_LB_CollectParticle2OneLevel.
  destruct (Nat.ltb_spec MAX_LEVEL FaLv) as [|_]; [lia|].
  pose proof (check_flags_post true PredictPos Sib FaSib JustCountNPar amr) as Hf.
  destruct (check_flags _ _ _ _ _ _) as [a|msg s]; simpl in Hf; subst; [|by eexists].
  cbn [bind].
  pose proof (check_uninitialized_post true FaLv amr) as Hu.
  destruct (check_uninitialized _ _ _) as [a'|msg s]; simpl in Hu;
    [destruct Hu as [-> _] | destruct Hu as [-> _]; by eexists].
  cbn [bind].
  destruct (Nat.eqb_spec FaLv MAX_LEVEL) as [|_]; [lia|].
  destruct (stops_post _ _ _ Hstop
              (prepare_send_post true HILBERT MAX_LEVEL MPI_NRank PS1 LB_Corner2Index
                 LB_Index2Rank Par_PredictPos amr FaLv PredictPos TargetTime JustCountNPar))
    as (msg & s & -> & -> & _).
  by eexists.
Qed.

(** X7. In the diagnostic build, a real patch above the level FaLv that
    holds particles although it has a son, or whose count of particles is
    negative, stops the call, and the call stops with the state it was given:
    nothing has been written. *)
Theorem Collect_rejects_sender (FaLv lv PID : nat) (PredictPos : bool) (TargetTime : real)
    (Sib FaSib JustCountNPar : bool) (amr : AMR_t) :
  (FaLv < lv <= MAX_LEVEL)%nat -> (PID < NReal amr lv)%nat ->
  (NPar (the_patch amr lv PID) <> 0 /\ son (the_patch amr lv PID) <> -1) \/
  NPar (the_patch amr lv PID) < 0 ->
  exists msg, Collect_debug FaLv PredictPos TargetTime Sib FaSib JustCountNPar amr
              = Aux_Error msg amr.
Proof.
  intros Hlv HPID Hbad. apply Collect_debug_stops_in_step_1; [lia|].
  unfold prepare_send. apply stops_bind_l. rewrite for_finer_foldE.
  apply (foldE_stops _ _ (lv, PID)); [by apply elem_of_finer_patches|].
  intros st. unfold count_body. cbn [fst snd].
  destruct (Z.eqb_spec (NPar (the_patch amr lv PID)) 0) as [Hz|Hnz]; [lia|].
  apply stops_check; [done|].
  destruct (Z.eqb_spec (son (the_patch amr lv PID)) (-1)) as [Hleaf|Hson]; [|by left].
  right. apply stops_check; [done|]. left. apply Z.ltb_lt. lia.
Qed.

(** X8. In the diagnostic build, a call that is to predict the positions
    stops, with the state it was given, when a particle of a real patch above
    FaLv has a negative time. *)
Theorem Collect_rejects_negative_time (FaLv lv PID j : nat) (TargetTime : real)
    (Sib FaSib : bool) (amr : AMR_t) :
  (FaLv < lv <= MAX_LEVEL)%nat -> (PID < NReal amr lv)%nat ->
  (j < Z.to_nat (NPar (the_patch amr lv PID)))%nat ->
  real_lt (zget 0%Q (Time (Par amr)) (nget 0 (ParList (the_patch amr lv PID)) j)) 0%Q = true ->
  exists msg, Collect_debug FaLv true TargetTime Sib FaSib false amr = Aux_Error msg amr.
Proof.
  intros Hlv HPID Hj Htime. apply Collect_debug_stops_in_step_1; [lia|].
  unfold prepare_send. apply stops_bind_r. intros cnt. apply stops_bind_l.
  rewrite for_finer_foldE.
  apply (foldE_stops _ _ (lv, PID)); [by apply elem_of_finer_patches|].
  intros st. unfold fill_body. cbn [fst snd].
  destruct (Z.eqb_spec (NPar (the_patch amr lv PID)) 0) as [Hz|Hnz]; [lia|].
  apply stops_check; [done|]. right. apply stops_check; [done|]. right.
  apply stops_bind_l. apply (for_loopE_stops _ _ _ j); [lia|].
  intros st'. unfold fill_particle. apply stops_bind_l.
  apply stops_check; [done|]. by left.
Qed.

End StepOneStops.

(** ** The diagnostic build and the production build *)

Lemma returns_Ok {A} (a : A) : returns (Ok a).
Proof. by exists a. Qed.

Lemma returns_bind {A B} (m : result A) (k : A -> result B) :
  returns m -> (forall a, returns (k a)) -> returns (bind m k).
Proof. intros [a ->] Hk. apply Hk. Qed.

Lemma returns_check {A} (bad : bool) (msg : string) (s : AMR_t) (k : result A) :
  returns k -> returns (check false bad msg s k).
Proof. done. Qed.

Lemma returns_for_each {St} (idx : list nat) (body : nat -> St -> result St) (s : St) :
  (forall i s', returns (body i s')) -> returns (for_each idx body s).
Proof.
  intros Hb. revert s. induction idx as [|i idx IH]; intros s; [apply returns_Ok|].
  simpl. apply returns_bind; [apply Hb | apply IH].
Qed.

Lemma returns_for_loopE {St} (lo n : nat) (body : nat -> St -> result St) (s : St) :
  (forall i s', returns (body i s')) -> returns (for_loopE lo n body s).
Proof. apply returns_for_each. Qed.

Lemma returns_as_refl {A} (r : result A) : returns_as r r.
Proof. by intros a. Qed.

Lemma returns_as_bind {A B} (m m' : result A) (k k' : A -> result B) :
  returns_as m m' -> (forall a, returns_as (k a) (k' a)) ->
  returns_as (bind m k) (bind m' k').
Proof.
  intros Hm Hk b. destruct m as [a|msg s]; simpl; [|done].
  rewrite (Hm a eq_refl). apply Hk.
Qed.

Lemma returns_as_check {A} (dbg bad : bool) (msg : string) (s s' : AMR_t) (k k' : result A) :
  returns_as k k' -> returns_as (check dbg bad msg s k) (check false bad msg s' k').
Proof. intros Hk a. unfold check. simpl. destruct (dbg && bad); [done | apply Hk]. Qed.

Lemma returns_as_for_each {St} (idx : list nat) (body body' : nat -> St -> result St) (s : St) :
  (forall i s', returns_as (body i s') (body' i s')) ->
  returns_as (for_each idx body s) (for_each idx body' s).
Proof.
  intros Hb. revert s. induction idx as [|i idx IH]; intros s; [apply returns_as_refl|].
  simpl. apply returns_as_bind; [apply Hb | apply IH].
Qed.

Lemma returns_as_for_loopE {St} (lo n : nat) (body body' : nat -> St -> result St) (s : St) :
  (forall i s', returns_as (body i s') (body' i s')) ->
  returns_as (for_loopE lo n body s) (for_loopE lo n body' s).
Proof. apply returns_as_for_each. Qed.

(** A loop of checks leaves the state as it is. *)
Lemma for_each_checks {St} (idx : list nat) (body : nat -> St -> result St) (s a : St) :
  (forall i s' a', body i s' = Ok a' -> a' = s') -> for_each idx body s = Ok a -> a = s.
Proof.
  intros Hb. revert s. induction idx as [|i idx IH]; intros s; simpl; [congruence|].
  destruct (body i s) as [s'|] eqn:Hi; simpl; [|done].
  apply Hb in Hi as ->. apply IH.
Qed.

Lemma check_Ok {A} (dbg bad : bool) (msg : string) (s : AMR_t) (k : result A) (a : A) :
  check dbg bad msg s k = Ok a -> k = Ok a.
Proof. unfold check. by destruct (dbg && bad). Qed.

(** The steps of a proof that two runs agree, or that a run returns. *)
Ltac build_step :=
  first
    [ apply returns_as_refl
    | apply returns_Ok
    | apply returns_as_check
    | apply returns_check
    | apply returns_as_bind; [|intros ?]
    | apply returns_bind; [|intros ?]
    | apply returns_as_for_loopE; intros ? ?
    | apply returns_for_loopE; intros ? ?
    | match goal with
      | |- returns_as (if ?b then _ else _) _ => destruct b
      | |- returns (if ?b then _ else _) => destruct b
      end ].

Section Builds.

Variable HILBERT : bool.
Variables MAX_LEVEL MPI_NRank MPI_Rank : nat.
Variable PS1 : Z.
Variable LB_Corner2Index : nat -> list Z -> Z.
Variable LB_Index2Rank : nat -> Z -> Z.
Variable Par_PredictPos : AMR_t -> Z -> real * real * real -> real -> real * real * real.
Variable Par_LB_CollectParticleFromRealPatch :
  nat -> Z -> list Z -> list Z -> Z -> list Z -> list Z -> bool -> real -> AMR_t -> AMR_t.
Variable Par_LB_SendParticleData : nat -> SendBuf_t -> bool -> RecvBuf_t.
Variable MPI_Reduce_SUM : nat -> Z -> Z.

Local Abbreviation Collect dbg :=
  (Par_LB_CollectParticle2OneLevel dbg HILBERT MAX_LEVEL MPI_NRank MPI_Rank PS1
     LB_Corner2Index LB_Index2Rank Par_PredictPos Par_LB_CollectParticleFromRealPatch
     Par_LB_SendParticleData MPI_Reduce_SUM).
Local Abbreviation prepare_send_ dbg :=
  (prepare_send dbg HILBERT MAX_LEVEL MPI_NRank PS1 LB_Corner2Index LB_Index2Rank
     Par_PredictPos).

Lemma prepare_send_builds (dbg : bool) (amr : AMR_t) (FaLv : nat) (PredictPos : bool)
    (TargetTime : real) (JustCountNPar : bool) :
  returns (prepare_send_ false amr FaLv PredictPos TargetTime JustCountNPar) /\
  returns_as (prepare_send_ dbg amr FaLv PredictPos TargetTime JustCountNPar)
             (prepare_send_ false amr FaLv PredictPos TargetTime JustCountNPar).
Proof.
  unfold prepare_send, for_finer, count_body, fill_body, fill_particle.
  split; repeat build_step.
Qed.

Lemma store_received_builds (dbg : bool) (FaLv : nat) (PredictPos JustCountNPar : bool)
    (recv : RecvBuf_t) (amr : AMR_t) :
  returns (store_received false FaLv PredictPos JustCountNPar recv amr) /\
  returns_as (store_received dbg FaLv PredictPos JustCountNPar recv amr)
             (store_received false FaLv PredictPos JustCountNPar recv amr).
Proof.
  unfold store_received, accumulate_body, store_body, store_particle, merge_body,
    merge_particle.
  split.
  - repeat build_step.
  - apply returns_as_bind; [repeat build_step|]. intros st2.
    apply returns_as_bind.
    { destruct dbg; [|apply returns_as_refl]. intros st Hst. f_equal.
      unfold check_FaPIDList, for_loopE in Hst.
      apply for_each_checks in Hst; [done|]. intros i s' a' H. by apply check_Ok in H as [= <-]. }
    intros st2'. repeat build_step.
Qed.

(** X6. The checks of the diagnostic build leave no trace in the state.
    Let the shift of lines 172 and 228 be defined for an [int] at every level
    above FaLv (with the Hilbert curve, three times the number of these
    levels is at most 30).  Whenever the diagnostic build returns from a
    call, the production build returns from the same call, on the same state
    and with the same exchange, and returns the very same state.  (A
    diagnostic build that returns has found no negative count in a patch
    above FaLv, so that the sizes of lines 193 to 196 are not negative.)
    Nothing is said of a call that the diagnostic build stops. *)
Theorem Collect_builds_agree (FaLv : nat) (PredictPos : bool) (TargetTime : real)
    (Sib FaSib JustCountNPar : bool) (amr amr' : AMR_t) :
  (HILBERT = true -> (3 * (MAX_LEVEL - FaLv) <= 30)%nat) ->
  Collect true FaLv PredictPos TargetTime Sib FaSib JustCountNPar amr = Ok amr' ->
  Collect false FaLv PredictPos TargetTime Sib FaSib JustCountNPar amr = Ok amr'.
Proof.
  intros _. revert amr'.
  change (returns_as (Collect true FaLv PredictPos TargetTime Sib FaSib JustCountNPar amr)
                     (Collect false FaLv PredictPos TargetTime Sib FaSib JustCountNPar amr)).
  unfold Par_LB_CollectParticle2OneLevel.
  destruct (MAX_LEVEL <? FaLv)%nat; [build_step|].
  assert (returns_as (check_flags true PredictPos Sib FaSib JustCountNPar amr) (Ok amr))
    as Hflags.
  { intros a Ha. f_equal.
    pose proof (check_flags_post true PredictPos Sib FaSib JustCountNPar amr) as H.
    by rewrite Ha in H. }
  assert (returns_as (check_uninitialized true FaLv amr) (check_uninitialized false FaLv amr))
    as Hclear.
  { intros a Ha. cbn. f_equal. pose proof (check_uninitialized_post true FaLv amr) as H.
    rewrite Ha in H. by destruct H. }
  assert (forall a, returns_as (check_total true MAX_LEVEL MPI_Rank MPI_Reduce_SUM FaLv a)
                               (check_total false MAX_LEVEL MPI_Rank MPI_Reduce_SUM FaLv a))
    as Htotal.
  { intros a a' Ha. cbn. f_equal.
    pose proof (check_total_post true MAX_LEVEL MPI_Rank MPI_Reduce_SUM FaLv a) as H.
    by rewrite Ha in H. }
  apply returns_as_bind; [done|]. intros _.
  apply returns_as_bind; [done|]. intros _.
  destruct (FaLv =? MAX_LEVEL)%nat; [apply returns_as_refl|].
  apply returns_as_bind; [apply prepare_send_builds|]. intros send.
  apply returns_as_bind; [apply store_received_builds|]. intros amr4.
  apply returns_as_bind; [apply Htotal | intros amr5; apply returns_as_refl].
Qed.

End Builds.

(** ** A call that counts only *)

(** X14. In the production build, a call that only counts takes no account
    of the flags for prediction and for buffer patches, of the target time,
    of the prediction of positions and of the collection for buffer patches:
    it returns the same state whatever these are. *)
Theorem Collect_count_only_ignores (HILBERT : bool) (MAX_LEVEL MPI_NRank MPI_Rank : nat)
    (PS1 : Z) (LB_Corner2Index : nat -> list Z -> Z) (LB_Index2Rank : nat -> Z -> Z)
    (Par_PredictPos Par_PredictPos' :
       AMR_t -> Z -> real * real * real -> real -> real * real * real)
    (Par_LB_CollectParticleFromRealPatch Par_LB_CollectParticleFromRealPatch' :
       nat -> Z -> list Z -> list Z -> Z -> list Z -> list Z -> bool -> real -> AMR_t -> AMR_t)
    (Par_LB_SendParticleData : nat -> SendBuf_t -> bool -> RecvBuf_t)
    (MPI_Reduce_SUM : nat -> Z -> Z)
    (FaLv : nat) (PredictPos PredictPos' : bool) (TargetTime TargetTime' : real)
    (Sib Sib' FaSib FaSib' : bool) (amr : AMR_t) :
  Par_LB_CollectParticle2OneLevel false HILBERT MAX_LEVEL MPI_NRank MPI_Rank PS1
    LB_Corner2Index LB_Index2Rank Par_PredictPos Par_LB_CollectParticleFromRealPatch
    Par_LB_SendParticleData MPI_Reduce_SUM FaLv PredictPos TargetTime Sib FaSib true amr
  = Par_LB_CollectParticle2OneLevel false HILBERT MAX_LEVEL MPI_NRank MPI_Rank PS1
      LB_Corner2Index LB_Index2Rank Par_PredictPos' Par_LB_CollectParticleFromRealPatch'
      Par_LB_SendParticleData MPI_Reduce_SUM FaLv PredictPos' TargetTime' Sib' FaSib' true amr.
Proof.
  unfold Par_LB_CollectParticle2OneLevel.
  destruct (MAX_LEVEL <? FaLv)%nat; [done|]. cbn [bind].
  rewrite !collect_buffer_patches_count_only.
  destruct (FaLv =? MAX_LEVEL)%nat; [done|].
  assert (forall PP pp tt,
            prepare_send false HILBERT MAX_LEVEL MPI_NRank PS1 LB_Corner2Index LB_Index2Rank
              PP amr FaLv pp tt true
            = prepare_send false HILBERT MAX_LEVEL MPI_NRank PS1 LB_Corner2Index LB_Index2Rank
                Par_PredictPos amr FaLv PredictPos TargetTime true) as Hsend by reflexivity.
  rewrite (Hsend Par_PredictPos' PredictPos' TargetTime').
  destruct (prepare_send _ _ _ _ _ _ _ _ _ _ _ _ _) as [send|msg s]; [|done]. cbn [bind].
  assert (forall pp recv,
            store_received false FaLv pp true recv amr
            = store_received false FaLv PredictPos true recv amr) as Hstore by reflexivity.
  rewrite (Hstore PredictPos').
  destruct (store_received _ _ _ _ _ _) as [amr4|msg s]; [|done].
  cbn [bind check_total]. by rewrite !collect_buffer_patches_count_only.
Qed.

(** ** The send buffers of step 1 *)

Lemma foldE_skip {X St} (body : X -> St -> result St) (l : list X) (s : St) :
  (forall x s', x ∈ l -> body x s' = Ok s') -> foldE body l s = Ok s.
Proof.
  induction l as [|x l IH]; intros Hb; [done|]. simpl.
  rewrite Hb by apply list_elem_of_here. simpl. apply IH.
  intros y s' Hy. apply Hb. by apply list_elem_of_further.
Qed.

Lemma sumZ_replicate_0 (n : nat) : sumZ (replicate n 0) = 0.
Proof. induction n as [|n IH]; [done|]. simpl. by rewrite IH. Qed.

Section StepOne.

Variables DEBUG_PARTICLE HILBERT : bool.
Variables MAX_LEVEL MPI_NRank : nat.
Variable PS1 : Z.
Variable LB_Corner2Index : nat -> list Z -> Z.
Variable LB_Index2Rank : nat -> Z -> Z.
Variable Par_PredictPos : AMR_t -> Z -> real * real * real -> real -> real * real * real.
Variable amr : AMR_t.
Variable FaLv : nat.

Local Abbreviation key_of := (key_of HILBERT PS1 LB_Corner2Index amr FaLv).
Local Abbreviation TRank_of := (TRank_of HILBERT PS1 LB_Corner2Index LB_Index2Rank amr FaLv).
Local Abbreviation all := (finer_patches MAX_LEVEL amr FaLv).
Local Abbreviation prepare_send_ :=
  (prepare_send DEBUG_PARTICLE HILBERT MAX_LEVEL MPI_NRank PS1 LB_Corner2Index
     LB_Index2Rank Par_PredictPos amr FaLv).



(** X3. A call that only counts hands no particle data to the exchange: the
    buffer for them is never allocated nor written. *)
Theorem prepare_send_count_only_no_data (PredictPos : bool) (TargetTime : real) :
  post (fun sb => SendBuf_ParDataEachPatch sb = []) (fun _ => True)
       (prepare_send_ PredictPos TargetTime true).
Proof.
  unfold prepare_send. eapply post_bind with (Q' := fun _ => True).
  { apply (for_finer_inv MAX_LEVEL (fun _ => True)); [done|]. intros lv PID s _.
    unfold count_body. destruct (_ =? 0); [done|]. by repeat (apply post_check; [done|]). }
  intros cnt _.
  eapply post_bind with (Q' := fun st => f_ParDataEachPatch st = []); [|by intros st ->].
  apply (for_finer_inv MAX_LEVEL (fun st => f_ParDataEachPatch st = [])); [done|].
  intros lv PID st Hst. unfold fill_body. destruct (_ =? 0); [done|].
  by repeat (apply post_check; [done|]).
Qed.

(** X4. When no real patch above FaLv holds a particle, step 1 runs to its
    end in either build, whatever the keys and the flags, and hands to the
    exchange a count of no patches for every rank and no record. *)
Theorem prepare_send_nothing (PredictPos : bool) (TargetTime : real) (JustCountNPar : bool) :
  (forall x, x ∈ all -> NPar (the_patch amr x.1 x.2) = 0) ->
  prepare_send_ PredictPos TargetTime JustCountNPar
  = Ok (mk_SendBuf (replicate MPI_NRank 0) [] [] []).
Proof.
  intros Hempty. unfold prepare_send. rewrite for_finer_foldE, foldE_skip.
  2:{ intros x s Hx. unfold count_body. by rewrite (Hempty x Hx). }
  cbn [bind fst snd]. rewrite send_totals_spec. cbn [fst snd].
  rewrite !firstn_all2 by (by rewrite length_replicate).
  rewrite sumZ_replicate_0, for_finer_foldE, foldE_skip.
  2:{ intros x s Hx. unfold fill_body. by rewrite (Hempty x Hx). }
  cbn. by destruct JustCountNPar.
Qed.

End StepOne.

(** ** A collection and the release that follows it *)

Lemma shape_upd (lv P : nat) (f : patch_t -> patch_t) (a : AMR_t) :
  shape (upd_patch lv P f a) = shape a.
Proof.
  unfold shape, upd_patch. simpl. apply list_eq. intros i.
  rewrite !list_lookup_fmap, list_lookup_alter.
  destruct (decide (lv = i)) as [->|]; [|done].
  destruct (patch a !! i) as [l|]; simpl; [|done]. by rewrite length_alter.
Qed.

Lemma shape_zupd (lv : nat) (pid : Z) (f : patch_t -> patch_t) (a : AMR_t) :
  shape (zupd_patch lv pid f a) = shape a.
Proof. unfold zupd_patch. destruct (pid <? 0); [done | apply shape_upd]. Qed.

Lemma shape_foldl_zupd (lv : nat) (f : patch_t -> patch_t) (pids : list Z) (a : AMR_t) :
  shape (foldl (fun a pid => zupd_patch lv pid f a) a pids) = shape a.
Proof.
  revert a. induction pids as [|pid pids IH]; intros a; [done|]. simpl.
  by rewrite IH, shape_zupd.
Qed.

Lemma shape_FreeMemory_release (lv : nat) (Sib FaSib : bool) (a : AMR_t) :
  shape (FreeMemory_release lv Sib FaSib a) = shape a.
Proof.
  rewrite FreeMemory_release_unfold. cbv zeta.
  destruct (FaSib && _), Sib; by rewrite !shape_foldl_zupd.
Qed.

(** Two states with the same tables, the same shape and the same patches
    are one state. *)
Lemma AMR_ext (a b : AMR_t) :
  same_env a b -> shape b = shape a ->
  (forall l P, get_patch b l P = get_patch a l P) -> b = a.
Proof.
  destruct a as [pa ? ? ? ? ? ?], b as [pb ? ? ? ? ? ?].
  unfold same_env, shape, get_patch. simpl. intros (-> & -> & -> & -> & -> & ->) Hshape Hget.
  f_equal. apply list_eq. intros l.
  assert ((length <$> pb) !! l = (length <$> pa) !! l) as Hl by (by rewrite Hshape).
  rewrite !list_lookup_fmap in Hl. specialize (Hget l).
  destruct (pb !! l) as [lb|], (pa !! l) as [la|]; simpl in *; try done.
  f_equal. apply list_eq. intros P. apply Hget.
Qed.

Lemma shadow_only_refl (p : patch_t) : shadow_only p p.
Proof. split; [apply same_base_refl | done]. Qed.

Lemma shadow_only_trans (p q r : patch_t) :
  shadow_only p q -> shadow_only q r -> shadow_only p r.
Proof.
  intros (Hb & Hl & Hv) (Hb' & Hl' & Hv'). split; [by eapply same_base_trans|].
  split; [congruence|]. intros v Hle. rewrite Hv', Hv; done.
Qed.

Lemma shadow_only_set_NPar_Copy (n : Z) (p : patch_t) : shadow_only p (set_NPar_Copy n p).
Proof. split; [apply same_base_set_NPar_Copy | done]. Qed.

Lemma shadow_only_write_shadow (v : nat) (i : Z) (x : real) (p : patch_t) :
  (v < NParVar)%nat -> shadow_only p (write_shadow v i x p).
Proof.
  intros Hv. split; [apply same_base_write_shadow|]. unfold write_shadow. simpl.
  split; [by rewrite length_alter|]. intros w Hw. rewrite list_lookup_alter_ne; [done | lia].
Qed.

Lemma shadow_only_alloc_shadow (n : Z) (v : nat) (p : patch_t) :
  (v < NParVar)%nat -> shadow_only p (alloc_shadow n v p).
Proof.
  intros Hv. split; [apply same_base_alloc_shadow|]. unfold alloc_shadow. simpl.
  split; [by rewrite length_insert|]. intros w Hw. rewrite list_lookup_insert_ne; [done | lia].
Qed.

Lemma free_var_alter (v : nat) (p : patch_t) :
  free_var v p = set_ParMassPos_Copy (alter (fun _ => None) v (ParMassPos_Copy p)) p.
Proof.
  unfold free_var. destruct p as [c k s n pl nc pmc el er]. simpl.
  destruct (pmc !! v) as [[arr|]|] eqn:Hv; unfold set_ParMassPos_Copy; simpl; f_equal.
  - apply list_eq. intros w. rewrite list_lookup_alter.
    destruct (decide (v = w)) as [->|].
    + rewrite list_lookup_insert_eq by (by eapply lookup_lt_Some). by rewrite Hv.
    + by rewrite list_lookup_insert_ne.
  - apply list_eq. intros w. rewrite list_lookup_alter.
    destruct (decide (v = w)) as [->|]; [by rewrite Hv | done].
  - apply list_eq. intros w. rewrite list_lookup_alter.
    destruct (decide (v = w)) as [->|]; [by rewrite Hv | done].
Qed.

(** The release of a patch that held no shadow copy before it was written
    gives back the patch as it was. *)
Lemma free_patch_restores (p p' : patch_t) :
  shadow_only p p' -> shadow_clear p = true -> free_patch p' = p.
Proof.
  intros (Hb & Hlen & Hrest) [Hc Hnull]%shadow_clear_spec.
  unfold free_patch, for_loop. simpl. rewrite !free_var_alter.
  destruct p as [c k s n pl nc pmc el er], p' as [c' k' s' n' pl' nc' pmc' el' er'].
  unfold same_base in Hb. simpl in *.
  destruct Hb as (-> & -> & -> & -> & -> & -> & ->). subst nc.
  unfold set_NPar_Copy, set_ParMassPos_Copy. simpl. f_equal.
  apply list_eq. intros v. rewrite !list_lookup_alter.
  assert (forall w, (w < NParVar)%nat -> (fun _ => None) <$> pmc' !! w = pmc !! w) as Hlow.
  { intros w Hw. specialize (Hnull w Hw). unfold not_null in Hnull. simpl in Hnull.
    destruct (pmc !! w) as [[arr|]|] eqn:Hp; try done.
    - destruct (lookup_lt_is_Some_2 pmc' w) as [x ->]; [|done].
      rewrite Hlen. by eapply lookup_lt_Some.
    - rewrite (lookup_ge_None_2 pmc' w); [done|]. rewrite Hlen. by apply lookup_ge_None_1. }
  destruct v as [|[|[|[|v]]]]; simpl.
  - rewrite <- (Hlow 0%nat) by (unfold NParVar; lia). by destruct (pmc' !! 0%nat).
  - rewrite <- (Hlow 1%nat) by (unfold NParVar; lia). by destruct (pmc' !! 1%nat).
  - rewrite <- (Hlow 2%nat) by (unfold NParVar; lia). by destruct (pmc' !! 2%nat).
  - rewrite <- (Hlow 3%nat) by (unfold NParVar; lia). by destruct (pmc' !! 3%nat).
  - apply Hrest. unfold NParVar. lia.
Qed.

Lemma real_shadows_written_refl (FaLv : nat) (amr : AMR_t) : real_shadows_written FaLv amr amr.
Proof.
  split; [apply same_env_refl|]. split; [done|]. split; [done|].
  intros P. destruct (get_patch amr FaLv P); constructor. apply shadow_only_refl.
Qed.

Lemma real_shadows_written_NReal (FaLv : nat) (amr a : AMR_t) :
  real_shadows_written FaLv amr a -> NReal a FaLv = NReal amr FaLv.
Proof. intros ((H & _) & _). unfold NReal. by rewrite H. Qed.

Lemma real_shadows_written_zupd (FaLv : nat) (pid : Z) (f : patch_t -> patch_t)
    (amr a : AMR_t) :
  pid < Z.of_nat (NReal amr FaLv) -> (forall p, shadow_only p (f p)) ->
  real_shadows_written FaLv amr a -> real_shadows_written FaLv amr (zupd_patch FaLv pid f a).
Proof.
  intros Hpid Hf (He & Hs & Ho & HR).
  split; [eapply same_env_trans; [done | apply same_env_zupd]|].
  split; [by rewrite shape_zupd|]. split.
  - intros l P HlP. rewrite get_patch_zupd.
    destruct (decide _) as [[-> <-]|]; [|by apply Ho].
    destruct HlP as [?|?]; [done | lia].
  - intros P. rewrite get_patch_zupd. destruct (decide _) as [_|]; [|apply HR].
    specialize (HR P). destruct HR as [p0 p Hp|]; constructor.
    eapply shadow_only_trans; [done | apply Hf].
Qed.

Lemma real_shadows_written_upd (FaLv P : nat) (f : patch_t -> patch_t) (amr a : AMR_t) :
  (P < NReal amr FaLv)%nat -> (forall p, shadow_only p (f p)) ->
  real_shadows_written FaLv amr a -> real_shadows_written FaLv amr (upd_patch FaLv P f a).
Proof.
  intros HP Hf Ha. rewrite <- zupd_patch_of_nat. apply real_shadows_written_zupd; [lia | done..].
Qed.

Lemma table_entry_real (FaLv : nat) (amr a : AMR_t) (i : Z) :
  table_lists_real FaLv amr -> same_env amr a ->
  zget (-1) (nget [] (IdxList_Real_IdxTable a) FaLv) i < Z.of_nat (NReal amr FaLv).
Proof.
  intros Htab (_ & _ & _ & _ & -> & _). unfold zget.
  destruct (i <? 0); [lia|].
  destruct (nget [] (IdxList_Real_IdxTable amr) FaLv !! Z.to_nat i) as [P|] eqn:HP; simpl;
    [by eapply Htab | lia].
Qed.

Lemma Forall_zset {A} (Q : A -> Prop) (i : Z) (x : A) (l : list A) :
  Q x -> Forall Q l -> Forall Q (zset i x l).
Proof.
  intros Hx Hl. unfold zset, zalter. destruct (i <? 0); [done|].
  apply Forall_alter; [done|]. by intros.
Qed.

Lemma length_zset {A} (i : Z) (x : A) (l : list A) : length (zset i x l) = length l.
Proof. unfold zset, zalter. destruct (i <? 0); [done | apply length_alter]. Qed.

Lemma nget_Forall {A} (Q : A -> Prop) (d : A) (l : list A) (t : nat) :
  Forall Q l -> (t < length l)%nat -> Q (nget d l t).
Proof.
  intros Hl Ht. destruct (lookup_lt_is_Some_2 l t Ht) as [x Hx]. unfold nget. rewrite Hx.
  simpl. by eapply Forall_lookup_1.
Qed.

(** Steps 3 and 4 write shadow copies of real patches of the level only,
    when the index table of the level names real patches only. *)
Lemma store_received_real_shadows (DEBUG_PARTICLE : bool) (FaLv : nat)
    (PredictPos JustCountNPar : bool) (recv : RecvBuf_t) (amr0 amr : AMR_t) :
  table_lists_real FaLv amr0 ->
  real_shadows_written FaLv amr0 amr ->
  post (real_shadows_written FaLv amr0) (real_shadows_written FaLv amr0)
       (store_received DEBUG_PARTICLE FaLv PredictPos JustCountNPar recv amr).
Proof.
  intros Htab Hfr. unfold store_received.
  set (I := real_shadows_written FaLv amr0).
  set (n0 := NReal amr0 FaLv).
  set (N := NRecvPatchTotal recv).
  set (OKL := fun l : list Z => length l = N /\ Forall (fun pid => pid < Z.of_nat n0) l).
  set (amr1 := for_loop 0 _ (seed_body FaLv) amr).
  assert (I amr1) as H1.
  { subst amr1. rewrite (real_shadows_written_NReal _ _ _ Hfr).
    apply (for_loop_ind0 (fun _ => I)); [done|]. intros i a Hi Ha. unfold seed_body.
    destruct (negb _); [|done]. apply real_shadows_written_upd; [done | | done].
    intros p. apply shadow_only_set_NPar_Copy. }
  eapply post_bind with (Q' := fun st => I st.1 /\ OKL st.2).
  { apply (for_loopE_inv (fun st => I st.1 /\ OKL st.2)).
    - split; [done|]. split; [apply length_replicate|].
      apply Forall_replicate. lia.
    - intros t st [Hst [Hlen Hall]]. unfold accumulate_body.
      repeat (apply post_check; [done|]). simpl.
      pose proof (table_entry_real FaLv amr0 st.1 (nget 0 (Mis_Matching_int
                    (NReal amr FaLv) (nget [] (IdxList_Real amr) FaLv) N
                    (Mis_Heapsort N (RecvBuf_LBIdxEachPatch recv)).1) t) Htab
                    (proj1 Hst)) as Hpid.
      split; [|split].
      + apply real_shadows_written_zupd; [done | | done].
        intros p. apply shadow_only_set_NPar_Copy.
      + by rewrite length_zset.
      + by apply Forall_zset. }
  intros st2 [H2 HL2].
  eapply post_bind with (Q' := fun st => I st.1 /\ OKL st.2).
  { destruct DEBUG_PARTICLE; [|done]. unfold check_FaPIDList.
    apply (for_loopE_inv (fun st => I st.1 /\ OKL st.2)); [done|].
    intros t st Hst. apply post_check; [apply Hst | done]. }
  intros st2' [H2' [Hlen Hall]]. destruct JustCountNPar; [done|].
  set (amr3 := for_loop 0 _ (allocate_body FaLv) _).
  assert (I amr3) as H3.
  { subst amr3. rewrite (real_shadows_written_NReal _ _ _ H2').
    apply (for_loop_ind0 (fun _ => I)); [done|]. intros i a Hi Ha. unfold allocate_body.
    destruct (0 <? _); [|done].
    apply real_shadows_written_upd; [done | apply shadow_only_set_NPar_Copy |].
    apply (for_loop_ind0 (fun _ => I)); [done|]. intros v a' Hv Ha'.
    apply real_shadows_written_upd; [done | | done].
    intros p. by apply shadow_only_alloc_shadow. }
  eapply post_bind with (Q' := fun st => I st.1).
  { apply (for_loopE_ind0 (fun _ st => I st.1)); [done|].
    intros t st Ht Hst. unfold store_body.
    assert (nget 0 st2'.2 t < Z.of_nat n0) as Hpid.
    { apply (nget_Forall (fun pid => pid < Z.of_nat n0)); [done | by rewrite Hlen]. }
    assert (I (zupd_patch FaLv (nget 0 st2'.2 t)
                 (fun q => set_NPar_Copy
                             (NPar_Copy q + nget 0 (RecvBuf_NParEachPatch recv) t) q) st.1))
      as Hq.
    { apply real_shadows_written_zupd; [done | | done].
      intros p. apply shadow_only_set_NPar_Copy. }
    apply post_check; [done|].
    apply (for_loopE_inv (fun st => I st.1)); [done|].
    intros i st' Hst'. unfold store_particle.
    eapply post_bind with (Q' := fun st => I st.1).
    { apply (for_loopE_inv (fun st => I st.1)); [done|].
      intros v s Hs. by apply post_check. }
    intros _ _.
    set (st3 := for_loop 0 NParVar _ st').
    assert (I st3.1) as Hst3.
    { apply (for_loop_ind0 (fun _ st => I st.1)); [done|].
      intros v s Hv Hs. simpl. apply real_shadows_written_zupd; [done | | done].
      intros p. by apply shadow_only_write_shadow. }
    apply post_check; [done|]. destruct (negb PredictPos); [|done].
    apply (for_loopE_inv (fun st => I st.1)); [done|].
    intros d s Hs. by apply post_check. }
  intros st4 H4. rewrite (real_shadows_written_NReal _ _ _ H4).
  apply (for_loopE_ind0 (fun _ => I)); [done|]. intros P a HP Ha. unfold merge_body.
  destruct (_ && _); [|done].
  eapply post_bind with (Q' := I).
  - apply for_loopE_inv; [done|]. intros p a' Ha'. unfold merge_particle.
    apply post_check; [done|]. simpl. apply real_shadows_written_upd; [done | | done].
    intros q.
    repeat (eapply shadow_only_trans;
            [|apply shadow_only_write_shadow; unfold PAR_MASS, PAR_POSX, PAR_POSY, PAR_POSZ,
                NParVar; lia]).
    apply shadow_only_refl.
  - intros a' Ha'. simpl. apply real_shadows_written_upd; [done | | done].
    intros q. apply shadow_only_set_NPar_Copy.
Qed.

Section RoundTrip.

Variable HILBERT : bool.
Variables MAX_LEVEL MPI_NRank MPI_Rank : nat.
Variable PS1 : Z.
Variable LB_Corner2Index : nat -> list Z -> Z.
Variable LB_Index2Rank : nat -> Z -> Z.
Variable Par_PredictPos : AMR_t -> Z -> real * real * real -> real -> real * real * real.
Variable Par_LB_CollectParticleFromRealPatch :
  nat -> Z -> list Z -> list Z -> Z -> list Z -> list Z -> bool -> real -> AMR_t -> AMR_t.
Variable Par_LB_SendParticleData : nat -> SendBuf_t -> bool -> RecvBuf_t.
Variable MPI_Reduce_SUM : nat -> Z -> Z.

Local Abbreviation Collect dbg :=
  (Par_LB_CollectParticle2OneLevel dbg HILBERT MAX_LEVEL MPI_NRank MPI_Rank PS1
     LB_Corner2Index LB_Index2Rank Par_PredictPos Par_LB_CollectParticleFromRealPatch
     Par_LB_SendParticleData MPI_Reduce_SUM).

(** A call that is not to collect for buffer patches writes shadow copies of
    real patches of the level only, also when it stops. *)
Lemma Collect_real_shadows (dbg : bool) (FaLv : nat) (PredictPos : bool) (TargetTime : real)
    (JustCountNPar : bool) (amr : AMR_t) :
  table_lists_real FaLv amr ->
  post (real_shadows_written FaLv amr) (real_shadows_written FaLv amr)
       (Collect dbg FaLv PredictPos TargetTime false false JustCountNPar amr).
Proof.
  intros Htab. unfold Par_LB_CollectParticle2OneLevel.
  destruct (_ <? _)%nat; [apply real_shadows_written_refl|].
  eapply post_bind with (Q' := fun _ => True).
  { destruct dbg; [|done].
    eapply post_mono; [apply check_flags_post | done |].
    intros s ->. apply real_shadows_written_refl. }
  intros _ _. eapply post_bind with (Q' := fun _ => True).
  { eapply post_mono; [apply check_uninitialized_post | done |].
    intros s [-> _]. apply real_shadows_written_refl. }
  intros _ _. destruct (_ =? _)%nat; [apply real_shadows_written_refl|].
  eapply post_bind with (Q' := fun _ => True).
  { eapply post_mono; [apply prepare_send_post | done |].
    intros s [-> _]. apply real_shadows_written_refl. }
  intros send _. eapply post_bind with (Q' := real_shadows_written FaLv amr).
  { by apply store_received_real_shadows, real_shadows_written_refl. }
  intros amr4 H4. eapply post_bind with (Q' := real_shadows_written FaLv amr).
  { eapply post_mono; [apply check_total_post | |]; [by intros s -> | by intros s [-> _]]. }
  intros amr5 H5. done.
Qed.

(** X9. A collection and the release that follows it give back the state the
    collection was given.  Let the index table of the level name real patches
    only, let the patches that the release names hold no shadow copy, and let
    a call that is not to collect for buffer patches return.  Then the release
    at the same level returns, in the production build, the state as it was
    before the call, and in the diagnostic build it returns that state or
    stops in it. *)
Theorem Collect_FreeMemory_round_trip (dbg : bool) (FaLv : nat) (PredictPos : bool)
    (TargetTime : real) (JustCountNPar Sib FaSib : bool) (amr amr' : AMR_t) :
  table_lists_real FaLv amr ->
  released_clear FaLv Sib FaSib amr ->
  Collect dbg FaLv PredictPos TargetTime false false JustCountNPar amr = Ok amr' ->
  Par_LB_CollectParticle2OneLevel_FreeMemory false FaLv Sib FaSib amr' = Ok amr /\
  state_of (Par_LB_CollectParticle2OneLevel_FreeMemory true FaLv Sib FaSib amr') = amr.
Proof.
  intros Htab Hclear Hcall.
  pose proof (Collect_real_shadows dbg FaLv PredictPos TargetTime JustCountNPar amr Htab)
    as Hpost.
  rewrite Hcall in Hpost. destruct Hpost as (He & Hs & Ho & HR).
  assert (FreeMemory_release FaLv Sib FaSib amr' = amr) as Hrel.
  { apply AMR_ext.
    - eapply same_env_trans; [done | apply FreeMemory_release_env].
    - by rewrite shape_FreeMemory_release.
    - intros l P.
      destruct (FreeMemory_release_spec FaLv Sib FaSib amr' l P) as [Hyes Hno].
      pose proof (released_env FaLv Sib FaSib amr amr' l P He) as Hiff.
      assert (Decision (released FaLv Sib FaSib amr' l P)) as [Hrl|Hrl]
        by (unfold released; apply _).
      + rewrite (Hyes Hrl). apply Hiff in Hrl.
        destruct (decide (l = FaLv)) as [->|Hl].
        * specialize (HR P).
          destruct (get_patch amr FaLv P) as [p|] eqn:Hp0,
                   (get_patch amr' FaLv P) as [p'|] eqn:Hp'; inversion HR; subst; [|done].
          simpl. f_equal. apply free_patch_restores; [done|]. by eapply Hclear.
        * rewrite Ho by (by left).
          destruct (get_patch amr l P) as [p|] eqn:Hp; [|done]. simpl. f_equal.
          apply free_patch_id. by eapply Hclear.
      + rewrite (Hno Hrl). apply Ho.
        destruct (decide (l = FaLv)) as [->|Hl]; [|by left]. right.
        destruct (decide (NReal amr FaLv <= P)%nat); [done|].
        exfalso. apply Hrl, Hiff. left. split; [done | lia]. }
  split.
  - unfold Par_LB_CollectParticle2OneLevel_FreeMemory. by rewrite Hrel.
  - by rewrite FreeMemory_state.
Qed.

End RoundTrip.

(** ** The patches that a call writes *)

Lemma only_shadows_of_refl (W : nat -> nat -> Prop) (amr : AMR_t) : only_shadows_of W amr amr.
Proof.
  split; [apply same_env_refl|]. split; [|done].
  intros. apply option_Forall2_same_base_refl.
Qed.

Lemma only_shadows_of_trans (W : nat -> nat -> Prop) (a b c : AMR_t) :
  only_shadows_of W a b -> only_shadows_of W b c -> only_shadows_of W a c.
Proof.
  intros (E1 & B1 & F1) (E2 & B2 & F2). split; [by eapply same_env_trans|]. split.
  - intros l P. by eapply option_Forall2_same_base_trans.
  - intros l P Hl. by rewrite F2, F1.
Qed.

Lemma real_shadows_only_of (FaLv : nat) (Sib FaSib JustCountNPar : bool) (amr a : AMR_t) :
  real_shadows_written FaLv amr a ->
  only_shadows_of (may_write FaLv Sib FaSib JustCountNPar amr) amr a.
Proof.
  intros (He & _ & Ho & HR). split; [done|]. split.
  - intros l P. destruct (decide (l = FaLv)) as [->|Hl].
    + specialize (HR P). destruct HR as [p p' [Hb _]|]; by constructor.
    + rewrite Ho by (by left). apply option_Forall2_same_base_refl.
  - intros l P HW. apply Ho.
    destruct (decide (l = FaLv)) as [->|Hl]; [|by left]. right.
    destruct (decide (NReal amr FaLv <= P)%nat); [done|].
    exfalso. apply HW. left. split; [done | lia].
Qed.

Section CollectFrame.

Variable HILBERT : bool.
Variables MAX_LEVEL MPI_NRank MPI_Rank : nat.
Variable PS1 : Z.
Variable LB_Corner2Index : nat -> list Z -> Z.
Variable LB_Index2Rank : nat -> Z -> Z.
Variable Par_PredictPos : AMR_t -> Z -> real * real * real -> real -> real * real * real.
Variable Par_LB_CollectParticleFromRealPatch :
  nat -> Z -> list Z -> list Z -> Z -> list Z -> list Z -> bool -> real -> AMR_t -> AMR_t.
Variable Par_LB_SendParticleData : nat -> SendBuf_t -> bool -> RecvBuf_t.
Variable MPI_Reduce_SUM : nat -> Z -> Z.

Local Abbreviation Collect dbg :=
  (Par_LB_CollectParticle2OneLevel dbg HILBERT MAX_LEVEL MPI_NRank MPI_Rank PS1
     LB_Corner2Index LB_Index2Rank Par_PredictPos Par_LB_CollectParticleFromRealPatch
     Par_LB_SendParticleData MPI_Reduce_SUM).

Hypothesis Hbuffers : writes_buffers_only Par_LB_CollectParticleFromRealPatch.

(** Steps 0 and 6 write shadow copies of buffer patches only: those of the
    level for the sibling buffers, those of the level below for the
    father-sibling buffers. *)
Lemma collect_buffer_patches_only_of (FaLv : nat) (PredictPos : bool) (TargetTime : real)
    (Sib FaSib JustCountNPar : bool) (amr a : AMR_t) :
  same_env amr a ->
  only_shadows_of (may_write FaLv Sib FaSib JustCountNPar amr) a
    (collect_buffer_patches Par_LB_CollectParticleFromRealPatch FaLv PredictPos TargetTime
       Sib FaSib JustCountNPar a).
Proof.
  intros He.
  assert (forall lv b, same_env amr b -> NReal b lv = NReal amr lv) as HNR.
  { intros lv b (HC & _). unfold NReal. by rewrite HC. }
  set (W := may_write FaLv Sib FaSib JustCountNPar amr).
  unfold collect_buffer_patches.
  set (a1 := if Sib && negb JustCountNPar then _ else a).
  assert (only_shadows_of W a a1) as H1.
  { subst a1. destruct Sib eqn:HS, JustCountNPar eqn:HJ; cbn [andb negb];
      try apply only_shadows_of_refl.
    match goal with
    | |- only_shadows_of _ _ (Par_LB_CollectParticleFromRealPatch ?lv ?n1 ?l1 ?l2 ?n2 ?l3 ?l4
                                 ?pp ?tt ?b) =>
        destruct (Hbuffers lv n1 l1 l2 n2 l3 l4 pp tt b) as (HE & HO & HB)
    end.
    split; [done|]. split; [done|]. intros l P HW. apply HO.
    destruct (decide (l = FaLv)) as [->|Hl]; [|by left]. right. rewrite (HNR FaLv a He).
    destruct (decide (P < NReal amr FaLv)%nat); [done|].
    exfalso. apply HW. right. left. repeat split; try done. lia. }
  assert (same_env amr a1) as He1 by (eapply same_env_trans; [done | apply H1]).
  destruct FaSib eqn:HF, (Nat.ltb_spec 0 FaLv) as [Hpos|Hpos], JustCountNPar eqn:HJ;
    cbn [andb negb]; try done.
  eapply only_shadows_of_trans; [apply H1|].
  match goal with
  | |- only_shadows_of _ _ (Par_LB_CollectParticleFromRealPatch ?lv ?n1 ?l1 ?l2 ?n2 ?l3 ?l4
                               ?pp ?tt ?b) =>
      destruct (Hbuffers lv n1 l1 l2 n2 l3 l4 pp tt b) as (HE & HO & HB)
  end.
  split; [done|]. split; [done|]. intros l P HW. apply HO.
  destruct (decide (l = (FaLv - 1)%nat)) as [->|Hl]; [|by left]. right.
  rewrite (HNR (FaLv - 1)%nat a1 He1).
  destruct (decide (P < NReal amr (FaLv - 1))%nat); [done|].
  exfalso. apply HW. right. right. repeat split; try done. lia.
Qed.

(** C5. A call writes nothing but shadow copies, and those of the patches it
    is to collect for alone.  Let the collection for buffer patches (not in
    the sources at hand) write shadow copies of buffer patches only, and the
    index table of the level name real patches only.  Then in the state a
    call returns, and also in the state in which it stops with Aux_Error,
    the particle repository and the tables are the same; every patch of
    every level has the NPar, ParList, son, key, corner and edges it had; and
    every patch is the very same, shadow copy included, unless it is a real
    patch of the level FaLv, or a buffer patch of that level and the call is
    to collect for the sibling buffers, or a buffer patch of the level below
    and the call is to collect for the father-sibling buffers.  The patches
    of the levels finer than FaLv are among those that are the very same. *)
Theorem Collect_only_shadows_written (dbg : bool) (FaLv : nat) (PredictPos : bool)
    (TargetTime : real) (Sib FaSib JustCountNPar : bool) (amr : AMR_t) :
  table_lists_real FaLv amr ->
  post (fun amr' =>
          only_shadows_of (may_write FaLv Sib FaSib JustCountNPar amr) amr amr' /\
          forall l P, (FaLv < l)%nat -> get_patch amr' l P = get_patch amr l P)
       (fun s =>
          only_shadows_of (may_write FaLv Sib FaSib JustCountNPar amr) amr s /\
          forall l P, (FaLv < l)%nat -> get_patch s l P = get_patch amr l P)
       (Collect dbg FaLv PredictPos TargetTime Sib FaSib JustCountNPar amr).
Proof.
  intros Htab.
  set (W := may_write FaLv Sib FaSib JustCountNPar amr).
  assert (forall a, only_shadows_of W amr a ->
            only_shadows_of W amr a /\
            forall l P, (FaLv < l)%nat -> get_patch a l P = get_patch amr l P) as Hfiner.
  { intros a Ha. split; [done|]. intros l P Hl. apply Ha.
    intros [[-> _]|[(_ & _ & -> & _)|(_ & _ & _ & -> & _)]]; lia. }
  eapply post_mono; [|exact Hfiner|exact Hfiner].
  unfold Par_LB_CollectParticle2OneLevel.
  destruct (_ <? _)%nat; [apply only_shadows_of_refl|].
  eapply post_bind with (Q' := fun _ => True).
  { destruct dbg; [|done].
    eapply post_mono; [apply check_flags_post | done |].
    intros s ->. apply only_shadows_of_refl. }
  intros _ _. eapply post_bind with (Q' := fun _ => True).
  { eapply post_mono; [apply check_uninitialized_post | done |].
    intros s [-> _]. apply only_shadows_of_refl. }
  intros _ _. destruct (_ =? _)%nat.
  { apply collect_buffer_patches_only_of, same_env_refl. }
  eapply post_bind with (Q' := fun _ => True).
  { eapply post_mono; [apply prepare_send_post | done |].
    intros s [-> _]. apply only_shadows_of_refl. }
  intros send _. eapply post_bind with (Q' := only_shadows_of W amr).
  { eapply post_mono;
      [by apply store_received_real_shadows, real_shadows_written_refl | |];
      intros s; apply real_shadows_only_of. }
  intros amr4 H4. eapply post_bind with (Q' := only_shadows_of W amr).
  { eapply post_mono; [apply check_total_post | |]; [by intros s -> | by intros s [-> _]]. }
  intros amr5 H5. simpl.
  eapply only_shadows_of_trans; [apply H5|].
  apply collect_buffer_patches_only_of, H5.
Qed.

End CollectFrame.

(** ** The particles in the shadow copy *)

Lemma not_null_write_shadow (v w : nat) (i : Z) (x : real) (q : patch_t) :
  not_null (write_shadow v i x q) w = not_null q w.
Proof.
  unfold not_null, write_shadow. simpl. rewrite list_lookup_alter.
  destruct (decide (v = w)) as [->|]; [|done].
  by destruct (ParMassPos_Copy q !! w) as [[arr|]|].
Qed.

Lemma not_null_store_patch (data : list real) (n : Z) (ptr w : nat) (q : patch_t) :
  not_null (store_patch data n ptr q) w = not_null q w.
Proof.
  unfold store_patch.
  apply (for_loop_inv (fun q' => not_null q' w = not_null q w)); [done|].
  intros k q' Hq'. unfold store_one.
  apply (for_loop_inv (fun q'' => not_null q'' w = not_null q w)); [done|].
  intros v q'' Hq''. by rewrite not_null_write_shadow.
Qed.

Lemma not_null_apply_records (pid : nat -> Z) (f : nat -> patch_t -> patch_t) (n P w : nat)
    (p : patch_t) :
  (forall t q, not_null (f t q) w = not_null q w) ->
  not_null (apply_records pid f n P p) w = not_null p w.
Proof.
  intros Hf. induction n as [|n IH]; [done|]. rewrite apply_records_S.
  destruct (decide _); [by rewrite Hf | done].
Qed.

Lemma not_null_merge_patch (amr : AMR_t) (w : nat) (q : patch_t) :
  not_null (merge_patch amr q) w = not_null q w.
Proof.
  unfold merge_patch. destruct (_ && _); [|done]. unfold add_count.
  change (not_null (set_NPar_Copy ?n ?q') w) with (not_null q' w).
  apply (for_loop_inv (fun q' => not_null q' w = not_null q w)); [done|].
  intros k q' Hq'. unfold merge_one. by rewrite !not_null_write_shadow.
Qed.

Section ShadowContents.

Variable FaLv : nat.
Variable amr : AMR_t.
Variable recv : RecvBuf_t.
Hypothesis Hlevel : level_ok FaLv amr.
Hypothesis Hrecv : recv_ok FaLv amr recv.

Variable P : nat.
Variable p0 : patch_t.
Hypothesis HP : (P < NReal amr FaLv)%nat.
Hypothesis Hp0 : get_patch amr FaLv P = Some p0.

Local Abbreviation cnt t := (nget 0 (RecvBuf_NParEachPatch recv) t).
Local Abbreviation key t := (nget 0 (RecvBuf_LBIdxEachPatch recv) t).
Local Abbreviation before t := (received_before recv (LB_Idx p0) t).

Lemma count_nonneg (t : nat) : 0 <= cnt t.
Proof.
  unfold nget. destruct (RecvBuf_NParEachPatch recv !! t) as [n|] eqn:Hn; simpl; [|lia].
  by apply (ro_cnt _ _ _ Hrecv t).
Qed.

Lemma received_before_S (t : nat) :
  before (S t) = before t + (if key t =? LB_Idx p0 then cnt t else 0).
Proof. unfold received_before. by rewrite sumZ_fmap_seq_S. Qed.

Lemma received_before_all :
  before (NRecvPatchTotal recv) = received_count recv (LB_Idx p0).
Proof. done. Qed.

Lemma received_before_mono (t n : nat) : (t <= n)%nat -> 0 <= before t <= before n.
Proof.
  intros Htn.
  assert (forall i, 0 <= (if key i =? LB_Idx p0 then cnt i else 0)) as Hterm.
  { intros i. pose proof (count_nonneg i). by destruct (_ =? _). }
  split.
  - apply sumZ_nonneg, Forall_fmap, Forall_forall. intros i _. apply Hterm.
  - by apply sumZ_fmap_seq_le.
Qed.

(** Step 3-4 on the patch, when its arrays are allocated for the particles
    to come: the count and the particles after the first [n] records. *)
Lemma store_records_contents (L : nat) (p3 : patch_t) (n : nat) :
  allocated L p3 -> NPar_Copy p3 = 0 ->
  received_count recv (LB_Idx p0) <= Z.of_nat L ->
  (n <= NRecvPatchTotal recv)%nat ->
  let q := apply_records (fun t => owner_of FaLv amr (key t))
             (fun t => store_patch (RecvBuf_ParDataEachPatch recv) (cnt t)
                         (data_offset recv t)) n P p3 in
  allocated L q /\ NPar_Copy q = before n /\
  forall t j v, (t < n)%nat -> key t = LB_Idx p0 -> (j < Z.to_nat (cnt t))%nat ->
    (v < NParVar)%nat ->
    shadow q v (before t + Z.of_nat j)
    = nget 0%Q (RecvBuf_ParDataEachPatch recv) (data_offset recv t + NParVar * j + v).
Proof.
  intros Ha Hc HL. induction n as [|n IH]; intros Hn; cbv zeta.
  - split; [done|]. split; [done|]. intros t j v Ht. lia.
  - destruct (IH ltac:(lia)) as (Ha' & Hc' & Hin). clear IH.
    rewrite apply_records_S, received_before_S.
    set (q := apply_records _ _ n P p3) in *.
    pose proof (owner_key_iff FaLv amr recv Hlevel Hrecv P p0 HP Hp0 n ltac:(lia)) as Hiff.
    pose proof (count_nonneg n) as Hcn.
    pose proof (received_before_mono n (NRecvPatchTotal recv) ltac:(lia)) as Hbn.
    pose proof (received_before_mono (S n) (NRecvPatchTotal recv) Hn) as HbS.
    rewrite received_before_S in HbS. rewrite received_before_all in Hbn, HbS.
    destruct (decide (Z.of_nat P = owner_of FaLv amr (key n))) as [Heq|Hne],
             (Z.eqb_spec (key n) (LB_Idx p0)) as [Hk|Hk]; try tauto.
    + destruct (store_patch_spec L (RecvBuf_ParDataEachPatch recv) (cnt n)
                  (data_offset recv n) q Ha' ltac:(lia) Hcn ltac:(lia))
        as (Ha'' & Hc'' & Hw & Ho).
      split; [done|]. split; [lia|]. intros t j v Ht Hkt Hj Hv.
      destruct (decide (t = n)) as [->|Htn].
      * rewrite <- Hc'. by apply Hw.
      * rewrite Ho; [apply Hin; [lia | done..]|].
        pose proof (received_before_mono (S t) n ltac:(lia)) as HtS.
        rewrite received_before_S in HtS.
        destruct (Z.eqb_spec (key t) (LB_Idx p0)); [|done]. lia.
    + split; [done|]. split; [lia|]. intros t j v Ht Hkt Hj Hv.
      destruct (decide (t = n)) as [->|Htn]; [done|]. apply Hin; [lia | done..].
Qed.

(** What steps 3 and 4 leave in the shadow copy of a real patch that has a
    son. *)
Lemma collect_patch_contents :
  son p0 <> -1 ->
  let p' := collect_patch FaLv false amr recv P p0 in
  let L := NPar p0 + received_count recv (LB_Idx p0) in
  (0 < L -> allocated (Z.to_nat L) p') /\
  (L = 0 -> forall v, (v < NParVar)%nat -> not_null p' v = false) /\
  shadow_holds amr recv (LB_Idx p0) (NPar p0) (ParList p0) p'.
Proof.
  intros Hs.
  pose proof (lo_clear _ _ Hlevel P p0 HP Hp0) as [Hclr Hnull]%shadow_clear_spec.
  pose proof (lo_NPar _ _ Hlevel P p0 HP Hp0) as HN.
  pose proof (lo_shape _ _ Hlevel P p0 HP Hp0) as Hshape.
  pose proof (received_count_nonneg FaLv amr recv (LB_Idx p0) Hrecv) as Hrc.
  unfold collect_patch. rewrite bool_decide_eq_true_2 by done. cbv zeta.
  rewrite (accumulate_patch_count FaLv amr recv Hlevel Hrecv P p0 HP Hp0).
  set (rc := received_count recv (LB_Idx p0)) in *.
  set (p2 := add_count rc (seed_patch p0)).
  assert (NPar_Copy p2 = NPar p0 + rc) as Hc2.
  { subst p2. unfold add_count, seed_patch. destruct (Z.eqb_spec (son p0) (-1)); [done|].
    simpl. done. }
  assert (same_base p0 p2) as Hb2.
  { subst p2. unfold add_count, seed_patch. destruct (negb _); by repeat split. }
  assert (ParMassPos_Copy p2 = ParMassPos_Copy p0) as Hpmc2.
  { subst p2. unfold add_count, seed_patch. by destruct (negb _). }
  destruct (decide (0 < NPar p0 + rc)) as [Hpos|Hzero].
  - (* the patch gets particles *)
    destruct (allocate_patch_spec p2 ltac:(by rewrite Hpmc2) ltac:(lia)) as (Ha3 & Hc3).
    rewrite Hc2 in Ha3.
    destruct (store_records_contents (Z.to_nat (NPar p0 + rc)) (allocate_patch p2)
                (NRecvPatchTotal recv) Ha3 Hc3 ltac:(fold rc; lia) ltac:(lia))
      as (Ha4 & Hc4 & Hin4).
    fold (store_all_patch FaLv amr recv P (allocate_patch p2)) in Ha4, Hc4, Hin4.
    set (p4 := store_all_patch FaLv amr recv P (allocate_patch p2)) in *.
    rewrite received_before_all in Hc4. fold rc in Hc4.
    assert (same_base p0 p4) as Hb4.
    { eapply same_base_trans; [apply Hb2|].
      eapply same_base_trans; [apply allocate_patch_base|].
      apply (store_all_patch_base FaLv amr recv Hlevel Hrecv P p0 HP Hp0). }
    destruct Hb4 as (_ & _ & Hs4 & HN4 & HL4 & _).
    destruct (decide (NPar p0 = 0)) as [Hz|Hnz].
    + assert (merge_patch amr p4 = p4) as ->.
      { unfold merge_patch. rewrite HN4, Hz. by rewrite andb_false_r. }
      split; [done|]. split; [lia|]. split.
      * intros t j v Ht Hk Hj Hv. by apply Hin4.
      * intros j v Hj. lia.
    + destruct (merge_patch_spec (Z.to_nat (NPar p0 + rc)) amr p4 Ha4 ltac:(lia)
                  ltac:(congruence) ltac:(lia) ltac:(lia)) as (Hc5 & Hw5 & Ho5).
      split; [|split; [lia|split]].
      * intros _. intros v Hv. destruct (Ha4 v Hv) as (arr & Harr & Hlen).
        unfold merge_patch. rewrite Hs4, HN4.
        destruct (Z.eqb_spec (son p0) (-1)); [done|].
        destruct (Z.ltb_spec 0 (NPar p0)); [|lia]. simpl.
        apply (for_loop_inv (allocated (Z.to_nat (NPar p0 + rc)))); [done| |done].
        intros k q Hq. unfold merge_one. by repeat apply allocated_write_shadow.
      * intros t j v Ht Hk Hj Hv. rewrite Ho5; [by apply Hin4|].
        pose proof (received_before_mono (S t) (NRecvPatchTotal recv) ltac:(lia)) as HtS.
        rewrite received_before_S, Hk, Z.eqb_refl, received_before_all in HtS.
        fold rc in HtS. lia.
      * intros j v Hj Hv. fold rc. rewrite <- Hc4, <- HL4. apply Hw5; [lia | done].
  - (* the patch gets none *)
    assert (NPar p0 = 0 /\ rc = 0) as [Hz Hrz] by lia.
    assert (allocate_patch p2 = p2) as ->.
    { unfold allocate_patch. rewrite Hc2. by destruct (Z.ltb_spec 0 (NPar p0 + rc)); [lia|]. }
    set (p4 := store_all_patch FaLv amr recv P p2).
    assert (same_base p0 p4) as Hb4.
    { eapply same_base_trans; [apply Hb2|].
      apply (store_all_patch_base FaLv amr recv Hlevel Hrecv P p0 HP Hp0). }
    destruct Hb4 as (_ & _ & Hs4 & HN4 & HL4 & _).
    assert (merge_patch amr p4 = p4) as ->.
    { unfold merge_patch. rewrite HN4, Hz. by rewrite andb_false_r. }
    split; [lia|]. split; [|split].
    + intros _ v Hv. subst p4. unfold store_all_patch.
      rewrite not_null_apply_records by (intros; apply not_null_store_patch).
      unfold not_null. rewrite Hpmc2. by apply Hnull.
    + intros t j v Ht Hk Hj Hv. exfalso.
      pose proof (received_before_mono (S t) (NRecvPatchTotal recv) ltac:(lia)) as HtS.
      pose proof (received_before_mono t (S t) ltac:(lia)) as Ht0.
      rewrite received_before_S, Hk, Z.eqb_refl, received_before_all in HtS.
      fold rc in HtS. lia.
    + intros j v Hj. lia.
Qed.

End ShadowContents.

Section CollectContents.

Variables DEBUG_PARTICLE HILBERT : bool.
Variables MAX_LEVEL MPI_NRank MPI_Rank : nat.
Variable PS1 : Z.
Variable LB_Corner2Index : nat -> list Z -> Z.
Variable LB_Index2Rank : nat -> Z -> Z.
Variable Par_PredictPos : AMR_t -> Z -> real * real * real -> real -> real * real * real.
Variable Par_LB_CollectParticleFromRealPatch :
  nat -> Z -> list Z -> list Z -> Z -> list Z -> list Z -> bool -> real -> AMR_t -> AMR_t.
Variable Par_LB_SendParticleData : nat -> SendBuf_t -> bool -> RecvBuf_t.
Variable MPI_Reduce_SUM : nat -> Z -> Z.

Local Abbreviation Collect :=
  (Par_LB_CollectParticle2OneLevel DEBUG_PARTICLE HILBERT MAX_LEVEL MPI_NRank MPI_Rank PS1
     LB_Corner2Index LB_Index2Rank Par_PredictPos Par_LB_CollectParticleFromRealPatch
     Par_LB_SendParticleData MPI_Reduce_SUM).
Local Abbreviation received :=
  (received_records DEBUG_PARTICLE HILBERT MAX_LEVEL MPI_NRank PS1 LB_Corner2Index
     LB_Index2Rank Par_PredictPos Par_LB_SendParticleData).

(** X10. After a call that collects at a level below the maximum level, on a
    state that is ready for it and with records that belong to the rank, the
    four arrays of the shadow copy of a real patch with a son are allocated
    with as many entries as the patch has particles of its own and particles
    received, when that number is positive; when it is zero, none of the four
    is allocated. *)
Theorem Collect_shadow_allocated (FaLv : nat) (PredictPos : bool) (TargetTime : real)
    (Sib FaSib : bool) (amr : AMR_t) :
  writes_buffers_only Par_LB_CollectParticleFromRealPatch ->
  (FaLv < MAX_LEVEL)%nat ->
  level_ok FaLv amr ->
  recv_ok FaLv amr (received amr FaLv PredictPos TargetTime false) ->
  post (fun amr' =>
          forall P p0, (P < NReal amr FaLv)%nat -> get_patch amr FaLv P = Some p0 ->
            son p0 <> -1 ->
            exists p', get_patch amr' FaLv P = Some p' /\
              (0 < NPar p0 + received_count (received amr FaLv PredictPos TargetTime false)
                               (LB_Idx p0) ->
               allocated (Z.to_nat (NPar p0 + received_count
                                                (received amr FaLv PredictPos TargetTime false)
                                                (LB_Idx p0))) p') /\
              (NPar p0 + received_count (received amr FaLv PredictPos TargetTime false)
                           (LB_Idx p0) = 0 ->
               forall v, (v < NParVar)%nat -> not_null p' v = false))
       (fun _ => DEBUG_PARTICLE = true)
       (Collect FaLv PredictPos TargetTime Sib FaSib false amr).
Proof.
  intros Hbuffers Hlv Hlevel Hrecv.
  eapply post_mono;
    [apply (Collect_patches DEBUG_PARTICLE HILBERT MAX_LEVEL MPI_NRank MPI_Rank PS1
              LB_Corner2Index LB_Index2Rank Par_PredictPos Par_LB_CollectParticleFromRealPatch
              Par_LB_SendParticleData MPI_Reduce_SUM Hbuffers FaLv PredictPos TargetTime
              Sib FaSib false amr Hlv Hlevel Hrecv)
    | | done].
  intros amr' Hpatches P p0 HP Hp0 Hson. eexists. split; [by apply Hpatches|].
  destruct (collect_patch_contents FaLv amr _ Hlevel Hrecv P p0 HP Hp0 Hson) as (Ha & Hn & _).
  by split.
Qed.

(** X11. After such a call, the shadow copy of a real patch with a son holds
    the particles of the records received with the key of the patch, record
    after record in the order of arrival and, within a record, in the order
    of its data, and after them the particles of the patch itself in the
    order of its list, each with the mass and the position that the
    repository holds. *)
Theorem Collect_shadow_contents (FaLv : nat) (PredictPos : bool) (TargetTime : real)
    (Sib FaSib : bool) (amr : AMR_t) :
  writes_buffers_only Par_LB_CollectParticleFromRealPatch ->
  (FaLv < MAX_LEVEL)%nat ->
  level_ok FaLv amr ->
  recv_ok FaLv amr (received amr FaLv PredictPos TargetTime false) ->
  post (fun amr' =>
          forall P p0, (P < NReal amr FaLv)%nat -> get_patch amr FaLv P = Some p0 ->
            son p0 <> -1 ->
            exists p', get_patch amr' FaLv P = Some p' /\
              shadow_holds amr (received amr FaLv PredictPos TargetTime false)
                (LB_Idx p0) (NPar p0) (ParList p0) p')
       (fun _ => DEBUG_PARTICLE = true)
       (Collect FaLv PredictPos TargetTime Sib FaSib false amr).
Proof.
  intros Hbuffers Hlv Hlevel Hrecv.
  eapply post_mono;
    [apply (Collect_patches DEBUG_PARTICLE HILBERT MAX_LEVEL MPI_NRank MPI_Rank PS1
              LB_Corner2Index LB_Index2Rank Par_PredictPos Par_LB_CollectParticleFromRealPatch
              Par_LB_SendParticleData MPI_Reduce_SUM Hbuffers FaLv PredictPos TargetTime
              Sib FaSib false amr Hlv Hlevel Hrecv)
    | | done].
  intros amr' Hpatches P p0 HP Hp0 Hson. eexists. split; [by apply Hpatches|].
  by destruct (collect_patch_contents FaLv amr _ Hlevel Hrecv P p0 HP Hp0 Hson) as (_ & _ & H).
Qed.

(** X17. After a call that only counts at a level below the maximum level,
    on a state that is ready for it and with records that belong to the rank,
    a real patch with a son has as NPar_Copy the number of its own particles
    plus the counts of the records received with its key, a leaf keeps -1,
    and the four pointers of every real patch of the level are as they were:
    nothing is allocated. *)
Theorem Collect_count_only_counts (FaLv : nat) (PredictPos : bool) (TargetTime : real)
    (Sib FaSib : bool) (amr : AMR_t) :
  writes_buffers_only Par_LB_CollectParticleFromRealPatch ->
  (FaLv < MAX_LEVEL)%nat ->
  level_ok FaLv amr ->
  recv_ok FaLv amr (received amr FaLv PredictPos TargetTime true) ->
  post (fun amr' =>
          forall P p0, (P < NReal amr FaLv)%nat -> get_patch amr FaLv P = Some p0 ->
            exists p', get_patch amr' FaLv P = Some p' /\
              (son p0 <> -1 ->
               NPar_Copy p'
               = NPar p0 + received_count (received amr FaLv PredictPos TargetTime true)
                             (LB_Idx p0)) /\
              (son p0 = -1 -> NPar_Copy p' = -1) /\
              ParMassPos_Copy p' = ParMassPos_Copy p0)
       (fun _ => DEBUG_PARTICLE = true)
       (Collect FaLv PredictPos TargetTime Sib FaSib true amr).
Proof.
  intros Hbuffers Hlv Hlevel Hrecv.
  eapply post_mono;
    [apply (Collect_patches DEBUG_PARTICLE HILBERT MAX_LEVEL MPI_NRank MPI_Rank PS1
              LB_Corner2Index LB_Index2Rank Par_PredictPos Par_LB_CollectParticleFromRealPatch
              Par_LB_SendParticleData MPI_Reduce_SUM Hbuffers FaLv PredictPos TargetTime
              Sib FaSib true amr Hlv Hlevel Hrecv)
    | | done].
  intros amr' Hpatches P p0 HP Hp0. eexists. split; [by apply Hpatches|].
  destruct (collect_patch_spec FaLv amr _ Hlevel Hrecv P p0 HP Hp0 true)
    as (_ & Hleaf & Hcount & Hnull).
  split; [done|]. split; [|by apply Hnull].
  intros Hs. rewrite (Hleaf Hs).
  by pose proof (lo_clear _ _ Hlevel P p0 HP Hp0) as [Hclr _]%shadow_clear_spec.
Qed.

End CollectContents.

(** ** The home-patch check of the diagnostic build *)

Lemma post_conj {A} (Q1 Q2 : A -> Prop) (E1 E2 : AMR_t -> Prop) (r : result A) :
  post Q1 E1 r -> post Q2 E2 r -> post (fun a => Q1 a /\ Q2 a) (fun s => E1 s /\ E2 s) r.
Proof. by destruct r. Qed.

Lemma post_any {A} (r : result A) : post (fun _ => True) (fun _ => True) r.
Proof. by destruct r. Qed.

Lemma same_base_sym (p q : patch_t) : same_base p q -> same_base q p.
Proof. unfold same_base. intuition congruence. Qed.

Section StoreHome.

Variable FaLv : nat.
Variable recv : RecvBuf_t.

Local Abbreviation data := (RecvBuf_ParDataEachPatch recv).
Local Abbreviation cnt t := (nget 0 (RecvBuf_NParEachPatch recv) t).

(** Step 3-4 on a particle, without prediction: the diagnostic build goes on
    only if the particle is inside the patch. *)
Lemma store_particle_home (P : nat) (q0 : patch_t) (L : nat) (i : Z) (st : AMR_t * nat) :
  get_patch st.1 FaLv P = Some q0 -> allocated L q0 -> 0 <= i < Z.of_nat L ->
  post (fun _ => in_patch q0 (fun d => nget 0%Q data (st.2 + (PAR_POSX + d))))
       (fun _ => True)
       (store_particle true FaLv false recv (Z.of_nat P) i st).
Proof.
  intros Hq0 Ha Hi. unfold store_particle.
  eapply post_bind with (Q' := fun _ => True); [apply post_any|]. intros _ _.
  set (st' := for_loop 0 NParVar _ st).
  assert (st' = (zupd_patch FaLv (Z.of_nat P) (store_one data i st.2) st.1,
                 (st.2 + NParVar)%nat)) as ->.
  { subst st'. destruct st as [a ptr]. unfold for_loop, store_one, for_loop. simpl.
    rewrite !zupd_patch_compose. f_equal; [|unfold NParVar; lia].
    apply zupd_patch_ext. intros P' p _ _. simpl.
    by rewrite !Nat.add_succ_r, Nat.add_0_r. }
  cbn [fst snd].
  assert (zthe_patch (zupd_patch FaLv (Z.of_nat P) (store_one data i st.2) st.1) FaLv
            (Z.of_nat P)
          = store_one data i st.2 q0) as ->.
  { rewrite zthe_patch_of_nat, zupd_patch_of_nat. unfold the_patch.
    by rewrite get_patch_upd, decide_True, Hq0. }
  apply post_check; [done|]. cbn [negb].
  destruct (four_writes L i (fun v => nget 0%Q data (st.2 + v)) q0 Ha Hi)
    as (_ & _ & Hb & Hw & _).
  fold (store_one data i st.2 q0) in Hb, Hw.
  set (q := store_one data i st.2 q0) in *.
  eapply post_mono;
    [apply (for_loopE_ind0
              (fun d _ => forall d', (d' < d)%nat ->
                 real_lt (shadow q (PAR_POSX + d') i) (nget 0%Q (EdgeL q) d')
                 || real_ge (shadow q (PAR_POSX + d') i) (nget 0%Q (EdgeR q) d') = false)
              (fun _ => True))
    | | done].
  - intros d' Hd'. lia.
  - intros d s Hd IH. apply post_check_inv; [done|]. cbn [andb]. intros Hbad.
    simpl. intros d' Hd'. destruct (decide (d' = d)) as [->|]; [done | apply IH; lia].
  - intros s Hall d Hd. specialize (Hall d Hd).
    rewrite Hw in Hall by (unfold PAR_POSX, NParVar; lia).
    destruct Hb as (_ & _ & _ & _ & _ & HL & HR). by rewrite HL, HR in Hall.
Qed.

(** Step 3-4 on a record, without prediction: the diagnostic build goes on
    only if the record brings particles, all of them inside the patch. *)
Lemma store_body_home (FaPIDList : list Z) (t P : nat) (q : patch_t) (L : nat)
    (st : AMR_t * nat) :
  nget 0 FaPIDList t = Z.of_nat P ->
  get_patch st.1 FaLv P = Some q ->
  (0 < cnt t -> allocated L q /\ 0 <= NPar_Copy q /\ NPar_Copy q + cnt t <= Z.of_nat L) ->
  post (fun _ => forall j, (j < Z.to_nat (cnt t))%nat ->
                   in_patch q (fun d => nget 0%Q data (st.2 + NParVar * j + (PAR_POSX + d))))
       (fun _ => True)
       (store_body true FaLv false recv FaPIDList t st).
Proof.
  intros Hpid Hq Hpre. unfold store_body.
  rewrite Hpid, zupd_patch_of_nat, !zthe_patch_of_nat.
  set (n := cnt t) in *.
  set (a1 := upd_patch FaLv P (fun q0 => set_NPar_Copy (NPar_Copy q0 + n) q0) st.1).
  assert (the_patch a1 FaLv P = add_count n q) as Hq1.
  { unfold the_patch, a1. by rewrite get_patch_upd, decide_True, Hq. }
  rewrite Hq1, (the_patch_Some _ _ _ _ Hq). unfold add_count at 1.
  cbn [NPar_Copy set_NPar_Copy].
  replace (NPar_Copy q + n - NPar_Copy q) with n by lia.
  apply post_check_inv; [done|]. cbn [andb]. intros Hn%Z.leb_gt.
  destruct (Hpre Hn) as (Ha & Hc & Hfit).
  set (f := fun (k : nat) (q' : patch_t) =>
              store_one data (NPar_Copy q + Z.of_nat k) (st.2 + NParVar * k) q').
  eapply post_mono;
    [apply (for_loopE_ind0
              (fun i s =>
                 s = (upd_patch FaLv P (for_loop 0 i f ∘ add_count n) st.1,
                      (st.2 + NParVar * i)%nat) /\
                 forall j, (j < i)%nat ->
                   in_patch q (fun d => nget 0%Q data (st.2 + NParVar * j + (PAR_POSX + d))))
              (fun _ => True))
    | | done].
  - rewrite Nat.mul_0_r, Nat.add_0_r. split; [subst a1; reflexivity | intros; lia].
  - intros i s Hi [-> Hprev].
    set (qi := for_loop 0 i f (add_count n q)).
    assert (get_patch (upd_patch FaLv P (for_loop 0 i f ∘ add_count n) st.1) FaLv P
            = Some qi) as Hqi.
    { by rewrite get_patch_upd, decide_True, Hq. }
    destruct (block_writes L (NPar_Copy q) i
                (fun k v => nget 0%Q data (st.2 + NParVar * k + v)) f (add_count n q))
      as (Ha' & _ & Hb & _); [done | done | done | simpl; lia |].
    fold qi in Ha', Hb.
    eapply post_mono;
      [apply post_conj;
         [apply (store_particle_sure true FaLv false recv False P qi L
                   (NPar_Copy q + Z.of_nat i)
                   (upd_patch FaLv P (for_loop 0 i f ∘ add_count n) st.1,
                    (st.2 + NParVar * i)%nat) Hqi); by intros []
         |apply (store_particle_home P qi L (NPar_Copy q + Z.of_nat i)
                   (upd_patch FaLv P (for_loop 0 i f ∘ add_count n) st.1,
                    (st.2 + NParVar * i)%nat) Hqi Ha'); lia]
      | | done].
    intros s' [-> Hin]. cbn [fst snd] in *. split.
    + rewrite zupd_patch_of_nat, upd_patch_compose.
      f_equal; [|unfold NParVar; lia].
      apply upd_patch_ext. intros p' _. cbn [compose]. by rewrite for_loop_S.
    + intros j Hj. destruct (decide (j = i)) as [->|]; [|apply Hprev; lia].
      apply (in_patch_base qi); [|done].
      apply same_base_sym. eapply same_base_trans; [|apply Hb]. by repeat split.
  - intros s [_ Hall]. done.
Qed.

End StoreHome.

Section StoreReceivedHome.

Variable FaLv : nat.
Variable recv : RecvBuf_t.
Variable amr : AMR_t.
Hypothesis Hlevel : level_ok FaLv amr.
Hypothesis Hrecv : recv_ok FaLv amr recv.

Local Abbreviation cnt t := (nget 0 (RecvBuf_NParEachPatch recv) t).
Local Abbreviation key t := (nget 0 (RecvBuf_LBIdxEachPatch recv) t).
Local Abbreviation owner t := (owner_of FaLv amr (key t)).

(** Steps 3 and 4 without prediction: the diagnostic build runs them to
    their end only if every particle received is inside the patch it goes
    to. *)
Lemma store_received_home :
  post (fun _ => recv_in_patch FaLv amr recv) (fun _ => True)
       (store_received true FaLv false false recv amr).
Proof.
  unfold store_received.
  set (N := NRecvPatchTotal recv).
  set (sorted := Mis_Heapsort N (RecvBuf_LBIdxEachPatch recv)).
  set (Match := Mis_Matching_int _ _ N sorted.1).
  set (NR := NReal amr FaLv).
  set (F1 := fun (P : nat) (p0 : patch_t) =>
               if bool_decide (P < NR)%nat then seed_patch p0 else p0).
  set (amr1 := for_loop 0 NR (seed_body FaLv) amr).
  assert (patches_are F1 FaLv amr amr1) as H1.
  { eapply patches_are_ext;
      [|apply (patches_are_for_loop (fun _ p => p) seed_patch FaLv NR (seed_body FaLv));
        [apply seed_body_upd | apply patches_are_refl]].
    intros P p0 _. subst F1. simpl.
    by destruct (decide (P < NR)%nat), (bool_decide_reflect (P < NR)%nat). }
  set (pid_s := fun t => zget (-1) (nget [] (IdxList_Real_IdxTable amr) FaLv) (nget 0 Match t)).
  set (cnt_s := fun t => zget 0 (RecvBuf_NParEachPatch recv) (nget 0 sorted.2 t)).
  set (F2 := fun (P : nat) (p0 : patch_t) => accumulate_patch FaLv amr recv P (F1 P p0)).
  set (FaPIDList := for_loop 0 N (fun t l => zset (nget 0 sorted.2 t) (pid_s t) l)
                      (replicate N (-1))).
  destruct (sorted_records FaLv amr recv Hrecv) as (sigma & Hperm & Hsig).
  fold N sorted Match in Hsig.
  eapply post_bind with (Q' := fun st => patches_are F2 FaLv amr st.1 /\ st.2 = FaPIDList).
  { eapply post_mono; [| |done].
    - apply (for_loopE_ind0
               (fun t st =>
                  patches_are (fun P p0 => apply_records pid_s (fun t => add_count (cnt_s t))
                                             t P (F1 P p0)) FaLv amr st.1 /\
                  st.2 = for_loop 0 t (fun t l => zset (nget 0 sorted.2 t) (pid_s t) l)
                           (replicate N (-1)))
               (fun _ => True)).
      + split; [apply H1 | done].
      + intros t st Ht [Hp Hl].
        eapply post_mono;
          [apply (accumulate_body_sure true FaLv recv True sorted.1 sorted.2 Match t
                    amr st (patches_are_env _ _ _ _ Hp))
          | | done].
        * intros _.
          destruct (Hsig t Ht) as (i & _ & Hi & _ & Hpid).
          destruct (recv_owner FaLv amr recv i Hlevel Hrecv Hi)
            as (P & p & HP & Hgp & _ & Hson & Hown).
          fold (pid_s t) in Hpid |- *. rewrite Hown in Hpid. split.
          -- intros Heq. subst pid_s. cbv beta in Hpid. rewrite Heq in Hpid.
             unfold zget in Hpid. simpl in Hpid. lia.
          -- rewrite Hpid, zthe_patch_of_nat.
             pose proof (patches_are_get _ _ _ _ P Hp) as Hq. rewrite Hgp in Hq.
             rewrite (the_patch_Some _ _ _ _ Hq).
             assert (same_base p (apply_records pid_s (fun t0 => add_count (cnt_s t0)) t P
                                    (F1 P p))) as (_ & _ & -> & _); [|done].
             eapply same_base_trans; [|apply apply_records_base].
             ++ subst F1. cbv beta. destruct (bool_decide _); [apply seed_patch_base|].
                apply same_base_refl.
             ++ intros t0 q0. apply same_base_set_NPar_Copy.
        * intros s' ->. cbn [fst snd]. split.
          -- eapply patches_are_ext; [|apply patches_are_zupd, Hp].
             intros P p0 _. cbn beta. by rewrite apply_records_S.
          -- by rewrite for_loop_S, Hl.
    - done. }
  intros st2 [H2 HFa].
  assert (NReal st2.1 FaLv = NR) as HNR2.
  { destruct (patches_are_env _ _ _ _ H2) as (HC & _). unfold NReal. by rewrite HC. }
  eapply post_bind with (Q' := fun st => st = st2).
  { unfold check_FaPIDList.
    apply (for_loopE_ind0 (fun _ st => st = st2) (fun _ => True)); [done|].
    intros t s Ht ->. by apply post_check. }
  intros st2' ->. cbn [negb]. rewrite HNR2.
  set (F3 := fun (P : nat) (p0 : patch_t) =>
               if bool_decide (P < NR)%nat then allocate_patch (F2 P p0) else F2 P p0).
  set (amr3 := for_loop 0 NR (allocate_body FaLv) st2.1).
  assert (patches_are F3 FaLv amr amr3) as H3.
  { eapply patches_are_ext;
      [|apply (patches_are_for_loop F2 allocate_patch FaLv NR (allocate_body FaLv));
        [apply allocate_body_upd | apply H2]].
    intros P p0 _. subst F3. simpl.
    by destruct (decide (P < NR)%nat), (bool_decide_reflect (P < NR)%nat). }
  eapply post_bind with (Q' := fun _ => recv_in_patch FaLv amr recv).
  2:{ intros st4 Hin. eapply post_mono; [apply post_any | done | done]. }
  eapply post_mono; [| |done].
  - apply (for_loopE_ind0
             (fun t st =>
                patches_are
                  (fun P p0 =>
                     apply_records (fun t => owner t)
                       (fun t => store_patch (RecvBuf_ParDataEachPatch recv) (cnt t)
                                   (data_offset recv t))
                       t P (F3 P p0)) FaLv amr st.1 /\
                st.2 = data_offset recv t /\
                forall t', (t' < t)%nat -> record_in_patch FaLv amr recv t')
             (fun _ => True)).
    + split; [apply H3|]. split; [done|]. intros; lia.
    + intros t st Ht (Hp & Hptr & Hprev).
      destruct (recv_owner FaLv amr recv t Hlevel Hrecv Ht)
        as (P & p & HP & Hgp & Hkey & Hson & Hown).
      assert (nget 0 st2.2 t = Z.of_nat P) as HFaP.
      { rewrite HFa, <- Hown. apply (FaPIDList_spec FaLv amr recv Hrecv t Ht). }
      pose proof (patches_are_get _ _ _ _ P Hp) as Hq. rewrite Hgp in Hq. simpl in Hq.
      pose proof (prefix_le FaLv amr recv Hlevel Hrecv P p HP Hgp t ltac:(fold N; lia))
        as Hpt.
      pose proof (prefix_le FaLv amr recv Hlevel Hrecv P p HP Hgp (S t) Ht) as HpS.
      rewrite sumZ_fmap_seq_S, decide_True in HpS by done.
      pose proof (lo_NPar _ _ Hlevel P p HP Hgp) as HNp.
      assert (0 < cnt t ->
              let q := apply_records (fun t => owner t)
                         (fun t => store_patch (RecvBuf_ParDataEachPatch recv) (cnt t)
                                     (data_offset recv t)) t P (F3 P p) in
              allocated (Z.to_nat (NPar p + received_count recv (LB_Idx p))) q /\
              same_base p q /\ 0 <= NPar_Copy q /\
              NPar_Copy q + cnt t <= Z.of_nat (Z.to_nat (NPar p + received_count recv (LB_Idx p))))
        as Hready.
      { intros Hct. cbv zeta. subst F3 F2 F1. cbv beta.
        rewrite !bool_decide_eq_true_2 by done.
        destruct (store_prefix FaLv recv amr Hlevel Hrecv P p t HP Hgp Hson ltac:(lia)
                    ltac:(fold N; lia)) as (Ha & Hb & Hc).
        split; [done|]. split; [done|]. lia. }
      eapply post_mono;
        [apply post_conj;
           [apply (store_body_sure true FaLv false recv False st2.2 t P _
                     (Z.to_nat (NPar p + received_count recv (LB_Idx p))) st HFaP Hq);
            by intros []
           |apply (store_body_home FaLv recv st2.2 t P _
                     (Z.to_nat (NPar p + received_count recv (LB_Idx p))) st HFaP Hq);
            intros Hct; destruct (Hready Hct) as (? & ? & ? & ?); done]
        | | done].
      intros s' [-> Hin]. cbn [fst snd]. split; [|split].
      * rewrite <- zupd_patch_of_nat.
        eapply patches_are_ext; [|apply patches_are_zupd, Hp].
        intros Q q0 _. cbn beta. rewrite apply_records_S, Hown, Hptr. done.
      * by rewrite data_offset_S, Hptr.
      * intros t' Ht'. destruct (decide (t' = t)) as [->|]; [|apply Hprev; lia].
        intros P' p' j HP' Hgp' Hkey' Hj.
        assert (P' = P) as ->.
        { apply (lo_inj _ _ Hlevel P' P p' p); try done. congruence. }
        assert (p' = p) as -> by congruence.
        assert (0 < cnt t) as Hct by lia.
        destruct (Hready Hct) as (_ & Hb & _).
        rewrite <- Hptr. apply (in_patch_base _ p (fun d => _) (same_base_sym _ _ Hb)).
        by apply Hin.
  - intros st (_ & _ & Hall) t P p j Ht HP Hgp Hkey Hj.
    by apply (Hall t Ht P p j).
Qed.

End StoreReceivedHome.

Section CollectPatchHome.

Variable FaLv : nat.
Variable amr : AMR_t.
Variable recv : RecvBuf_t.
Hypothesis Hlevel : level_ok FaLv amr.
Hypothesis Hrecv : recv_ok FaLv amr recv.
Hypothesis Hdata : recv_in_patch FaLv amr recv.

Variable P : nat.
Variable p0 : patch_t.
Hypothesis HP : (P < NReal amr FaLv)%nat.
Hypothesis Hp0 : get_patch amr FaLv P = Some p0.

(** Steps 3 and 4 on a real patch with a son, when every particle received
    is inside the patch it goes to: the particles received are inside the
    patch, whatever the particles that step 4 adds. *)
Lemma collect_patch_received_in_patch (k : Z) :
  son p0 <> -1 -> 0 <= k < received_count recv (LB_Idx p0) ->
  in_patch (collect_patch FaLv false amr recv P p0)
    (fun d => shadow (collect_patch FaLv false amr recv P p0) (PAR_POSX + d) k).
Proof.
  intros Hs Hk.
  destruct (collect_patch_spec FaLv amr recv Hlevel Hrecv P p0 HP Hp0 false)
    as (Hbase & _ & _ & _).
  pose proof (lo_NPar _ _ Hlevel P p0 HP Hp0) as HN.
  pose proof (lo_shape _ _ Hlevel P p0 HP Hp0) as Hshape.
  apply (in_patch_base p0); [done|]. clear Hbase.
  unfold collect_patch. rewrite bool_decide_eq_true_2 by done. cbv zeta.
  rewrite (accumulate_patch_count FaLv amr recv Hlevel Hrecv P p0 HP Hp0).
  set (rc := received_count recv (LB_Idx p0)) in *.
  set (p2 := add_count rc (seed_patch p0)) in *.
  assert (NPar_Copy p2 = NPar p0 + rc) as Hc2.
  { subst p2. unfold add_count, seed_patch. destruct (Z.eqb_spec (son p0) (-1)); [done|].
    simpl. done. }
  assert (same_base p0 p2) as Hb2.
  { subst p2. unfold add_count, seed_patch. destruct (negb _); by repeat split. }
  assert (length (ParMassPos_Copy p2) = NParVar) as Hshape2.
  { subst p2. unfold add_count, seed_patch. by destruct (negb _). }
  destruct (allocate_patch_spec p2 Hshape2 ltac:(lia)) as (Ha3 & Hc3).
  destruct (allocate_patch_base p2) as [Hb3 _].
  destruct (store_all_patch_in_patch FaLv amr recv Hlevel Hrecv Hdata P p0 HP Hp0
              (Z.to_nat (NPar_Copy p2)) (allocate_patch p2) Ha3
              ltac:(by eapply same_base_trans) Hc3 ltac:(fold rc; lia))
    as (Ha4 & Hb4 & Hc4 & Hin4).
  set (p4 := store_all_patch FaLv amr recv P (allocate_patch p2)) in *.
  fold rc in Hc4. destruct Hb4 as (Hb4 & Hk4 & Hs4 & HN4 & HL4 & HE4).
  destruct (decide (NPar p0 = 0)) as [Hz|Hnz].
  - assert (merge_patch amr p4 = p4) as ->.
    { unfold merge_patch. rewrite HN4, Hz. by rewrite andb_false_r. }
    apply Hin4. lia.
  - destruct (merge_patch_spec (Z.to_nat (NPar_Copy p2)) amr p4 Ha4 ltac:(lia)
                ltac:(congruence) ltac:(lia) ltac:(lia)) as (Hc5 & Hw5 & Ho5).
    intros d Hd. rewrite Ho5 by lia. apply Hin4; [lia | done].
Qed.

End CollectPatchHome.

Section CollectHome.

Variable HILBERT : bool.
Variables MAX_LEVEL MPI_NRank MPI_Rank : nat.
Variable PS1 : Z.
Variable LB_Corner2Index : nat -> list Z -> Z.
Variable LB_Index2Rank : nat -> Z -> Z.
Variable Par_PredictPos : AMR_t -> Z -> real * real * real -> real -> real * real * real.
Variable Par_LB_CollectParticleFromRealPatch :
  nat -> Z -> list Z -> list Z -> Z -> list Z -> list Z -> bool -> real -> AMR_t -> AMR_t.
Variable Par_LB_SendParticleData : nat -> SendBuf_t -> bool -> RecvBuf_t.
Variable MPI_Reduce_SUM : nat -> Z -> Z.

(** The diagnostic build. *)
Local Abbreviation Collect_debug :=
  (Par_LB_CollectParticle2OneLevel true HILBERT MAX_LEVEL MPI_NRank MPI_Rank PS1
     LB_Corner2Index LB_Index2Rank Par_PredictPos Par_LB_CollectParticleFromRealPatch
     Par_LB_SendParticleData MPI_Reduce_SUM).
Local Abbreviation received :=
  (received_records true HILBERT MAX_LEVEL MPI_NRank PS1 LB_Corner2Index
     LB_Index2Rank Par_PredictPos Par_LB_SendParticleData).

(** A call of the diagnostic build without prediction returns only if every
    particle received is inside the patch it goes to. *)
Lemma Collect_home (FaLv : nat) (TargetTime : real) (Sib FaSib : bool) (amr : AMR_t) :
  (FaLv < MAX_LEVEL)%nat ->
  level_ok FaLv amr ->
  recv_ok FaLv amr (received amr FaLv false TargetTime false) ->
  post (fun _ => recv_in_patch FaLv amr (received amr FaLv false TargetTime false))
       (fun _ => True)
       (Collect_debug FaLv false TargetTime Sib FaSib false amr).
Proof.
  intros Hlv Hlevel Hrecv. unfold Par_LB_CollectParticle2OneLevel.
  destruct (Nat.ltb_spec MAX_LEVEL FaLv); [lia|].
  eapply post_bind with (Q' := fun _ => True); [apply post_any|].
  intros _ _. eapply post_bind with (Q' := fun _ => True); [apply post_any|].
  intros _ _. destruct (Nat.eqb_spec FaLv MAX_LEVEL); [lia|].
  unfold received_records in *.
  destruct (prepare_send _ _ _ _ _ _ _ _ amr FaLv false TargetTime false)
    as [send|msg s]; [|done].
  cbn [bind].
  eapply post_bind; [by apply store_received_home|].
  intros amr4 H4. eapply post_bind with (Q' := fun _ => True); [apply post_any|].
  intros amr5 _. done.
Qed.


End CollectHome.

(** ** The release, once more *)

Lemma released_or (lv : nat) (s1 f1 s2 f2 : bool) (amr : AMR_t) (l P : nat) :
  released lv (s1 || s2) (f1 || f2) amr l P <->
  released lv s1 f1 amr l P \/ released lv s2 f2 amr l P.
Proof.
  unfold released. rewrite !orb_true_iff. tauto.
Qed.

Lemma released_dec (lv : nat) (Sib FaSib : bool) (amr : AMR_t) (l P : nat) :
  Decision (released lv Sib FaSib amr l P).
Proof. unfold released. apply _. Qed.

(** X12. In the production build, a release after a release at the same
    level is one release of all that either names: with the sibling buffers
    if either is to release them, and with the father-sibling buffers if
    either is. *)
Theorem FreeMemory_twice (lv : nat) (Sib1 FaSib1 Sib2 FaSib2 : bool) (amr : AMR_t) :
  (a <- Par_LB_CollectParticle2OneLevel_FreeMemory false lv Sib1 FaSib1 amr ;;
   Par_LB_CollectParticle2OneLevel_FreeMemory false lv Sib2 FaSib2 a)
  = Par_LB_CollectParticle2OneLevel_FreeMemory false lv (Sib1 || Sib2) (FaSib1 || FaSib2) amr.
Proof.
  unfold Par_LB_CollectParticle2OneLevel_FreeMemory. cbn [bind]. f_equal.
  set (a1 := FreeMemory_release lv Sib1 FaSib1 amr).
  pose proof (FreeMemory_release_env lv Sib1 FaSib1 amr) as He1. fold a1 in He1.
  symmetry. apply AMR_ext.
  - pose proof (FreeMemory_release_env lv (Sib1 || Sib2) (FaSib1 || FaSib2) amr) as He.
    pose proof (FreeMemory_release_env lv Sib2 FaSib2 a1) as He2.
    unfold same_env in *. intuition congruence.
  - rewrite !shape_FreeMemory_release. subst a1. by rewrite shape_FreeMemory_release.
  - intros l P.
    destruct (FreeMemory_release_spec lv Sib2 FaSib2 a1 l P) as [Hy2 Hn2].
    destruct (FreeMemory_release_spec lv Sib1 FaSib1 amr l P) as [Hy1 Hn1].
    destruct (FreeMemory_release_spec lv (Sib1 || Sib2) (FaSib1 || FaSib2) amr l P)
      as [Hy Hn].
    fold a1 in Hy1, Hn1.
    pose proof (released_env lv Sib2 FaSib2 amr a1 l P He1) as Hiff.
    pose proof (released_or lv Sib1 FaSib1 Sib2 FaSib2 amr l P) as Hor.
    destruct (released_dec lv Sib1 FaSib1 amr l P) as [H1|H1],
             (released_dec lv Sib2 FaSib2 amr l P) as [H2|H2].
    + rewrite Hy2, Hy1, Hy by tauto. by rewrite fmap_free_patch_idem.
    + rewrite Hn2, Hy1, Hy by tauto. done.
    + rewrite Hy2, Hn1, Hy by tauto. done.
    + rewrite Hn2, Hn1, Hn by tauto. done.
Qed.

(** X13. In the diagnostic build a release returns exactly when every patch
    of the level and of the level below, real or buffer, either is one that
    the release names or holds no shadow copy. *)
Theorem FreeMemory_debug_returns_iff (lv : nat) (Sib FaSib : bool) (amr : AMR_t) :
  returns (Par_LB_CollectParticle2OneLevel_FreeMemory true lv Sib FaSib amr) <->
  forall TLv PID, TLv = lv \/ ((1 <= lv)%nat /\ TLv = (lv - 1)%nat) ->
    (PID < nget 0%nat (num amr) TLv)%nat ->
    released lv Sib FaSib amr TLv PID \/ shadow_clear (the_patch amr TLv PID) = true.
Proof.
  unfold Par_LB_CollectParticle2OneLevel_FreeMemory.
  set (a := FreeMemory_release lv Sib FaSib amr).
  pose proof (FreeMemory_release_env lv Sib FaSib amr) as He. fold a in He.
  assert (num a = num amr) as Hnum by (by destruct He as (_ & -> & _)).
  assert (returns (FreeMemory_check lv a) <-> scan_clear lv a) as ->.
  { pose proof (FreeMemory_check_post lv a) as Hpost.
    destruct (FreeMemory_check _ _) as [a'|msg s]; simpl in Hpost.
    - split; [intros _; apply Hpost | intros _; by eexists].
    - split; [by intros [? ?] | intros ?; by destruct Hpost]. }
  unfold scan_clear. rewrite Hnum.
  assert (forall TLv PID,
            shadow_clear (the_patch a TLv PID) = true <->
            released lv Sib FaSib amr TLv PID \/ shadow_clear (the_patch amr TLv PID) = true)
    as Hone.
  { intros TLv PID.
    destruct (FreeMemory_release_spec lv Sib FaSib amr TLv PID) as [Hy Hn]. fold a in Hy, Hn.
    unfold the_patch.
    destruct (released_dec lv Sib FaSib amr TLv PID) as [Hr|Hr].
    - rewrite (Hy Hr). split; [by left|]. intros _.
      destruct (get_patch amr TLv PID); simpl; [apply free_patch_clear | done].
    - rewrite (Hn Hr). tauto. }
  split; intros H TLv PID HT HPID; apply Hone; by apply H.
Qed.

(** ** Records that the diagnostic build refuses *)

Lemma find_index_none (k : Z) (a : list Z) (i0 : Z) : k ∉ a -> find_index k a i0 = -1.
Proof.
  revert i0. induction a as [|x a IH]; intros i0 Hk; [done|]. simpl.
  destruct (Z.eqb_spec x k) as [->|Hx]; [by destruct Hk; apply list_elem_of_here|].
  apply IH. intros Hin. apply Hk. by apply list_elem_of_further.
Qed.

Section RecordsRefused.

Variable HILBERT : bool.
Variables MAX_LEVEL MPI_NRank MPI_Rank : nat.
Variable PS1 : Z.
Variable LB_Corner2Index : nat -> list Z -> Z.
Variable LB_Index2Rank : nat -> Z -> Z.
Variable Par_PredictPos : AMR_t -> Z -> real * real * real -> real -> real * real * real.
Variable Par_LB_CollectParticleFromRealPatch :
  nat -> Z -> list Z -> list Z -> Z -> list Z -> list Z -> bool -> real -> AMR_t -> AMR_t.
Variable Par_LB_SendParticleData : nat -> SendBuf_t -> bool -> RecvBuf_t.
Variable MPI_Reduce_SUM : nat -> Z -> Z.

Local Abbreviation Collect_debug :=
  (Par_LB_CollectParticle2OneLevel true HILBERT MAX_LEVEL MPI_NRank MPI_Rank PS1
     LB_Corner2Index LB_Index2Rank Par_PredictPos Par_LB_CollectParticleFromRealPatch
     Par_LB_SendParticleData MPI_Reduce_SUM).
Local Abbreviation received :=
  (received_records true HILBERT MAX_LEVEL MPI_NRank PS1 LB_Corner2Index
     LB_Index2Rank Par_PredictPos Par_LB_SendParticleData).

(** A call of the diagnostic build below the maximum level stops when steps
    3 and 4 stop on what the rank receives. *)
Lemma Collect_debug_stops_in_store (FaLv : nat) (PredictPos : bool) (TargetTime : real)
    (Sib FaSib JustCountNPar : bool) (amr : AMR_t) :
  (FaLv < MAX_LEVEL)%nat ->
  stops (store_received true FaLv PredictPos JustCountNPar
           (received amr FaLv PredictPos TargetTime JustCountNPar) amr) ->
  stops (Collect_debug FaLv PredictPos TargetTime Sib FaSib JustCountNPar amr).
Proof.
  intros Hlv Hstop. unfold Par_LB_CollectParticle2OneLevel.
  destruct (Nat.ltb_spec MAX_LEVEL FaLv) as [|_]; [lia|].
  apply stops_bind_r. intros _. apply stops_bind_r. intros _.
  destruct (Nat.eqb_spec FaLv MAX_LEVEL) as [|_]; [lia|].
  unfold received_records in Hstop.
  destruct (prepare_send _ _ _ _ _ _ _ _ _ _ _ _ _) as [send|msg s]; [|by eexists _, _].
  cbn [bind]. by apply stops_bind_l.
Qed.

(** X15. In the diagnostic build a call that collects stops when a record
    that the rank receives brings no particle, or a negative number of
    them. *)
Theorem Collect_rejects_empty_record (FaLv : nat) (PredictPos : bool) (TargetTime : real)
    (Sib FaSib : bool) (amr : AMR_t) (t : nat) :
  (FaLv < MAX_LEVEL)%nat ->
  (t < NRecvPatchTotal (received amr FaLv PredictPos TargetTime false))%nat ->
  nget 0 (RecvBuf_NParEachPatch (received amr FaLv PredictPos TargetTime false)) t <= 0 ->
  stops (Collect_debug FaLv PredictPos TargetTime Sib FaSib false amr).
Proof.
  intros Hlv Ht Hcnt. apply Collect_debug_stops_in_store; [done|].
  unfold store_received. apply stops_bind_r. intros st2. apply stops_bind_r. intros st2'.
  apply stops_bind_l. apply (for_loopE_stops _ _ _ t); [lia|].
  intros st. unfold store_body. apply stops_check; [done|]. left. by apply Z.leb_le.
Qed.

(** X16. In the diagnostic build a call stops when the rank receives a
    record whose key is the key of none of its real patches of the level,
    as the sorted list of their keys has them. *)
Theorem Collect_rejects_unknown_key (FaLv : nat) (PredictPos : bool) (TargetTime : real)
    (Sib FaSib JustCountNPar : bool) (amr : AMR_t) (i : nat) :
  (FaLv < MAX_LEVEL)%nat ->
  length (RecvBuf_LBIdxEachPatch (received amr FaLv PredictPos TargetTime JustCountNPar))
  = NRecvPatchTotal (received amr FaLv PredictPos TargetTime JustCountNPar) ->
  (i < NRecvPatchTotal (received amr FaLv PredictPos TargetTime JustCountNPar))%nat ->
  nget 0 (RecvBuf_LBIdxEachPatch (received amr FaLv PredictPos TargetTime JustCountNPar)) i
  ∉ take (NReal amr FaLv) (nget [] (IdxList_Real amr) FaLv) ->
  stops (Collect_debug FaLv PredictPos TargetTime Sib FaSib JustCountNPar amr).
Proof.
  intros Hlv Hlen Hi Hkey. apply Collect_debug_stops_in_store; [done|].
  set (recv := received amr FaLv PredictPos TargetTime JustCountNPar) in *.
  unfold store_received. apply stops_bind_l.
  destruct (Mis_Heapsort_spec (NRecvPatchTotal recv) (RecvBuf_LBIdxEachPatch recv) Hlen)
    as (sigma & Hperm & _ & Hsorted).
  assert (i ∈ sigma) as [t Ht]%list_elem_of_lookup_1.
  { rewrite Hperm. apply elem_of_seq. lia. }
  assert (t < NRecvPatchTotal recv)%nat as HtN.
  { apply lookup_lt_Some in Ht. by rewrite Hperm, length_seq in Ht. }
  apply (for_loopE_stops _ _ _ t); [lia|].
  intros st. unfold accumulate_body. apply stops_check; [done|]. left.
  rewrite (Mis_Matching_int_lookup _ _ _ _ t (nget 0 (RecvBuf_LBIdxEachPatch recv) i));
    [|done|].
  - rewrite find_index_none by done. done.
  - rewrite Hsorted, list_lookup_fmap, Ht. done.
Qed.

End RecordsRefused.

(** ** The key on the generic path *)

(** X5. On the generic path the key at FaLv of a patch whose corner has no
    negative coordinate is the key of the corner of the patch of level FaLv
    that encloses it: each coordinate is rounded down to a multiple of the
    width of the patches of that level. *)
Theorem Father_LB_Idx_generic (PS1 : Z) (LB_Corner2Index : nat -> list Z -> Z) (amr : AMR_t)
    (FaLv lv PID : nat) :
  0 < PS1 * nget 0 (scale amr) FaLv ->
  (forall d, (d < 3)%nat -> 0 <= nget 0 (corner (the_patch amr lv PID)) d) ->
  Father_LB_Idx false PS1 LB_Corner2Index amr FaLv lv PID
  = LB_Corner2Index FaLv
      ((fun d => PS1 * nget 0 (scale amr) FaLv
                 * (nget 0 (corner (the_patch amr lv PID)) d / (PS1 * nget 0 (scale amr) FaLv)))
         <$> seq 0 3).
Proof.
  intros Hs Hcr. unfold Father_LB_Idx. cbv zeta. f_equal.
  apply list_fmap_ext. intros j d Hd. apply lookup_seq in Hd as [-> Hd]. simpl.
  set (c := nget 0 (corner (the_patch amr lv PID)) j).
  set (s := PS1 * nget 0 (scale amr) FaLv) in *.
  rewrite Z.rem_mod_nonneg by (try lia; apply Hcr; lia).
  pose proof (Z.div_mod c s ltac:(lia)). lia.
Qed.

(** ** The particles in the shadow copy, when all ranks call *)

Lemma fmap_seq_take {A B} (h : option A -> B) (l : list A) (t : nat) :
  (t <= length l)%nat ->
  (fun i => h (l !! i)) <$> seq 0 t = (fun x => h (Some x)) <$> take t l.
Proof.
  intros Ht. apply list_eq. intros i. rewrite !list_lookup_fmap.
  destruct (decide (i < t)%nat) as [Hi|Hi].
  - rewrite lookup_seq_lt, lookup_take_lt by done. simpl.
    destruct (lookup_lt_is_Some_2 l i ltac:(lia)) as [x ->]. done.
  - rewrite lookup_seq_ge, lookup_take_ge by lia. done.
Qed.

Section AllRankContents.

Variables DEBUG_PARTICLE HILBERT : bool.
Variable MAX_LEVEL : nat.
Variable PS1 : Z.
Variable LB_Corner2Index : nat -> list Z -> Z.
Variable LB_Index2Rank : nat -> Z -> Z.
Variable Par_PredictPos : AMR_t -> Z -> real * real * real -> real -> real * real * real.
Variable Par_LB_CollectParticleFromRealPatch :
  nat -> nat -> Z -> list Z -> list Z -> Z -> list Z -> list Z -> bool -> real ->
  AMR_t -> AMR_t.
Variable FaLv : nat.
Variable PredictPos : bool.
Variable TargetTime : real.
Variables SibBufPatch FaSibBufPatch : bool.
Variable ranks : list AMR_t.

Local Abbreviation Collect_ :=
  (Collect_AllRank DEBUG_PARTICLE HILBERT MAX_LEVEL PS1 LB_Corner2Index LB_Index2Rank
     Par_PredictPos Par_LB_CollectParticleFromRealPatch FaLv PredictPos TargetTime
     SibBufPatch FaSibBufPatch false ranks).
Local Abbreviation states_ :=
  (Collect_AllRank_states DEBUG_PARTICLE HILBERT MAX_LEVEL PS1 LB_Corner2Index LB_Index2Rank
     Par_PredictPos Par_LB_CollectParticleFromRealPatch FaLv PredictPos TargetTime
     SibBufPatch FaSibBufPatch false ranks).
Local Abbreviation recv_ :=
  (recv_AllRank DEBUG_PARTICLE HILBERT MAX_LEVEL PS1 LB_Corner2Index LB_Index2Rank
     Par_PredictPos FaLv PredictPos TargetTime false ranks).
Local Abbreviation records_ :=
  (records_to HILBERT MAX_LEVEL PS1 LB_Corner2Index LB_Index2Rank FaLv ranks).
Local Abbreviation sent_before_ r :=
  (sent_before HILBERT PS1 LB_Corner2Index FaLv (records_ r)).

Hypothesis Hranks : ranks_ok HILBERT MAX_LEVEL PS1 LB_Corner2Index LB_Index2Rank FaLv ranks.
Hypothesis Hsends :
  forall s amr, ranks !! s = Some amr ->
    exists sb, prepare_send DEBUG_PARTICLE HILBERT MAX_LEVEL (length ranks) PS1 LB_Corner2Index
                 LB_Index2Rank Par_PredictPos amr FaLv PredictPos TargetTime false = Ok sb.

Lemma received_before_sent (r : nat) (k : Z) (t : nat) :
  (r < length ranks)%nat -> (t <= length (records_ r))%nat ->
  received_before (recv_ r) k t = sent_before_ r k t.
Proof.
  intros Hr Ht.
  destruct (recv_AllRank_records DEBUG_PARTICLE HILBERT MAX_LEVEL PS1 LB_Corner2Index
              LB_Index2Rank Par_PredictPos FaLv PredictPos TargetTime ranks Hranks Hsends r Hr)
    as (Hc & Hk & _ & _).
  unfold received_before, sent_before. f_equal.
  rewrite <- (fmap_seq_take
                (fun o => match o with
                          | Some ax => if key_of HILBERT PS1 LB_Corner2Index ax.1 FaLv ax.2 =? k
                                       then NPar (the_patch ax.1 ax.2.1 ax.2.2) else 0
                          | None => 0
                          end) (records_ r) t Ht).
  apply list_fmap_ext. intros j i Hi. apply lookup_seq in Hi as [-> Hi]. cbn beta.
  rewrite Nat.add_0_l. unfold nget. rewrite Hc, Hk, !list_lookup_fmap.
  destruct (lookup_lt_is_Some_2 (records_ r) j ltac:(lia)) as [ax ->]. done.
Qed.

(** What a rank receives is what the ranks sent: the shadow copy that holds
    the records received holds the particles of the patches they come
    from. *)
Lemma shadow_holds_records (r : nat) (amr : AMR_t) (p0 p' : patch_t) :
  (r < length ranks)%nat ->
  shadow_holds amr (recv_ r) (LB_Idx p0) (NPar p0) (ParList p0) p' ->
  shadow_holds_sent HILBERT PS1 LB_Corner2Index Par_PredictPos FaLv PredictPos TargetTime
    (records_ r) amr p0 p'.
Proof.
  intros Hr [Hrec Hown].
  destruct (recv_AllRank_records DEBUG_PARTICLE HILBERT MAX_LEVEL PS1 LB_Corner2Index
              LB_Index2Rank Par_PredictPos FaLv PredictPos TargetTime ranks Hranks Hsends r Hr)
    as (Hc & Hk & Hdat & Hn).
  split.
  - intros t a x j v Hax Hkey Hj Hv.
    pose proof (lookup_lt_Some _ _ _ Hax) as Ht.
    assert (nget 0 (RecvBuf_NParEachPatch (recv_ r)) t = NPar (the_patch a x.1 x.2)) as Hcnt.
    { unfold nget. by rewrite Hc, list_lookup_fmap, Hax. }
    assert (nget 0 (RecvBuf_LBIdxEachPatch (recv_ r)) t
            = key_of HILBERT PS1 LB_Corner2Index a FaLv x) as Hkey'.
    { unfold nget. by rewrite Hk, list_lookup_fmap, Hax. }
    rewrite <- (received_before_sent r (LB_Idx p0) t Hr ltac:(lia)).
    rewrite (Hrec t j v); [|by rewrite Hn | congruence | by rewrite Hcnt | done].
    rewrite (data_offset_records DEBUG_PARTICLE HILBERT MAX_LEVEL PS1 LB_Corner2Index
               LB_Index2Rank Par_PredictPos FaLv PredictPos TargetTime ranks Hranks Hsends
               r t Hr ltac:(lia)), Hdat.
    unfold nget at 1 3. rewrite <- !Nat.add_assoc.
    rewrite (lookup_concat_blocks _ t _ (par_data Par_PredictPos a PredictPos TargetTime x)).
    + unfold par_data. by rewrite par_block_lookup.
    + by rewrite list_lookup_fmap, Hax.
    + unfold par_data. rewrite length_par_block. unfold NParVar in *. lia.
  - intros j v Hj Hv.
    rewrite <- (received_before_sent r (LB_Idx p0) (length (records_ r)) Hr ltac:(lia)).
    rewrite <- Hn. by apply Hown.
Qed.

End AllRankContents.

Section AllRankContentsTheorem.

Variables DEBUG_PARTICLE HILBERT : bool.
Variable MAX_LEVEL : nat.
Variable PS1 : Z.
Variable LB_Corner2Index : nat -> list Z -> Z.
Variable LB_Index2Rank : nat -> Z -> Z.
Variable Par_PredictPos : AMR_t -> Z -> real * real * real -> real -> real * real * real.
Variable Par_LB_CollectParticleFromRealPatch :
  nat -> nat -> Z -> list Z -> list Z -> Z -> list Z -> list Z -> bool -> real ->
  AMR_t -> AMR_t.
Variable FaLv : nat.
Variable ranks : list AMR_t.

Local Abbreviation Collect_ :=
  (Collect_AllRank DEBUG_PARTICLE HILBERT MAX_LEVEL PS1 LB_Corner2Index LB_Index2Rank
     Par_PredictPos Par_LB_CollectParticleFromRealPatch FaLv).
Local Abbreviation states_ :=
  (Collect_AllRank_states DEBUG_PARTICLE HILBERT MAX_LEVEL PS1 LB_Corner2Index LB_Index2Rank
     Par_PredictPos Par_LB_CollectParticleFromRealPatch FaLv).
Local Abbreviation records_ :=
  (records_to HILBERT MAX_LEVEL PS1 LB_Corner2Index LB_Index2Rank FaLv ranks).


End AllRankContentsTheorem.

(** ** The further theorems at the example *)

Lemma Example_dest (x : nat * nat) :
  x ∈ finer_patches Example.MAX_LEVEL Example.amr0 0 ->
  NPar (the_patch Example.amr0 x.1 x.2) <> 0 ->
  0 <= TRank_of true Example.PS1 Example.LB_Corner2Index Example.LB_Index2Rank Example.amr0 0 x
  < Z.of_nat 2.
Proof.
  intros Hx Hnz.
  by apply (dest_valid true Example.MAX_LEVEL Example.PS1 Example.LB_Corner2Index
              Example.LB_Index2Rank 0 Example.ranks Example_ranks_ok 0 Example.amr0 x).
Qed.

Lemma Example_leaves (x : nat * nat) :
  x ∈ finer_patches Example.MAX_LEVEL Example.amr0 0 ->
  NPar (the_patch Example.amr0 x.1 x.2) <> 0 ->
  son (the_patch Example.amr0 x.1 x.2) = -1.
Proof.
  intros Hx Hnz.
  by apply (ck_leaf _ _ _ _ _ _ _ _ _ Example_checks_ok 0 Example.amr0 x).
Qed.

Lemma Example_counts (x : nat * nat) :
  x ∈ finer_patches Example.MAX_LEVEL Example.amr0 0 ->
  0 <= NPar (the_patch Example.amr0 x.1 x.2).
Proof.
  intros Hx. by apply (go_NPar _ _ _ _ _ _ _ Example_ranks_ok 0 Example.amr0 x).
Qed.

Lemma Example_shift : true = true -> (3 * (Example.MAX_LEVEL - 0) <= 30)%nat.
Proof. intros _. unfold Example.MAX_LEVEL. lia. Qed.



Lemma Collect_builds_agree_example :
  (true = true -> (3 * (Example.MAX_LEVEL - 0) <= 30)%nat) /\
  Example.Collect_rank true 0 true true false 0 Example.amr0 = Ok Example.collected /\
  Par_LB_CollectParticle2OneLevel false true Example.MAX_LEVEL 2 0 Example.PS1
    Example.LB_Corner2Index Example.LB_Index2Rank Example.Par_PredictPos
    (Example.CollectFromReal 0) (Example.Send true 0 false 0) (Example.Reduce true 0 false)
    0 false 0%Q true true false Example.amr0
  = Ok Example.collected.
Proof.
  assert (Par_LB_CollectParticle2OneLevel true true Example.MAX_LEVEL 2 0 Example.PS1
            Example.LB_Corner2Index Example.LB_Index2Rank Example.Par_PredictPos
            (Example.CollectFromReal 0) (Example.Send true 0 false 0)
            (Example.Reduce true 0 false) 0 false 0%Q true true false Example.amr0
          = Ok Example.collected) as Hrun by (vm_compute; reflexivity).
  split; [exact Example_shift|]. split; [exact Hrun|].
  exact (Collect_builds_agree true Example.MAX_LEVEL 2 0 Example.PS1 Example.LB_Corner2Index
           Example.LB_Index2Rank Example.Par_PredictPos (Example.CollectFromReal 0)
           (Example.Send true 0 false 0) (Example.Reduce true 0 false)
           0 false 0%Q true true false Example.amr0 Example.collected Example_shift Hrun).
Defined.

Lemma Faults_quiet_empty (x : nat * nat) :
  x ∈ finer_patches Example.MAX_LEVEL Faults.quiet 0 ->
  NPar (the_patch Faults.quiet x.1 x.2) = 0.
Proof.
  change (finer_patches Example.MAX_LEVEL Faults.quiet 0) with [(1, 0)%nat; (1, 1)%nat].
  intros Hx. apply elem_of_cons in Hx as [->|Hx]; [reflexivity|].
  apply elem_of_cons in Hx as [->|Hx]; [reflexivity|]. by apply elem_of_nil in Hx.
Qed.

Lemma prepare_send_nothing_example :
  (forall x, x ∈ finer_patches Example.MAX_LEVEL Faults.quiet 0 ->
             NPar (the_patch Faults.quiet x.1 x.2) = 0) /\
  prepare_send true true Example.MAX_LEVEL 2 Example.PS1 Example.LB_Corner2Index
    Example.LB_Index2Rank Example.Par_PredictPos Faults.quiet 0 false 0%Q false
  = Ok (mk_SendBuf [0; 0] [] [] []).
Proof.
  split; [apply Faults_quiet_empty|].
  apply (prepare_send_nothing true true Example.MAX_LEVEL 2 Example.PS1
           Example.LB_Corner2Index Example.LB_Index2Rank Example.Par_PredictPos Faults.quiet 0
           false 0%Q false Faults_quiet_empty).
Defined.

Lemma Collect_rejects_sender_example :
  (0 < 1 <= Example.MAX_LEVEL)%nat /\ (0 < NReal Faults.nonleaf 1)%nat /\
  NPar (the_patch Faults.nonleaf 1 0) <> 0 /\ son (the_patch Faults.nonleaf 1 0) <> -1 /\
  exists msg, Faults.Collect_by (Example.Send true 0 false 0) false false Faults.nonleaf
              = Aux_Error msg Faults.nonleaf.
Proof.
  split; [unfold Example.MAX_LEVEL; lia|]. split; [vm_compute; lia|].
  split; [vm_compute; discriminate|]. split; [vm_compute; discriminate|].
  apply (Collect_rejects_sender true Example.MAX_LEVEL 2 0 Example.PS1 Example.LB_Corner2Index
           Example.LB_Index2Rank Example.Par_PredictPos (Example.CollectFromReal 0)
           (Example.Send true 0 false 0) (Example.Reduce true 0 false)
           0 1 0 false 0%Q false false false Faults.nonleaf).
  - unfold Example.MAX_LEVEL. lia.
  - vm_compute. lia.
  - left. split; vm_compute; discriminate.
Defined.

Lemma Collect_rejects_negative_time_example :
  (0 < 1 <= Example.MAX_LEVEL)%nat /\ (1 < NReal Faults.early 1)%nat /\
  (0 < Z.to_nat (NPar (the_patch Faults.early 1 1)))%nat /\
  real_lt (zget 0%Q (Time (Par Faults.early)) (nget 0 (ParList (the_patch Faults.early 1 1)) 0))
          0%Q = true /\
  exists msg, Faults.Collect_by (Example.Send true 0 false 0) true false Faults.early
              = Aux_Error msg Faults.early.
Proof.
  split; [unfold Example.MAX_LEVEL; lia|]. split; [vm_compute; lia|].
  split; [vm_compute; lia|]. split; [vm_compute; reflexivity|].
  apply (Collect_rejects_negative_time true Example.MAX_LEVEL 2 0 Example.PS1
           Example.LB_Corner2Index Example.LB_Index2Rank Example.Par_PredictPos
           (Example.CollectFromReal 0) (Example.Send true 0 false 0)
           (Example.Reduce true 0 false) 0 1 1 0 0%Q false false Faults.early).
  - unfold Example.MAX_LEVEL. lia.
  - vm_compute. lia.
  - vm_compute. lia.
  - vm_compute. reflexivity.
Defined.


Lemma Example_table_real : table_lists_real 0 Example.amr0.
Proof.
  intros j P. change (nget [] (IdxList_Real_IdxTable Example.amr0) 0) with [0].
  destruct j as [|j]; [|done]. intros [= <-]. vm_compute. reflexivity.
Qed.

Lemma Collect_only_shadows_written_example :
  writes_buffers_only (Example.CollectFromReal 0) /\
  table_lists_real 0 Example.amr0 /\
  post (fun amr' =>
          only_shadows_of (may_write 0 true true false Example.amr0) Example.amr0 amr' /\
          forall l P, (0 < l)%nat -> get_patch amr' l P = get_patch Example.amr0 l P)
       (fun s =>
          only_shadows_of (may_write 0 true true false Example.amr0) Example.amr0 s /\
          forall l P, (0 < l)%nat -> get_patch s l P = get_patch Example.amr0 l P)
       (Example.Collect_rank true 0 true true false 0 Example.amr0).
Proof.
  split; [apply CollectFromReal_buffers_only|]. split; [apply Example_table_real|].
  apply Collect_only_shadows_written.
  - apply CollectFromReal_buffers_only.
  - apply Example_table_real.
Defined.

Lemma Collect_FreeMemory_round_trip_example :
  table_lists_real 0 Example.amr0 /\
  released_clear 0 true true Example.amr0 /\
  exists amr',
    Example.Collect_rank true 0 false false false 0 Example.amr0 = Ok amr' /\
    Par_LB_CollectParticle2OneLevel_FreeMemory false 0 true true amr' = Ok Example.amr0 /\
    state_of (Par_LB_CollectParticle2OneLevel_FreeMemory true 0 true true amr')
    = Example.amr0.
Proof.
  assert (released_clear 0 true true Example.amr0) as Hclear.
  { intros l P p _. apply Example_clear. }
  split; [apply Example_table_real|]. split; [exact Hclear|].
  unfold Example.Collect_rank.
  match goal with
  | |- exists amr', ?run = Ok amr' /\ _ => assert (run = Ok (state_of run)) as Hcall
  end.
  { vm_compute. reflexivity. }
  eexists. split; [exact Hcall|].
  exact (Collect_FreeMemory_round_trip _ _ _ _ _ _ _ _ _ _ _ _ _ _ _ _ _ _ _ _
           Example_table_real Hclear Hcall).
Defined.

Lemma Collect_shadow_allocated_example :
  level_ok 0 Example.amr0 /\
  recv_ok 0 Example.amr0 (Example.received true 0 false 0 Example.amr0) /\
  post (fun amr' =>
          forall P p0, (P < NReal Example.amr0 0)%nat -> get_patch Example.amr0 0 P = Some p0 ->
            son p0 <> -1 ->
            exists p', get_patch amr' 0 P = Some p' /\
              (0 < NPar p0 + received_count (Example.received true 0 false 0 Example.amr0)
                               (LB_Idx p0) ->
               allocated (Z.to_nat (NPar p0 + received_count
                                                (Example.received true 0 false 0 Example.amr0)
                                                (LB_Idx p0))) p') /\
              (NPar p0 + received_count (Example.received true 0 false 0 Example.amr0)
                           (LB_Idx p0) = 0 ->
               forall v, (v < NParVar)%nat -> not_null p' v = false))
       (fun _ => true = true)
       (Example.Collect_rank true 0 true true false 0 Example.amr0).
Proof.
  split; [apply Example_level_ok|]. split; [apply Example_recv_ok|].
  apply Collect_shadow_allocated.
  - apply CollectFromReal_buffers_only.
  - unfold Example.MAX_LEVEL. lia.
  - apply Example_level_ok.
  - apply Example_recv_ok.
Defined.

Lemma Collect_shadow_contents_example :
  level_ok 0 Example.amr0 /\
  recv_ok 0 Example.amr0 (Example.received true 0 false 0 Example.amr0) /\
  post (fun amr' =>
          forall P p0, (P < NReal Example.amr0 0)%nat -> get_patch Example.amr0 0 P = Some p0 ->
            son p0 <> -1 ->
            exists p', get_patch amr' 0 P = Some p' /\
              shadow_holds Example.amr0 (Example.received true 0 false 0 Example.amr0)
                (LB_Idx p0) (NPar p0) (ParList p0) p')
       (fun _ => true = true)
       (Example.Collect_rank true 0 true true false 0 Example.amr0).
Proof.
  split; [apply Example_level_ok|]. split; [apply Example_recv_ok|].
  apply Collect_shadow_contents.
  - apply CollectFromReal_buffers_only.
  - unfold Example.MAX_LEVEL. lia.
  - apply Example_level_ok.
  - apply Example_recv_ok.
Defined.

Lemma Collect_count_only_counts_example :
  level_ok 0 Example.amr0 /\
  recv_ok 0 Example.amr0 (Example.received true 0 true 0 Example.amr0) /\
  post (fun amr' =>
          forall P p0, (P < NReal Example.amr0 0)%nat -> get_patch Example.amr0 0 P = Some p0 ->
            exists p', get_patch amr' 0 P = Some p' /\
              (son p0 <> -1 ->
               NPar_Copy p'
               = NPar p0 + received_count (Example.received true 0 true 0 Example.amr0)
                             (LB_Idx p0)) /\
              (son p0 = -1 -> NPar_Copy p' = -1) /\
              ParMassPos_Copy p' = ParMassPos_Copy p0)
       (fun _ => true = true)
       (Example.Collect_rank true 0 false false true 0 Example.amr0).
Proof.
  split; [apply Example_level_ok|]. split; [apply Example_recv_ok|].
  apply Collect_count_only_counts.
  - apply CollectFromReal_buffers_only.
  - unfold Example.MAX_LEVEL. lia.
  - apply Example_level_ok.
  - apply Example_recv_ok.
Defined.

Lemma Collect_rejects_empty_record_example :
  (0 < Example.MAX_LEVEL)%nat /\
  (0 < NRecvPatchTotal (Faults.received_by Faults.Send_empty Example.amr0))%nat /\
  nget 0 (RecvBuf_NParEachPatch (Faults.received_by Faults.Send_empty Example.amr0)) 0 <= 0 /\
  stops (Faults.Collect_by Faults.Send_empty false false Example.amr0).
Proof.
  split; [unfold Example.MAX_LEVEL; lia|]. split; [vm_compute; lia|].
  split; [vm_compute; discriminate|].
  apply (Collect_rejects_empty_record true Example.MAX_LEVEL 2 0 Example.PS1
           Example.LB_Corner2Index Example.LB_Index2Rank Example.Par_PredictPos
           (Example.CollectFromReal 0) Faults.Send_empty (Example.Reduce true 0 false)
           0 false 0%Q false false Example.amr0 0).
  - unfold Example.MAX_LEVEL. lia.
  - vm_compute. lia.
  - vm_compute. discriminate.
Defined.

Lemma Collect_rejects_unknown_key_example :
  (0 < Example.MAX_LEVEL)%nat /\
  length (RecvBuf_LBIdxEachPatch (Faults.received_by Faults.Send_unknown Example.amr0))
  = NRecvPatchTotal (Faults.received_by Faults.Send_unknown Example.amr0) /\
  (0 < NRecvPatchTotal (Faults.received_by Faults.Send_unknown Example.amr0))%nat /\
  (nget 0 (RecvBuf_LBIdxEachPatch (Faults.received_by Faults.Send_unknown Example.amr0)) 0
   ∉ take (NReal Example.amr0 0) (nget [] (IdxList_Real Example.amr0) 0)) /\
  stops (Faults.Collect_by Faults.Send_unknown false false Example.amr0).
Proof.
  assert (nget 0 (RecvBuf_LBIdxEachPatch
                    (Faults.received_by Faults.Send_unknown Example.amr0)) 0
          ∉ take (NReal Example.amr0 0) (nget [] (IdxList_Real Example.amr0) 0)) as Hkey.
  { change (7 ∉ [0]). intros H. apply elem_of_cons in H as [H|H]; [discriminate|].
    by apply elem_of_nil in H. }
  split; [unfold Example.MAX_LEVEL; lia|]. split; [reflexivity|].
  split; [vm_compute; lia|]. split; [exact Hkey|].
  apply (Collect_rejects_unknown_key true Example.MAX_LEVEL 2 0 Example.PS1
           Example.LB_Corner2Index Example.LB_Index2Rank Example.Par_PredictPos
           (Example.CollectFromReal 0) Faults.Send_unknown (Example.Reduce true 0 false)
           0 false 0%Q false false false Example.amr0 0).
  - unfold Example.MAX_LEVEL. lia.
  - reflexivity.
  - vm_compute. lia.
  - exact Hkey.
Defined.

Lemma Father_LB_Idx_generic_example :
  0 < Example.PS1 * nget 0 (scale Example.amr1) 0 /\
  (forall d, (d < 3)%nat -> 0 <= nget 0 (corner (the_patch Example.amr1 1 1)) d) /\
  Father_LB_Idx false Example.PS1 Example.LB_Corner2Index Example.amr1 0 1 1
  = Example.LB_Corner2Index 0 [0; 0; 0].
Proof.
  assert (forall d, (d < 3)%nat -> 0 <= nget 0 (corner (the_patch Example.amr1 1 1)) d)
    as Hcr.
  { intros d Hd. destruct d as [|[|[|d]]]; [vm_compute; discriminate.. | lia]. }
  split; [vm_compute; reflexivity|]. split; [exact Hcr|].
  apply (Father_LB_Idx_generic Example.PS1 Example.LB_Corner2Index Example.amr1 0 1 1);
    [vm_compute; reflexivity | exact Hcr].
Defined.

